(** * Hoedown: the Markdown parser core of [src/markdown.c]

    A shallow embedding of the reference table, the inline parser, the
    block parser and the [hoedown_markdown_render] driver, followed by
    the properties established about them.

    Conventions of the embedding.
    - A byte ([uint8_t]) is an [ascii]; a [hoedown_buffer] is the list of
      its [size] valid bytes.
    - A [uint8_t *] into a buffer is a [ptr]: the underlying bytes and an
      index, so that [data[-1]], [data - 2] and reads past [size] see the
      bytes the C code sees.  Reads past the end of the underlying bytes
      yield NUL in the model (C leaves them unspecified).
    - [size_t] values are [nat], but where the code subtracts from one
      without a guard ([ob->size -= rewind]): there the result is reduced
      modulo [2^64].  The 32-bit [unsigned int] hash is a [Z] reduced
      modulo [2^32] after every operation.
    - Allocation is assumed to succeed ([calloc], [hoedown_buffer_new]). *)

From Stdlib Require Import Ascii String ZArith Lia Bool Arith List.
Import ListNotations.

Set Implicit Arguments.

(* ================================================================== *)
(** ** Bytes, buffers and pointers *)

Definition ceq (a b : ascii) : bool := Ascii.eqb a b.
Arguments ceq (_ _)%_char.

Definition code (c : ascii) : nat := nat_of_ascii c.

(** Named bytes that have no printable literal. *)
Definition NUL : ascii := "000"%char.
Definition TAB : ascii := "009"%char.
Definition NL : ascii := "010"%char.
Definition CR : ascii := "013"%char.
Definition SP : ascii := " "%char.
Definition DQUOTE : ascii := "034"%char.
Definition SQUOTE : ascii := "039"%char.
Definition BSLASH : ascii := "092"%char.
Definition BTICK : ascii := "096"%char.

(** [hoedown_buffer]: the [size] valid bytes of [data]. *)
Definition hoedown_buffer := list ascii.

(** A [uint8_t *]: the bytes of the object pointed into and an index. *)
Record ptr := mkptr { mem : list ascii; idx : nat }.

(** [data[i]] *)
Definition rd (data : ptr) (i : nat) : ascii := nth (idx data + i) (mem data) NUL.
(** [data[-k]] *)
Definition rdb (data : ptr) (k : nat) : ascii := nth (idx data - k) (mem data) NUL.
(** [data + k] and [data - k] *)
Definition padd (data : ptr) (k : nat) : ptr := mkptr (mem data) (idx data + k).
Definition psub (data : ptr) (k : nat) : ptr := mkptr (mem data) (idx data - k).
(** The [n] bytes [data[0] .. data[n-1]], as a buffer view [{ data, n, 0, 0 }]. *)
Definition bytes (data : ptr) (n : nat) : hoedown_buffer :=
  firstn n (skipn (idx data) (mem data)).
(** [b->data] *)
Definition buf_data (b : hoedown_buffer) : ptr := mkptr b 0.

(** [hoedown_buffer_put], [hoedown_buffer_putc] *)
Definition hoedown_buffer_put (ob : hoedown_buffer) (data : ptr) (n : nat) : hoedown_buffer :=
  ob ++ bytes data n.
Definition hoedown_buffer_putc (ob : hoedown_buffer) (c : ascii) : hoedown_buffer :=
  ob ++ [c].

(* ================================================================== *)
(** ** <ctype.h> and <string.h> in the "C" locale *)

Definition isupper (c : ascii) : bool := (65 <=? code c) && (code c <=? 90).
Definition islower (c : ascii) : bool := (97 <=? code c) && (code c <=? 122).
Definition isdigit (c : ascii) : bool := (48 <=? code c) && (code c <=? 57).
Definition isalnum (c : ascii) : bool := isdigit c || isupper c || islower c.
Definition tolower (c : ascii) : ascii :=
  if isupper c then ascii_of_nat (code c + 32) else c.

(** [strchr(s, c) != NULL]: the search includes the terminating NUL of
    [s], so [strchr(s, 0)] is never NULL. *)
Definition strchr (s : list ascii) (c : ascii) : bool :=
  existsb (ceq c) s || ceq c NUL.

(** [_isspace] *)
Definition _isspace (c : ascii) : bool := ceq c " " || ceq c NL.

(* ================================================================== *)
(** ** Faults and the result monad *)

(** What keeps a call from returning: a NULL renderer callback invoked
    without a check, a [popbuf] on an empty pool (the unsigned top would
    wrap), a failed [assert], or the allowance of rounds of the model
    used up (the C code would not return either). *)
Inductive fault := NullCallback | PoolUnderflow | AssertFailed | OutOfFuel.

Inductive res (A : Type) : Type :=
| Ret (a : A)
| Fault (e : fault).
Arguments Ret {A} a.
Arguments Fault {A} e.

Definition bind {A B : Type} (m : res A) (k : A -> res B) : res B :=
  match m with
  | Ret a => k a
  | Fault e => Fault e
  end.

Notation "'let*' x ':=' m 'in' k" := (bind m (fun x => k))
  (at level 10, x pattern, m at level 100, k at level 200).

(* ================================================================== *)
(** ** Reference table *)

Definition REF_TABLE_SIZE : Z := 8.

(** Arithmetic of [unsigned int], and of [size_t]. *)
Definition u32 (x : Z) : Z := (x mod 2 ^ 32)%Z.
Definition size_t (x : Z) : Z := (x mod 2 ^ 64)%Z.

(** [struct link_ref]; [next] is the tail of the chain the entry is on.
    [link] and [title] are NULL after [calloc]. *)
Record link_ref := mk_link_ref {
  ref_id : Z;
  ref_link : option hoedown_buffer;
  ref_title : option hoedown_buffer
}.

(** One step of the loop of [hash_link_ref]:
    [hash = tolower(link_ref[i]) + (hash << 6) + (hash << 16) - hash]. *)
Definition hash_step (hash : Z) (c : ascii) : Z :=
  u32 (u32 (u32 (Z.of_nat (code (tolower c)) + u32 (Z.shiftl hash 6))
            + u32 (Z.shiftl hash 16))
       - hash).

Fixpoint hash_loop (link_ref : ptr) (i n : nat) (hash : Z) : Z :=
  match n with
  | 0 => hash
  | S n' => hash_loop link_ref (S i) n' (hash_step hash (rd link_ref i))
  end.

Definition hash_link_ref (link_ref : ptr) (length : nat) : Z :=
  hash_loop link_ref 0 length 0%Z.

(** [struct link_ref *refs[REF_TABLE_SIZE]]: bucket index to chain. *)
Definition ref_table := Z -> list link_ref.

Definition no_refs : ref_table := fun _ => [].

Definition set_bucket (references : ref_table) (k : Z) (chain : list link_ref) : ref_table :=
  fun j => if (j =? k)%Z then chain else references j.

(** [add_link_ref]: the new entry goes to the head of its chain. *)
Definition add_link_ref (references : ref_table) (name : ptr) (name_size : nat)
  : ref_table * link_ref :=
  let ref := mk_link_ref (hash_link_ref name name_size) None None in
  let k := (ref_id ref mod REF_TABLE_SIZE)%Z in
  (set_bucket references k (ref :: references k), ref).

(** The [while (ref != NULL)] loop of [find_link_ref]. *)
Fixpoint find_in_chain (ref : list link_ref) (hash : Z) : option link_ref :=
  match ref with
  | [] => None
  | r :: next => if (ref_id r =? hash)%Z then Some r else find_in_chain next hash
  end.

Definition find_link_ref (references : ref_table) (name : ptr) (length : nat)
  : option link_ref :=
  let hash := hash_link_ref name length in
  find_in_chain (references (hash mod REF_TABLE_SIZE)%Z) hash.

(** The tail of [is_ref]: [add_link_ref], then [ref->link] and
    [ref->title] are filled in on the entry just linked in. *)
Definition define_ref (references : ref_table) (name : ptr) (name_size : nat)
    (lnk : hoedown_buffer) (ttl : option hoedown_buffer) : ref_table :=
  let '(refs1, ref) := add_link_ref references name name_size in
  let k := (ref_id ref mod REF_TABLE_SIZE)%Z in
  set_bucket refs1 k (mk_link_ref (ref_id ref) (Some lnk) ttl :: tl (refs1 k)).

(** [struct footnote_ref].  The entries live in [footnotes_found]; the
    list of used footnotes points at them, so a pointer to an entry is
    its position in [footnotes_found]. *)
Record footnote_ref := mk_footnote_ref {
  fn_id : Z;
  is_used : bool;
  num : nat;
  contents : hoedown_buffer
}.

(** The loop of [find_footnote_ref], returning the position found. *)
Fixpoint find_footnote_from (items : list footnote_ref) (hash : Z) (k : nat) : option nat :=
  match items with
  | [] => None
  | r :: next => if (fn_id r =? hash)%Z then Some k else find_footnote_from next hash (S k)
  end.

Definition find_footnote_ref (list : list footnote_ref) (name : ptr) (length : nat)
  : option nat :=
  find_footnote_from list (hash_link_ref name length) 0.

(* ================================================================== *)
(** ** Scanning loops *)

(** [while (i < size && p(i)) i++;] *)
Fixpoint skip_loop (p : nat -> bool) (n i : nat) : nat :=
  match n with
  | 0 => i
  | S n' => if p i then skip_loop p n' (S i) else i
  end.

Definition skip_while (p : nat -> bool) (size i : nat) : nat :=
  skip_loop p (size - i) i.

(** [while (i > lo && p(i)) i--;] *)
Fixpoint back_loop (p : nat -> bool) (n i : nat) : nat :=
  match n with
  | 0 => i
  | S n' => if p i then back_loop p n' (i - 1) else i
  end.

Definition back_while (p : nat -> bool) (lo i : nat) : nat :=
  back_loop p (i - lo) i.

(** [for (end = beg + 1; end < size && data[end - 1] != '\n'; end++);] *)
Definition line_end (data : ptr) (size beg : nat) : nat :=
  skip_while (fun e => negb (ceq (rd data (e - 1)) NL)) size (beg + 1).

(* ================================================================== *)
(** ** Parser state *)

(** The extension bits tested by the parser; [ext_flags] is the set of
    the bits that are on. *)
Inductive hoedown_extensions :=
| HOEDOWN_EXT_NO_INTRA_EMPHASIS
| HOEDOWN_EXT_TABLES
| HOEDOWN_EXT_FENCED_CODE
| HOEDOWN_EXT_AUTOLINK
| HOEDOWN_EXT_STRIKETHROUGH
| HOEDOWN_EXT_UNDERLINE
| HOEDOWN_EXT_SPACE_HEADERS
| HOEDOWN_EXT_SUPERSCRIPT
| HOEDOWN_EXT_LAX_SPACING
| HOEDOWN_EXT_DISABLE_INDENTED_CODE
| HOEDOWN_EXT_HIGHLIGHT
| HOEDOWN_EXT_FOOTNOTES
| HOEDOWN_EXT_QUOTE.

Inductive hoedown_autolink :=
| HOEDOWN_AUTOLINK_NONE
| HOEDOWN_AUTOLINK_NORMAL
| HOEDOWN_AUTOLINK_EMAIL.

(** The list flags [HOEDOWN_LIST_ORDERED], [HOEDOWN_LI_BLOCK] and the
    internal [HOEDOWN_LI_END], as the set of bits of the [int]. *)
Record list_flags := mk_list_flags {
  LIST_ORDERED : bool;
  LI_BLOCK : bool;
  LI_END : bool
}.

(** The table-cell flags: the two alignment bits and the header bit. *)
Record table_flags := mk_table_flags {
  TABLE_ALIGN_L : bool;
  TABLE_ALIGN_R : bool;
  TABLE_HEADER : bool
}.

Inductive markdown_char_t :=
| MD_CHAR_NONE
| MD_CHAR_EMPHASIS
| MD_CHAR_CODESPAN
| MD_CHAR_LINEBREAK
| MD_CHAR_LINK
| MD_CHAR_LANGLE
| MD_CHAR_ESCAPE
| MD_CHAR_ENTITITY
| MD_CHAR_AUTOLINK_URL
| MD_CHAR_AUTOLINK_EMAIL
| MD_CHAR_AUTOLINK_WWW
| MD_CHAR_SUPERSCRIPT
| MD_CHAR_QUOTE.

Inductive buffer_type := BUFFER_BLOCK | BUFFER_SPAN.

(** The collaborators declared outside [markdown.c].
    - The autolink scanners [hoedown_autolink__www], [__email], [__url]
      (with the [flags] each call site passes): given the empty [link]
      buffer, [data], [offset] and [size], they return the length
      consumed, the rewind count and the bytes left in [link].
    - [hoedown_find_block_tag (str, len)]: the block tag named by the
      bytes, if any. *)
Class Externals := {
  hoedown_autolink__www : hoedown_buffer -> ptr -> nat -> nat -> nat * nat * hoedown_buffer;
  hoedown_autolink__email : hoedown_buffer -> ptr -> nat -> nat -> nat * nat * hoedown_buffer;
  hoedown_autolink__url : hoedown_buffer -> ptr -> nat -> nat -> nat * nat * hoedown_buffer;
  hoedown_find_block_tag : ptr -> nat -> option (list ascii)
}.

Section Parser.

(** The state behind the renderer's [opaque] pointer. *)
Variable O : Type.
Context {ext : Externals}.

(** A callback receives the output buffer and [opaque] and leaves both
    as it likes; an [int]-returning one also says whether it rendered. *)
Definition out_void : Type := hoedown_buffer * O.
Definition out_int : Type := bool * hoedown_buffer * O.

(** [hoedown_renderer] (a NULL callback is [None]; a NULL buffer
    argument is [None]).  Each field [cb_x] is the member [x]. *)
Record hoedown_renderer := mk_renderer {
  cb_blockcode : option (hoedown_buffer -> hoedown_buffer -> option hoedown_buffer -> O -> out_void);
  cb_blockquote : option (hoedown_buffer -> hoedown_buffer -> O -> out_void);
  cb_blockhtml : option (hoedown_buffer -> hoedown_buffer -> O -> out_void);
  cb_header : option (hoedown_buffer -> hoedown_buffer -> nat -> O -> out_void);
  cb_hrule : option (hoedown_buffer -> O -> out_void);
  cb_list : option (hoedown_buffer -> hoedown_buffer -> list_flags -> O -> out_void);
  cb_listitem : option (hoedown_buffer -> hoedown_buffer -> list_flags -> O -> out_void);
  cb_paragraph : option (hoedown_buffer -> hoedown_buffer -> O -> out_void);
  cb_table : option (hoedown_buffer -> hoedown_buffer -> hoedown_buffer -> O -> out_void);
  cb_table_row : option (hoedown_buffer -> hoedown_buffer -> O -> out_void);
  cb_table_cell : option (hoedown_buffer -> hoedown_buffer -> table_flags -> O -> out_void);
  cb_footnotes : option (hoedown_buffer -> hoedown_buffer -> O -> out_void);
  cb_footnote_def : option (hoedown_buffer -> hoedown_buffer -> nat -> O -> out_void);

  cb_autolink : option (hoedown_buffer -> hoedown_buffer -> hoedown_autolink -> O -> out_int);
  cb_codespan : option (hoedown_buffer -> option hoedown_buffer -> O -> out_int);
  cb_double_emphasis : option (hoedown_buffer -> hoedown_buffer -> O -> out_int);
  cb_emphasis : option (hoedown_buffer -> hoedown_buffer -> O -> out_int);
  cb_underline : option (hoedown_buffer -> hoedown_buffer -> O -> out_int);
  cb_highlight : option (hoedown_buffer -> hoedown_buffer -> O -> out_int);
  cb_quote : option (hoedown_buffer -> option hoedown_buffer -> O -> out_int);
  cb_image : option (hoedown_buffer -> option hoedown_buffer -> option hoedown_buffer
                     -> option hoedown_buffer -> O -> out_int);
  cb_linebreak : option (hoedown_buffer -> O -> out_int);
  cb_link : option (hoedown_buffer -> option hoedown_buffer -> option hoedown_buffer
                    -> option hoedown_buffer -> O -> out_int);
  cb_raw_html_tag : option (hoedown_buffer -> hoedown_buffer -> O -> out_int);
  cb_triple_emphasis : option (hoedown_buffer -> hoedown_buffer -> O -> out_int);
  cb_strikethrough : option (hoedown_buffer -> hoedown_buffer -> O -> out_int);
  cb_superscript : option (hoedown_buffer -> hoedown_buffer -> O -> out_int);
  cb_footnote_ref : option (hoedown_buffer -> nat -> O -> out_int);

  cb_entity : option (hoedown_buffer -> hoedown_buffer -> O -> out_void);
  cb_normal_text : option (hoedown_buffer -> hoedown_buffer -> O -> out_void);

  cb_doc_header : option (hoedown_buffer -> O -> out_void);
  cb_doc_footer : option (hoedown_buffer -> O -> out_void)
}.

(** [struct hoedown_markdown].  [rndr] is the member [md]; [opaque] is
    the state behind [md.opaque]; [work_span] and [work_block] are the
    [size] (top) of [work_bufs[BUFFER_SPAN]] and [work_bufs[BUFFER_BLOCK]];
    [footnotes_used] holds pointers into [footnotes_found]. *)
Record hoedown_markdown := mk_md {
  rndr : hoedown_renderer;
  opaque : O;
  refs : ref_table;
  footnotes_found : list footnote_ref;
  footnotes_used : list nat;
  active_char : ascii -> markdown_char_t;
  work_block : nat;
  work_span : nat;
  ext_flags : hoedown_extensions -> bool;
  max_nesting : nat;
  in_link_body : bool
}.

Definition set_opaque (md : hoedown_markdown) (o : O) : hoedown_markdown :=
  mk_md (rndr md) o (refs md) (footnotes_found md) (footnotes_used md)
        (active_char md) (work_block md) (work_span md) (ext_flags md)
        (max_nesting md) (in_link_body md).

Definition set_refs (md : hoedown_markdown) (r : ref_table) : hoedown_markdown :=
  mk_md (rndr md) (opaque md) r (footnotes_found md) (footnotes_used md)
        (active_char md) (work_block md) (work_span md) (ext_flags md)
        (max_nesting md) (in_link_body md).

Definition set_footnotes (md : hoedown_markdown) (found : list footnote_ref)
    (used : list nat) : hoedown_markdown :=
  mk_md (rndr md) (opaque md) (refs md) found used
        (active_char md) (work_block md) (work_span md) (ext_flags md)
        (max_nesting md) (in_link_body md).

Definition set_work_block (md : hoedown_markdown) (n : nat) : hoedown_markdown :=
  mk_md (rndr md) (opaque md) (refs md) (footnotes_found md) (footnotes_used md)
        (active_char md) n (work_span md) (ext_flags md)
        (max_nesting md) (in_link_body md).

Definition set_work_span (md : hoedown_markdown) (n : nat) : hoedown_markdown :=
  mk_md (rndr md) (opaque md) (refs md) (footnotes_found md) (footnotes_used md)
        (active_char md) (work_block md) n (ext_flags md)
        (max_nesting md) (in_link_body md).

Definition set_in_link_body (md : hoedown_markdown) (b : bool) : hoedown_markdown :=
  mk_md (rndr md) (opaque md) (refs md) (footnotes_found md) (footnotes_used md)
        (active_char md) (work_block md) (work_span md) (ext_flags md)
        (max_nesting md) b.

(** [md->work_bufs[type].size] *)
Definition work_size (md : hoedown_markdown) (type : buffer_type) : nat :=
  match type with
  | BUFFER_BLOCK => work_block md
  | BUFFER_SPAN => work_span md
  end.

Definition set_work_size (md : hoedown_markdown) (type : buffer_type) (n : nat)
  : hoedown_markdown :=
  match type with
  | BUFFER_BLOCK => set_work_block md n
  | BUFFER_SPAN => set_work_span md n
  end.

(** [newbuf]: the buffer handed out is empty and the top of its pool
    advances (by [pool->size++] on a spare slot, by [hoedown_stack_push]
    otherwise). *)
Definition newbuf (md : hoedown_markdown) (type : buffer_type)
  : hoedown_buffer * hoedown_markdown :=
  ([], set_work_size md type (S (work_size md type))).

(** [popbuf]: [md->work_bufs[type].size--]. *)
Definition popbuf (md : hoedown_markdown) (type : buffer_type) : res hoedown_markdown :=
  match work_size md type with
  | 0 => Fault PoolUnderflow
  | S n => Ret (set_work_size md type n)
  end.

(** Invoking a callback through its pointer. *)
Definition call {A : Type} (cb : option A) : res A :=
  match cb with
  | Some f => Ret f
  | None => Fault NullCallback
  end.

Definition present {A : Type} (cb : option A) : bool :=
  match cb with Some _ => true | None => false end.

(** The effect of a void callback and of an [int] callback on [ob] and
    on the parser (whose [opaque] it may have changed). *)
Definition ran (md : hoedown_markdown) (r : out_void)
  : hoedown_buffer * hoedown_markdown :=
  (fst r, set_opaque md (snd r)).

Definition ran_int (md : hoedown_markdown) (r : out_int)
  : bool * hoedown_buffer * hoedown_markdown :=
  (fst (fst r), snd (fst r), set_opaque md (snd r)).


(* ================================================================== *)
(** ** Inline parsing: helpers *)

(** The loop of [unscape_text]; [i] grows by two in every round. *)
Fixpoint unscape_loop (n : nat) (ob : hoedown_buffer) (src : ptr) (size i : nat)
  : hoedown_buffer :=
  match n with
  | 0 => ob
  | S n' =>
    if i <? size then
      let org := i in
      let i := skip_while (fun i => negb (ceq (rd src i) BSLASH)) size i in
      let ob := if org <? i then hoedown_buffer_put ob (padd src org) (i - org) else ob in
      if size <=? i + 1 then ob
      else unscape_loop n' (hoedown_buffer_putc ob (rd src (i + 1))) src size (i + 2)
    else ob
  end.

Definition unscape_text (ob : hoedown_buffer) (src : hoedown_buffer) : hoedown_buffer :=
  unscape_loop (length src) ob (buf_data src) (length src) 0.

(** [is_mail_autolink]: the [for] loop, [nb] counting the [@]. *)
Fixpoint is_mail_autolink_loop (n : nat) (data : ptr) (i nb : nat) : nat :=
  match n with
  | 0 => 0
  | S n' =>
    let c := rd data i in
    if isalnum c then is_mail_autolink_loop n' data (S i) nb
    else if ceq c "@" then is_mail_autolink_loop n' data (S i) (S nb)
    else if ceq c "-" || ceq c "." || ceq c "_" then is_mail_autolink_loop n' data (S i) nb
    else if ceq c ">" then (if nb =? 1 then i + 1 else 0)
    else 0
  end.

Definition is_mail_autolink (data : ptr) (size : nat) : nat :=
  is_mail_autolink_loop size data 0 0.

(** The autolink completion loop of [tag_length]:
    [while (i < size) { if (data[i] == '\\') i += 2; else if (...) break; else i++; }] *)
Fixpoint tag_link_loop (n : nat) (data : ptr) (size i : nat) : nat :=
  match n with
  | 0 => i
  | S n' =>
    if i <? size then
      if ceq (rd data i) BSLASH then tag_link_loop n' data size (i + 2)
      else if ceq (rd data i) ">" || ceq (rd data i) SQUOTE || ceq (rd data i) DQUOTE
              || ceq (rd data i) " " || ceq (rd data i) NL then i
      else tag_link_loop n' data size (i + 1)
    else i
  end.

(** [tag_length]: the length of the tag and the value left in [*autolink]
    ([autolink] being its value on entry). *)
Definition tag_length (data : ptr) (size : nat) (autolink : hoedown_autolink)
  : nat * hoedown_autolink :=
  if size <? 3 then (0, autolink)
  else if negb (ceq (rd data 0) "<") then (0, autolink)
  else
    let i := if ceq (rd data 1) "/" then 2 else 1 in
    if negb (isalnum (rd data i)) then (0, autolink)
    else
      let autolink := HOEDOWN_AUTOLINK_NONE in
      let i := skip_while (fun i => isalnum (rd data i) || ceq (rd data i) "."
                                    || ceq (rd data i) "+" || ceq (rd data i) "-") size i in
      let j := if (1 <? i) && ceq (rd data i) "@"
               then is_mail_autolink (padd data i) (size - i) else 0 in
      if negb (j =? 0) then (i + j, HOEDOWN_AUTOLINK_EMAIL)
      else
        let '(i, autolink) :=
          if (2 <? i) && ceq (rd data i) ":" then (i + 1, HOEDOWN_AUTOLINK_NORMAL)
          else (i, autolink) in
        let tail (i : nat) (autolink : hoedown_autolink) :=
          let i := skip_while (fun i => negb (ceq (rd data i) ">")) size i in
          if size <=? i then (0, autolink) else (i + 1, autolink) in
        if size <=? i then tail i HOEDOWN_AUTOLINK_NONE
        else
          match autolink with
          | HOEDOWN_AUTOLINK_NONE => tail i autolink
          | _ =>
            let j := i in
            let i := tag_link_loop size data size i in
            if size <=? i then (0, autolink)
            else if (j <? i) && ceq (rd data i) ">" then (i + 1, autolink)
            else tail i HOEDOWN_AUTOLINK_NONE
          end.

(** In [find_emph_char]:
    [while (i < size && data[i] != stop) { if (!tmp_i && data[i] == c) tmp_i = i; i++; }] *)
Fixpoint track_loop (n : nat) (data : ptr) (c stop : ascii) (i tmp_i : nat) : nat * nat :=
  match n with
  | 0 => (i, tmp_i)
  | S n' =>
    if negb (ceq (rd data i) stop) then
      track_loop n' data c stop (S i)
                 (if (tmp_i =? 0) && ceq (rd data i) c then i else tmp_i)
    else (i, tmp_i)
  end.

Definition track_until (data : ptr) (size : nat) (c stop : ascii) (i tmp_i : nat)
  : nat * nat :=
  track_loop (size - i) data c stop i tmp_i.

(** In [find_emph_char]: the search for the closing backtick run,
    [while (i < size && bt < span_nb) { ...; i++; }] *)
Fixpoint bt_loop (n : nat) (data : ptr) (c : ascii) (span_nb i bt tmp_i : nat)
  : nat * nat :=
  match n with
  | 0 => (i, tmp_i)
  | S n' =>
    if bt <? span_nb then
      let tmp_i := if (tmp_i =? 0) && ceq (rd data i) c then i else tmp_i in
      let bt := if ceq (rd data i) BTICK then bt + 1 else 0 in
      bt_loop n' data c span_nb (S i) bt tmp_i
    else (i, tmp_i)
  end.

(** The outer loop of [find_emph_char]; [i] grows in every round that
    does not return.  (The last branch, a byte that is neither [c], a
    backtick nor a bracket, cannot be reached: the scan stops on [c] or
    on a bracket only.) *)
Fixpoint find_emph_loop (n : nat) (data : ptr) (size : nat) (c : ascii) (i : nat) : nat :=
  match n with
  | 0 => 0
  | S n' =>
    if i <? size then
      let i := skip_while (fun i => negb (ceq (rd data i) c) && negb (ceq (rd data i) "["))
                          size i in
      if i =? size then 0
      else if ceq (rd data i) c then i
      else if negb (i =? 0) && ceq (rd data (i - 1)) BSLASH then
        find_emph_loop n' data size c (i + 1)
      else if ceq (rd data i) BTICK then
        let i0 := i in
        let i := skip_while (fun i => ceq (rd data i) BTICK) size i in
        let span_nb := i - i0 in
        if size <=? i then 0
        else
          let '(i, tmp_i) := bt_loop (size - i) data c span_nb i 0 0 in
          if size <=? i then tmp_i else find_emph_loop n' data size c i
      else if ceq (rd data i) "[" then
        let '(i, tmp_i) := track_until data size c "]" (i + 1) 0 in
        let i := i + 1 in
        let i := skip_while (fun i => ceq (rd data i) " " || ceq (rd data i) NL) size i in
        if size <=? i then tmp_i
        else
          let skip_to (cc : ascii) :=
            let '(i, tmp_i) := track_until data size c cc (i + 1) tmp_i in
            if size <=? i then tmp_i else find_emph_loop n' data size c (i + 1) in
          if ceq (rd data i) "[" then skip_to "]"%char
          else if ceq (rd data i) "(" then skip_to ")"%char
          else if negb (tmp_i =? 0) then tmp_i
          else find_emph_loop n' data size c i
      else find_emph_loop n' data size c i
    else 0
  end.

Definition find_emph_char (data : ptr) (size : nat) (c : ascii) : nat :=
  find_emph_loop size data size c 1.

(** [while (ob->size && ob->data[ob->size - 1] == ' ') ob->size--;] *)
Fixpoint trim_spaces_loop (n : nat) (ob : hoedown_buffer) : hoedown_buffer :=
  match n with
  | 0 => ob
  | S n' =>
    if (0 <? length ob) && ceq (nth (length ob - 1) ob NUL) " "
    then trim_spaces_loop n' (firstn (length ob - 1) ob)
    else ob
  end.

Definition trim_spaces (ob : hoedown_buffer) : hoedown_buffer :=
  trim_spaces_loop (length ob) ob.

(** [ob->size -= n].  The size is a [size_t] and the subtraction has no
    guard: with [n] above the size it wraps around, to
    [size + 2^64 - n], and the buffer then spans that many bytes from
    its [data]; those past the bytes it held lie outside of them, and
    are NUL in the model. *)
Definition shrink (ob : hoedown_buffer) (n : nat) : hoedown_buffer :=
  let size := Z.to_nat (size_t (Z.of_nat (length ob) - Z.of_nat n)) in
  firstn size ob ++ repeat NUL (size - length ob).

(** The delimiter search of [char_codespan] and [char_quote]:
    [for (end = nb; end < size && i < nb; end++) { if (data[end] == q) i++; else i = 0; }] *)
Fixpoint delim_loop (n : nat) (data : ptr) (q : ascii) (nb end_ i : nat) : nat * nat :=
  match n with
  | 0 => (end_, i)
  | S n' =>
    if i <? nb then
      delim_loop n' data q nb (S end_) (if ceq (rd data end_) q then i + 1 else 0)
    else (end_, i)
  end.

(** What a handler hands back: the bytes consumed, [ob] and the parser. *)
Definition handled : Type := res (nat * hoedown_buffer * hoedown_markdown).

Definition char_trigger : Type :=
  hoedown_buffer -> hoedown_markdown -> ptr -> nat -> nat -> handled.

(** [md->md.normal_text (ob, &work, opaque)] when present,
    [hoedown_buffer_put] otherwise. *)
Definition emit_text (ob : hoedown_buffer) (md : hoedown_markdown) (data : ptr) (n : nat)
  : hoedown_buffer * hoedown_markdown :=
  match cb_normal_text (rndr md) with
  | Some normal_text => ran md (normal_text ob (bytes data n) (opaque md))
  | None => (hoedown_buffer_put ob data n, md)
  end.

(* ================================================================== *)
(** ** Inline parsing: the handlers *)

Section Handlers.

(** The recursive [parse_inline] the handlers call. *)
Variable parse_inline :
  hoedown_buffer -> hoedown_markdown -> ptr -> nat -> res (hoedown_buffer * hoedown_markdown).

(** [parse_emph1]: the [while (i < size)] loop; [i] grows by [len > 0]
    in every round. *)
Fixpoint parse_emph1_loop (n : nat) (ob : hoedown_buffer) (md : hoedown_markdown)
    (data : ptr) (size : nat) (c : ascii) (i : nat) : handled :=
  match n with
  | 0 => Ret (0, ob, md)
  | S n' =>
    if i <? size then
      let len := find_emph_char (padd data i) (size - i) c in
      if len =? 0 then Ret (0, ob, md)
      else
        let i := i + len in
        if size <=? i then Ret (0, ob, md)
        else if ceq (rd data i) c && negb (_isspace (rd data (i - 1))) then
          if ext_flags md HOEDOWN_EXT_NO_INTRA_EMPHASIS
             && ((i + 1 <? size) && isalnum (rd data (i + 1)))
          then parse_emph1_loop n' ob md data size c i
          else
            let '(work, md) := newbuf md BUFFER_SPAN in
            let* (work, md) := parse_inline work md data i in
            let* render :=
              if ext_flags md HOEDOWN_EXT_UNDERLINE && ceq c "_"
              then call (cb_underline (rndr md))
              else call (cb_emphasis (rndr md)) in
            let '(r, ob, md) := ran_int md (render ob work (opaque md)) in
            let* md := popbuf md BUFFER_SPAN in
            Ret ((if r then i + 1 else 0), ob, md)
        else parse_emph1_loop n' ob md data size c i
    else Ret (0, ob, md)
  end.

Definition parse_emph1 (ob : hoedown_buffer) (md : hoedown_markdown)
    (data : ptr) (size : nat) (c : ascii) : handled :=
  let i := if (1 <? size) && ceq (rd data 0) c && ceq (rd data 1) c then 1 else 0 in
  parse_emph1_loop size ob md data size c i.

Fixpoint parse_emph2_loop (n : nat) (ob : hoedown_buffer) (md : hoedown_markdown)
    (data : ptr) (size : nat) (c : ascii) (i : nat) : handled :=
  match n with
  | 0 => Ret (0, ob, md)
  | S n' =>
    if i <? size then
      let len := find_emph_char (padd data i) (size - i) c in
      if len =? 0 then Ret (0, ob, md)
      else
        let i := i + len in
        if (i + 1 <? size) && ceq (rd data i) c && ceq (rd data (i + 1)) c
           && negb (i =? 0) && negb (_isspace (rd data (i - 1))) then
          let '(work, md) := newbuf md BUFFER_SPAN in
          let* (work, md) := parse_inline work md data i in
          let* render :=
            if ceq c "~" then call (cb_strikethrough (rndr md))
            else if ceq c "=" then call (cb_highlight (rndr md))
            else call (cb_double_emphasis (rndr md)) in
          let '(r, ob, md) := ran_int md (render ob work (opaque md)) in
          let* md := popbuf md BUFFER_SPAN in
          Ret ((if r then i + 2 else 0), ob, md)
        else parse_emph2_loop n' ob md data size c (i + 1)
    else Ret (0, ob, md)
  end.

Definition parse_emph2 (ob : hoedown_buffer) (md : hoedown_markdown)
    (data : ptr) (size : nat) (c : ascii) : handled :=
  parse_emph2_loop size ob md data size c 0.

Fixpoint parse_emph3_loop (n : nat) (ob : hoedown_buffer) (md : hoedown_markdown)
    (data : ptr) (size : nat) (c : ascii) (i : nat) : handled :=
  match n with
  | 0 => Ret (0, ob, md)
  | S n' =>
    if i <? size then
      let len := find_emph_char (padd data i) (size - i) c in
      if len =? 0 then Ret (0, ob, md)
      else
        let i := i + len in
        if negb (ceq (rd data i) c) || _isspace (rd data (i - 1)) then
          parse_emph3_loop n' ob md data size c i
        else if (i + 2 <? size) && ceq (rd data (i + 1)) c && ceq (rd data (i + 2)) c
                && present (cb_triple_emphasis (rndr md)) then
          let '(work, md) := newbuf md BUFFER_SPAN in
          let* (work, md) := parse_inline work md data i in
          let* render := call (cb_triple_emphasis (rndr md)) in
          let '(r, ob, md) := ran_int md (render ob work (opaque md)) in
          let* md := popbuf md BUFFER_SPAN in
          Ret ((if r then i + 3 else 0), ob, md)
        else if (i + 1 <? size) && ceq (rd data (i + 1)) c then
          let* (len, ob, md) := parse_emph1 ob md (psub data 2) (size + 2) c in
          if len =? 0 then Ret (0, ob, md) else Ret (len - 2, ob, md)
        else
          let* (len, ob, md) := parse_emph2 ob md (psub data 1) (size + 1) c in
          if len =? 0 then Ret (0, ob, md) else Ret (len - 1, ob, md)
    else Ret (0, ob, md)
  end.

Definition parse_emph3 (ob : hoedown_buffer) (md : hoedown_markdown)
    (data : ptr) (size : nat) (c : ascii) : handled :=
  parse_emph3_loop size ob md data size c 0.

Definition char_emphasis : char_trigger := fun ob md data offset size =>
  let c := rd data 0 in
  if ext_flags md HOEDOWN_EXT_NO_INTRA_EMPHASIS
     && ((0 <? offset) && negb (_isspace (rdb data 1))
         && negb (ceq (rdb data 1) ">") && negb (ceq (rdb data 1) "("))
  then Ret (0, ob, md)
  else if (2 <? size) && negb (ceq (rd data 1) c) then
    if ceq c "~" || ceq c "=" || _isspace (rd data 1) then Ret (0, ob, md)
    else
      let* (ret, ob, md) := parse_emph1 ob md (padd data 1) (size - 1) c in
      if ret =? 0 then Ret (0, ob, md) else Ret (ret + 1, ob, md)
  else if (3 <? size) && ceq (rd data 1) c && negb (ceq (rd data 2) c) then
    if _isspace (rd data 2) then Ret (0, ob, md)
    else
      let* (ret, ob, md) := parse_emph2 ob md (padd data 2) (size - 2) c in
      if ret =? 0 then Ret (0, ob, md) else Ret (ret + 2, ob, md)
  else if (4 <? size) && ceq (rd data 1) c && ceq (rd data 2) c
          && negb (ceq (rd data 3) c) then
    if ceq c "~" || ceq c "=" || _isspace (rd data 3) then Ret (0, ob, md)
    else
      let* (ret, ob, md) := parse_emph3 ob md (padd data 3) (size - 3) c in
      if ret =? 0 then Ret (0, ob, md) else Ret (ret + 3, ob, md)
  else Ret (0, ob, md).

Definition char_linebreak : char_trigger := fun ob md data offset size =>
  if (offset <? 2) || negb (ceq (rdb data 1) " ") || negb (ceq (rdb data 2) " ")
  then Ret (0, ob, md)
  else
    let ob := trim_spaces ob in
    let* linebreak := call (cb_linebreak (rndr md)) in
    let '(r, ob, md) := ran_int md (linebreak ob (opaque md)) in
    Ret ((if r then 1 else 0), ob, md).

Definition char_codespan : char_trigger := fun ob md data offset size =>
  let nb := skip_while (fun nb => ceq (rd data nb) BTICK) size 0 in
  let '(end_, i) := delim_loop (size - nb) data BTICK nb nb 0 in
  if (i <? nb) && (size <=? end_) then Ret (0, ob, md)
  else
    let f_begin := skip_while (fun f => ceq (rd data f) " ") end_ nb in
    let f_end := back_while (fun f => ceq (rd data (f - 1)) " ") nb (end_ - nb) in
    let* codespan := call (cb_codespan (rndr md)) in
    let work :=
      if f_begin <? f_end then Some (bytes (padd data f_begin) (f_end - f_begin))
      else None in
    let '(r, ob, md) := ran_int md (codespan ob work (opaque md)) in
    Ret ((if r then end_ else 0), ob, md).

Definition char_quote : char_trigger := fun ob md data offset size =>
  let nq := skip_while (fun nq => ceq (rd data nq) DQUOTE) size 0 in
  let '(end_, i) := delim_loop (size - nq) data DQUOTE nq nq 0 in
  if (i <? nq) && (size <=? end_) then Ret (0, ob, md)
  else
    let f_begin := skip_while (fun f => ceq (rd data f) " ") end_ nq in
    let f_end := back_while (fun f => ceq (rd data (f - 1)) " ") nq (end_ - nq) in
    let* quote := call (cb_quote (rndr md)) in
    let work :=
      if f_begin <? f_end then Some (bytes (padd data f_begin) (f_end - f_begin))
      else None in
    let '(r, ob, md) := ran_int md (quote ob work (opaque md)) in
    Ret ((if r then end_ else 0), ob, md).

(** [escape_chars] of [char_escape]. *)
Definition escape_chars : list ascii :=
  BSLASH :: BTICK :: list_ascii_of_string "*_{}[]()#+-.!:|&<>^~".

Definition char_escape : char_trigger := fun ob md data offset size =>
  if 1 <? size then
    if negb (strchr escape_chars (rd data 1)) then Ret (0, ob, md)
    else
      let '(ob, md) :=
        match cb_normal_text (rndr md) with
        | Some normal_text => ran md (normal_text ob (bytes (padd data 1) 1) (opaque md))
        | None => (hoedown_buffer_putc ob (rd data 1), md)
        end in
      Ret (2, ob, md)
  else if size =? 1 then Ret (2, hoedown_buffer_putc ob (rd data 0), md)
  else Ret (2, ob, md).

Definition char_entity : char_trigger := fun ob md data offset size =>
  let end_ := 1 in
  let end_ := if (end_ <? size) && ceq (rd data end_) "#" then end_ + 1 else end_ in
  let end_ := skip_while (fun e => isalnum (rd data e)) size end_ in
  if (end_ <? size) && ceq (rd data end_) ";" then
    let end_ := end_ + 1 in
    match cb_entity (rndr md) with
    | Some entity =>
      let '(ob, md) := ran md (entity ob (bytes data end_) (opaque md)) in
      Ret (end_, ob, md)
    | None => Ret (end_, hoedown_buffer_put ob data end_, md)
    end
  else Ret (0, ob, md).

Definition char_langle_tag : char_trigger := fun ob md data offset size =>
  let '(end_, altype) := tag_length data size HOEDOWN_AUTOLINK_NONE in
  let is_auto := match altype with HOEDOWN_AUTOLINK_NONE => false | _ => true end in
  let* (ret, ob, md) :=
    if 2 <? end_ then
      if present (cb_autolink (rndr md)) && is_auto then
        let '(u_link, md) := newbuf md BUFFER_SPAN in
        let u_link := unscape_text u_link (bytes (padd data 1) (end_ - 2)) in
        let* autolink := call (cb_autolink (rndr md)) in
        let '(ret, ob, md) := ran_int md (autolink ob u_link altype (opaque md)) in
        let* md := popbuf md BUFFER_SPAN in
        Ret (ret, ob, md)
      else
        match cb_raw_html_tag (rndr md) with
        | Some raw_html_tag => Ret (ran_int md (raw_html_tag ob (bytes data end_) (opaque md)))
        | None => Ret (false, ob, md)
        end
    else Ret (false, ob, md) in
  Ret ((if ret then end_ else 0), ob, md).

Definition char_autolink_www : char_trigger := fun ob md data offset size =>
  if negb (present (cb_link (rndr md))) || in_link_body md then Ret (0, ob, md)
  else
    let '(link, md) := newbuf md BUFFER_SPAN in
    let '(link_len, rewind, link) := hoedown_autolink__www link data offset size in
    let* (ob, md) :=
      if 0 <? link_len then
        let '(link_url, md) := newbuf md BUFFER_SPAN in
        let link_url := link_url ++ list_ascii_of_string "http://" in
        let link_url := hoedown_buffer_put link_url (buf_data link) (length link) in
        let ob := shrink ob rewind in
        let* (ob, md) :=
          match cb_normal_text (rndr md) with
          | Some normal_text =>
            let '(link_text, md) := newbuf md BUFFER_SPAN in
            let '(link_text, md) := ran md (normal_text link_text link (opaque md)) in
            let* render := call (cb_link (rndr md)) in
            let '(_, ob, md) :=
              ran_int md (render ob (Some link_url) None (Some link_text) (opaque md)) in
            let* md := popbuf md BUFFER_SPAN in
            Ret (ob, md)
          | None =>
            let* render := call (cb_link (rndr md)) in
            let '(_, ob, md) :=
              ran_int md (render ob (Some link_url) None (Some link) (opaque md)) in
            Ret (ob, md)
          end in
        let* md := popbuf md BUFFER_SPAN in
        Ret (ob, md)
      else Ret (ob, md) in
    let* md := popbuf md BUFFER_SPAN in
    Ret (link_len, ob, md).

Definition char_autolink_email : char_trigger := fun ob md data offset size =>
  if negb (present (cb_autolink (rndr md))) || in_link_body md then Ret (0, ob, md)
  else
    let '(link, md) := newbuf md BUFFER_SPAN in
    let '(link_len, rewind, link) := hoedown_autolink__email link data offset size in
    let* (ob, md) :=
      if 0 <? link_len then
        let ob := shrink ob rewind in
        let* autolink := call (cb_autolink (rndr md)) in
        let '(_, ob, md) :=
          ran_int md (autolink ob link HOEDOWN_AUTOLINK_EMAIL (opaque md)) in
        Ret (ob, md)
      else Ret (ob, md) in
    let* md := popbuf md BUFFER_SPAN in
    Ret (link_len, ob, md).

Definition char_autolink_url : char_trigger := fun ob md data offset size =>
  if negb (present (cb_autolink (rndr md))) || in_link_body md then Ret (0, ob, md)
  else
    let '(link, md) := newbuf md BUFFER_SPAN in
    let '(link_len, rewind, link) := hoedown_autolink__url link data offset size in
    let* (ob, md) :=
      if 0 <? link_len then
        let ob := shrink ob rewind in
        let* autolink := call (cb_autolink (rndr md)) in
        let '(_, ob, md) :=
          ran_int md (autolink ob link HOEDOWN_AUTOLINK_NORMAL (opaque md)) in
        Ret (ob, md)
      else Ret (ob, md) in
    let* md := popbuf md BUFFER_SPAN in
    Ret (link_len, ob, md).

(** [char_link]: the search for the closing bracket,
    [for (level = 1; i < size; i++) { ... }], giving [i] and [text_has_nl]. *)
Fixpoint link_text_loop (n : nat) (data : ptr) (i : nat) (level : Z) (text_has_nl : bool)
  : nat * bool :=
  match n with
  | 0 => (i, text_has_nl)
  | S n' =>
    if ceq (rd data i) NL then link_text_loop n' data (S i) level true
    else if ceq (rd data (i - 1)) BSLASH then link_text_loop n' data (S i) level text_has_nl
    else if ceq (rd data i) "[" then link_text_loop n' data (S i) (level + 1)%Z text_has_nl
    else if ceq (rd data i) "]" then
      let level := (level - 1)%Z in
      if (level <=? 0)%Z then (i, text_has_nl)
      else link_text_loop n' data (S i) level text_has_nl
    else link_text_loop n' data (S i) level text_has_nl
  end.

(** [char_link]: the search for the end of an inline link destination. *)
Fixpoint link_dest_loop (n : nat) (data : ptr) (size i nb_p : nat) : nat :=
  match n with
  | 0 => i
  | S n' =>
    if i <? size then
      if ceq (rd data i) BSLASH then link_dest_loop n' data size (i + 2) nb_p
      else if ceq (rd data i) "(" && negb (i =? 0) then
        link_dest_loop n' data size (i + 1) (nb_p + 1)
      else if ceq (rd data i) ")" then
        if nb_p =? 0 then i else link_dest_loop n' data size (i + 1) (nb_p - 1)
      else if (1 <=? i) && _isspace (rd data (i - 1))
              && (ceq (rd data i) SQUOTE || ceq (rd data i) DQUOTE) then i
      else link_dest_loop n' data size (i + 1) nb_p
    else i
  end.

(** [char_link]: the search for the end of an inline link title. *)
Fixpoint link_title_loop (n : nat) (data : ptr) (size i : nat) (qtype : ascii)
    (in_title : bool) : nat :=
  match n with
  | 0 => i
  | S n' =>
    if i <? size then
      if ceq (rd data i) BSLASH then link_title_loop n' data size (i + 2) qtype in_title
      else if ceq (rd data i) qtype then link_title_loop n' data size (i + 1) qtype false
      else if ceq (rd data i) ")" && negb in_title then i
      else link_title_loop n' data size (i + 1) qtype in_title
    else i
  end.

(** [char_link]: the id of a link whose text spans lines,
    [for (j = 1; j < txt_e; j++) { ... }]. *)
Fixpoint craft_id_loop (n : nat) (b : hoedown_buffer) (data : ptr) (j : nat)
  : hoedown_buffer :=
  match n with
  | 0 => b
  | S n' =>
    let b :=
      if negb (ceq (rd data j) NL) then hoedown_buffer_putc b (rd data j)
      else if negb (ceq (rd data (j - 1)) " ") then hoedown_buffer_putc b " "
      else b in
    craft_id_loop n' b data (S j)
  end.

(** [fr->is_used = 1; fr->num = num] on the entry at position [k]. *)
Fixpoint mark_used (found : list footnote_ref) (k num' : nat) : list footnote_ref :=
  match found, k with
  | [], _ => []
  | r :: rest, 0 => mk_footnote_ref (fn_id r) true num' (contents r) :: rest
  | r :: rest, S k' => r :: mark_used rest k' num'
  end.

Definition no_footnote : footnote_ref := mk_footnote_ref 0 false 0 [].

(** [char_link], the [cleanup:] label: the span pool goes back to the
    size it had on entry, and the result is [i] or 0. *)
Definition link_cleanup (org_work_size : nat) (ret : bool) (i : nat)
    (ob : hoedown_buffer) (md : hoedown_markdown) : handled :=
  Ret ((if ret then i else 0), ob, set_work_span md org_work_size).

(** [char_link], from "building content" down to the call of the
    renderer. *)
Definition link_build (is_img : bool) (org_work_size : nat) (data : ptr) (i txt_e : nat)
    (link title : option hoedown_buffer) (ob : hoedown_buffer) (md : hoedown_markdown)
  : handled :=
  let* (content, md) :=
    if 1 <? txt_e then
      let '(content, md) := newbuf md BUFFER_SPAN in
      if is_img then
        Ret (Some (hoedown_buffer_put content (padd data 1) (txt_e - 1)), md)
      else
        let md := set_in_link_body md true in
        let* (content, md) := parse_inline content md (padd data 1) (txt_e - 1) in
        let md := set_in_link_body md false in
        Ret (Some content, md)
    else Ret (None, md) in
  let '(u_link, md) :=
    match link with
    | Some link =>
      let '(u_link, md) := newbuf md BUFFER_SPAN in
      (Some (unscape_text u_link link), md)
    | None => (None, md)
    end in
  if is_img then
    let ob :=
      if (0 <? length ob) && ceq (nth (length ob - 1) ob NUL) "!"
      then shrink ob 1 else ob in
    let* image := call (cb_image (rndr md)) in
    let '(ret, ob, md) := ran_int md (image ob u_link title content (opaque md)) in
    link_cleanup org_work_size ret i ob md
  else
    let* render := call (cb_link (rndr md)) in
    let '(ret, ob, md) := ran_int md (render ob u_link title content (opaque md)) in
    link_cleanup org_work_size ret i ob md.

(** [char_link]: the id of a reference whose own id is empty, or of a
    shortcut reference. *)
Definition link_text_id (data : ptr) (text_has_nl : bool) (txt_e : nat)
    (md : hoedown_markdown) : ptr * nat * hoedown_markdown :=
  if text_has_nl then
    let '(b, md) := newbuf md BUFFER_SPAN in
    let b := craft_id_loop (txt_e - 1) b data 1 in
    (buf_data b, length b, md)
  else (padd data 1, txt_e - 1, md).

(** [char_link]: the footnote at position [k] is marked used, and
    numbered, the first time it is referred to. *)
Definition use_footnote (md : hoedown_markdown) (k : nat) : hoedown_markdown :=
  if negb (is_used (nth k (footnotes_found md) no_footnote)) then
    let used := footnotes_used md ++ [k] in
    set_footnotes md (mark_used (footnotes_found md) k (length used)) used
  else md.

Definition char_link : char_trigger := fun ob md data offset size =>
  let is_img := (0 <? offset) && ceq (rdb data 1) "!" in
  let org_work_size := work_span md in
  let cleanup := link_cleanup org_work_size in
  let build := link_build is_img org_work_size data in
  let text_id := link_text_id data in
  let i := 1 in
  if (is_img && negb (present (cb_image (rndr md))))
     || (negb is_img && negb (present (cb_link (rndr md))))
  then cleanup false i ob md
  else
    let '(i, text_has_nl) := link_text_loop (size - i) data i 1%Z false in
    if size <=? i then cleanup false i ob md
    else
      let txt_e := i in
      let i := i + 1 in
      if ext_flags md HOEDOWN_EXT_FOOTNOTES && ceq (rd data 1) "^" then
        (* footnote link *)
        if txt_e <? 3 then cleanup false i ob md
        else
          let fr := find_footnote_ref (footnotes_found md) (padd data 2) (txt_e - 2) in
          match fr with
          | None => cleanup false i ob md
          | Some k =>
            let md := use_footnote md k in
            match cb_footnote_ref (rndr md) with
            | Some footnote_ref =>
              let '(ret, ob, md) :=
                ran_int md (footnote_ref ob (num (nth k (footnotes_found md) no_footnote))
                                         (opaque md)) in
              cleanup ret i ob md
            | None => cleanup false i ob md
            end
          end
      else
        let i := skip_while (fun i => _isspace (rd data i)) size i in
        if (i <? size) && ceq (rd data i) "(" then
          (* inline style link *)
          let i := i + 1 in
          let i := skip_while (fun i => _isspace (rd data i)) size i in
          let link_b := i in
          let i := link_dest_loop size data size i 0 in
          if size <=? i then cleanup false i ob md
          else
            let link_e := i in
            let titled := ceq (rd data i) SQUOTE || ceq (rd data i) DQUOTE in
            let qtype := rd data i in
            let i := if titled then link_title_loop size data size (i + 1) qtype true else i in
            if titled && (size <=? i) then cleanup false i ob md
            else
              let '(title_b, title_e, link_e) :=
                if titled then
                  let title_b := link_e + 1 in
                  let title_e := back_while (fun t => _isspace (rd data t)) title_b (i - 1) in
                  if negb (ceq (rd data title_e) SQUOTE) && negb (ceq (rd data title_e) DQUOTE)
                  then (0, 0, i)
                  else (title_b, title_e, link_e)
                else (0, 0, link_e) in
              let link_e := back_while (fun l => _isspace (rd data (l - 1))) link_b link_e in
              let link_b := if ceq (rd data link_b) "<" then link_b + 1 else link_b in
              let link_e := if ceq (rd data (link_e - 1)) ">" then link_e - 1 else link_e in
              let '(link, md) :=
                if link_b <? link_e then
                  let '(link, md) := newbuf md BUFFER_SPAN in
                  (Some (hoedown_buffer_put link (padd data link_b) (link_e - link_b)), md)
                else (None, md) in
              let '(title, md) :=
                if title_b <? title_e then
                  let '(title, md) := newbuf md BUFFER_SPAN in
                  (Some (hoedown_buffer_put title (padd data title_b) (title_e - title_b)), md)
                else (None, md) in
              build (i + 1) txt_e link title ob md
        else if (i <? size) && ceq (rd data i) "[" then
          (* reference style link *)
          let i := i + 1 in
          let link_b := i in
          let i := skip_while (fun i => negb (ceq (rd data i) "]")) size i in
          if size <=? i then cleanup false i ob md
          else
            let link_e := i in
            let '(id_data, id_size, md) :=
              if link_b =? link_e then text_id text_has_nl txt_e md
              else (padd data link_b, link_e - link_b, md) in
            match find_link_ref (refs md) id_data id_size with
            | None => cleanup false i ob md
            | Some lr => build (i + 1) txt_e (ref_link lr) (ref_title lr) ob md
            end
        else
          (* shortcut reference style link *)
          let '(id_data, id_size, md) := text_id text_has_nl txt_e md in
          match find_link_ref (refs md) id_data id_size with
          | None => cleanup false i ob md
          | Some lr => build (txt_e + 1) txt_e (ref_link lr) (ref_title lr) ob md
          end.

Definition char_superscript : char_trigger := fun ob md data offset size =>
  match cb_superscript (rndr md) with
  | None => Ret (0, ob, md)
  | Some superscript =>
    if size <? 2 then Ret (0, ob, md)
    else
      let paren := ceq (rd data 1) "(" in
      let sup_start := if paren then 2 else 1 in
      let sup_len :=
        if paren then
          skip_while (fun l => negb (ceq (rd data l) ")") && negb (ceq (rd data (l - 1)) BSLASH))
                     size 2
        else skip_while (fun l => negb (_isspace (rd data l))) size 1 in
      if paren && (sup_len =? size) then Ret (0, ob, md)
      else if sup_len - sup_start =? 0 then
        Ret ((if sup_start =? 2 then 3 else 0), ob, md)
      else
        let '(sup, md) := newbuf md BUFFER_SPAN in
        let* (sup, md) := parse_inline sup md (padd data sup_start) (sup_len - sup_start) in
        let '(_, ob, md) := ran_int md (superscript ob sup (opaque md)) in
        let* md := popbuf md BUFFER_SPAN in
        Ret ((if sup_start =? 2 then sup_len + 1 else sup_len), ob, md)
  end.

(** [markdown_char_ptrs]: the handler of each action; the entry of
    [MD_CHAR_NONE] is NULL. *)
Definition markdown_char_ptrs (action : markdown_char_t) : option char_trigger :=
  match action with
  | MD_CHAR_NONE => None
  | MD_CHAR_EMPHASIS => Some char_emphasis
  | MD_CHAR_CODESPAN => Some char_codespan
  | MD_CHAR_LINEBREAK => Some char_linebreak
  | MD_CHAR_LINK => Some char_link
  | MD_CHAR_LANGLE => Some char_langle_tag
  | MD_CHAR_ESCAPE => Some char_escape
  | MD_CHAR_ENTITITY => Some char_entity
  | MD_CHAR_AUTOLINK_URL => Some char_autolink_url
  | MD_CHAR_AUTOLINK_EMAIL => Some char_autolink_email
  | MD_CHAR_AUTOLINK_WWW => Some char_autolink_www
  | MD_CHAR_SUPERSCRIPT => Some char_superscript
  | MD_CHAR_QUOTE => Some char_quote
  end.

Definition is_none_action (a : markdown_char_t) : bool :=
  match a with MD_CHAR_NONE => true | _ => false end.

(** The [while (i < size)] loop of [parse_inline].  [end_] grows in
    every round, so [size + 1] rounds are enough; [n] counts them. *)
Fixpoint parse_inline_loop (n : nat) (ob : hoedown_buffer) (md : hoedown_markdown)
    (data : ptr) (size i end_ : nat) : res (hoedown_buffer * hoedown_markdown) :=
  if i <? size then
    match n with
    | 0 => Fault OutOfFuel
    | S n' =>
      (* copying inactive chars into the output *)
      let end_ := skip_while (fun e => is_none_action (active_char md (rd data e))) size end_ in
      let action := active_char md (rd data end_) in
      let '(ob, md) := emit_text ob md (padd data i) (end_ - i) in
      if size <=? end_ then Ret (ob, md)
      else
        let i := end_ in
        let* trigger := call (markdown_char_ptrs action) in
        let* (end_, ob, md) := trigger ob md (padd data i) i (size - i) in
        if end_ =? 0 then parse_inline_loop n' ob md data size i (i + 1)
        else parse_inline_loop n' ob md data size (i + end_) (i + end_)
    end
  else Ret (ob, md).

(** [parse_inline] past its nesting check. *)
Definition parse_inline_body (ob : hoedown_buffer) (md : hoedown_markdown)
    (data : ptr) (size : nat) : res (hoedown_buffer * hoedown_markdown) :=
  parse_inline_loop (S size) ob md data size 0 0.

End Handlers.

(** [parse_inline].  [fuel] bounds the depth of the recursion through
    the handlers; a call over the nesting limit returns before using any. *)
Fixpoint parse_inline (fuel : nat) (ob : hoedown_buffer) (md : hoedown_markdown)
    (data : ptr) (size : nat) : res (hoedown_buffer * hoedown_markdown) :=
  if max_nesting md <? work_span md + work_block md then Ret (ob, md)
  else
    match fuel with
    | 0 => Fault OutOfFuel
    | S fuel' => parse_inline_body (parse_inline fuel') ob md data size
    end.

(* ================================================================== *)
(** ** Block parsing: line tests *)

(** [is_empty]: the line length when it is empty, 0 otherwise. *)
Fixpoint is_empty_loop (n : nat) (data : ptr) (i : nat) : nat :=
  match n with
  | 0 => i + 1
  | S n' =>
    if ceq (rd data i) NL then i + 1
    else if negb (ceq (rd data i) " ") then 0
    else is_empty_loop n' data (S i)
  end.

Definition is_empty (data : ptr) (size : nat) : nat := is_empty_loop size data 0.

(** The count of up to three leading spaces,
    [if (data[0] == ' ') { i++; if (data[1] == ' ') { i++; if (data[2] == ' ') { i++; } } }] *)
Definition lead_spaces (data : ptr) : nat :=
  if ceq (rd data 0) " " then
    if ceq (rd data 1) " " then
      if ceq (rd data 2) " " then 3 else 2
    else 1
  else 0.

(** [is_hrule]: the loop over the line; [None] is the [return 0] inside. *)
Fixpoint is_hrule_loop (k : nat) (data : ptr) (c : ascii) (i n : nat) : option nat :=
  match k with
  | 0 => Some n
  | S k' =>
    if negb (ceq (rd data i) NL) then
      if ceq (rd data i) c then is_hrule_loop k' data c (S i) (n + 1)
      else if negb (ceq (rd data i) " ") then None
      else is_hrule_loop k' data c (S i) n
    else Some n
  end.

Definition is_hrule (data : ptr) (size : nat) : bool :=
  if size <? 3 then false
  else
    let i := lead_spaces data in
    if (size <=? i + 2)
       || (negb (ceq (rd data i) "*") && negb (ceq (rd data i) "-")
           && negb (ceq (rd data i) "_"))
    then false
    else
      let c := rd data i in
      match is_hrule_loop (size - i) data c i 0 with
      | None => false
      | Some n => 3 <=? n
      end.

(** [prefix_codefence]: the width of the code fence a line begins with. *)
Definition prefix_codefence (data : ptr) (size : nat) : nat :=
  if size <? 3 then 0
  else
    let i := lead_spaces data in
    if (size <=? i + 2) || negb (ceq (rd data i) "~" || ceq (rd data i) BTICK) then 0
    else
      let c := rd data i in
      let i' := skip_while (fun i => ceq (rd data i) c) size i in
      let n := i' - i in
      if n <? 3 then 0 else i'.

(** [while (i < size && data[i] != '\n') { if (!_isspace(data[i])) return 0; i++; }]:
    [None] is the [return 0]. *)
Fixpoint rest_blank_loop (n : nat) (data : ptr) (i : nat) : option nat :=
  match n with
  | 0 => Some i
  | S n' =>
    if negb (ceq (rd data i) NL) then
      if negb (_isspace (rd data i)) then None
      else rest_blank_loop n' data (S i)
    else Some i
  end.

(** [is_codefence]: the size of the fence line (0 when it is none) and
    the bytes of [*syntax] where it has been set. *)
Definition is_codefence (data : ptr) (size : nat) : nat * hoedown_buffer :=
  let i := prefix_codefence data size in
  if i =? 0 then (0, [])
  else
    let i := skip_while (fun i => ceq (rd data i) " ") size i in
    let syn_start := i in
    let finish (i : nat) (syn_start syn_len : nat) : nat * hoedown_buffer :=
      let syntax := bytes (padd data syn_start) syn_len in
      match rest_blank_loop (size - i) data i with
      | None => (0, syntax)
      | Some i => (i + 1, syntax)
      end in
    if (i <? size) && ceq (rd data i) "{" then
      let i := i + 1 in
      let syn_start := syn_start + 1 in
      let i' := skip_while (fun i => negb (ceq (rd data i) "}") && negb (ceq (rd data i) NL))
                           size i in
      let syn_len := i' - i in
      let i := i' in
      if (i =? size) || negb (ceq (rd data i) "}") then (0, [])
      else
        (* strip all whitespace at the beginning and the end of the block *)
        let s' := skip_while (fun s => _isspace (rd data s)) (syn_start + syn_len) syn_start in
        let syn_len := syn_len - (s' - syn_start) in
        let syn_start := s' in
        let syn_len :=
          back_while (fun l => _isspace (rd data (syn_start + (l - 1)))) 0 syn_len in
        finish (i + 1) syn_start syn_len
    else
      let i' := skip_while (fun i => negb (_isspace (rd data i))) size i in
      finish i' syn_start (i' - i).

(** [is_atxheader] *)
Definition is_atxheader (md : hoedown_markdown) (data : ptr) (size : nat) : bool :=
  if negb (ceq (rd data 0) "#") then false
  else if ext_flags md HOEDOWN_EXT_SPACE_HEADERS then
    let level := skip_while (fun l => (l <? 6) && ceq (rd data l) "#") size 0 in
    if (level <? size) && negb (ceq (rd data level) " ") then false else true
  else true.

(** [is_headerline]: 1 or 2 for a setext underline, 0 otherwise. *)
Definition is_headerline (data : ptr) (size : nat) : nat :=
  if ceq (rd data 0) "=" then
    let i := skip_while (fun i => ceq (rd data i) "=") size 1 in
    let i := skip_while (fun i => ceq (rd data i) " ") size i in
    if (size <=? i) || ceq (rd data i) NL then 1 else 0
  else if ceq (rd data 0) "-" then
    let i := skip_while (fun i => ceq (rd data i) "-") size 1 in
    let i := skip_while (fun i => ceq (rd data i) " ") size i in
    if (size <=? i) || ceq (rd data i) NL then 2 else 0
  else 0.

Definition is_next_headerline (data : ptr) (size : nat) : nat :=
  let i := skip_while (fun i => negb (ceq (rd data i) NL)) size 0 in
  let i := i + 1 in
  if size <=? i then 0
  else is_headerline (padd data i) (size - i).

(** [if (i < size && data[i] == ' ') i++;] three times over *)
Definition upto3_spaces (data : ptr) (size : nat) : nat :=
  let i := 0 in
  let i := if (i <? size) && ceq (rd data i) " " then i + 1 else i in
  let i := if (i <? size) && ceq (rd data i) " " then i + 1 else i in
  let i := if (i <? size) && ceq (rd data i) " " then i + 1 else i in
  i.

(** [prefix_quote]: the blockquote prefix length. *)
Definition prefix_quote (data : ptr) (size : nat) : nat :=
  let i := upto3_spaces data size in
  if (i <? size) && ceq (rd data i) ">" then
    if (i + 1 <? size) && ceq (rd data (i + 1)) " " then i + 2 else i + 1
  else 0.

(** [prefix_code]: the prefix length for block code. *)
Definition prefix_code (data : ptr) (size : nat) : nat :=
  if (3 <? size) && ceq (rd data 0) " " && ceq (rd data 1) " "
     && ceq (rd data 2) " " && ceq (rd data 3) " " then 4
  else 0.

(** [prefix_oli]: the ordered list item prefix. *)
Definition prefix_oli (data : ptr) (size : nat) : nat :=
  let i := upto3_spaces data size in
  if (size <=? i) || negb (isdigit (rd data i)) then 0
  else
    let i := skip_while (fun i => isdigit (rd data i)) size i in
    if (size <=? i + 1) || negb (ceq (rd data i) ".") || negb (ceq (rd data (i + 1)) " ")
    then 0
    else if negb (is_next_headerline (padd data i) (size - i) =? 0) then 0
    else i + 2.

(** [prefix_uli]: the unordered list item prefix. *)
Definition prefix_uli (data : ptr) (size : nat) : nat :=
  let i := upto3_spaces data size in
  if (size <=? i + 1)
     || (negb (ceq (rd data i) "*") && negb (ceq (rd data i) "+")
         && negb (ceq (rd data i) "-"))
     || negb (ceq (rd data (i + 1)) " ")
  then 0
  else if negb (is_next_headerline (padd data i) (size - i) =? 0) then 0
  else i + 2.

(* ================================================================== *)
(** ** Block parsing: HTML blocks *)

(** [strncasecmp(data, tag, tag_len) == 0] for a [tag] of
    [tag_len] bytes. *)
Fixpoint same_tag (data : ptr) (i : nat) (tag : list ascii) : bool :=
  match tag with
  | [] => true
  | t :: rest => ceq (tolower (rd data i)) (tolower t) && same_tag data (S i) rest
  end.

(** [htmlblock_end_tag]: the length on a match, 0 otherwise. *)
Definition htmlblock_end_tag (tag : list ascii) (tag_len : nat) (data : ptr) (size : nat)
  : nat :=
  if (size <=? tag_len + 3) || negb (same_tag data 2 tag)
     || negb (ceq (rd data (tag_len + 2)) ">")
  then 0
  else
    let i := tag_len + 3 in
    let w := if i <? size then is_empty (padd data i) (size - i) else 0 in
    if (i <? size) && (w =? 0) then 0
    else
      let i := i + w in
      let w := if i <? size then is_empty (padd data i) (size - i) else 0 in
      i + w.

(** In [htmlblock_end]:
    [while (i < size && !(data[i - 1] == '<' && data[i] == '/')) { if (data[i] == '\n') block_lines++; i++; }] *)
Fixpoint close_scan_loop (n : nat) (data : ptr) (i block_lines : nat) : nat * nat :=
  match n with
  | 0 => (i, block_lines)
  | S n' =>
    if negb (ceq (rd data (i - 1)) "<" && ceq (rd data i) "/") then
      close_scan_loop n' data (S i) (if ceq (rd data i) NL then block_lines + 1 else block_lines)
    else (i, block_lines)
  end.

Fixpoint htmlblock_end_loop (n : nat) (curtag : list ascii) (data : ptr) (size : nat)
    (start_of_line : bool) (i block_lines : nat) : nat :=
  match n with
  | 0 => 0
  | S n' =>
    if i <? size then
      let i := i + 1 in
      let '(i, block_lines) := close_scan_loop (size - i) data i block_lines in
      if start_of_line && (0 <? block_lines) && negb (ceq (rd data (i - 2)) NL) then
        htmlblock_end_loop n' curtag data size start_of_line i block_lines
      else if size <=? i + 2 + length curtag then 0
      else
        let end_tag :=
          htmlblock_end_tag curtag (length curtag) (padd data (i - 1)) (size - i + 1) in
        if negb (end_tag =? 0) then i + end_tag - 1
        else htmlblock_end_loop n' curtag data size start_of_line i block_lines
    else 0
  end.

Definition htmlblock_end (curtag : list ascii) (data : ptr) (size : nat)
    (start_of_line : bool) : nat :=
  htmlblock_end_loop size curtag data size start_of_line 1 0.

(** [strcmp(curtag, s) == 0] *)
Definition same_string (a b : list ascii) : bool :=
  if list_eq_dec ascii_dec a b then true else false.

(** [if (do_render && md->md.blockhtml) md->md.blockhtml(ob, &work, opaque); return work.size;] *)
Definition render_blockhtml (ob : hoedown_buffer) (md : hoedown_markdown) (data : ptr)
    (work_size' : nat) (do_render : bool) : handled :=
  match cb_blockhtml (rndr md) with
  | Some blockhtml =>
    if do_render then
      let '(ob, md) := ran md (blockhtml ob (bytes data work_size') (opaque md)) in
      Ret (work_size', ob, md)
    else Ret (work_size', ob, md)
  | None => Ret (work_size', ob, md)
  end.

Definition parse_htmlblock (ob : hoedown_buffer) (md : hoedown_markdown) (data : ptr)
    (size : nat) (do_render : bool) : handled :=
  if (size <? 2) || negb (ceq (rd data 0) "<") then Ret (0, ob, md)
  else
    let i := skip_while (fun i => negb (ceq (rd data i) ">") && negb (ceq (rd data i) " "))
                        size 1 in
    let curtag := if i <? size then hoedown_find_block_tag (padd data 1) (i - 1) else None in
    match curtag with
    | None =>
      (* HR, which is the only self-closing block tag considered *)
      let hr : handled :=
        if (4 <? size) && (ceq (rd data 1) "h" || ceq (rd data 1) "H")
           && (ceq (rd data 2) "r" || ceq (rd data 2) "R") then
          let i := skip_while (fun i => negb (ceq (rd data i) ">")) size 3 in
          if i + 1 <? size then
            let i := i + 1 in
            let j := is_empty (padd data i) (size - i) in
            if negb (j =? 0) then render_blockhtml ob md data (i + j) do_render
            else Ret (0, ob, md)
          else Ret (0, ob, md)
        else Ret (0, ob, md) in
      (* HTML comment, laxist form *)
      if (5 <? size) && ceq (rd data 1) "!" && ceq (rd data 2) "-" && ceq (rd data 3) "-" then
        let i := skip_while (fun i => negb (ceq (rd data (i - 2)) "-" && ceq (rd data (i - 1)) "-"
                                              && ceq (rd data i) ">")) size 5 in
        let i := i + 1 in
        let j := if i <? size then is_empty (padd data i) (size - i) else 0 in
        if negb (j =? 0) then render_blockhtml ob md data (i + j) do_render
        else hr
      else hr
    | Some curtag =>
      (* looking for an unindented matching closing tag followed by a blank line *)
      let tag_end := htmlblock_end curtag data size true in
      (* if not found, trying a second pass looking for indented match *)
      let tag_end :=
        if (tag_end =? 0) && negb (same_string curtag (list_ascii_of_string "ins"))
           && negb (same_string curtag (list_ascii_of_string "del"))
        then htmlblock_end curtag data size false
        else tag_end in
      if tag_end =? 0 then Ret (0, ob, md)
      else render_blockhtml ob md data tag_end do_render
    end.

(* ================================================================== *)
(** ** Block parsing: the block constructs *)

(** [memmove(m + dst, m + src, len)] on the bytes [m]. *)
Definition memmove (m : list ascii) (dst src len : nat) : list ascii :=
  firstn dst m ++ firstn len (skipn src m) ++ skipn (dst + len) m.

(** The loop of [parse_blockquote]: it compacts the quoted text in
    place, so the bytes under [data] change.  [work_data] is an offset
    from [data] ([None] for NULL).  Yields the bytes, [end], [work_data]
    and [work_size]. *)
Fixpoint blockquote_loop (n : nat) (data : ptr) (size beg end_ : nat)
    (work_data : option nat) (work_size' : nat)
  : list ascii * nat * option nat * nat :=
  match n with
  | 0 => (mem data, end_, work_data, work_size')
  | S n' =>
    if beg <? size then
      let end_ := line_end data size beg in
      let pre := prefix_quote (padd data beg) (end_ - beg) in
      if (pre =? 0)
         && negb (is_empty (padd data beg) (end_ - beg) =? 0)
         && ((size <=? end_)
             || ((prefix_quote (padd data end_) (size - end_) =? 0)
                 && (is_empty (padd data end_) (size - end_) =? 0)))
      then (mem data, end_, work_data, work_size')
      else
        let beg := beg + pre in
        if beg <? end_ then
          match work_data with
          | None => blockquote_loop n' data size end_ end_ (Some beg) (work_size' + (end_ - beg))
          | Some w =>
            let data :=
              if negb (beg =? w + work_size')
              then mkptr (memmove (mem data) (idx data + (w + work_size')) (idx data + beg)
                                  (end_ - beg))
                         (idx data)
              else data in
            blockquote_loop n' data size end_ end_ (Some w) (work_size' + (end_ - beg))
          end
        else blockquote_loop n' data size end_ end_ work_data work_size'
    else (mem data, end_, work_data, work_size')
  end.

(** The loop of [parse_fencedcode]: yields [beg] and [work]. *)
Fixpoint fencedcode_loop (n : nat) (data : ptr) (size beg : nat) (work : hoedown_buffer)
  : nat * hoedown_buffer :=
  match n with
  | 0 => (beg, work)
  | S n' =>
    if beg <? size then
      let '(fence_end, fence_trail) := is_codefence (padd data beg) (size - beg) in
      if negb (fence_end =? 0) && (length fence_trail =? 0) then (beg + fence_end, work)
      else
        let end_ := line_end data size beg in
        let work :=
          if beg <? end_ then
            if negb (is_empty (padd data beg) (end_ - beg) =? 0)
            then hoedown_buffer_putc work NL
            else hoedown_buffer_put work (padd data beg) (end_ - beg)
          else work in
        fencedcode_loop n' data size end_ work
    else (beg, work)
  end.

(** The loop of [parse_blockcode]: yields [beg] and [work]. *)
Fixpoint blockcode_loop (n : nat) (data : ptr) (size beg : nat) (work : hoedown_buffer)
  : nat * hoedown_buffer :=
  match n with
  | 0 => (beg, work)
  | S n' =>
    if beg <? size then
      let end_ := line_end data size beg in
      let pre := prefix_code (padd data beg) (end_ - beg) in
      if (pre =? 0) && (is_empty (padd data beg) (end_ - beg) =? 0) then (beg, work)
      else
        let beg := beg + pre in
        let work :=
          if beg <? end_ then
            if negb (is_empty (padd data beg) (end_ - beg) =? 0)
            then hoedown_buffer_putc work NL
            else hoedown_buffer_put work (padd data beg) (end_ - beg)
          else work in
        blockcode_loop n' data size end_ work
    else (beg, work)
  end.

(** [while (work->size && work->data[work->size - 1] == '\n') work->size -= 1;] *)
Fixpoint trim_newlines_loop (n : nat) (work : hoedown_buffer) : hoedown_buffer :=
  match n with
  | 0 => work
  | S n' =>
    if (0 <? length work) && ceq (nth (length work - 1) work NUL) NL
    then trim_newlines_loop n' (firstn (length work - 1) work)
    else work
  end.

(** What the loop of [parse_listitem] leaves behind. *)
Record listitem_scan := mk_listitem_scan {
  li_beg : nat;
  li_work : hoedown_buffer;
  li_sublist : nat;
  li_has_inside_empty : bool;
  li_flags : list_flags
}.

Definition flags_or_end (f : list_flags) : list_flags :=
  mk_list_flags (LIST_ORDERED f) (LI_BLOCK f) true.
Definition flags_or_block (f : list_flags) : list_flags :=
  mk_list_flags (LIST_ORDERED f) true (LI_END f).

(** The loop of [parse_listitem] over the lines after the first. *)
Fixpoint listitem_loop (n : nat) (md : hoedown_markdown) (data : ptr) (size orgpre : nat)
    (beg end_ : nat) (in_empty has_inside_empty in_fence : bool) (sublist : nat)
    (work : hoedown_buffer) (flags : list_flags) : listitem_scan :=
  match n with
  | 0 => mk_listitem_scan beg work sublist has_inside_empty flags
  | S n' =>
    if beg <? size then
      let end_ := end_ + 1 in
      let end_ := skip_while (fun e => negb (ceq (rd data (e - 1)) NL)) size end_ in
      (* process an empty line *)
      if negb (is_empty (padd data beg) (end_ - beg) =? 0) then
        listitem_loop n' md data size orgpre end_ end_ true has_inside_empty in_fence
                      sublist work flags
      else
        (* calculating the indentation *)
        let i := skip_while (fun i => (i <? 4) && ceq (rd data (beg + i)) " ") (end_ - beg) 0 in
        let pre := i in
        let in_fence :=
          if ext_flags md HOEDOWN_EXT_FENCED_CODE then
            if negb (fst (is_codefence (padd data (beg + i)) (end_ - beg - i)) =? 0)
            then negb in_fence else in_fence
          else in_fence in
        let has_next_uli :=
          if negb in_fence then prefix_uli (padd data (beg + i)) (end_ - beg - i) else 0 in
        let has_next_oli :=
          if negb in_fence then prefix_oli (padd data (beg + i)) (end_ - beg - i) else 0 in
        (* checking for ul/ol switch *)
        if in_empty && ((LIST_ORDERED flags && negb (has_next_uli =? 0))
                        || (negb (LIST_ORDERED flags) && negb (has_next_oli =? 0)))
        then mk_listitem_scan beg work sublist has_inside_empty (flags_or_end flags)
        else
          let next (has_inside_empty : bool) (sublist : nat) (work : hoedown_buffer) :=
            let work := hoedown_buffer_put work (padd data (beg + i)) (end_ - beg - i) in
            listitem_loop n' md data size orgpre end_ end_ false has_inside_empty in_fence
                          sublist work flags in
          (* checking for a new item *)
          if (negb (has_next_uli =? 0) && negb (is_hrule (padd data (beg + i)) (end_ - beg - i)))
             || negb (has_next_oli =? 0) then
            let has_inside_empty := if in_empty then true else has_inside_empty in
            if pre =? orgpre
            then mk_listitem_scan beg work sublist has_inside_empty flags
            else next has_inside_empty (if sublist =? 0 then length work else sublist) work
          else if in_empty && (pre =? 0) then
            mk_listitem_scan beg work sublist has_inside_empty (flags_or_end flags)
          else if in_empty then next true sublist (hoedown_buffer_putc work NL)
          else next has_inside_empty sublist work
    else mk_listitem_scan beg work sublist has_inside_empty flags
  end.

Definition cell_flags (f : table_flags) (header_flag : bool) : table_flags :=
  mk_table_flags (TABLE_ALIGN_L f) (TABLE_ALIGN_R f) (TABLE_HEADER f || header_flag).

Definition no_align : table_flags := mk_table_flags false false false.

(** [col_data[col] |= flag] *)
Fixpoint or_col (col_data : list table_flags) (col : nat) (l r : bool) : list table_flags :=
  match col_data, col with
  | [], _ => []
  | f :: rest, 0 =>
    mk_table_flags (TABLE_ALIGN_L f || l) (TABLE_ALIGN_R f || r) (TABLE_HEADER f) :: rest
  | f :: rest, S col' => f :: or_col rest col' l r
  end.

(** [while (i < size && data[i] != '\n') if (data[i++] == '|') pipes++;]
    yielding [i] and [pipes]. *)
Fixpoint count_pipes_loop (n : nat) (data : ptr) (i : nat) (pipes : Z) : nat * Z :=
  match n with
  | 0 => (i, pipes)
  | S n' =>
    if negb (ceq (rd data i) NL) then
      count_pipes_loop n' data (S i) (if ceq (rd data i) "|" then (pipes + 1)%Z else pipes)
    else (i, pipes)
  end.

(** The column loop over the header underline in [parse_table_header],
    yielding [col] and the column data. *)
Fixpoint underline_loop (n : nat) (data : ptr) (under_end columns col i : nat)
    (column_data : list table_flags) : nat * list table_flags :=
  match n with
  | 0 => (col, column_data)
  | S n' =>
    if (col <? columns) && (i <? under_end) then
      let dashes := 0 in
      let i := skip_while (fun i => ceq (rd data i) " ") under_end i in
      let '(i, column_data, dashes) :=
        if ceq (rd data i) ":" then (i + 1, or_col column_data col true false, dashes + 1)
        else (i, column_data, dashes) in
      let i' := skip_while (fun i => ceq (rd data i) "-") under_end i in
      let dashes := dashes + (i' - i) in
      let i := i' in
      let '(i, column_data, dashes) :=
        if (i <? under_end) && ceq (rd data i) ":"
        then (i + 1, or_col column_data col false true, dashes + 1)
        else (i, column_data, dashes) in
      let i := skip_while (fun i => ceq (rd data i) " ") under_end i in
      if (i <? under_end) && negb (ceq (rd data i) "|") && negb (ceq (rd data i) "+")
      then (col, column_data)
      else if dashes <? 3 then (col, column_data)
      else underline_loop n' data under_end columns (col + 1) (i + 1) column_data
    else (col, column_data)
  end.

Section Blocks.

(** The depth allowance left for the inline parser, and the recursive
    [parse_block] the block constructs call; [parse_block] hands back
    the bytes under [data] too, which a blockquote compacts in place. *)
Variable fuel : nat.
Variable parse_block :
  hoedown_buffer -> hoedown_markdown -> ptr -> nat
  -> res (hoedown_buffer * hoedown_markdown * list ascii).

Definition parse_blockquote (ob : hoedown_buffer) (md : hoedown_markdown)
    (data : ptr) (size : nat) : res (nat * hoedown_buffer * hoedown_markdown * list ascii) :=
  let '(out, md) := newbuf md BUFFER_BLOCK in
  let '(m, end_, work_data, work_size') := blockquote_loop size data size 0 0 None 0 in
  let work_ptr :=
    match work_data with
    | Some w => mkptr m (idx data + w)
    | None => mkptr m (idx data)
    end in
  let* (out, md, m) := parse_block out md work_ptr work_size' in
  let '(ob, md) :=
    match cb_blockquote (rndr md) with
    | Some blockquote => ran md (blockquote ob out (opaque md))
    | None => (ob, md)
    end in
  let* md := popbuf md BUFFER_BLOCK in
  Ret (end_, ob, md, m).

(** The line loop of [parse_paragraph], yielding [i], [end] and [level]. *)
Fixpoint paragraph_loop (n : nat) (ob : hoedown_buffer) (md : hoedown_markdown)
    (data : ptr) (size i end_ : nat)
  : res (nat * nat * nat * hoedown_buffer * hoedown_markdown) :=
  match n with
  | 0 => Ret (i, end_, 0, ob, md)
  | S n' =>
    if i <? size then
      let end_ := line_end data size i in
      if negb (is_empty (padd data i) (size - i) =? 0) then Ret (i, end_, 0, ob, md)
      else
        let level := is_headerline (padd data i) (size - i) in
        if negb (level =? 0) then Ret (i, end_, level, ob, md)
        else if is_atxheader md (padd data i) (size - i)
                || is_hrule (padd data i) (size - i)
                || negb (prefix_quote (padd data i) (size - i) =? 0)
        then Ret (i, i, level, ob, md)
        else if ext_flags md HOEDOWN_EXT_LAX_SPACING && negb (isalnum (rd data i)) then
          if negb (prefix_oli (padd data i) (size - i) =? 0)
             || negb (prefix_uli (padd data i) (size - i) =? 0)
          then Ret (i, i, level, ob, md)
          else
            (* see if an html block starts here *)
            let* (html, ob, md) :=
              if ceq (rd data i) "<" && present (cb_blockhtml (rndr md))
              then parse_htmlblock ob md (padd data i) (size - i) false
              else Ret (0, ob, md) in
            if negb (html =? 0) then Ret (i, i, level, ob, md)
            (* see if a code fence starts here *)
            else if ext_flags md HOEDOWN_EXT_FENCED_CODE
                    && negb (fst (is_codefence (padd data i) (size - i)) =? 0)
            then Ret (i, i, level, ob, md)
            else paragraph_loop n' ob md data size end_ end_
        else paragraph_loop n' ob md data size end_ end_
    else Ret (i, end_, 0, ob, md)
  end.

Definition parse_paragraph (ob : hoedown_buffer) (md : hoedown_markdown)
    (data : ptr) (size : nat) : handled :=
  let* (i, end_, level, ob, md) := paragraph_loop size ob md data size 0 0 in
  let work_size' := back_while (fun s => ceq (rd data (s - 1)) NL) 0 i in
  if level =? 0 then
    let '(tmp, md) := newbuf md BUFFER_BLOCK in
    let* (tmp, md) := parse_inline fuel tmp md data work_size' in
    let '(ob, md) :=
      match cb_paragraph (rndr md) with
      | Some paragraph => ran md (paragraph ob tmp (opaque md))
      | None => (ob, md)
      end in
    let* md := popbuf md BUFFER_BLOCK in
    Ret (end_, ob, md)
  else
    let* (work_data, work_size', ob, md) :=
      if 0 <? work_size' then
        let i := work_size' in
        let work_size' := work_size' - 1 in
        let work_size' := back_while (fun s => negb (ceq (rd data s) NL)) 0 work_size' in
        let beg := work_size' + 1 in
        let work_size' := back_while (fun s => ceq (rd data (s - 1)) NL) 0 work_size' in
        if 0 <? work_size' then
          let '(tmp, md) := newbuf md BUFFER_BLOCK in
          let* (tmp, md) := parse_inline fuel tmp md data work_size' in
          let '(ob, md) :=
            match cb_paragraph (rndr md) with
            | Some paragraph => ran md (paragraph ob tmp (opaque md))
            | None => (ob, md)
            end in
          let* md := popbuf md BUFFER_BLOCK in
          Ret (padd data beg, i - beg, ob, md)
        else Ret (data, i, ob, md)
      else Ret (data, work_size', ob, md) in
    let '(header_work, md) := newbuf md BUFFER_SPAN in
    let* (header_work, md) := parse_inline fuel header_work md work_data work_size' in
    let '(ob, md) :=
      match cb_header (rndr md) with
      | Some header => ran md (header ob header_work level (opaque md))
      | None => (ob, md)
      end in
    let* md := popbuf md BUFFER_SPAN in
    Ret (end_, ob, md).

Definition parse_fencedcode (ob : hoedown_buffer) (md : hoedown_markdown)
    (data : ptr) (size : nat) : handled :=
  let '(beg, lang) := is_codefence data size in
  if beg =? 0 then Ret (0, ob, md)
  else
    let '(work, md) := newbuf md BUFFER_BLOCK in
    let '(beg, work) := fencedcode_loop size data size beg work in
    let work :=
      if (0 <? length work) && negb (ceq (nth (length work - 1) work NUL) NL)
      then hoedown_buffer_putc work NL else work in
    let '(ob, md) :=
      match cb_blockcode (rndr md) with
      | Some blockcode =>
        ran md (blockcode ob work (if 0 <? length lang then Some lang else None) (opaque md))
      | None => (ob, md)
      end in
    let* md := popbuf md BUFFER_BLOCK in
    Ret (beg, ob, md).

Definition parse_blockcode (ob : hoedown_buffer) (md : hoedown_markdown)
    (data : ptr) (size : nat) : handled :=
  let '(work, md) := newbuf md BUFFER_BLOCK in
  let '(beg, work) := blockcode_loop size data size 0 work in
  let work := trim_newlines_loop (length work) work in
  let work := hoedown_buffer_putc work NL in
  let '(ob, md) :=
    match cb_blockcode (rndr md) with
    | Some blockcode => ran md (blockcode ob work None (opaque md))
    | None => (ob, md)
    end in
  let* md := popbuf md BUFFER_BLOCK in
  Ret (beg, ob, md).

(** [parse_listitem]: the size taken by the item and the flags it leaves. *)
Definition parse_listitem (ob : hoedown_buffer) (md : hoedown_markdown)
    (data : ptr) (size : nat) (flags : list_flags)
  : res (nat * list_flags * hoedown_buffer * hoedown_markdown) :=
  (* keeping track of the first indentation prefix *)
  let orgpre := skip_while (fun o => (o <? 3) && ceq (rd data o) " ") size 0 in
  let beg := prefix_uli data size in
  let beg := if beg =? 0 then prefix_oli data size else beg in
  if beg =? 0 then Ret (0, flags, ob, md)
  else
    (* skipping to the beginning of the following line *)
    let end_ := skip_while (fun e => negb (ceq (rd data (e - 1)) NL)) size beg in
    (* getting working buffers *)
    let '(work, md) := newbuf md BUFFER_SPAN in
    let '(inter, md) := newbuf md BUFFER_SPAN in
    (* putting the first line into the working buffer *)
    let work := hoedown_buffer_put work (padd data beg) (end_ - beg) in
    let beg := end_ in
    (* process the following lines *)
    let scan := listitem_loop size md data size orgpre beg end_ false false false 0 work flags in
    let beg := li_beg scan in
    let work := li_work scan in
    let sublist := li_sublist scan in
    let flags := li_flags scan in
    (* render of li contents *)
    let flags := if li_has_inside_empty scan then flags_or_block flags else flags in
    let split := negb (sublist =? 0) && (sublist <? length work) in
    let* (inter, md) :=
      if LI_BLOCK flags then
        (* intermediate render of block li *)
        if split then
          let* (inter, md, m) := parse_block inter md (buf_data work) sublist in
          let* (inter, md, _) :=
            parse_block inter md (mkptr m sublist) (length work - sublist) in
          Ret (inter, md)
        else
          let* (inter, md, _) := parse_block inter md (buf_data work) (length work) in
          Ret (inter, md)
      else
        (* intermediate render of inline li *)
        if split then
          let* (inter, md) := parse_inline fuel inter md (buf_data work) sublist in
          let* (inter, md, _) :=
            parse_block inter md (mkptr work sublist) (length work - sublist) in
          Ret (inter, md)
        else parse_inline fuel inter md (buf_data work) (length work) in
    (* render of li itself *)
    let '(ob, md) :=
      match cb_listitem (rndr md) with
      | Some listitem => ran md (listitem ob inter flags (opaque md))
      | None => (ob, md)
      end in
    let* md := popbuf md BUFFER_SPAN in
    let* md := popbuf md BUFFER_SPAN in
    Ret (beg, flags, ob, md).

(** The loop of [parse_list]; every item but a failed one takes bytes. *)
Fixpoint parse_list_loop (n : nat) (work : hoedown_buffer) (md : hoedown_markdown)
    (data : ptr) (size i : nat) (flags : list_flags)
  : res (nat * list_flags * hoedown_buffer * hoedown_markdown) :=
  match n with
  | 0 => Ret (i, flags, work, md)
  | S n' =>
    if i <? size then
      let* (j, flags, work, md) := parse_listitem work md (padd data i) (size - i) flags in
      let i := i + j in
      if (j =? 0) || LI_END flags then Ret (i, flags, work, md)
      else parse_list_loop n' work md data size i flags
    else Ret (i, flags, work, md)
  end.

Definition parse_list (ob : hoedown_buffer) (md : hoedown_markdown)
    (data : ptr) (size : nat) (flags : list_flags) : handled :=
  let '(work, md) := newbuf md BUFFER_BLOCK in
  let* (i, flags, work, md) := parse_list_loop size work md data size 0 flags in
  let '(ob, md) :=
    match cb_list (rndr md) with
    | Some list => ran md (list ob work flags (opaque md))
    | None => (ob, md)
    end in
  let* md := popbuf md BUFFER_BLOCK in
  Ret (i, ob, md).

Definition parse_atxheader (ob : hoedown_buffer) (md : hoedown_markdown)
    (data : ptr) (size : nat) : handled :=
  let level := skip_while (fun l => (l <? 6) && ceq (rd data l) "#") size 0 in
  let i := skip_while (fun i => ceq (rd data i) " ") size level in
  let end_ := skip_while (fun e => negb (ceq (rd data e) NL)) size i in
  let skip := end_ in
  let end_ := back_while (fun e => ceq (rd data (e - 1)) "#") 0 end_ in
  let end_ := back_while (fun e => ceq (rd data (e - 1)) " ") 0 end_ in
  if i <? end_ then
    let '(work, md) := newbuf md BUFFER_SPAN in
    let* (work, md) := parse_inline fuel work md (padd data i) (end_ - i) in
    let '(ob, md) :=
      match cb_header (rndr md) with
      | Some header => ran md (header ob work level (opaque md))
      | None => (ob, md)
      end in
    let* md := popbuf md BUFFER_SPAN in
    Ret (skip, ob, md)
  else Ret (skip, ob, md).

Definition parse_footnote_def (ob : hoedown_buffer) (md : hoedown_markdown)
    (num' : nat) (data : ptr) (size : nat) : res (hoedown_buffer * hoedown_markdown) :=
  let '(work, md) := newbuf md BUFFER_SPAN in
  let* (work, md, _) := parse_block work md data size in
  let '(ob, md) :=
    match cb_footnote_def (rndr md) with
    | Some footnote_def => ran md (footnote_def ob work num' (opaque md))
    | None => (ob, md)
    end in
  let* md := popbuf md BUFFER_SPAN in
  Ret (ob, md).

(** How many entries of [footnotes_found] are not marked used yet. *)
Fixpoint unused_count (found : list footnote_ref) : nat :=
  match found with
  | [] => 0
  | r :: rest => (if is_used r then 0 else 1) + unused_count rest
  end.

(** The [while (item)] loop of [parse_footnote_list] over the list of
    used footnotes, [k] being the position of [item].  The list grows
    while it is walked, when a footnote body refers to a footnote not
    used before; every round either moves on or uses up an unused
    entry, and [n] counts the rounds. *)
Fixpoint footnote_items (n : nat) (k : nat) (work : hoedown_buffer) (md : hoedown_markdown)
  : res (hoedown_buffer * hoedown_markdown) :=
  if k <? length (footnotes_used md) then
    match n with
    | 0 => Fault OutOfFuel
    | S n' =>
      let ref := nth (nth k (footnotes_used md) 0) (footnotes_found md) no_footnote in
      let* (work, md) :=
        parse_footnote_def work md (num ref) (buf_data (contents ref))
                           (length (contents ref)) in
      footnote_items n' (S k) work md
    end
  else Ret (work, md).

(** [parse_footnote_list (ob, md, &md->footnotes_used)] *)
Definition parse_footnote_list (ob : hoedown_buffer) (md : hoedown_markdown)
  : res (hoedown_buffer * hoedown_markdown) :=
  if length (footnotes_used md) =? 0 then Ret (ob, md)
  else
    let '(work, md) := newbuf md BUFFER_BLOCK in
    let* (work, md) :=
      footnote_items (length (footnotes_used md) + unused_count (footnotes_found md))
                     0 work md in
    let '(ob, md) :=
      match cb_footnotes (rndr md) with
      | Some footnotes => ran md (footnotes ob work (opaque md))
      | None => (ob, md)
      end in
    let* md := popbuf md BUFFER_BLOCK in
    Ret (ob, md).

(** The column loop of [parse_table_row], yielding [col], [i] and the row. *)
Fixpoint table_row_loop (n : nat) (row_work : hoedown_buffer) (md : hoedown_markdown)
    (data : ptr) (size columns : nat) (col_data : list table_flags) (header_flag : bool)
    (col i : nat) : res (nat * hoedown_buffer * hoedown_markdown) :=
  match n with
  | 0 => Ret (col, row_work, md)
  | S n' =>
    if (col <? columns) && (i <? size) then
      let '(cell_work, md) := newbuf md BUFFER_SPAN in
      let i := skip_while (fun i => _isspace (rd data i)) size i in
      let cell_start := i in
      let i := skip_while (fun i => negb (ceq (rd data i) "|")) size i in
      let cell_end := i - 1 in
      let cell_end := back_while (fun e => _isspace (rd data e)) cell_start cell_end in
      let* (cell_work, md) :=
        parse_inline fuel cell_work md (padd data cell_start) (1 + cell_end - cell_start) in
      let* table_cell := call (cb_table_cell (rndr md)) in
      let '(row_work, md) :=
        ran md (table_cell row_work cell_work
                           (cell_flags (nth col col_data no_align) header_flag) (opaque md)) in
      let* md := popbuf md BUFFER_SPAN in
      table_row_loop n' row_work md data size columns col_data header_flag (col + 1) (i + 1)
    else Ret (col, row_work, md)
  end.

(** [for (; col < columns; ++col)] in [parse_table_row]: the cells the
    row is short of. *)
Fixpoint empty_cells_loop (n : nat) (row_work : hoedown_buffer) (md : hoedown_markdown)
    (col_data : list table_flags) (header_flag : bool) (col : nat)
  : res (hoedown_buffer * hoedown_markdown) :=
  match n with
  | 0 => Ret (row_work, md)
  | S n' =>
    let* table_cell := call (cb_table_cell (rndr md)) in
    let '(row_work, md) :=
      ran md (table_cell row_work []
                         (cell_flags (nth col col_data no_align) header_flag) (opaque md)) in
    empty_cells_loop n' row_work md col_data header_flag (col + 1)
  end.

Definition parse_table_row (ob : hoedown_buffer) (md : hoedown_markdown)
    (data : ptr) (size columns : nat) (col_data : list table_flags) (header_flag : bool)
  : res (hoedown_buffer * hoedown_markdown) :=
  if negb (present (cb_table_cell (rndr md))) || negb (present (cb_table_row (rndr md)))
  then Ret (ob, md)
  else
    let '(row_work, md) := newbuf md BUFFER_SPAN in
    let i := 0 in
    let i := if (i <? size) && ceq (rd data i) "|" then i + 1 else i in
    let* (col, row_work, md) :=
      table_row_loop columns row_work md data size columns col_data header_flag 0 i in
    let* (row_work, md) :=
      empty_cells_loop (columns - col) row_work md col_data header_flag col in
    let* table_row := call (cb_table_row (rndr md)) in
    let '(ob, md) := ran md (table_row ob row_work (opaque md)) in
    let* md := popbuf md BUFFER_SPAN in
    Ret (ob, md).

(** [parse_table_header]: the size taken, [*columns] and [*column_data]. *)
Definition parse_table_header (ob : hoedown_buffer) (md : hoedown_markdown)
    (data : ptr) (size : nat)
  : res (nat * nat * list table_flags * hoedown_buffer * hoedown_markdown) :=
  let '(i, pipes) := count_pipes_loop size data 0 0%Z in
  if (i =? size) || (pipes =? 0)%Z then Ret (0, 0, [], ob, md)
  else
    let header_end := i in
    let header_end := back_while (fun h => _isspace (rd data (h - 1))) 0 header_end in
    let pipes := if ceq (rd data 0) "|" then (pipes - 1)%Z else pipes in
    let pipes :=
      if (0 <? header_end) && ceq (rd data (header_end - 1)) "|"
      then (pipes - 1)%Z else pipes in
    if (pipes <? 0)%Z then Ret (0, 0, [], ob, md)
    else
      let columns := Z.to_nat pipes + 1 in
      let column_data := repeat no_align columns in
      (* Parse the header underline *)
      let i := i + 1 in
      let i := if (i <? size) && ceq (rd data i) "|" then i + 1 else i in
      let under_end := skip_while (fun u => negb (ceq (rd data u) NL)) size i in
      let '(col, column_data) := underline_loop columns data under_end columns 0 i column_data in
      if col <? columns then Ret (0, columns, column_data, ob, md)
      else
        let* (ob, md) := parse_table_row ob md data header_end columns column_data true in
        Ret (under_end + 1, columns, column_data, ob, md).

(** The row loop of [parse_table], yielding [i] and the body. *)
Fixpoint table_body_loop (n : nat) (body_work : hoedown_buffer) (md : hoedown_markdown)
    (data : ptr) (size columns : nat) (col_data : list table_flags) (i : nat)
  : res (nat * hoedown_buffer * hoedown_markdown) :=
  match n with
  | 0 => Ret (i, body_work, md)
  | S n' =>
    if i <? size then
      let row_start := i in
      let '(i, pipes) := count_pipes_loop (size - i) data i 0%Z in
      if (pipes =? 0)%Z || (i =? size) then Ret (row_start, body_work, md)
      else
        let* (body_work, md) :=
          parse_table_row body_work md (padd data row_start) (i - row_start)
                          columns col_data false in
        table_body_loop n' body_work md data size columns col_data (i + 1)
    else Ret (i, body_work, md)
  end.

Definition parse_table (ob : hoedown_buffer) (md : hoedown_markdown)
    (data : ptr) (size : nat) : handled :=
  let '(header_work, md) := newbuf md BUFFER_SPAN in
  let '(body_work, md) := newbuf md BUFFER_BLOCK in
  let* (i, columns, col_data, header_work, md) := parse_table_header header_work md data size in
  let* (i, ob, md) :=
    if 0 <? i then
      let* (i, body_work, md) := table_body_loop size body_work md data size columns col_data i in
      let '(ob, md) :=
        match cb_table (rndr md) with
        | Some table => ran md (table ob header_work body_work (opaque md))
        | None => (ob, md)
        end in
      Ret (i, ob, md)
    else Ret (i, ob, md) in
  let* md := popbuf md BUFFER_SPAN in
  let* md := popbuf md BUFFER_BLOCK in
  Ret (i, ob, md).

(** The [while (beg < size)] loop of [parse_block].  A round that took
    no bytes would be repeated for ever; [n] counts the rounds. *)
Fixpoint parse_block_loop (n : nat) (ob : hoedown_buffer) (md : hoedown_markdown)
    (data : ptr) (size beg : nat) : res (hoedown_buffer * hoedown_markdown * list ascii) :=
  if beg <? size then
    match n with
    | 0 => Fault OutOfFuel
    | S n' =>
      let txt_data := padd data beg in
      let end_ := size - beg in
      let next (r : nat * hoedown_buffer * hoedown_markdown) :=
        let '(i, ob, md) := r in
        parse_block_loop n' ob md data size (beg + i) in
      if is_atxheader md txt_data end_ then
        let* r := parse_atxheader ob md txt_data end_ in next r
      else
        let* (i, ob, md) :=
          if ceq (rd data beg) "<" && present (cb_blockhtml (rndr md))
          then parse_htmlblock ob md txt_data end_ true
          else Ret (0, ob, md) in
        if negb (i =? 0) then next (i, ob, md)
        else
          let i := is_empty txt_data end_ in
          if negb (i =? 0) then next (i, ob, md)
          else if is_hrule txt_data end_ then
            let '(ob, md) :=
              match cb_hrule (rndr md) with
              | Some hrule => ran md (hrule ob (opaque md))
              | None => (ob, md)
              end in
            let beg := skip_while (fun b => negb (ceq (rd data b) NL)) size beg in
            parse_block_loop n' ob md data size (beg + 1)
          else
            let* (i, ob, md) :=
              if ext_flags md HOEDOWN_EXT_FENCED_CODE
              then parse_fencedcode ob md txt_data end_
              else Ret (0, ob, md) in
            if negb (i =? 0) then next (i, ob, md)
            else
              let* (i, ob, md) :=
                if ext_flags md HOEDOWN_EXT_TABLES
                then parse_table ob md txt_data end_
                else Ret (0, ob, md) in
              if negb (i =? 0) then next (i, ob, md)
              else if negb (prefix_quote txt_data end_ =? 0) then
                let* (i, ob, md, m) := parse_blockquote ob md txt_data end_ in
                parse_block_loop n' ob md (mkptr m (idx data)) size (beg + i)
              else if negb (ext_flags md HOEDOWN_EXT_DISABLE_INDENTED_CODE)
                      && negb (prefix_code txt_data end_ =? 0) then
                let* r := parse_blockcode ob md txt_data end_ in next r
              else if negb (prefix_uli txt_data end_ =? 0) then
                let* r := parse_list ob md txt_data end_ (mk_list_flags false false false) in
                next r
              else if negb (prefix_oli txt_data end_ =? 0) then
                let* r := parse_list ob md txt_data end_ (mk_list_flags true false false) in
                next r
              else
                let* r := parse_paragraph ob md txt_data end_ in next r
    end
  else Ret (ob, md, mem data).

(** [parse_block] past its nesting check. *)
Definition parse_block_body (ob : hoedown_buffer) (md : hoedown_markdown)
    (data : ptr) (size : nat) : res (hoedown_buffer * hoedown_markdown * list ascii) :=
  parse_block_loop size ob md data size 0.

End Blocks.

(** [parse_block].  [fuel] bounds the depth of the recursion, through
    the block constructs and through [parse_inline]; a call over the
    nesting limit returns before using any. *)
Fixpoint parse_block (fuel : nat) (ob : hoedown_buffer) (md : hoedown_markdown)
    (data : ptr) (size : nat) : res (hoedown_buffer * hoedown_markdown * list ascii) :=
  if max_nesting md <? work_span md + work_block md then Ret (ob, md, mem data)
  else
    match fuel with
    | 0 => Fault OutOfFuel
    | S fuel' => parse_block_body fuel' (parse_block fuel') ob md data size
    end.

(* ================================================================== *)
(** ** Reference parsing (first pass) *)

(** The leading spaces of a definition line: up to three, [None] when a
    fourth follows ([return 0]). *)
Definition def_indent (data : ptr) (beg : nat) : option nat :=
  if ceq (rd data beg) " " then
    if ceq (rd data (beg + 1)) " " then
      if ceq (rd data (beg + 2)) " " then
        if ceq (rd data (beg + 3)) " " then None else Some 3
      else Some 2
    else Some 1
  else Some 0.

Definition is_eol (c : ascii) : bool := ceq c NL || ceq c CR.

(** [i++; if (i < end && data[i] == '\n' && data[i - 1] == '\r') i++;]
    when [data[i]] ends a line. *)
Definition skip_eol (data : ptr) (end_ i : nat) : nat :=
  if (i <? end_) && is_eol (rd data i) then
    let i := i + 1 in
    if (i <? end_) && ceq (rd data i) NL && ceq (rd data (i - 1)) CR then i + 1 else i
  else i.

(** The line loop of [is_footnote], yielding [start] and [contents]. *)
Fixpoint footnote_body_loop (n : nat) (data : ptr) (end_ id_end : nat) (i start : nat)
    (in_empty : bool) (contents' : hoedown_buffer) : nat * hoedown_buffer :=
  match n with
  | 0 => (start, contents')
  | S n' =>
    if i <? end_ then
      let i := skip_while (fun i => negb (is_eol (rd data i))) end_ i in
      (* process an empty line *)
      if negb (is_empty (padd data start) (i - start) =? 0) then
        let i := skip_eol data end_ i in
        footnote_body_loop n' data end_ id_end i i true contents'
      else
        (* calculating the indentation *)
        let ind := skip_while (fun ind => (ind <? 4) && ceq (rd data (start + ind)) " ")
                              (end_ - start) 0 in
        if (ind =? 0) && negb ((start =? id_end + 2) && ceq (rd data start) TAB)
        then (start, contents')
        else
          let contents' :=
            if negb (ind =? 0) && in_empty then hoedown_buffer_putc contents' NL
            else contents' in
          (* adding the line into the content buffer *)
          let contents' :=
            hoedown_buffer_put contents' (padd data (start + ind)) (i - start - ind) in
          (* add carriage return *)
          let contents' := if i <? end_ then hoedown_buffer_putc contents' NL else contents' in
          let i := skip_eol data end_ i in
          footnote_body_loop n' data end_ id_end i i false contents'
    else (start, contents')
  end.

(** [is_footnote (data, beg, end, &last, list)]: whether the line starts
    a footnote definition, [*last], and the list with the definition. *)
Definition is_footnote (data : ptr) (beg end_ : nat) (list_ : list footnote_ref)
  : bool * nat * list footnote_ref :=
  let no := (false, 0, list_) in
  if end_ <=? beg + 3 then no
  else
    match def_indent data beg with
    | None => no
    | Some i =>
      let i := i + beg in
      (* id part: caret followed by anything between brackets *)
      if negb (ceq (rd data i) "[") then no
      else
        let i := i + 1 in
        if (end_ <=? i) || negb (ceq (rd data i) "^") then no
        else
          let i := i + 1 in
          let id_offset := i in
          let i := skip_while (fun i => negb (is_eol (rd data i)) && negb (ceq (rd data i) "]"))
                              end_ i in
          if (end_ <=? i) || negb (ceq (rd data i) "]") then no
          else
            let id_end := i in
            let i := i + 1 in
            if (end_ <=? i) || negb (ceq (rd data i) ":") then no
            else
              let i := i + 1 in
              let '(start, contents') :=
                footnote_body_loop end_ data end_ id_end i i false [] in
              let ref :=
                mk_footnote_ref (hash_link_ref (padd data id_offset) (id_end - id_offset))
                                false 0 contents' in
              (true, start, list_ ++ [ref])
    end.

(** [is_ref (data, beg, end, &last, refs)]: whether the line is a link
    reference, [*last], and the table with the reference. *)
Definition is_ref (data : ptr) (beg end_ : nat) (refs' : ref_table)
  : bool * nat * ref_table :=
  let no := (false, 0, refs') in
  if end_ <=? beg + 3 then no
  else
    match def_indent data beg with
    | None => no
    | Some i =>
      let i := i + beg in
      (* id part: anything but a newline between brackets *)
      if negb (ceq (rd data i) "[") then no
      else
        let i := i + 1 in
        let id_offset := i in
        let i := skip_while (fun i => negb (is_eol (rd data i)) && negb (ceq (rd data i) "]"))
                            end_ i in
        if (end_ <=? i) || negb (ceq (rd data i) "]") then no
        else
          let id_end := i in
          (* spacer: colon, spaces, an optional newline, spaces *)
          let i := i + 1 in
          if (end_ <=? i) || negb (ceq (rd data i) ":") then no
          else
            let i := i + 1 in
            let i := skip_while (fun i => ceq (rd data i) " ") end_ i in
            let i :=
              if (i <? end_) && is_eol (rd data i) then
                let i := i + 1 in
                if (i <? end_) && ceq (rd data i) CR && ceq (rd data (i - 1)) NL
                then i + 1 else i
              else i in
            let i := skip_while (fun i => ceq (rd data i) " ") end_ i in
            if end_ <=? i then no
            else
              (* link: whitespace-free sequence, optionally between angle brackets *)
              let i := if ceq (rd data i) "<" then i + 1 else i in
              let link_offset := i in
              let i := skip_while (fun i => negb (ceq (rd data i) " ")
                                            && negb (is_eol (rd data i))) end_ i in
              let link_end := if ceq (rd data (i - 1)) ">" then i - 1 else i in
              (* optional spacer: spaces, then a newline, a quote or a parenthesis *)
              let i := skip_while (fun i => ceq (rd data i) " ") end_ i in
              if (i <? end_) && negb (is_eol (rd data i)) && negb (ceq (rd data i) SQUOTE)
                 && negb (ceq (rd data i) DQUOTE) && negb (ceq (rd data i) "(")
              then no
              else
                (* computing end-of-line *)
                let line_end := 0 in
                let line_end :=
                  if (end_ <=? i) || ceq (rd data i) CR || ceq (rd data i) NL
                  then i else line_end in
                let line_end :=
                  if (i + 1 <? end_) && ceq (rd data i) NL && ceq (rd data (i + 1)) CR
                  then i + 1 else line_end in
                (* optional spacer after a newline *)
                let i :=
                  if negb (line_end =? 0)
                  then skip_while (fun i => ceq (rd data i) " ") end_ (line_end + 1)
                  else i in
                (* optional title: any non-newline sequence enclosed in quotes or
                   parentheses, alone on its line *)
                let '(title_offset, title_end, line_end) :=
                  if (i + 1 <? end_)
                     && (ceq (rd data i) SQUOTE || ceq (rd data i) DQUOTE || ceq (rd data i) "(")
                  then
                    let i := i + 1 in
                    let title_offset := i in
                    (* looking for EOL *)
                    let i := skip_while (fun i => negb (is_eol (rd data i))) end_ i in
                    let title_end :=
                      if (i + 1 <? end_) && ceq (rd data i) NL && ceq (rd data (i + 1)) CR
                      then i + 1 else i in
                    (* stepping back *)
                    let i := i - 1 in
                    let i := back_while (fun i => ceq (rd data i) " ") title_offset i in
                    if (title_offset <? i)
                       && (ceq (rd data i) SQUOTE || ceq (rd data i) DQUOTE
                           || ceq (rd data i) ")")
                    then (title_offset, i, title_end)
                    else (title_offset, title_end, line_end)
                  else (0, 0, line_end) in
                if (line_end =? 0) || (link_end =? link_offset) then no
                else
                  (* a valid ref has been found, filling-in return structures *)
                  let link := bytes (padd data link_offset) (link_end - link_offset) in
                  let title :=
                    if title_offset <? title_end
                    then Some (bytes (padd data title_offset) (title_end - title_offset))
                    else None in
                  (true, line_end,
                   define_ref refs' (padd data id_offset) (id_end - id_offset) link title)
    end.

(** [do { hoedown_buffer_putc(ob, ' '); tab++; } while (tab % 4);] *)
Fixpoint tab_fill (n : nat) (ob : hoedown_buffer) (tab : nat) : hoedown_buffer * nat :=
  match n with
  | 0 => (ob, tab)
  | S n' =>
    let ob := hoedown_buffer_putc ob " " in
    let tab := tab + 1 in
    if negb (tab mod 4 =? 0) then tab_fill n' ob tab else (ob, tab)
  end.

Fixpoint expand_tabs_loop (n : nat) (ob : hoedown_buffer) (line : ptr) (size i tab : nat)
  : hoedown_buffer :=
  match n with
  | 0 => ob
  | S n' =>
    if i <? size then
      let org := i in
      let i := skip_while (fun i => negb (ceq (rd line i) TAB)) size i in
      let tab := tab + (i - org) in
      let ob := if org <? i then hoedown_buffer_put ob (padd line org) (i - org) else ob in
      if size <=? i then ob
      else
        let '(ob, tab) := tab_fill 4 ob tab in
        expand_tabs_loop n' ob line size (i + 1) tab
    else ob
  end.

Definition expand_tabs (ob : hoedown_buffer) (line : ptr) (size : nat) : hoedown_buffer :=
  expand_tabs_loop size ob line size 0 0.

(* ================================================================== *)
(** ** Exported functions *)

(** The [active_char] table [hoedown_markdown_new] fills in. *)
Definition new_active_char (extensions : hoedown_extensions -> bool)
    (renderer : hoedown_renderer) (c : ascii) : markdown_char_t :=
  let emph := present (cb_emphasis renderer) || present (cb_double_emphasis renderer)
              || present (cb_triple_emphasis renderer) in
  if emph && (ceq c "*" || ceq c "_") then MD_CHAR_EMPHASIS
  else if emph && extensions HOEDOWN_EXT_STRIKETHROUGH && ceq c "~" then MD_CHAR_EMPHASIS
  else if emph && extensions HOEDOWN_EXT_HIGHLIGHT && ceq c "=" then MD_CHAR_EMPHASIS
  else if present (cb_codespan renderer) && ceq c BTICK then MD_CHAR_CODESPAN
  else if present (cb_linebreak renderer) && ceq c NL then MD_CHAR_LINEBREAK
  else if (present (cb_image renderer) || present (cb_link renderer)) && ceq c "["
  then MD_CHAR_LINK
  else if ceq c "<" then MD_CHAR_LANGLE
  else if ceq c BSLASH then MD_CHAR_ESCAPE
  else if ceq c "&" then MD_CHAR_ENTITITY
  else if extensions HOEDOWN_EXT_AUTOLINK && ceq c ":" then MD_CHAR_AUTOLINK_URL
  else if extensions HOEDOWN_EXT_AUTOLINK && ceq c "@" then MD_CHAR_AUTOLINK_EMAIL
  else if extensions HOEDOWN_EXT_AUTOLINK && ceq c "w" then MD_CHAR_AUTOLINK_WWW
  else if extensions HOEDOWN_EXT_SUPERSCRIPT && ceq c "^" then MD_CHAR_SUPERSCRIPT
  else if extensions HOEDOWN_EXT_QUOTE && ceq c DQUOTE then MD_CHAR_QUOTE
  else MD_CHAR_NONE.

(** The parser [hoedown_markdown_new] makes, past its assertion, with
    the initial state behind [renderer->opaque]. *)
Definition new_markdown (extensions : hoedown_extensions -> bool)
    (max_nesting' : nat) (renderer : hoedown_renderer) (o : O) : hoedown_markdown :=
  mk_md renderer o no_refs [] [] (new_active_char extensions renderer)
        0 0 extensions max_nesting' false.

(** [hoedown_markdown_new (extensions, max_nesting, renderer)].  It
    begins with [assert(max_nesting > 0 && renderer)]; the renderer is
    there by its type. *)
Definition hoedown_markdown_new (extensions : hoedown_extensions -> bool)
    (max_nesting' : nat) (renderer : hoedown_renderer) (o : O) : res hoedown_markdown :=
  if 0 <? max_nesting' then Ret (new_markdown extensions max_nesting' renderer o)
  else Fault AssertFailed.

Definition UTF8_BOM : list ascii := ["239"; "187"; "191"]%char.

(** The newline loop of the first pass:
    [while (end < doc_size && (document[end] == '\n' || document[end] == '\r')) { ... end++; }] *)
Fixpoint newlines_loop (n : nat) (text : hoedown_buffer) (document : ptr)
    (doc_size end_ : nat) : hoedown_buffer * nat :=
  match n with
  | 0 => (text, end_)
  | S n' =>
    if is_eol (rd document end_) then
      (* add one \n per newline *)
      let text :=
        if ceq (rd document end_) NL
           || ((end_ + 1 <? doc_size) && negb (ceq (rd document (end_ + 1)) NL))
        then hoedown_buffer_putc text NL else text in
      newlines_loop n' text document doc_size (end_ + 1)
    else (text, end_)
  end.

(** The first pass of [hoedown_markdown_render]: looking for references,
    copying everything else.  A definition that ended where it began
    would be read for ever; [n] counts the rounds. *)
Fixpoint first_pass (n : nat) (md : hoedown_markdown) (text : hoedown_buffer)
    (document : ptr) (doc_size beg : nat) : res (hoedown_buffer * hoedown_markdown) :=
  if beg <? doc_size then
    match n with
    | 0 => Fault OutOfFuel
    | S n' =>
      let footnotes_enabled := ext_flags md HOEDOWN_EXT_FOOTNOTES in
      let '(fn, fn_end, found) :=
        if footnotes_enabled then is_footnote document beg doc_size (footnotes_found md)
        else (false, 0, footnotes_found md) in
      if fn then
        first_pass n' (set_footnotes md found (footnotes_used md)) text document doc_size fn_end
      else
        let '(rf, rf_end, refs') := is_ref document beg doc_size (refs md) in
        if rf then first_pass n' (set_refs md refs') text document doc_size rf_end
        else
          (* skipping to the next line *)
          let end_ := skip_while (fun e => negb (is_eol (rd document e))) doc_size beg in
          (* adding the line body if present *)
          let text :=
            if beg <? end_ then expand_tabs text (padd document beg) (end_ - beg) else text in
          let '(text, end_) := newlines_loop (doc_size - end_) text document doc_size end_ in
          first_pass n' md text document doc_size end_
    end
  else Ret (text, md).

(** [hoedown_markdown_render (ob, document, doc_size, md)].  [fuel] is
    the depth allowance of the recursive parsers. *)
Definition hoedown_markdown_render (fuel : nat) (ob : hoedown_buffer)
    (document : hoedown_buffer) (doc_size : nat) (md : hoedown_markdown)
  : res (hoedown_buffer * hoedown_markdown) :=
  let text : hoedown_buffer := [] in
  (* reset the references table *)
  let md := set_refs md no_refs in
  let footnotes_enabled := ext_flags md HOEDOWN_EXT_FOOTNOTES in
  (* reset the footnotes lists *)
  let md := if footnotes_enabled then set_footnotes md [] [] else md in
  (* first pass: looking for references, copying everything else *)
  let beg := 0 in
  let beg :=
    if (3 <=? doc_size)
       && (if list_eq_dec ascii_dec (firstn 3 document) UTF8_BOM then true else false)
    then beg + 3 else beg in
  let* (text, md) := first_pass doc_size md text (buf_data document) doc_size beg in
  (* second pass: actual rendering *)
  let '(ob, md) :=
    match cb_doc_header (rndr md) with
    | Some doc_header => ran md (doc_header ob (opaque md))
    | None => (ob, md)
    end in
  let* (ob, md) :=
    if 0 <? length text then
      (* adding a final newline if not already present *)
      let text :=
        if negb (ceq (nth (length text - 1) text NUL) NL)
           && negb (ceq (nth (length text - 1) text NUL) CR)
        then hoedown_buffer_putc text NL else text in
      let* (ob, md, _) := parse_block fuel ob md (buf_data text) (length text) in
      Ret (ob, md)
    else Ret (ob, md) in
  (* footnotes *)
  let* (ob, md) :=
    if footnotes_enabled then parse_footnote_list (parse_block fuel) ob md
    else Ret (ob, md) in
  let '(ob, md) :=
    match cb_doc_footer (rndr md) with
    | Some doc_footer => ran md (doc_footer ob (opaque md))
    | None => (ob, md)
    end in
  (* assert(md->work_bufs[BUFFER_SPAN].size == 0);
     assert(md->work_bufs[BUFFER_BLOCK].size == 0); *)
  if (work_size md BUFFER_SPAN =? 0) && (work_size md BUFFER_BLOCK =? 0)
  then Ret (ob, md)
  else Fault AssertFailed.

End Parser.

(* ================================================================== *)
(** ** Concrete inputs and renderers used by the examples *)

(** The bytes of a string literal. *)
Definition str (s : string) : list ascii := list_ascii_of_string s.

(** Scanners that never find an autolink, and no block tags. *)
Definition no_scan (link : hoedown_buffer) (data : ptr) (offset size : nat)
  : nat * nat * hoedown_buffer := (0, 0, link).

Definition no_externals : Externals :=
  Build_Externals no_scan no_scan no_scan (fun _ _ => None).

(** A link-reference definition: name, link and title. *)
Definition definition : Type := list ascii * hoedown_buffer * option hoedown_buffer.

(** The table after the definitions [defs] were added in order. *)
Definition define_all (t : ref_table) (defs : list definition) : ref_table :=
  fold_left (fun t d =>
               let '(name, lnk, ttl) := d in
               define_ref t (buf_data name) (length name) lnk ttl)
            defs t.

(** The entry a definition leaves in the table. *)
Definition entry_of (d : definition) : link_ref :=
  let '(name, lnk, ttl) := d in
  mk_link_ref (hash_link_ref (buf_data name) (length name)) (Some lnk) ttl.

Definition hash_of (d : definition) : Z :=
  let '(name, _, _) := d in hash_link_ref (buf_data name) (length name).

(** A renderer over no state that wraps each construct in a tag, in the
    manner of the spec's end-to-end scenarios. *)
Definition tagged (tag : string) (ob content : hoedown_buffer) : hoedown_buffer :=
  ob ++ str "<" ++ str tag ++ str ">" ++ content ++ str "</" ++ str tag ++ str ">".

Definition span_cb (tag : string) (ob content : hoedown_buffer) (o : unit)
  : out_int unit := (true, tagged tag ob content, o).

Definition block_cb (tag : string) (ob content : hoedown_buffer) (o : unit)
  : out_void unit := (tagged tag ob content, o).

Definition or_empty (b : option hoedown_buffer) : hoedown_buffer :=
  match b with Some x => x | None => [] end.

Definition tag_renderer : hoedown_renderer unit :=
  {| cb_blockcode := Some (fun ob text lang o => block_cb "pre" ob text o);
     cb_blockquote := Some (block_cb "blockquote");
     cb_blockhtml := Some (fun ob text o => (ob ++ text, o));
     cb_header := Some (fun ob text level o => block_cb "h" ob text o);
     cb_hrule := Some (fun ob o => (ob ++ str "<hr>", o));
     cb_list := Some (fun ob text flags o =>
                        block_cb (if LIST_ORDERED flags then "ol" else "ul") ob text o);
     cb_listitem := Some (fun ob text flags o => block_cb "li" ob text o);
     cb_paragraph := Some (block_cb "p");
     cb_table := Some (fun ob header body o => block_cb "table" ob (header ++ body) o);
     cb_table_row := Some (block_cb "tr");
     cb_table_cell := Some (fun ob text flags o =>
                              block_cb (if TABLE_HEADER flags then "th" else "td") ob text o);
     cb_footnotes := Some (block_cb "footnotes");
     cb_footnote_def := Some (fun ob text num o => block_cb "fn" ob text o);
     cb_autolink := Some (fun ob link type o => span_cb "auto" ob link o);
     cb_codespan := Some (fun ob text o => span_cb "code" ob (or_empty text) o);
     cb_double_emphasis := Some (span_cb "strong");
     cb_emphasis := Some (span_cb "em");
     cb_underline := Some (span_cb "u");
     cb_highlight := Some (span_cb "mark");
     cb_quote := Some (fun ob text o => span_cb "q" ob (or_empty text) o);
     cb_image := Some (fun ob link title alt o =>
                         span_cb "img" ob (or_empty link ++ str "|" ++ or_empty alt) o);
     cb_linebreak := Some (fun ob o => (true, ob ++ str "<br>", o));
     cb_link := Some (fun ob link title content o =>
                        span_cb "a" ob (or_empty link ++ str "|" ++ or_empty content) o);
     cb_raw_html_tag := Some (fun ob tag o => (true, ob ++ tag, o));
     cb_triple_emphasis := None;
     cb_strikethrough := Some (span_cb "del");
     cb_superscript := Some (span_cb "sup");
     cb_footnote_ref := Some (fun ob num o => (true, ob ++ str "<fnref>", o));
     cb_entity := None;
     cb_normal_text := None;
     cb_doc_header := None;
     cb_doc_footer := None |}.

Definition all_extensions (e : hoedown_extensions) : bool := true.
Definition no_extensions (e : hoedown_extensions) : bool := false.

(** The AUTOLINK extension alone. *)
Definition autolinking (e : hoedown_extensions) : bool :=
  match e with
  | HOEDOWN_EXT_AUTOLINK => true
  | _ => false
  end.

(** A scanner for the examples in the place of [hoedown_autolink__www]:
    it takes the bytes that begin with [www.] up to the next space,
    newline or closing bracket, and rewinds nothing. *)
Definition www_scan (link : hoedown_buffer) (data : ptr) (offset size : nat)
  : nat * nat * hoedown_buffer :=
  if (4 <=? size) && ceq (rd data 0) "w" && ceq (rd data 1) "w" && ceq (rd data 2) "w"
     && ceq (rd data 3) "."
  then
    let n := skip_while (fun i => negb (_isspace (rd data i)) && negb (ceq (rd data i) "]"))
                        size 0 in
    (n, 0, link ++ bytes data n)
  else (0, 0, link).

Definition www_externals : Externals :=
  Build_Externals www_scan no_scan no_scan (fun _ _ => None).

(** A recursive parser with the bound on the pools asserted on entry:
    [assert(work_bufs[BUFFER_SPAN].size + work_bufs[BUFFER_BLOCK].size <= max_nesting)]. *)
Definition bound_asserted {O : Type}
    (rec : hoedown_buffer -> hoedown_markdown O -> ptr -> nat
           -> res (hoedown_buffer * hoedown_markdown O))
    (ob : hoedown_buffer) (md : hoedown_markdown O) (data : ptr) (size : nat)
  : res (hoedown_buffer * hoedown_markdown O) :=
  if max_nesting md <? work_span md + work_block md then Fault AssertFailed
  else rec ob md data size.

(** An [int] callback that declines and leaves the output alone. *)
Definition decline1 {A : Type} (ob : hoedown_buffer) (a : A) (o : unit) : out_int unit :=
  (false, ob, o).

(** A renderer all of whose inline callbacks decline. *)
Definition declining_renderer : hoedown_renderer unit :=
  {| cb_blockcode := None;
     cb_blockquote := None;
     cb_blockhtml := None;
     cb_header := None;
     cb_hrule := None;
     cb_list := None;
     cb_listitem := None;
     cb_paragraph := Some (block_cb "p");
     cb_table := None;
     cb_table_row := None;
     cb_table_cell := None;
     cb_footnotes := None;
     cb_footnote_def := None;
     cb_autolink := Some (fun ob link type o => (false, ob, o));
     cb_codespan := Some decline1;
     cb_double_emphasis := Some decline1;
     cb_emphasis := Some decline1;
     cb_underline := Some decline1;
     cb_highlight := Some decline1;
     cb_quote := Some decline1;
     cb_image := Some (fun ob link title alt o => (false, ob, o));
     cb_linebreak := Some (fun ob o => (false, ob, o));
     cb_link := Some (fun ob link title content o => (false, ob, o));
     cb_raw_html_tag := Some decline1;
     cb_triple_emphasis := Some decline1;
     cb_strikethrough := Some decline1;
     cb_superscript := Some decline1;
     cb_footnote_ref := Some decline1;
     cb_entity := None;
     cb_normal_text := None;
     cb_doc_header := None;
     cb_doc_footer := None |}.

(** A [codespan] callback that renders the spans of one byte and
    declines the others, leaving the output alone. *)
Definition picky_codespan (ob : hoedown_buffer) (text : option hoedown_buffer) (o : unit)
  : out_int unit :=
  match text with
  | Some [c] => (true, tagged "code" ob [c], o)
  | _ => (false, ob, o)
  end.

(** The renderer whose callbacks decline, but for [picky_codespan]. *)
Definition picky_renderer : hoedown_renderer unit :=
  {| cb_blockcode := None;
     cb_blockquote := None;
     cb_blockhtml := None;
     cb_header := None;
     cb_hrule := None;
     cb_list := None;
     cb_listitem := None;
     cb_paragraph := Some (block_cb "p");
     cb_table := None;
     cb_table_row := None;
     cb_table_cell := None;
     cb_footnotes := None;
     cb_footnote_def := None;
     cb_autolink := cb_autolink declining_renderer;
     cb_codespan := Some picky_codespan;
     cb_double_emphasis := Some decline1;
     cb_emphasis := Some decline1;
     cb_underline := Some decline1;
     cb_highlight := Some decline1;
     cb_quote := Some decline1;
     cb_image := cb_image declining_renderer;
     cb_linebreak := cb_linebreak declining_renderer;
     cb_link := cb_link declining_renderer;
     cb_raw_html_tag := Some decline1;
     cb_triple_emphasis := Some decline1;
     cb_strikethrough := Some decline1;
     cb_superscript := Some decline1;
     cb_footnote_ref := Some decline1;
     cb_entity := None;
     cb_normal_text := None;
     cb_doc_header := None;
     cb_doc_footer := None |}.

(** The parser [hoedown_markdown_new] makes for the tag renderer. *)
Definition tag_parser (extensions : hoedown_extensions -> bool) (max_nesting' : nat)
  : hoedown_markdown unit :=
  new_markdown extensions max_nesting' tag_renderer tt.

(** The parser [hoedown_markdown_new] makes for the renderer whose
    callbacks decline. *)
Definition declining_parser (extensions : hoedown_extensions -> bool) (max_nesting' : nat)
  : hoedown_markdown unit :=
  new_markdown extensions max_nesting' declining_renderer tt.

(** The parser it makes for the renderer that picks its code spans. *)
Definition picky_parser (extensions : hoedown_extensions -> bool) (max_nesting' : nat)
  : hoedown_markdown unit :=
  new_markdown extensions max_nesting' picky_renderer tt.

(* ================================================================== *)
(** ** Predicates used by the properties *)

Unset Implicit Arguments.

(** Every entry is chained in the bucket of its hash. *)
Definition refs_wf (t : ref_table) : Prop :=
  forall k r, In r (t k) -> k = (ref_id r mod REF_TABLE_SIZE)%Z.

(** [r] is an entry of the table. *)
Definition stored (t : ref_table) (r : link_ref) : Prop :=
  exists k, In r (t k).

(** The combined depth of the two pools is within [max_nesting], so
    that [parse_inline] and [parse_block] go ahead. *)
Definition within_nesting {O : Type} (md : hoedown_markdown O) : Prop :=
  work_span md + work_block md <= max_nesting md.

(** The renderer's [normal_text], when it has one, appends its input
    to the output unchanged. *)
Definition normal_text_appends {O : Type} (md : hoedown_markdown O) : Prop :=
  match cb_normal_text (rndr md) with
  | Some normal_text => forall ob text o, fst (normal_text ob text o) = ob ++ text
  | None => True
  end.

(** [data] points at [size] bytes that lie inside the underlying
    object, and they are [l]. *)
Definition spans (data : ptr) (size : nat) (l : list ascii) : Prop :=
  bytes data size = l /\ length l = size.

(** A list of bytes without its leading spaces, and without its leading
    and trailing spaces. *)
Fixpoint drop_spaces (l : list ascii) : list ascii :=
  match l with
  | [] => []
  | c :: r => if ceq c " " then drop_spaces r else l
  end.

(** The number of leading spaces of [l]. *)
Definition lead (l : list ascii) : nat := length l - length (drop_spaces l).

Definition strip_spaces (l : list ascii) : list ascii :=
  rev (drop_spaces (rev (drop_spaces l))).

(** The buffer argument of a callback that gets NULL for no bytes. *)
Definition nonempty (l : hoedown_buffer) : option hoedown_buffer :=
  match l with
  | [] => None
  | _ => Some l
  end.

(** [body] can stand between two runs of [n] backticks: it is not
    empty, neither begins nor ends with a backtick, and holds no [n]
    backticks in a row. *)
Definition delimitable (n : nat) (body : list ascii) : Prop :=
  0 < length body
  /\ nth 0 body NUL <> BTICK
  /\ nth (length body - 1) body NUL <> BTICK
  /\ (forall k, k + n <= length body ->
        exists j, j < n /\ nth (k + j) body NUL <> BTICK).

(** *** What parsing leaves alone *)

(** The parts of the parser that no parsing function changes: the
    callbacks, the reference table, the active characters, the
    extensions, the nesting limit, and the number of footnotes used or
    still to be used. *)
Definition sig {O : Type} (md : hoedown_markdown O) :=
  (rndr md, refs md, active_char md, ext_flags md, max_nesting md,
   length (footnotes_used md) + unused_count (footnotes_found md)).

(** The tops of the two pools. *)
Definition pools {O : Type} (md : hoedown_markdown O) : nat * nat :=
  (work_span md, work_block md).

(** [md'] is [md] but for [opaque], [in_link_body] and the footnotes in use. *)
Definition kept {O : Type} (md md' : hoedown_markdown O) : Prop :=
  sig md' = sig md /\ pools md' = pools md.

(** [md'] is [md] with, maybe, more buffers of the span pool in use. *)
Definition grown {O : Type} (md md' : hoedown_markdown O) : Prop :=
  sig md' = sig md /\ work_block md' = work_block md /\ work_span md <= work_span md'.

(** The combined depth of the pools. *)
Definition depth {O : Type} (md : hoedown_markdown O) : nat :=
  work_span md + work_block md.

(** A call returns with a result that satisfies [P]; when [allow] holds
    it may also end in the call of a NULL callback, and in nothing else. *)
Definition outcome {A : Type} (allow : Prop) (P : A -> Prop) (r : res A) : Prop :=
  match r with
  | Ret a => P a
  | Fault NullCallback => allow
  | Fault _ => False
  end.

(** The callback [parse_emph1] calls for the delimiter [c], and the one
    [parse_emph2] calls. *)
Definition single_emphasis_cb {O : Type} (md : hoedown_markdown O) (c : ascii) :=
  if ext_flags md HOEDOWN_EXT_UNDERLINE && ceq c "_"
  then cb_underline (rndr md) else cb_emphasis (rndr md).

Definition double_emphasis_cb {O : Type} (md : hoedown_markdown O) (c : ascii) :=
  if ceq c "~" then cb_strikethrough (rndr md)
  else if ceq c "=" then cb_highlight (rndr md)
  else cb_double_emphasis (rndr md).

(** The renderer has every callback the handlers of the active bytes
    call without a NULL check. *)
Definition callbacks_cover {O : Type} (md : hoedown_markdown O) : Prop :=
  (forall c, active_char md c = MD_CHAR_EMPHASIS ->
     (ceq c "~" || ceq c "=" = false -> present (single_emphasis_cb md c) = true)
     /\ present (double_emphasis_cb md c) = true)
  /\ (forall c, active_char md c = MD_CHAR_CODESPAN -> present (cb_codespan (rndr md)) = true)
  /\ (forall c, active_char md c = MD_CHAR_LINEBREAK -> present (cb_linebreak (rndr md)) = true)
  /\ (forall c, active_char md c = MD_CHAR_QUOTE -> present (cb_quote (rndr md)) = true).

Definition covered {O : Type} (allow : Prop) (md : hoedown_markdown O) : Prop :=
  allow \/ callbacks_cover md.

(** The recursive [parse_inline] handed to the handlers returns, and
    keeps the parser, on every parser with the nesting limit of [md0]
    that is deeper in the pools than [md0]. *)
Definition rec_ok {O : Type} (allow : Prop)
    (rec : hoedown_buffer -> hoedown_markdown O -> ptr -> nat
           -> res (hoedown_buffer * hoedown_markdown O))
    (md0 : hoedown_markdown O) : Prop :=
  forall ob md data size,
    depth md0 < depth md -> max_nesting md = max_nesting md0 -> covered allow md ->
    outcome allow (fun r => kept md (snd r)) (rec ob md data size).

(** The same of the recursive [parse_block] handed to the block
    constructs. *)
Definition block_rec_ok {O : Type} (allow : Prop)
    (rec : hoedown_buffer -> hoedown_markdown O -> ptr -> nat
           -> res (hoedown_buffer * hoedown_markdown O * list ascii))
    (md0 : hoedown_markdown O) : Prop :=
  forall ob md data size,
    depth md0 < depth md -> max_nesting md = max_nesting md0 -> covered allow md ->
    outcome allow (fun r => kept md (snd (fst r))) (rec ob md data size).

(** The number of bytes a block construct reports as taken. *)
Definition taken {A B : Type} (r : res (nat * A * B)) : option nat :=
  match r with
  | Ret (n, _, _) => Some n
  | Fault _ => None
  end.

(** What the first pass leaves alone: everything but the references
    and the footnotes it collects. *)
Definition setup {O : Type} (md : hoedown_markdown O) :=
  (rndr md, active_char md, ext_flags md, max_nesting md, work_span md, work_block md).

(** Both pools are back to their initial size. *)
Definition pools_empty {O : Type} (md : hoedown_markdown O) : Prop :=
  work_size md BUFFER_SPAN = 0 /\ work_size md BUFFER_BLOCK = 0.

(** *** Callbacks that accept *)

(** An [int] callback, on some call, returned nonzero and left the
    output [ob1] and the state [o1]; for callbacks of no, one, two and
    three arguments between the output buffer and [opaque]. *)
Definition accepts0 {O : Type} (cb : option (hoedown_buffer -> O -> out_int O))
    (ob1 : hoedown_buffer) (o1 : O) : Prop :=
  exists f ob o, cb = Some f /\ f ob o = (true, ob1, o1).

Definition accepts1 {O A : Type} (cb : option (hoedown_buffer -> A -> O -> out_int O))
    (ob1 : hoedown_buffer) (o1 : O) : Prop :=
  exists f ob a o, cb = Some f /\ f ob a o = (true, ob1, o1).

Definition accepts2 {O A B : Type}
    (cb : option (hoedown_buffer -> A -> B -> O -> out_int O))
    (ob1 : hoedown_buffer) (o1 : O) : Prop :=
  exists f ob a b o, cb = Some f /\ f ob a b o = (true, ob1, o1).

Definition accepts3 {O A B C : Type}
    (cb : option (hoedown_buffer -> A -> B -> C -> O -> out_int O))
    (ob1 : hoedown_buffer) (o1 : O) : Prop :=
  exists f ob a b c o, cb = Some f /\ f ob a b c o = (true, ob1, o1).

(** The actions whose handler tests the result of a callback.  The
    handlers of the other actions test none: the autolink scanners and
    the superscript call a callback and go by what they scanned, the
    escapes and the entities call none that tells. *)
Definition tests_callback (a : markdown_char_t) : bool :=
  match a with
  | MD_CHAR_EMPHASIS | MD_CHAR_CODESPAN | MD_CHAR_LINEBREAK
  | MD_CHAR_LINK | MD_CHAR_LANGLE | MD_CHAR_QUOTE => true
  | _ => false
  end.

(** One of the callbacks whose result the handler of the action [a]
    tests returned nonzero, and left the output [ob1] and the state
    [o1]. *)
Definition accepted {O : Type} (r : hoedown_renderer O) (a : markdown_char_t)
    (ob1 : hoedown_buffer) (o1 : O) : Prop :=
  match a with
  | MD_CHAR_EMPHASIS =>
    accepts1 (cb_emphasis r) ob1 o1 \/ accepts1 (cb_double_emphasis r) ob1 o1
    \/ accepts1 (cb_triple_emphasis r) ob1 o1 \/ accepts1 (cb_underline r) ob1 o1
    \/ accepts1 (cb_highlight r) ob1 o1 \/ accepts1 (cb_strikethrough r) ob1 o1
  | MD_CHAR_CODESPAN => accepts1 (cb_codespan r) ob1 o1
  | MD_CHAR_LINEBREAK => accepts0 (cb_linebreak r) ob1 o1
  | MD_CHAR_LINK =>
    accepts3 (cb_link r) ob1 o1 \/ accepts3 (cb_image r) ob1 o1
    \/ accepts1 (cb_footnote_ref r) ob1 o1
  | MD_CHAR_LANGLE => accepts1 (cb_raw_html_tag r) ob1 o1 \/ accepts2 (cb_autolink r) ob1 o1
  | MD_CHAR_QUOTE => accepts1 (cb_quote r) ob1 o1
  | _ => False
  end.

(** What the handler of the action [a] hands back goes by the callback
    it tests: it took no bytes, or the callback returned nonzero on the
    call that left the output and the state handed back. *)
Definition by_callback {O : Type} (r : hoedown_renderer O) (a : markdown_char_t)
    (h : nat * hoedown_buffer * hoedown_markdown O) : Prop :=
  fst (fst h) = 0 \/ accepted r a (snd (fst h)) (opaque (snd h)).

(** The handler is called at the active byte [e], and the loop of
    [parse_inline] goes on from what it took. *)
Definition handle_at {O : Type} {ext : Externals}
    (rec : hoedown_buffer -> hoedown_markdown O -> ptr -> nat
           -> res (hoedown_buffer * hoedown_markdown O))
    (n : nat) (ob : hoedown_buffer) (md : hoedown_markdown O) (data : ptr) (size e : nat)
  : res (hoedown_buffer * hoedown_markdown O) :=
  let* trigger := call (markdown_char_ptrs rec (active_char md (rd data e))) in
  let* (taken, ob, md) := trigger ob md (padd data e) e (size - e) in
  if taken =? 0 then parse_inline_loop rec n ob md data size e (e + 1)
  else parse_inline_loop rec n ob md data size (e + taken) (e + taken).

(** *** Renderers that have what the active bytes need *)

(** With any of the three emphasis callbacks there, [hoedown_markdown_new]
    makes the emphasis bytes active, and their handlers call
    [emphasis], [double_emphasis] and, under their extensions,
    [underline], [strikethrough] and [highlight] without a check; the
    QUOTE extension makes the quote active whether or not there is a
    [quote] callback. *)
Definition renderer_complete {O : Type} (extensions : hoedown_extensions -> bool)
    (r : hoedown_renderer O) : Prop :=
  (present (cb_emphasis r) || present (cb_double_emphasis r)
   || present (cb_triple_emphasis r) = true ->
   present (cb_emphasis r) = true /\ present (cb_double_emphasis r) = true
   /\ (extensions HOEDOWN_EXT_UNDERLINE = true -> present (cb_underline r) = true)
   /\ (extensions HOEDOWN_EXT_STRIKETHROUGH = true -> present (cb_strikethrough r) = true)
   /\ (extensions HOEDOWN_EXT_HIGHLIGHT = true -> present (cb_highlight r) = true))
  /\ (extensions HOEDOWN_EXT_QUOTE = true -> present (cb_quote r) = true).

(** *** Scanners that rewind nothing *)

(** An autolink scanner that asks for no byte of the output to be
    taken back: its rewind count is 0 whenever it finds a link, as that
    of [hoedown_autolink__www] is. *)
Definition no_rewind
    (scan : hoedown_buffer -> ptr -> nat -> nat -> nat * nat * hoedown_buffer) : Prop :=
  forall link data offset size,
    0 < fst (fst (scan link data offset size)) -> snd (fst (scan link data offset size)) = 0.

(** The scanner behind every active autolink byte of [md] rewinds
    nothing, so that no [ob->size -= rewind] takes more than the output
    holds.  A parser without active autolink bytes is one of these. *)
Definition rewind_free {O : Type} {ext : Externals} (md : hoedown_markdown O) : Prop :=
  forall c,
    match active_char md c with
    | MD_CHAR_AUTOLINK_URL => no_rewind hoedown_autolink__url
    | MD_CHAR_AUTOLINK_EMAIL => no_rewind hoedown_autolink__email
    | MD_CHAR_AUTOLINK_WWW => no_rewind hoedown_autolink__www
    | _ => True
    end.

(** The bytes [is_mail_autolink] lets through. *)
Definition mail_byte (c : ascii) : bool :=
  isalnum c || ceq c "@" || ceq c "-" || ceq c "." || ceq c "_".

(** [t] is 0, the [tmp_i] of nothing found, or the index within [size]
    of a byte [c]. *)
Definition found_at (data : ptr) (size : nat) (c : ascii) (t : nat) : Prop :=
  t = 0 \/ (t < size /\ rd data t = c).

(** A byte of a blank line: a space or a newline. *)
Definition blank (c : ascii) : Prop := c = " "%char \/ c = NL.

(** The footnotes used are numbered in the order of the list: the
    footnote at place [i] of [used] is marked used and bears the number
    [i + 1], and every footnote marked used is on the list. *)
Definition numbered (found : list footnote_ref) (used : list nat) : Prop :=
  (forall i, i < length used ->
     nth i used 0 < length found
     /\ is_used (nth (nth i used 0) found no_footnote) = true
     /\ num (nth (nth i used 0) found no_footnote) = i + 1)
  /\ (forall k, k < length found -> is_used (nth k found no_footnote) = true -> In k used).

(** A byte [expand_tabs] adds is a space or a byte of the line that is
    no tab. *)
Definition expanded (line : ptr) (size : nat) (c : ascii) : Prop :=
  c = " "%char \/ exists j, j < size /\ c = rd line j /\ c <> TAB.

(** A byte of the text is neither a tab nor a carriage return. *)
Definition plain (c : ascii) : Prop := c <> TAB /\ c <> CR.

(* ================================================================== *)
(** * Properties *)

(** ** The reference table *)

Lemma no_refs_wf : refs_wf no_refs.
Proof. intros k r H. destruct H. Qed.

Lemma set_bucket_same (t : ref_table) (k : Z) (c : list link_ref) :
  set_bucket t k c k = c.
Proof. unfold set_bucket. now rewrite Z.eqb_refl. Qed.

Lemma set_bucket_other (t : ref_table) (k j : Z) (c : list link_ref) :
  j <> k -> set_bucket t k c j = t j.
Proof.
  intros H. unfold set_bucket.
  destruct (Z.eqb_spec j k); [contradiction | reflexivity].
Qed.

(** What [define_ref] leaves in each bucket. *)
Lemma define_ref_bucket (t : ref_table) (name : ptr) (n : nat)
    (lnk : hoedown_buffer) (ttl : option hoedown_buffer) (j : Z) :
  let h := hash_link_ref name n in
  define_ref t name n lnk ttl j =
  if (j =? h mod REF_TABLE_SIZE)%Z then mk_link_ref h (Some lnk) ttl :: t j else t j.
Proof.
  cbn zeta. unfold define_ref, add_link_ref. cbn [ref_id].
  destruct (Z.eqb_spec j (hash_link_ref name n mod REF_TABLE_SIZE)) as [->|Hne].
  - rewrite !set_bucket_same. reflexivity.
  - rewrite !set_bucket_other by assumption. reflexivity.
Qed.

Lemma define_ref_wf (t : ref_table) (name : ptr) (n : nat)
    (lnk : hoedown_buffer) (ttl : option hoedown_buffer) :
  refs_wf t -> refs_wf (define_ref t name n lnk ttl).
Proof.
  intros Hwf k r Hin. rewrite define_ref_bucket in Hin.
  destruct (Z.eqb_spec k (hash_link_ref name n mod REF_TABLE_SIZE)) as [Hk|Hk].
  - destruct Hin as [<-|Hin]; [exact Hk | now apply Hwf].
  - now apply Hwf.
Qed.

Lemma find_in_chain_some (c : list link_ref) (h : Z) (r : link_ref) :
  find_in_chain c h = Some r -> In r c /\ ref_id r = h.
Proof.
  induction c as [|x c IH]; cbn; [discriminate|].
  destruct (Z.eqb_spec (ref_id x) h) as [He|Hne].
  - intros [= <-]. auto.
  - intros H. destruct (IH H). auto.
Qed.

Lemma find_in_chain_complete (c : list link_ref) (h : Z) (r : link_ref) :
  In r c -> ref_id r = h -> exists r', find_in_chain c h = Some r'.
Proof.
  induction c as [|x c IH]; cbn; [contradiction|].
  intros Hin Hid. destruct (Z.eqb_spec (ref_id x) h) as [He|Hne]; [eauto|].
  destruct Hin as [->|Hin]; [contradiction | eauto].
Qed.

(** Names that agree up to ASCII case hash alike. *)
Lemma hash_loop_fold (a b : ptr) (n i : nat) (h : Z) :
  (forall j, j < n -> tolower (rd a (i + j)) = tolower (rd b (i + j))) ->
  hash_loop a i n h = hash_loop b i n h.
Proof.
  revert i h. induction n as [|n IH]; intros i h H; cbn; [reflexivity|].
  assert (E : hash_step h (rd a i) = hash_step h (rd b i)).
  { unfold hash_step. specialize (H 0 ltac:(lia)). rewrite Nat.add_0_r in H.
    now rewrite H. }
  rewrite E. apply IH. intros j Hj.
  specialize (H (S j) ltac:(lia)). now rewrite Nat.add_succ_r in H.
Qed.

Lemma hash_link_ref_fold (a b : ptr) (n : nat) :
  (forall j, j < n -> tolower (rd a j) = tolower (rd b j)) ->
  hash_link_ref a n = hash_link_ref b n.
Proof. intros H. unfold hash_link_ref. now apply hash_loop_fold. Qed.

(** One more byte hashed: the step of the loop on the hash so far. *)
Lemma hash_loop_snoc (a : ptr) (n i : nat) (h : Z) :
  hash_loop a i (S n) h = hash_step (hash_loop a i n h) (rd a (i + n)).
Proof.
  revert i h. induction n as [|n IH]; intros i h.
  - cbn. now rewrite Nat.add_0_r.
  - change (hash_loop a i (S (S n)) h)
      with (hash_loop a (S i) (S n) (hash_step h (rd a i))).
    rewrite IH. cbn [hash_loop]. now rewrite Nat.add_succ_r.
Qed.

(** The step in one reduction modulo [2^32]. *)
Lemma hash_step_mod (h : Z) (c : ascii) :
  hash_step h c
  = ((Z.of_nat (code (tolower c)) + Z.shiftl h 6 + Z.shiftl h 16 - h) mod 2 ^ 32)%Z.
Proof.
  unfold hash_step, u32.
  set (x := Z.of_nat (code (tolower c))).
  set (s6 := Z.shiftl h 6). set (s16 := Z.shiftl h 16).
  rewrite Zminus_mod_idemp_l.
  replace ((x + s6 mod 2 ^ 32) mod 2 ^ 32 + s16 mod 2 ^ 32 - h)%Z
    with ((x + s6 mod 2 ^ 32) mod 2 ^ 32 + (s16 mod 2 ^ 32 - h))%Z by ring.
  rewrite Z.add_mod_idemp_l by lia.
  replace (x + s6 mod 2 ^ 32 + (s16 mod 2 ^ 32 - h))%Z
    with (s16 mod 2 ^ 32 + (x + s6 mod 2 ^ 32 - h))%Z by ring.
  rewrite Z.add_mod_idemp_l by lia.
  replace (s16 + (x + s6 mod 2 ^ 32 - h))%Z
    with (s6 mod 2 ^ 32 + (x + s16 - h))%Z by ring.
  rewrite Z.add_mod_idemp_l by lia.
  f_equal. ring.
Qed.

Lemma hash_link_ref_range (a : ptr) (n : nat) :
  (0 <= hash_link_ref a n < 2 ^ 32)%Z.
Proof.
  destruct n as [|n]; [cbn; lia|].
  unfold hash_link_ref. rewrite hash_loop_snoc, hash_step_mod.
  apply Z.mod_pos_bound. lia.
Qed.

(** C1.  The hash of a name is the 32-bit rolling hash
    [h = tolower(c) + (h << 6) + (h << 16) - h] over its bytes, from 0.
    In a table whose entries sit in the bucket of their hash (as
    [add_link_ref] puts them), [find_link_ref] finds an entry for a
    name exactly when some stored entry has the hash of the name, and
    the entry found has that hash; the hash an entry has is that of the
    name [add_link_ref] was given, under which it is found at once.
    The names themselves are never
    compared: two names with the same hash, whatever their bytes and
    their lengths, are answered alike.  The hash folds ASCII case, so
    two names of the same length that agree up to ASCII case resolve to
    the same entry. *)
Theorem find_link_ref_hash_only (t : ref_table) (name : ptr) (len : nat) :
  refs_wf t ->
  ((exists r, find_link_ref t name len = Some r) <->
   (exists r, stored t r /\ ref_id r = hash_link_ref name len))
  /\ (forall r, find_link_ref t name len = Some r -> ref_id r = hash_link_ref name len)
  /\ (forall name2 : ptr,
        (forall j, j < len -> tolower (rd name2 j) = tolower (rd name j)) ->
        find_link_ref t name2 len = find_link_ref t name len)
  /\ (forall (name2 : ptr) (len2 : nat),
        hash_link_ref name2 len2 = hash_link_ref name len ->
        find_link_ref t name2 len2 = find_link_ref t name len)
  /\ (ref_id (snd (add_link_ref t name len)) = hash_link_ref name len
      /\ find_link_ref (fst (add_link_ref t name len)) name len
         = Some (snd (add_link_ref t name len)))
  /\ hash_link_ref name 0 = 0%Z
  /\ (forall n,
        hash_link_ref name (S n)
        = ((Z.of_nat (code (tolower (rd name n)))
            + Z.shiftl (hash_link_ref name n) 6
            + Z.shiftl (hash_link_ref name n) 16
            - hash_link_ref name n) mod 2 ^ 32)%Z)
  /\ (0 <= hash_link_ref name len < 2 ^ 32)%Z.
Proof.
  intros Hwf. repeat apply conj.
  - intros [r Hr]. exists r. unfold find_link_ref in Hr.
    apply find_in_chain_some in Hr as [Hin Hid]. split; [eexists; eauto | exact Hid].
  - intros [r [[k Hin] Hid]]. unfold find_link_ref.
    pose proof (Hwf k r Hin) as Hk. rewrite Hid in Hk. subst k.
    eapply find_in_chain_complete; eauto.
  - intros r Hr. unfold find_link_ref in Hr. now apply find_in_chain_some in Hr.
  - intros name2 H. unfold find_link_ref.
    now rewrite (hash_link_ref_fold name2 name len H).
  - intros name2 len2 H. unfold find_link_ref. now rewrite H.
  - reflexivity.
  - unfold find_link_ref, add_link_ref. cbn [fst snd ref_id].
    rewrite set_bucket_same. cbn [find_in_chain ref_id]. now rewrite Z.eqb_refl.
  - reflexivity.
  - intros n. unfold hash_link_ref. rewrite hash_loop_snoc, hash_step_mod. reflexivity.
  - apply hash_link_ref_range.
  - apply hash_link_ref_range.
Qed.

Lemma define_all_cons (t : ref_table) (name : list ascii) (lnk : hoedown_buffer)
    (ttl : option hoedown_buffer) (defs : list definition) :
  define_all t ((name, lnk, ttl) :: defs)
  = define_all (define_ref t (buf_data name) (length name) lnk ttl) defs.
Proof. reflexivity. Qed.

(** The tables built by definitions satisfy the hypothesis of C1. *)
Lemma define_all_wf (t : ref_table) (defs : list definition) :
  refs_wf t -> refs_wf (define_all t defs).
Proof.
  revert t. induction defs as [|[[name lnk] ttl] defs IH]; intros t Hwf.
  - exact Hwf.
  - rewrite define_all_cons. apply IH. now apply define_ref_wf.
Qed.

(** A table with two definitions.  [foo] in any case finds the first;
    [ziieqj], a name that shares no byte in place with [axjgjz] and
    hashes alike, finds the second; [bar], whose hash is that of
    neither, finds nothing. *)
Lemma find_link_ref_hash_only_witness :
  let first := (str "FOO", str "/url", None) in
  let second := (str "axjgjz", str "/other", None) in
  let t := define_all no_refs [first; second] in
  refs_wf t
  /\ find_link_ref t (buf_data (str "foo")) 3 = find_link_ref t (buf_data (str "FOO")) 3
  /\ find_link_ref t (buf_data (str "FOO")) 3 = Some (entry_of first)
  /\ hash_link_ref (buf_data (str "FOO")) 3 = 849955110%Z
  /\ hash_link_ref (buf_data (str "ziieqj")) 6 = hash_link_ref (buf_data (str "axjgjz")) 6
  /\ find_link_ref t (buf_data (str "ziieqj")) 6
     = find_link_ref t (buf_data (str "axjgjz")) 6
  /\ find_link_ref t (buf_data (str "ziieqj")) 6 = Some (entry_of second)
  /\ hash_link_ref (buf_data (str "bar")) 3 = 815990707%Z
  /\ find_link_ref t (buf_data (str "bar")) 3 = None.
Proof.
  cbv zeta.
  assert (Hwf : refs_wf (define_all no_refs [(str "FOO", str "/url", None);
                                             (str "axjgjz", str "/other", None)])).
  { apply define_all_wf, no_refs_wf. }
  split; [exact Hwf|].
  pose proof (find_link_ref_hash_only _ (buf_data (str "FOO")) 3 Hwf)
    as (_ & _ & Hcase & _).
  pose proof (find_link_ref_hash_only _ (buf_data (str "axjgjz")) 6 Hwf)
    as (_ & _ & _ & Honly & _).
  split.
  { apply Hcase. intros j Hj.
    destruct j as [|[|[|j]]]; [reflexivity | reflexivity | reflexivity | lia]. }
  split; [vm_compute; reflexivity|].
  split; [vm_compute; reflexivity|].
  split; [vm_compute; reflexivity|].
  split; [apply Honly; vm_compute; reflexivity|].
  repeat split; vm_compute; reflexivity.
Defined.

(** Looking a name up after one more definition: the new entry when the
    hashes agree, the old answer otherwise. *)
Lemma find_after_define (t : ref_table) (name : ptr) (n : nat)
    (lnk : hoedown_buffer) (ttl : option hoedown_buffer) (q : ptr) (qn : nat) :
  find_link_ref (define_ref t name n lnk ttl) q qn =
  if (hash_link_ref q qn =? hash_link_ref name n)%Z
  then Some (mk_link_ref (hash_link_ref name n) (Some lnk) ttl)
  else find_link_ref t q qn.
Proof.
  unfold find_link_ref. rewrite define_ref_bucket. cbn zeta.
  destruct (Z.eqb_spec (hash_link_ref q qn) (hash_link_ref name n)) as [E|Hne].
  - rewrite E, Z.eqb_refl. cbn. now rewrite Z.eqb_refl.
  - destruct (Z.eqb_spec (hash_link_ref q qn mod REF_TABLE_SIZE)
                         (hash_link_ref name n mod REF_TABLE_SIZE)) as [Em|Hm].
    + cbn. destruct (Z.eqb_spec (hash_link_ref name n) (hash_link_ref q qn)); [congruence|].
      reflexivity.
    + reflexivity.
Qed.

Lemma find_define_all_skip (t : ref_table) (defs : list definition) (q : ptr) (qn : nat) :
  Forall (fun d => hash_of d <> hash_link_ref q qn) defs ->
  find_link_ref (define_all t defs) q qn = find_link_ref t q qn.
Proof.
  revert t. induction defs as [|[[name lnk] ttl] defs IH]; intros t H.
  - reflexivity.
  - rewrite define_all_cons.
    inversion H as [|? ? Hd Hrest]; subst. rewrite IH by assumption.
    rewrite find_after_define. cbn [hash_of] in Hd.
    destruct (Z.eqb_spec (hash_link_ref q qn) (hash_link_ref (buf_data name) (length name)));
      [congruence | reflexivity].
Qed.

(** C2, as amended.  Among the definitions whose hash is that of the
    name looked up, the one added last is found: [add_link_ref] links a
    new entry in at the head of its chain and [find_link_ref] stops at
    the first entry with the hash. *)
Theorem colliding_refs_last_wins (t : ref_table) (earlier later : list definition)
    (d : definition) (q : ptr) (qn : nat) :
  hash_of d = hash_link_ref q qn ->
  Forall (fun d' => hash_of d' <> hash_link_ref q qn) later ->
  find_link_ref (define_all t (earlier ++ d :: later)) q qn = Some (entry_of d).
Proof.
  intros Hd Hlater.
  assert (E : define_all t (earlier ++ d :: later)
              = define_all (define_all t earlier) (d :: later)).
  { unfold define_all. apply fold_left_app. }
  rewrite E. destruct d as [[name lnk] ttl]. rewrite define_all_cons.
  rewrite find_define_all_skip by assumption.
  rewrite find_after_define. cbn [hash_of] in Hd. rewrite <- Hd, Z.eqb_refl. reflexivity.
Qed.

Lemma colliding_refs_last_wins_witness :
  find_link_ref
    (define_all no_refs ([(str "foo", str "/first", None)]
                         ++ (str "FOO", str "/second", None) :: []))
    (buf_data (str "foo")) 3
  = Some (entry_of (str "FOO", str "/second", None)).
Proof.
  apply (colliding_refs_last_wins no_refs [(str "foo", str "/first", None)] []
           (str "FOO", str "/second", None) (buf_data (str "foo")) 3).
  - vm_compute. reflexivity.
  - constructor.
Defined.

(** C2 as stated fails: the names [foo] and [FOO] differ and hash
    alike; with [foo] defined first and [FOO] second, a reference to
    [foo] resolves to the second definition, not to the first. *)
Lemma colliding_refs_first_does_not_win :
  let first := (str "foo", str "/first", None) in
  let second := (str "FOO", str "/second", None) in
  let t := define_all no_refs [first; second] in
  str "foo" <> str "FOO"
  /\ hash_of first = hash_of second
  /\ find_link_ref t (buf_data (str "foo")) 3 = Some (entry_of second)
  /\ find_link_ref t (buf_data (str "foo")) 3 <> Some (entry_of first).
Proof.
  cbn zeta. repeat split.
  - discriminate.
  - vm_compute. discriminate.
Qed.

(** ** Scanning loops *)

Lemma skip_loop_bounds (p : nat -> bool) (n i : nat) :
  i <= skip_loop p n i <= i + n.
Proof.
  revert i. induction n as [|n IH]; intros i; cbn; [lia|].
  destruct (p i); [specialize (IH (S i)); lia | lia].
Qed.

Lemma skip_while_ge (p : nat -> bool) (size i : nat) :
  i <= skip_while p size i.
Proof. unfold skip_while. apply skip_loop_bounds. Qed.

Lemma skip_while_le (p : nat -> bool) (size i : nat) :
  i <= size -> skip_while p size i <= size.
Proof.
  intros H. unfold skip_while.
  pose proof (skip_loop_bounds p (size - i) i). lia.
Qed.

Lemma skip_while_past (p : nat -> bool) (size i : nat) :
  size <= i -> skip_while p size i = i.
Proof.
  intros H. unfold skip_while. replace (size - i) with 0 by lia. reflexivity.
Qed.

Lemma skip_loop_stop (p : nat -> bool) (n i : nat) :
  skip_loop p n i < i + n -> p (skip_loop p n i) = false.
Proof.
  revert i. induction n as [|n IH]; intros i; cbn; [lia|].
  destruct (p i) eqn:E; [|now rewrite E].
  intros H. apply IH. lia.
Qed.

(** Where the scan stops short of [size], the test fails. *)
Lemma skip_while_stop (p : nat -> bool) (size i : nat) :
  skip_while p size i < size -> p (skip_while p size i) = false.
Proof.
  intros H. unfold skip_while in *.
  destruct (Nat.le_gt_cases size i) as [Hle|Hlt].
  - replace (size - i) with 0 in * by lia. cbn in H. lia.
  - apply skip_loop_stop. lia.
Qed.

Lemma skip_loop_all (p : nat -> bool) (n i : nat) :
  (forall j, i <= j < i + n -> p j = true) -> skip_loop p n i = i + n.
Proof.
  revert i. induction n as [|n IH]; intros i H; cbn; [lia|].
  rewrite (H i) by lia. rewrite IH; [lia|]. intros j Hj. apply H. lia.
Qed.

(** The scan runs to [size] over bytes that all pass the test. *)
Lemma skip_while_all (p : nat -> bool) (size i : nat) :
  i <= size -> (forall j, i <= j < size -> p j = true) -> skip_while p size i = size.
Proof.
  intros Hi H. unfold skip_while. rewrite skip_loop_all; [lia|].
  intros j Hj. apply H. lia.
Qed.

Lemma skip_loop_passed (p : nat -> bool) (n i j : nat) :
  i <= j < skip_loop p n i -> p j = true.
Proof.
  revert i. induction n as [|n IH]; intros i; cbn; [lia|].
  destruct (p i) eqn:E; [|lia].
  intros H. destruct (Nat.eq_dec i j) as [->|Hne]; [exact E|].
  apply (IH (S i)). lia.
Qed.

(** Every byte the scan went over passed the test. *)
Lemma skip_while_passed (p : nat -> bool) (size i j : nat) :
  i <= j < skip_while p size i -> p j = true.
Proof. unfold skip_while. apply skip_loop_passed. Qed.

Lemma skip_while_here (p : nat -> bool) (size i : nat) :
  i < size -> p i = false -> skip_while p size i = i.
Proof.
  intros Hi Hp. unfold skip_while.
  destruct (size - i) as [|n] eqn:E; [lia|]. cbn. now rewrite Hp.
Qed.

Lemma back_loop_bounds (p : nat -> bool) (n i : nat) :
  i - n <= back_loop p n i <= i.
Proof.
  revert i. induction n as [|n IH]; intros i; cbn; [lia|].
  destruct (p i); [specialize (IH (i - 1)); lia | lia].
Qed.

Lemma back_while_le (p : nat -> bool) (lo i : nat) : back_while p lo i <= i.
Proof. unfold back_while. apply back_loop_bounds. Qed.

Lemma back_while_ge (p : nat -> bool) (lo i : nat) :
  lo <= i -> lo <= back_while p lo i.
Proof.
  intros H. unfold back_while. pose proof (back_loop_bounds p (i - lo) i). lia.
Qed.

(** ** Bytes and pointers *)

Lemma bytes_zero (data : ptr) : bytes data 0 = [].
Proof. reflexivity. Qed.

Lemma padd_zero (data : ptr) : padd data 0 = data.
Proof. destruct data. unfold padd. cbn. now rewrite Nat.add_0_r. Qed.

Lemma rd_padd (data : ptr) (k i : nat) : rd (padd data k) i = rd data (k + i).
Proof. unfold rd, padd. cbn. now rewrite Nat.add_assoc. Qed.

Lemma bytes_buf_data (b : hoedown_buffer) : bytes (buf_data b) (length b) = b.
Proof. unfold bytes, buf_data. cbn. apply firstn_all. Qed.

Lemma rd_buf_data (b : hoedown_buffer) (i : nat) : rd (buf_data b) i = nth i b NUL.
Proof. reflexivity. Qed.

(** ** The size of a buffer taken back *)

(** [ob->size -= n] within the bytes the buffer holds: the last [n]
    bytes go. *)
Lemma shrink_within (ob : hoedown_buffer) (n : nat) :
  n <= length ob -> (Z.of_nat (length ob) < 2 ^ 64)%Z ->
  shrink ob n = firstn (length ob - n) ob.
Proof.
  intros Hn Hlen. unfold shrink, size_t. cbv zeta.
  rewrite Z.mod_small by lia.
  replace (Z.to_nat (Z.of_nat (length ob) - Z.of_nat n)) with (length ob - n) by lia.
  replace (length ob - n - length ob) with 0 by lia.
  cbn [repeat]. apply app_nil_r.
Qed.

(** [ob->size -= n] beyond them: the size wraps around, and the buffer
    spans its bytes and [2^64 - n] bytes more. *)
Lemma shrink_wraps (ob : hoedown_buffer) (n : nat) :
  length ob < n -> (Z.of_nat n <= 2 ^ 64)%Z ->
  Z.of_nat (length (shrink ob n)) = (Z.of_nat (length ob) + 2 ^ 64 - Z.of_nat n)%Z
  /\ firstn (length ob) (shrink ob n) = ob.
Proof.
  intros Hn Hmax. unfold shrink, size_t. cbv zeta.
  assert (E : ((Z.of_nat (length ob) - Z.of_nat n) mod 2 ^ 64
               = Z.of_nat (length ob) - Z.of_nat n + 2 ^ 64)%Z).
  { rewrite <- (Z.mod_add _ 1) by lia. rewrite Z.mod_small by lia. lia. }
  rewrite E.
  set (size := Z.to_nat (Z.of_nat (length ob) - Z.of_nat n + 2 ^ 64)).
  assert (Hsize : length ob <= size) by (unfold size; lia).
  rewrite firstn_all2 by exact Hsize. split.
  - rewrite length_app, repeat_length. unfold size. lia.
  - rewrite firstn_app, firstn_all, Nat.sub_diag. cbn [firstn]. apply app_nil_r.
Qed.


(** ** The inline parser *)

Section InlineProps.

Context {O : Type} {ext : Externals}.
Implicit Types (md : hoedown_markdown O) (ob : hoedown_buffer) (data : ptr).

Lemma set_opaque_same md : set_opaque md (opaque md) = md.
Proof. now destruct md. Qed.

Lemma emit_text_appends ob md data n :
  normal_text_appends md ->
  exists o, emit_text ob md data n = (ob ++ bytes data n, set_opaque md o).
Proof.
  unfold normal_text_appends, emit_text. intros H.
  destruct (cb_normal_text (rndr md)) as [f|].
  - exists (snd (f ob (bytes data n) (opaque md))). unfold ran. now rewrite H.
  - exists (opaque md). now rewrite set_opaque_same.
Qed.

Lemma nesting_check_passes md :
  within_nesting md -> (max_nesting md <? work_span md + work_block md) = false.
Proof. unfold within_nesting. intros H. apply Nat.ltb_ge. lia. Qed.

(** C9.  On a span none of whose bytes is active, entered within the
    nesting bound, with a [normal_text] that appends its input (or none,
    the bytes being then put verbatim), [parse_inline] returns with
    exactly the bytes of the span appended to the output. *)
Theorem parse_inline_inactive_identity (fuel : nat) ob md data (size : nat) :
  within_nesting md ->
  normal_text_appends md ->
  (forall i, i < size -> active_char md (rd data i) = MD_CHAR_NONE) ->
  exists o,
    parse_inline (S fuel) ob md data size = Ret (ob ++ bytes data size, set_opaque md o).
Proof.
  intros Hnest Htext Hinactive. cbn [parse_inline].
  rewrite (nesting_check_passes md Hnest).
  unfold parse_inline_body. cbn [parse_inline_loop].
  destruct (Nat.ltb_spec 0 size) as [Hpos|Hzero].
  - rewrite skip_while_all; [|lia|].
    + rewrite padd_zero, Nat.sub_0_r.
      destruct (emit_text_appends ob md data size Htext) as [o Ho].
      rewrite Ho. rewrite Nat.leb_refl. now exists o.
    + intros j Hj. rewrite Hinactive by lia. reflexivity.
  - exists (opaque md). replace size with 0 by lia.
    now rewrite bytes_zero, app_nil_r, set_opaque_same.
Qed.

(** *** The scanner around one construct *)

Lemma parse_inline_loop_done rec (n : nat) ob md data (size i e : nat) :
  size <= i -> parse_inline_loop rec n ob md data size i e = Ret (ob, md).
Proof.
  intros H. apply Nat.ltb_ge in H. destruct n; cbn [parse_inline_loop]; now rewrite H.
Qed.

(** With only inactive bytes from [e] on, the scanner hands the rest
    of the span, from [i], to [normal_text] and returns. *)
Lemma parse_inline_loop_rest rec (n : nat) ob md data (size i e : nat) :
  i < size -> e <= size ->
  (forall j, e <= j < size -> active_char md (rd data j) = MD_CHAR_NONE) ->
  parse_inline_loop rec (S n) ob md data size i e
  = Ret (emit_text ob md (padd data i) (size - i)).
Proof.
  intros Hi He Hrest. cbn [parse_inline_loop].
  apply Nat.ltb_lt in Hi. rewrite Hi.
  rewrite skip_while_all; [|exact He|].
  - destruct (emit_text ob md (padd data i) (size - i)) as [ob1 md1].
    now rewrite Nat.leb_refl.
  - intros j Hj. now rewrite Hrest.
Qed.

(** The first round of [parse_inline] on a span that begins with an
    active byte: the empty run before it goes to [normal_text], the
    handler is called on the whole span, and the scan goes on after the
    bytes it took, or one byte further with the first byte still to be
    emitted when it took none. *)
Lemma parse_inline_first_active (fuel : nat) ob md data (size : nat)
    (h : char_trigger O) :
  within_nesting md -> 0 < size ->
  markdown_char_ptrs (parse_inline fuel) (active_char md (rd data 0)) = Some h ->
  parse_inline (S fuel) ob md data size =
  (let '(ob0, md0) := emit_text ob md data 0 in
   let* (n, ob1, md1) := h ob0 md0 data 0 size in
   if n =? 0 then parse_inline_loop (parse_inline fuel) size ob1 md1 data size 0 1
   else parse_inline_loop (parse_inline fuel) size ob1 md1 data size n n).
Proof.
  intros Hnest Hpos Hh. cbn [parse_inline].
  rewrite (nesting_check_passes md Hnest).
  unfold parse_inline_body. cbn [parse_inline_loop].
  apply Nat.ltb_lt in Hpos as Hpos'. rewrite Hpos'.
  assert (Hact : is_none_action (active_char md (rd data 0)) = false).
  { destruct (active_char md (rd data 0)); try reflexivity. discriminate. }
  rewrite skip_while_here by assumption.
  rewrite padd_zero. cbn [Nat.sub].
  destruct (emit_text ob md data 0) as [ob0 md0].
  destruct (Nat.leb_spec size 0) as [Hle|_]; [lia|].
  cbv zeta. rewrite Hh. cbn [call bind]. rewrite Nat.sub_0_r.
  destruct (h ob0 md0 data 0 size) as [[[n ob1] md1]|e]; cbn [bind]; reflexivity.
Qed.

(** *** Superscript *)

Lemma char_superscript_empty_parens rec ob md data (offset size : nat) sup :
  cb_superscript (rndr md) = Some sup ->
  3 <= size -> rd data 1 = "("%char -> rd data 2 = ")"%char ->
  char_superscript rec ob md data offset size = Ret (3, ob, md).
Proof.
  intros Hsup Hsize H1 H2. unfold char_superscript. rewrite Hsup.
  destruct (Nat.ltb_spec size 2) as [|_]; [lia|].
  rewrite H1. cbn [ceq Ascii.eqb Bool.eqb andb].
  rewrite skip_while_here; [| lia | now rewrite H2].
  destruct (Nat.eqb_spec 2 size) as [|_]; [lia|]. reflexivity.
Qed.

Lemma char_superscript_before_space rec ob md data (offset size : nat) sup :
  cb_superscript (rndr md) = Some sup ->
  2 <= size -> _isspace (rd data 1) = true ->
  char_superscript rec ob md data offset size = Ret (0, ob, md).
Proof.
  intros Hsup Hsize H1. unfold char_superscript. rewrite Hsup.
  destruct (Nat.ltb_spec size 2) as [|_]; [lia|].
  assert (Hp : ceq (rd data 1) "(" = false).
  { unfold _isspace in H1. apply orb_true_iff in H1 as [H|H];
      apply Ascii.eqb_eq in H; rewrite H; reflexivity. }
  rewrite Hp. rewrite skip_while_here; [| lia | now rewrite H1].
  reflexivity.
Qed.

(** With the SUPERSCRIPT extension on, the caret is an active byte
    handled by [char_superscript]. *)
Lemma new_active_char_caret (extensions : hoedown_extensions -> bool)
    (renderer : hoedown_renderer O) :
  extensions HOEDOWN_EXT_SUPERSCRIPT = true ->
  new_active_char extensions renderer "^" = MD_CHAR_SUPERSCRIPT.
Proof.
  intros H. unfold new_active_char. cbn [ceq Ascii.eqb Bool.eqb andb orb].
  rewrite H, !andb_false_r. reflexivity.
Qed.

(** C10.  For a parser with the caret active as superscript and a
    [superscript] callback: on [^()] the handler takes 3 bytes, calls
    nothing and leaves the output and the parser as they were, so that
    a span that is just [^()] yields only the empty text run that
    precedes it; on a caret followed by a space or a newline the
    handler takes nothing, and the scanner emits the caret as text
    together with the inactive bytes that follow. *)
Theorem superscript_empty_forms (fuel : nat) ob md data (offset size : nat) sup :
  within_nesting md ->
  active_char md (rd data 0) = MD_CHAR_SUPERSCRIPT ->
  cb_superscript (rndr md) = Some sup ->
  (3 <= size -> rd data 1 = "("%char -> rd data 2 = ")"%char ->
   char_superscript (parse_inline fuel) ob md data offset size = Ret (3, ob, md)
   /\ (size = 3 -> parse_inline (S fuel) ob md data size = Ret (emit_text ob md data 0)))
  /\ (2 <= size -> _isspace (rd data 1) = true ->
      char_superscript (parse_inline fuel) ob md data offset size = Ret (0, ob, md)
      /\ ((forall j, 1 <= j < size -> active_char md (rd data j) = MD_CHAR_NONE) ->
          parse_inline (S fuel) ob md data size
          = Ret (let '(ob0, md0) := emit_text ob md data 0 in emit_text ob0 md0 data size))).
Proof.
  intros Hnest Hact Hsup. split.
  - intros Hsize H1 H2. split.
    + now apply char_superscript_empty_parens with (sup := sup).
    + intros ->.
      rewrite (parse_inline_first_active fuel ob md data 3
                 (char_superscript (parse_inline fuel))); [|assumption|lia|now rewrite Hact].
      destruct (emit_text ob md data 0) as [ob0 md0] eqn:E.
      assert (Hsup0 : cb_superscript (rndr md0) = Some sup).
      { unfold emit_text in E. destruct (cb_normal_text (rndr md)); inversion E; subst;
          [unfold ran; cbn|]; assumption. }
      rewrite (char_superscript_empty_parens _ ob0 md0 data 0 3 sup Hsup0) by (assumption || lia).
      cbn [bind Nat.eqb]. now rewrite parse_inline_loop_done by lia.
  - intros Hsize H1. split.
    + now apply char_superscript_before_space with (sup := sup).
    + intros Hrest.
      rewrite (parse_inline_first_active fuel ob md data size
                 (char_superscript (parse_inline fuel))); [|assumption|lia|now rewrite Hact].
      destruct (emit_text ob md data 0) as [ob0 md0] eqn:E.
      assert (H0 : cb_superscript (rndr md0) = Some sup /\ active_char md0 = active_char md).
      { unfold emit_text in E. destruct (cb_normal_text (rndr md)); inversion E; subst;
          [unfold ran; cbn|]; auto. }
      destruct H0 as [Hsup0 Hact0].
      rewrite (char_superscript_before_space _ ob0 md0 data 0 size sup Hsup0) by assumption.
      cbn [bind Nat.eqb].
      destruct size as [|size']; [lia|].
      rewrite parse_inline_loop_rest; [|lia|lia|].
      * now rewrite padd_zero, Nat.sub_0_r.
      * intros j Hj. rewrite Hact0. now apply Hrest.
Qed.

(** *** Escapes *)

(** A byte of the escape set after the backslash: the byte goes to
    [normal_text] (or is put verbatim) and both bytes are taken. *)
Lemma char_escape_escapable ob md data (offset size : nat) :
  1 < size -> In (rd data 1) escape_chars ->
  char_escape ob md data offset size =
  Ret (2,
       fst (match cb_normal_text (rndr md) with
            | Some normal_text => ran md (normal_text ob (bytes (padd data 1) 1) (opaque md))
            | None => (ob ++ [rd data 1], md)
            end),
       snd (match cb_normal_text (rndr md) with
            | Some normal_text => ran md (normal_text ob (bytes (padd data 1) 1) (opaque md))
            | None => (ob ++ [rd data 1], md)
            end)).
Proof.
  intros Hsize Hin. unfold char_escape.
  apply Nat.ltb_lt in Hsize. rewrite Hsize.
  assert (Hs : strchr escape_chars (rd data 1) = true).
  { unfold strchr. apply orb_true_iff. left. apply existsb_exists.
    exists (rd data 1). split; [assumption|]. apply Ascii.eqb_refl. }
  rewrite Hs. cbn [negb]. unfold hoedown_buffer_putc.
  destruct (cb_normal_text (rndr md)) as [f|]; [|reflexivity].
  destruct (ran md (f ob (bytes (padd data 1) 1) (opaque md))). reflexivity.
Qed.

(** Any other byte but NUL after the backslash: nothing is taken. *)
Lemma char_escape_other ob md data (offset size : nat) :
  1 < size -> ~ In (rd data 1) escape_chars -> rd data 1 <> NUL ->
  char_escape ob md data offset size = Ret (0, ob, md).
Proof.
  intros Hsize Hnin Hnul. unfold char_escape.
  apply Nat.ltb_lt in Hsize. rewrite Hsize.
  assert (Hs : strchr escape_chars (rd data 1) = false).
  { unfold strchr. apply orb_false_iff. split.
    - apply not_true_is_false. intros H. apply existsb_exists in H as [x [Hx Hc]].
      apply Ascii.eqb_eq in Hc. subst x. contradiction.
    - apply not_true_is_false. intros H. apply Ascii.eqb_eq in H. contradiction. }
  now rewrite Hs.
Qed.

(** A NUL after the backslash is taken for a byte of the escape set:
    [strchr] finds the terminator of [escape_chars]. *)
Lemma char_escape_nul ob md data (offset size : nat) :
  1 < size -> rd data 1 = NUL -> cb_normal_text (rndr md) = None ->
  char_escape ob md data offset size = Ret (2, ob ++ [NUL], md).
Proof.
  intros Hsize Hnul Hnt. unfold char_escape.
  apply Nat.ltb_lt in Hsize. rewrite Hsize, Hnul, Hnt. reflexivity.
Qed.

(** *** Code spans *)

Lemma spans_rd data (size : nat) (l : list ascii) (j : nat) :
  spans data size l -> j < size -> rd data j = nth j l NUL.
Proof.
  intros [Hb Hl] Hj. unfold rd. rewrite <- Hb. unfold bytes.
  rewrite nth_firstn. apply Nat.ltb_lt in Hj. rewrite Hj.
  now rewrite nth_skipn.
Qed.

Lemma spans_bytes data (size : nat) (l : list ascii) (a b : nat) :
  spans data size l -> a + b <= size ->
  bytes (padd data a) b = firstn b (skipn a l).
Proof.
  intros [Hb Hl] Hab. rewrite <- Hb. unfold bytes, padd. cbn [mem idx].
  rewrite skipn_firstn_comm, skipn_skipn, firstn_firstn.
  rewrite (Nat.add_comm a). f_equal. lia.
Qed.

Lemma drop_spaces_length (l : list ascii) : length (drop_spaces l) <= length l.
Proof.
  induction l as [|c r IH]; cbn; [lia|]. destruct (ceq c " "); cbn; lia.
Qed.

(** [l] is spaces followed by [drop_spaces l]. *)
Lemma drop_spaces_split (l : list ascii) :
  l = repeat " "%char (length l - length (drop_spaces l)) ++ drop_spaces l.
Proof.
  induction l as [|c r IH]; [reflexivity|]. cbn [drop_spaces].
  destruct (ceq c " ") eqn:E.
  - apply Ascii.eqb_eq in E. subst c.
    pose proof (drop_spaces_length r).
    replace (length (" "%char :: r) - length (drop_spaces r))
      with (S (length r - length (drop_spaces r))) by (cbn [length]; lia).
    cbn [repeat app]. now rewrite <- IH.
  - now rewrite Nat.sub_diag.
Qed.

Lemma drop_spaces_head (l : list ascii) (c : ascii) (r : list ascii) :
  drop_spaces l = c :: r -> ceq c " " = false.
Proof.
  induction l as [|x l IH]; cbn; [discriminate|].
  destruct (ceq x " ") eqn:E; [exact IH|]. now intros [= <- _].
Qed.

Lemma drop_spaces_app (x y : list ascii) :
  drop_spaces x <> [] -> drop_spaces (x ++ y) = drop_spaces x ++ y.
Proof.
  induction x as [|c x IH]; cbn; [contradiction|].
  destruct (ceq c " "); [exact IH | reflexivity].
Qed.

Lemma drop_spaces_repeat (k : nat) : drop_spaces (repeat " "%char k) = [].
Proof. induction k; [reflexivity | exact IHk]. Qed.

Lemma drop_spaces_last (x : list ascii) (c : ascii) :
  ceq c " " = false -> drop_spaces (x ++ [c]) <> [].
Proof.
  intros Hc. induction x as [|a x IH]; cbn.
  - now rewrite Hc.
  - destruct (ceq a " "); [exact IH | discriminate].
Qed.


(** Stripping is dropping the leading and the trailing spaces, when a
    byte stays. *)
Lemma strip_spaces_slice (l : list ascii) :
  lead l + lead (rev l) < length l ->
  strip_spaces l = firstn (length l - lead (rev l) - lead l) (skipn (lead l) l).
Proof.
  unfold lead. intros H. unfold strip_spaces.
  pose proof (drop_spaces_split l) as Hl.
  pose proof (drop_spaces_length l) as Hlen.
  destruct (drop_spaces l) as [|c d] eqn:Ed.
  { cbn [length] in H. lia. }
  set (k := length l - length (c :: d)) in *.
  assert (Hc : ceq c " " = false) by (eapply drop_spaces_head; eauto).
  assert (Hsk : skipn k l = c :: d).
  { rewrite Hl at 1. rewrite skipn_app, repeat_length, Nat.sub_diag.
    rewrite skipn_all2 by (rewrite repeat_length; lia). reflexivity. }
  assert (Hne : drop_spaces (rev (c :: d)) <> []).
  { cbn [rev]. now apply drop_spaces_last. }
  assert (Hrev : drop_spaces (rev l) = drop_spaces (rev (c :: d)) ++ repeat " "%char k).
  { rewrite Hl at 1. rewrite rev_app_distr, drop_spaces_app by assumption.
    f_equal. clear. induction k; [reflexivity|].
    cbn [repeat rev]. rewrite IHk. clear. induction k; [reflexivity|].
    cbn [repeat app]. now rewrite IHk. }
  assert (Hlt : length (rev l) - length (drop_spaces (rev l))
                = length (rev (c :: d)) - length (drop_spaces (rev (c :: d)))).
  { rewrite Hrev, length_app, repeat_length, !length_rev.
    assert (length l = k + length (c :: d)).
    { rewrite Hl at 1. now rewrite length_app, repeat_length. }
    lia. }
  rewrite Hlt, Hsk.
  pose proof (drop_spaces_split (rev (c :: d))) as Hr.
  set (t := length (rev (c :: d)) - length (drop_spaces (rev (c :: d)))) in *.
  assert (E : c :: d = rev (drop_spaces (rev (c :: d))) ++ repeat " "%char t).
  { rewrite <- (rev_involutive (c :: d)) at 1. rewrite Hr at 1.
    rewrite rev_app_distr. f_equal. clear. induction t; [reflexivity|].
    cbn [repeat rev]. rewrite IHt. clear. induction t; [reflexivity|].
    cbn [repeat app]. now rewrite IHt. }
  assert (Hlen2 : length (rev (drop_spaces (rev (c :: d)))) = length l - t - k).
  { assert (length l = k + length (c :: d)).
    { rewrite Hl at 1. now rewrite length_app, repeat_length. }
    assert (length (c :: d) = length (rev (drop_spaces (rev (c :: d)))) + t).
    { rewrite E at 1. now rewrite length_app, repeat_length. }
    lia. }
  rewrite E at 2. rewrite <- Hlen2, firstn_app, Nat.sub_diag, firstn_all, firstn_0.
  now rewrite app_nil_r.
Qed.

(** When only spaces are there, nothing stays. *)
Lemma strip_spaces_blank (l : list ascii) :
  length l <= lead l + lead (rev l) -> strip_spaces l = [].
Proof.
  unfold lead. intros H. unfold strip_spaces.
  pose proof (drop_spaces_split l) as Hl.
  pose proof (drop_spaces_length l) as Hlen.
  destruct (drop_spaces l) as [|c d] eqn:Ed; [reflexivity|].
  exfalso.
  assert (Hc : ceq c " " = false) by (eapply drop_spaces_head; eauto).
  set (k := length l - length (c :: d)) in *.
  assert (Hne : drop_spaces (rev (c :: d)) <> []).
  { cbn [rev]. now apply drop_spaces_last. }
  assert (Hrev : drop_spaces (rev l) = drop_spaces (rev (c :: d)) ++ repeat " "%char k).
  { rewrite Hl at 1. rewrite rev_app_distr, drop_spaces_app by assumption.
    f_equal. clear. induction k; [reflexivity|].
    cbn [repeat rev]. rewrite IHk. clear. induction k; [reflexivity|].
    cbn [repeat app]. now rewrite IHk. }
  assert (length l = k + length (c :: d)).
  { rewrite Hl at 1. now rewrite length_app, repeat_length. }
  assert (0 < length (drop_spaces (rev (c :: d)))).
  { destruct (drop_spaces (rev (c :: d))); [contradiction | cbn; lia]. }
  rewrite Hrev, length_app, repeat_length, length_rev in H.
  pose proof (drop_spaces_length (rev (c :: d))) as H2. rewrite length_rev in H2.
  lia.
Qed.

Lemma skip_while_step (p : nat -> bool) (size i : nat) :
  i < size -> p i = true -> skip_while p size i = skip_while p size (S i).
Proof.
  intros Hi Hp. unfold skip_while.
  replace (size - i) with (S (size - S i)) by lia. cbn. now rewrite Hp.
Qed.

Lemma lead_cons_space (r : list ascii) : lead (" "%char :: r) = S (lead r).
Proof.
  unfold lead. cbn [drop_spaces ceq Ascii.eqb Bool.eqb andb length].
  pose proof (drop_spaces_length r). lia.
Qed.

Lemma lead_cons_other (c : ascii) (r : list ascii) :
  ceq c " " = false -> lead (c :: r) = 0.
Proof. intros H. unfold lead. cbn [drop_spaces]. rewrite H. lia. Qed.

(** Skipping spaces forward over the bytes [l] that start at [a]. *)
Lemma skip_spaces_region data (bound a : nat) (l : list ascii) :
  (forall j, j < length l -> rd data (a + j) = nth j l NUL) ->
  a + length l <= bound ->
  (a + length l = bound \/ ceq (rd data (a + length l)) " " = false) ->
  skip_while (fun f => ceq (rd data f) " ") bound a = a + lead l.
Proof.
  revert a. induction l as [|c r IH]; intros a Hrd Hb Hstop.
  - cbn [length] in *. unfold lead. cbn. rewrite Nat.add_0_r in *.
    destruct Hstop as [->|Hs]; [now apply skip_while_past|].
    destruct (Nat.eq_dec a bound) as [->|Hne]; [now apply skip_while_past|].
    apply skip_while_here; [lia | exact Hs].
  - cbn [length] in *.
    assert (Hc : rd data a = c).
    { specialize (Hrd 0 ltac:(lia)). now rewrite Nat.add_0_r in Hrd. }
    destruct (ceq c " ") eqn:E.
    + apply Ascii.eqb_eq in E as Ec.
      rewrite skip_while_step; [|lia|now rewrite Hc].
      rewrite IH.
      * rewrite Ec, lead_cons_space. lia.
      * intros j Hj. specialize (Hrd (S j) ltac:(lia)). cbn in Hrd.
        now replace (S a + j) with (a + S j) by lia.
      * lia.
      * now replace (S a + length r) with (a + S (length r)) by lia.
    + rewrite lead_cons_other by assumption.
      rewrite skip_while_here; [lia | lia | now rewrite Hc].
Qed.

(** Skipping spaces backward over the bytes [l] that start at [a]. *)
Lemma back_spaces_region data (a : nat) (l : list ascii) :
  (forall j, j < length l -> rd data (a + j) = nth j l NUL) ->
  back_while (fun f => ceq (rd data (f - 1)) " ") a (a + length l)
  = a + length l - lead (rev l).
Proof.
  induction l as [|c l IH] using rev_ind; intros Hrd.
  - unfold back_while, lead. cbn. replace (a + 0 - a) with 0 by lia. cbn. lia.
  - rewrite length_app in *. cbn [length] in *.
    assert (Hc : rd data (a + length l) = c).
    { rewrite Hrd by lia. now rewrite app_nth2, Nat.sub_diag by lia. }
    assert (Hrd' : forall j, j < length l -> rd data (a + j) = nth j l NUL).
    { intros j Hj. rewrite Hrd by lia. now rewrite app_nth1 by lia. }
    specialize (IH Hrd').
    unfold back_while in *.
    replace (a + (length l + 1) - a) with (S (length l)) by lia.
    replace (a + length l - a) with (length l) in IH by lia.
    cbn [back_loop].
    replace (a + (length l + 1) - 1) with (a + length l) by lia.
    rewrite Hc, rev_app_distr. cbn [rev app].
    destruct (ceq c " ") eqn:E.
    + apply Ascii.eqb_eq in E. rewrite E, IH, lead_cons_space. lia.
    + rewrite lead_cons_other by assumption. lia.
Qed.

(** Where the delimiter search stops, the last [i] bytes before [end]
    are the delimiter byte, and they lie after the opening run. *)
Lemma delim_loop_inv (m : nat) data (q : ascii) (nb s e i e' i' : nat) :
  delim_loop m data q nb e i = (e', i') ->
  (forall j, e - i <= j < e -> rd data j = q) -> i <= e - s -> s <= e ->
  (forall j, e' - i' <= j < e' -> rd data j = q) /\ i' <= e' - s /\ e <= e' <= e + m
  /\ (i' < nb -> e' = e + m).
Proof.
  revert e i. induction m as [|m IH]; intros e i Hd Hq Hi Hs; cbn [delim_loop] in Hd.
  - inversion Hd; subst. repeat split; auto; lia.
  - destruct (Nat.ltb_spec i nb) as [Hlt|Hge].
    + apply IH in Hd.
      * destruct Hd as (H1 & H2 & H3 & H4). repeat split; auto; lia.
      * destruct (ceq (rd data e) q) eqn:E.
        -- apply Ascii.eqb_eq in E. intros j Hj.
           destruct (Nat.eq_dec j e) as [->|Hne]; [exact E|]. apply Hq. lia.
        -- intros j Hj. lia.
      * destruct (ceq (rd data e) q); lia.
      * lia.
    + inversion Hd; subst. repeat split; auto; lia.
Qed.

Lemma slice_of_slice (l : list ascii) (nb n lb k : nat) :
  k <= n - lb ->
  firstn k (skipn lb (firstn n (skipn nb l))) = firstn k (skipn (nb + lb) l).
Proof.
  intros H. rewrite skipn_firstn_comm, skipn_skipn, firstn_firstn.
  rewrite (Nat.add_comm lb nb). f_equal. lia.
Qed.

(** What [char_codespan] passes to the callback, for every span it
    recognises: with [nb] the length of the opening run and [end] the
    place right after the first [nb] backticks in a row that follow,
    the bytes between the two, stripped. *)
Lemma char_codespan_content ob md data (offset size : nat) (l : list ascii) codespan :
  spans data size l -> 0 < size -> rd data 0 = BTICK ->
  cb_codespan (rndr md) = Some codespan ->
  forall nb end_ i,
    nb = skip_while (fun k => ceq (rd data k) BTICK) size 0 ->
    delim_loop (size - nb) data BTICK nb nb 0 = (end_, i) ->
    i = nb ->
    char_codespan ob md data offset size =
    (let content := nonempty (strip_spaces (firstn (end_ - 2 * nb) (skipn nb l))) in
     let '(r, ob', md') := ran_int md (codespan ob content (opaque md)) in
     Ret ((if r then end_ else 0), ob', md')).
Proof.
  intros Hsp Hsize H0 Hcb nb end_ i Hnb Hd Hi. subst i.
  unfold char_codespan. rewrite <- Hnb, Hd, Hcb. cbn [call bind].
  assert (Hnb1 : 1 <= nb <= size).
  { split.
    - rewrite Hnb, skip_while_step by (assumption || now rewrite H0).
      pose proof (skip_while_ge (fun k => ceq (rd data k) BTICK) size 1). lia.
    - rewrite Hnb. apply skip_while_le. lia. }
  destruct (delim_loop_inv _ _ _ _ nb _ _ _ _ Hd) as (Hq & Hlo & Hhi & _);
    [intros j Hj; lia | lia | lia |].
  rewrite Nat.ltb_irrefl. cbn [andb].
  set (body := firstn (end_ - 2 * nb) (skipn nb l)).
  assert (Hlen : length body = end_ - 2 * nb).
  { unfold body. rewrite length_firstn, length_skipn. destruct Hsp as [_ Hl]. lia. }
  assert (Hbody : forall j, j < length body -> rd data (nb + j) = nth j body NUL).
  { intros j Hj. rewrite (spans_rd data size l) by (assumption || lia).
    unfold body. rewrite nth_firstn, nth_skipn.
    rewrite Hlen in Hj. apply Nat.ltb_lt in Hj. now rewrite Hj. }
  assert (Hfb : skip_while (fun f => ceq (rd data f) " ") end_ nb = nb + lead body).
  { apply skip_spaces_region; [exact Hbody | lia |].
    right. rewrite Hq by lia. reflexivity. }
  assert (Hfe : back_while (fun f => ceq (rd data (f - 1)) " ") nb (end_ - nb)
                = nb + length body - lead (rev body)).
  { replace (end_ - nb) with (nb + length body) by lia.
    now apply back_spaces_region. }
  rewrite Hfb, Hfe.
  assert (Hlb : lead body <= length body).
  { unfold lead. lia. }
  destruct (Nat.ltb_spec (nb + lead body) (nb + length body - lead (rev body))) as [Hlt|Hge].
  - rewrite (spans_bytes data size l) by (assumption || lia).
    rewrite strip_spaces_slice by lia.
    replace (nb + length body - lead (rev body) - (nb + lead body))
      with (length body - lead (rev body) - lead body) by lia.
    assert (E : firstn (length body - lead (rev body) - lead body) (skipn (nb + lead body) l)
                = firstn (length body - lead (rev body) - lead body) (skipn (lead body) body)).
    { symmetry. unfold body at 4. apply slice_of_slice. rewrite <- Hlen. lia. }
    rewrite E.
    destruct (firstn (length body - lead (rev body) - lead body) (skipn (lead body) body))
      as [|x xs] eqn:Ex.
    + exfalso. apply (f_equal (@length ascii)) in Ex.
      rewrite length_firstn, length_skipn in Ex. cbn in Ex. lia.
    + reflexivity.
  - rewrite strip_spaces_blank by lia. reflexivity.
Qed.

Lemma skip_while_to (p : nat -> bool) (size i k : nat) :
  i <= k < size -> (forall j, i <= j < k -> p j = true) -> p k = false ->
  skip_while p size i = k.
Proof.
  intros Hk Hall Hstop.
  remember (k - i) as d eqn:Hd. revert i Hk Hall Hd.
  induction d as [|d IH]; intros i Hk Hall Hd.
  - replace i with k by lia. apply skip_while_here; [lia | exact Hstop].
  - rewrite skip_while_step; [|lia|apply Hall; lia].
    apply IH; [lia | intros j Hj; apply Hall; lia | lia].
Qed.

Section Delimited.

Variables (data : ptr) (size n : nat) (body rest : list ascii).
Hypothesis Hspan :
  spans data size (repeat BTICK n ++ body ++ repeat BTICK n ++ rest).
Hypothesis Hn : 0 < n.
Hypothesis Hbody : delimitable n body.

Lemma delimited_size : size = n + length body + n + length rest.
Proof using Hspan Hn Hbody.
  destruct Hspan as [_ H]. rewrite !length_app, !repeat_length in H. lia.
Qed.

Lemma delimited_open (j : nat) : j < n -> rd data j = BTICK.
Proof using Hspan Hn Hbody.
  intros Hj. pose proof delimited_size.
  rewrite (spans_rd _ _ _ _ Hspan) by lia.
  rewrite app_nth1 by (rewrite repeat_length; lia).
  apply nth_repeat_lt. exact Hj.
Qed.

Lemma delimited_body (j : nat) :
  j < length body -> rd data (n + j) = nth j body NUL.
Proof using Hspan Hn Hbody.
  intros Hj. pose proof delimited_size.
  rewrite (spans_rd _ _ _ _ Hspan) by lia.
  rewrite app_nth2 by (rewrite repeat_length; lia).
  rewrite repeat_length. replace (n + j - n) with j by lia.
  now rewrite app_nth1.
Qed.

Lemma delimited_close (j : nat) : j < n -> rd data (n + length body + j) = BTICK.
Proof using Hspan Hn Hbody.
  intros Hj. pose proof delimited_size.
  rewrite (spans_rd _ _ _ _ Hspan) by lia.
  rewrite app_nth2 by (rewrite repeat_length; lia).
  rewrite repeat_length.
  rewrite app_nth2 by lia.
  rewrite app_nth1 by (rewrite repeat_length; lia).
  apply nth_repeat_lt. lia.
Qed.

(** The opening run is the [n] backticks. *)
Lemma delimited_nb : skip_while (fun k => ceq (rd data k) BTICK) size 0 = n.
Proof using Hspan Hn Hbody.
  pose proof delimited_size. destruct Hbody as (Hlen & Hfirst & _).
  apply skip_while_to.
  - lia.
  - intros j Hj. rewrite delimited_open by lia. reflexivity.
  - specialize (delimited_body 0 Hlen) as Hb. rewrite Nat.add_0_r in Hb. rewrite Hb.
    apply not_true_is_false. intros E. apply Ascii.eqb_eq in E. contradiction.
Qed.

Lemma delim_loop_closing (m j : nat) :
  j <= n -> n - j <= m ->
  delim_loop m data BTICK n (n + length body + j) j = (n + length body + n, n).
Proof using Hspan Hn Hbody.
  revert j. induction m as [|m IH]; intros j Hj Hm.
  - replace j with n by lia. reflexivity.
  - cbn [delim_loop]. destruct (Nat.ltb_spec j n) as [Hlt|Hge].
    + rewrite delimited_close by assumption.
      cbn [ceq]. rewrite Ascii.eqb_refl.
      replace (S (n + length body + j)) with (n + length body + (j + 1)) by lia.
      apply IH; lia.
    + replace j with n by lia. reflexivity.
Qed.

Lemma delim_loop_body (m e i : nat) :
  n <= e <= n + length body -> i <= e - n -> i < n ->
  (forall j, e - i <= j < e -> rd data j = BTICK) ->
  n + length body + n - e <= m ->
  delim_loop m data BTICK n e i = (n + length body + n, n).
Proof using Hspan Hn Hbody.
  destruct Hbody as (Hlen & Hfirst & Hlast & Hwin).
  revert e i. induction m as [|m IH]; intros e i He Hi Hin Hq Hm; [lia|].
  destruct (Nat.eq_dec e (n + length body)) as [->|Hne].
  - assert (i = 0).
    { destruct i as [|i]; [reflexivity|]. exfalso.
      specialize (Hq (n + length body - 1) ltac:(lia)).
      replace (n + length body - 1) with (n + (length body - 1)) in Hq by lia.
      rewrite delimited_body in Hq by lia. contradiction. }
    subst i.
    pose proof (delim_loop_closing (S m) 0 ltac:(lia) ltac:(lia)) as Hc.
    now rewrite Nat.add_0_r in Hc.
  - cbn [delim_loop]. apply Nat.ltb_lt in Hin as Hin'. rewrite Hin'.
    destruct (ceq (rd data e) BTICK) eqn:E.
    + apply Ascii.eqb_eq in E.
      assert (Hall : forall j, e - i <= j < S e -> rd data j = BTICK).
      { intros j Hj. destruct (Nat.eq_dec j e) as [->|]; [exact E | apply Hq; lia]. }
      assert (i + 1 < n).
      { destruct (Nat.lt_ge_cases (i + 1) n) as [|Hge]; [assumption|]. exfalso.
        destruct (Hwin (e - i - n) ltac:(lia)) as (j & Hj & Hnb).
        apply Hnb. rewrite <- delimited_body by lia.
        apply Hall. lia. }
      apply IH; try lia.
      intros j Hj. apply Hall. lia.
    + apply IH; lia.
Qed.

(** The closing delimiter is found right after the body. *)
Lemma delimited_end :
  delim_loop (size - n) data BTICK n n 0 = (n + length body + n, n).
Proof using Hspan Hn Hbody.
  pose proof delimited_size.
  apply delim_loop_body; lia.
Qed.

End Delimited.

(** C8, as amended.  For a code span that opens with a run of [n]
    backticks and closes at the next [n] backticks in a row, the body
    between them holding no such run and neither beginning nor ending
    with a backtick, the content passed to the [codespan] callback is
    the body with all its leading spaces and all its trailing spaces
    stripped, each side on its own, and NULL when nothing is left; the
    span is taken when the callback says it rendered. *)
Theorem char_codespan_strips_all_spaces ob md data (offset size n : nat)
    (body rest : list ascii) codespan :
  spans data size (repeat BTICK n ++ body ++ repeat BTICK n ++ rest) ->
  0 < n -> delimitable n body ->
  cb_codespan (rndr md) = Some codespan ->
  char_codespan ob md data offset size =
  (let content := nonempty (strip_spaces body) in
   let '(r, ob', md') := ran_int md (codespan ob content (opaque md)) in
   Ret ((if r then n + length body + n else 0), ob', md')).
Proof.
  intros Hsp Hn Hb Hcb.
  pose proof (delimited_size data size n body rest Hsp Hn Hb) as Hsize.
  pose proof (delimited_nb data size n body rest Hsp Hn Hb) as Hnb.
  pose proof (delimited_end data size n body rest Hsp Hn Hb) as Hend.
  rewrite (char_codespan_content ob md data offset size _ codespan Hsp ltac:(lia)
             (delimited_open data size n body rest Hsp Hn Hb 0 Hn) Hcb
             n (n + length body + n) n (eq_sym Hnb)) by (rewrite ?Hnb; auto).
  replace (n + length body + n - 2 * n) with (length body) by lia.
  rewrite skipn_app, repeat_length, Nat.sub_diag.
  rewrite skipn_all2 by (rewrite repeat_length; lia).
  cbn [app skipn]. rewrite firstn_app, Nat.sub_diag, firstn_all. cbn [firstn].
  now rewrite app_nil_r.
Qed.

(** ** What returns, and what it leaves of the parser *)

Section Frame.

(** Whether the call of a NULL callback counts as an outcome. *)
Variable allow : Prop.

Lemma outcome_ret {A : Type} (P : A -> Prop) (a : A) : P a -> outcome allow P (Ret a).
Proof. exact (fun H => H). Qed.

Lemma outcome_bind {A B : Type} (P : A -> Prop) (Q : B -> Prop) (m : res A)
    (k : A -> res B) :
  outcome allow P m -> (forall a, P a -> outcome allow Q (k a)) ->
  outcome allow Q (bind m k).
Proof.
  intros Hm Hk. destruct m as [a|[]]; cbn in *; auto; contradiction.
Qed.

Lemma bind_assoc {A B C : Type} (m : res A) (f : A -> res B) (g : B -> res C) :
  bind (bind m f) g = bind m (fun x => bind (f x) g).
Proof. now destruct m. Qed.

Lemma outcome_weaken {A : Type} (P Q : A -> Prop) (m : res A) :
  outcome allow P m -> (forall a, P a -> Q a) -> outcome allow Q m.
Proof. intros Hm H. destruct m as [a|[]]; cbn in *; auto. Qed.

Lemma kept_refl md : kept md md.
Proof. split; reflexivity. Qed.

Lemma kept_trans md1 md2 md3 : kept md1 md2 -> kept md2 md3 -> kept md1 md3.
Proof. intros [H1 H2] [H3 H4]. split; congruence. Qed.

Lemma kept_set_opaque md (o : O) : kept md (set_opaque md o).
Proof. split; reflexivity. Qed.

Lemma sig_covered md md' : sig md' = sig md -> covered allow md -> covered allow md'.
Proof.
  intros Hs [Ha|Hc]; [now left | right].
  unfold sig in Hs. injection Hs as Hr _ Ha He _ _.
  unfold callbacks_cover, single_emphasis_cb, double_emphasis_cb in *.
  rewrite Hr, Ha, He. exact Hc.
Qed.

Lemma kept_covered md md' : kept md md' -> covered allow md -> covered allow md'.
Proof. intros [Hs _]. now apply sig_covered. Qed.

Lemma kept_depth md md' : kept md md' -> depth md' = depth md.
Proof. intros [_ Hp]. unfold pools in Hp. injection Hp as H1 H2. unfold depth. lia. Qed.

Lemma kept_max_nesting md md' : kept md md' -> max_nesting md' = max_nesting md.
Proof. intros [Hs _]. unfold sig in Hs. now injection Hs. Qed.

(** [popbuf] after a [newbuf] whose effect on the pool was kept. *)
Lemma popbuf_ret md (type : buffer_type) (n : nat) :
  work_size md type = S n -> popbuf md type = Ret (set_work_size md type n).
Proof. intros H. unfold popbuf. now rewrite H. Qed.

(** The equations behind [kept] hypotheses, component by component. *)
Ltac md_simpl :=
  cbn [rndr opaque refs footnotes_found footnotes_used active_char work_block work_span
       ext_flags max_nesting in_link_body
       set_opaque set_refs set_footnotes set_work_block set_work_span set_in_link_body
       work_size set_work_size newbuf ran ran_int fst snd] in *.

Ltac kept_eqs :=
  repeat match goal with
         | H : kept _ _ |- _ => destruct H as [? ?]
         | H : grown _ _ |- _ => destruct H as (? & ? & ?)
         end;
  unfold sig, pools, depth in *;
  repeat match goal with
         | H : (_, _) = (_, _) |- _ => injection H; clear H; intros
         end;
  md_simpl.

(** Rewrites the goal with those equations, towards the earlier parser. *)
Ltac rw_kept :=
  kept_eqs;
  repeat match goal with
         | H : rndr ?m = _ |- context [rndr ?m] => rewrite H
         | H : refs ?m = _ |- context [refs ?m] => rewrite H
         | H : active_char ?m = _ |- context [active_char ?m] => rewrite H
         | H : ext_flags ?m = _ |- context [ext_flags ?m] => rewrite H
         | H : max_nesting ?m = _ |- context [max_nesting ?m] => rewrite H
         | H : work_span ?m = _ |- context [work_span ?m] => rewrite H
         | H : work_block ?m = _ |- context [work_block ?m] => rewrite H
         end.

(** Closes a [kept] goal, or an equation between parts of parsers, from
    the [kept] facts at hand. *)
Ltac solve_kept :=
  md_simpl; cbn [outcome bind snd fst];
  try match goal with
      | |- kept _ _ => split
      | |- grown _ _ => split; [|split]
      end;
  rw_kept;
  repeat match goal with
         | |- (_, _) = (_, _) => f_equal
         end;
  try reflexivity; try congruence; try lia.

(** A [popbuf] whose pool holds the buffer of an earlier [newbuf]. *)
Ltac pop :=
  md_simpl;
  match goal with
  | |- context [popbuf ?m ?t] =>
    erewrite (popbuf_ret m t) by (rw_kept; reflexivity); cbn [bind]
  end.

(** The call of a callback that is there: by an earlier test of its
    presence, or by what the renderer covers. *)
Ltac have_cb :=
  rw_kept;
  match goal with
  | |- context [call ?cb] =>
    let E := fresh "Ecb" in
    destruct cb eqn:E; cbn [call bind];
    [ | solve [ exfalso; cbn [present negb orb andb] in *; (discriminate || congruence)
              | match goal with
                | H : _ \/ present _ = true |- _ =>
                  destruct H as [H|H]; [exact H | cbn [present] in H; discriminate]
                end ] ]
  end.

(** The recursive call. *)
Ltac recurse Hrec Hcov :=
  eapply outcome_bind;
  [ apply Hrec;
    [ rw_kept; lia
    | solve_kept
    | eapply sig_covered; [|exact Hcov]; solve_kept ]
  | let w := fresh "w" in let m := fresh "md" in let Hk := fresh "Hk" in
    intros [w m] Hk; cbn [snd] in Hk ].

Lemma parse_emph1_loop_kept rec (n : nat) ob md data (size : nat) (c : ascii) (i : nat) :
  rec_ok allow rec md -> covered allow md ->
  allow \/ present (single_emphasis_cb md c) = true ->
  outcome allow (fun r => kept md (snd r)) (parse_emph1_loop rec n ob md data size c i).
Proof.
  intros Hrec Hcov Hcb. revert i. unfold single_emphasis_cb in Hcb.
  induction n as [|n IH]; intros i; cbn [parse_emph1_loop]; [apply kept_refl|].
  destruct (i <? size); [|apply kept_refl].
  destruct (find_emph_char (padd data i) (size - i) c =? 0); [apply kept_refl|].
  destruct (size <=? _); [apply kept_refl|].
  destruct (_ && negb _); [|apply IH].
  destruct (ext_flags md HOEDOWN_EXT_NO_INTRA_EMPHASIS && _); [apply IH|].
  md_simpl. recurse Hrec Hcov.
  assert (He : ext_flags md0 = ext_flags md) by solve_kept.
  assert (Hr : rndr md0 = rndr md) by solve_kept.
  rewrite He, Hr.
  destruct (ext_flags md HOEDOWN_EXT_UNDERLINE && ceq c "_"); have_cb; pop; solve_kept.
Qed.

Lemma parse_emph1_kept rec ob md data (size : nat) (c : ascii) :
  rec_ok allow rec md -> covered allow md ->
  allow \/ present (single_emphasis_cb md c) = true ->
  outcome allow (fun r => kept md (snd r)) (parse_emph1 rec ob md data size c).
Proof. intros. unfold parse_emph1. now apply parse_emph1_loop_kept. Qed.

Lemma parse_emph2_loop_kept rec (n : nat) ob md data (size : nat) (c : ascii) (i : nat) :
  rec_ok allow rec md -> covered allow md ->
  allow \/ present (double_emphasis_cb md c) = true ->
  outcome allow (fun r => kept md (snd r)) (parse_emph2_loop rec n ob md data size c i).
Proof.
  intros Hrec Hcov Hcb. revert i. unfold double_emphasis_cb in Hcb.
  induction n as [|n IH]; intros i; cbn [parse_emph2_loop]; [apply kept_refl|].
  destruct (i <? size); [|apply kept_refl].
  destruct (find_emph_char (padd data i) (size - i) c =? 0); [apply kept_refl|].
  destruct (_ && _); [|apply IH].
  md_simpl. recurse Hrec Hcov.
  assert (Hr : rndr md0 = rndr md) by solve_kept.
  rewrite Hr.
  destruct (ceq c "~"); [|destruct (ceq c "=")]; have_cb; pop; solve_kept.
Qed.

Lemma parse_emph2_kept rec ob md data (size : nat) (c : ascii) :
  rec_ok allow rec md -> covered allow md ->
  allow \/ present (double_emphasis_cb md c) = true ->
  outcome allow (fun r => kept md (snd r)) (parse_emph2 rec ob md data size c).
Proof. intros. unfold parse_emph2. now apply parse_emph2_loop_kept. Qed.

(** Case analysis on the test or the scrutinee at the head of the
    computation. *)
Ltac branch :=
  md_simpl;
  match goal with
  | |- outcome _ _ (if ?b then _ else _) => destruct b eqn:?
  | |- outcome _ _ (bind (if ?b then _ else _) _) => destruct b eqn:?
  | |- context [match ?x with Some _ => _ | None => _ end] => destruct x eqn:?
  | |- outcome _ _ (match ?x with _ => _ end) => destruct x eqn:?
  | |- outcome _ _ (bind (match ?x with _ => _ end) _) => destruct x eqn:?
  | |- context [if ?b then _ else _] => destruct b eqn:?
  end.

Ltac finish := solve [apply kept_refl | solve_kept].

Ltac step := first [pop | have_cb | branch | progress cbn [bind]].

Lemma parse_emph3_loop_kept rec (n : nat) ob md data (size : nat) (c : ascii) (i : nat) :
  rec_ok allow rec md -> covered allow md ->
  allow \/ present (single_emphasis_cb md c) = true ->
  allow \/ present (double_emphasis_cb md c) = true ->
  outcome allow (fun r => kept md (snd r)) (parse_emph3_loop rec n ob md data size c i).
Proof.
  intros Hrec Hcov Hcb1 Hcb2. revert i.
  induction n as [|n IH]; intros i; cbn [parse_emph3_loop]; [apply kept_refl|].
  destruct (i <? size); [|apply kept_refl].
  destruct (find_emph_char (padd data i) (size - i) c =? 0); [apply kept_refl|].
  branch; [apply IH|].
  branch.
  - match goal with
    | H : _ && present _ = true |- _ => apply andb_true_iff in H as [_ E3]
    end.
    md_simpl. recurse Hrec Hcov. have_cb. pop. finish.
  - branch.
    + eapply outcome_bind; [now apply parse_emph1_kept|].
      intros [[len ob'] md'] Hk. cbn [snd] in Hk. destruct (len =? 0); finish.
    + eapply outcome_bind; [now apply parse_emph2_kept|].
      intros [[len ob'] md'] Hk. cbn [snd] in Hk. destruct (len =? 0); finish.
Qed.

Lemma parse_emph3_kept rec ob md data (size : nat) (c : ascii) :
  rec_ok allow rec md -> covered allow md ->
  allow \/ present (single_emphasis_cb md c) = true ->
  allow \/ present (double_emphasis_cb md c) = true ->
  outcome allow (fun r => kept md (snd r)) (parse_emph3 rec ob md data size c).
Proof. intros. unfold parse_emph3. now apply parse_emph3_loop_kept. Qed.

(** What the renderer covers for an active emphasis byte. *)
Lemma covered_emphasis md (c : ascii) :
  covered allow md -> active_char md c = MD_CHAR_EMPHASIS ->
  (ceq c "~" || ceq c "=" = false -> allow \/ present (single_emphasis_cb md c) = true)
  /\ (allow \/ present (double_emphasis_cb md c) = true).
Proof.
  intros [Ha|Hc] Hact; [split; intros; now left|].
  destruct Hc as (He & _). destruct (He c Hact) as [H1 H2].
  split; [intros H; right; now apply H1 | now right].
Qed.

Lemma char_emphasis_kept rec ob md data (offset size : nat) :
  rec_ok allow rec md -> covered allow md ->
  active_char md (rd data 0) = MD_CHAR_EMPHASIS ->
  outcome allow (fun r => kept md (snd r)) (char_emphasis rec ob md data offset size).
Proof.
  intros Hrec Hcov Hact.
  destruct (covered_emphasis md (rd data 0) Hcov Hact) as [H1 H2].
  unfold char_emphasis.
  destruct (ext_flags md HOEDOWN_EXT_NO_INTRA_EMPHASIS && _); [apply kept_refl|].
  destruct (_ && negb _).
  { destruct (ceq (rd data 0) "~" || ceq (rd data 0) "=") eqn:E; cbn [orb].
    - apply kept_refl.
    - destruct (_isspace (rd data 1)); [apply kept_refl|].
      eapply outcome_bind; [apply parse_emph1_kept; auto|].
      intros [[ret ob'] md'] Hk. cbn [snd] in Hk. destruct (ret =? 0); finish. }
  destruct (_ && negb _).
  { destruct (_isspace (rd data 2)); [apply kept_refl|].
    eapply outcome_bind; [apply parse_emph2_kept; auto|].
    intros [[ret ob'] md'] Hk. cbn [snd] in Hk. destruct (ret =? 0); finish. }
  destruct (_ && negb _); [|apply kept_refl].
  destruct (ceq (rd data 0) "~" || ceq (rd data 0) "=") eqn:E; cbn [orb].
  - apply kept_refl.
  - destruct (_isspace (rd data 3)); [apply kept_refl|].
    eapply outcome_bind; [apply parse_emph3_kept; auto|].
    intros [[ret ob'] md'] Hk. cbn [snd] in Hk. destruct (ret =? 0); finish.
Qed.

Lemma char_linebreak_kept ob md data (offset size : nat) :
  covered allow md -> active_char md (rd data 0) = MD_CHAR_LINEBREAK ->
  outcome allow (fun r => kept md (snd r)) (char_linebreak ob md data offset size).
Proof.
  intros Hcov Hact. unfold char_linebreak.
  assert (Hcb : allow \/ present (cb_linebreak (rndr md)) = true).
  { destruct Hcov as [|Hc]; [now left|]. right. destruct Hc as (_ & _ & H & _). eauto. }
  branch; [finish|]. have_cb. finish.
Qed.

Lemma char_codespan_kept ob md data (offset size : nat) :
  covered allow md -> active_char md (rd data 0) = MD_CHAR_CODESPAN ->
  outcome allow (fun r => kept md (snd r)) (char_codespan ob md data offset size).
Proof.
  intros Hcov Hact. unfold char_codespan.
  assert (Hcb : allow \/ present (cb_codespan (rndr md)) = true).
  { destruct Hcov as [|Hc]; [now left|]. right. destruct Hc as (_ & H & _). eauto. }
  branch. branch; [finish|]. have_cb. finish.
Qed.

Lemma char_quote_kept ob md data (offset size : nat) :
  covered allow md -> active_char md (rd data 0) = MD_CHAR_QUOTE ->
  outcome allow (fun r => kept md (snd r)) (char_quote ob md data offset size).
Proof.
  intros Hcov Hact. unfold char_quote.
  assert (Hcb : allow \/ present (cb_quote (rndr md)) = true).
  { destruct Hcov as [|Hc]; [now left|]. right. destruct Hc as (_ & _ & _ & H). eauto. }
  branch. branch; [finish|]. have_cb. finish.
Qed.

Lemma char_escape_kept ob md data (offset size : nat) :
  outcome allow (fun r => kept md (snd r)) (char_escape ob md data offset size).
Proof.
  unfold char_escape. repeat branch; finish.
Qed.

Lemma char_entity_kept ob md data (offset size : nat) :
  outcome allow (fun r => kept md (snd r)) (char_entity ob md data offset size).
Proof.
  unfold char_entity. repeat branch; finish.
Qed.

Lemma char_langle_tag_kept ob md data (offset size : nat) :
  outcome allow (fun r => kept md (snd r)) (char_langle_tag ob md data offset size).
Proof.
  unfold char_langle_tag. repeat step; finish.
Qed.

Lemma char_autolink_www_kept ob md data (offset size : nat) :
  outcome allow (fun r => kept md (snd r)) (char_autolink_www ob md data offset size).
Proof.
  unfold char_autolink_www. repeat step; finish.
Qed.

Lemma char_autolink_email_kept ob md data (offset size : nat) :
  outcome allow (fun r => kept md (snd r)) (char_autolink_email ob md data offset size).
Proof.
  unfold char_autolink_email. repeat step; finish.
Qed.

Lemma char_autolink_url_kept ob md data (offset size : nat) :
  outcome allow (fun r => kept md (snd r)) (char_autolink_url ob md data offset size).
Proof.
  unfold char_autolink_url. repeat step; finish.
Qed.

Lemma char_superscript_kept rec ob md data (offset size : nat) :
  rec_ok allow rec md -> covered allow md ->
  outcome allow (fun r => kept md (snd r)) (char_superscript rec ob md data offset size).
Proof.
  intros Hrec Hcov. unfold char_superscript.
  branch; [|finish]. branch; [finish|]. branch; [finish|]. branch; [finish|].
  md_simpl. recurse Hrec Hcov. repeat step; finish.
Qed.

(** *** Links *)

Lemma grown_refl md : grown md md.
Proof. repeat split; lia. Qed.

Lemma link_cleanup_kept md0 md (ret : bool) (i : nat) ob :
  grown md0 md ->
  outcome allow (fun r => kept md0 (snd r)) (link_cleanup (work_span md0) ret i ob md).
Proof. intros H. unfold link_cleanup. finish. Qed.

Lemma link_build_kept rec (is_img : bool) md0 data (i txt_e : nat)
    (link title : option hoedown_buffer) ob md :
  rec_ok allow rec md0 -> covered allow md0 -> grown md0 md ->
  (allow \/ present (if is_img then cb_image (rndr md0) else cb_link (rndr md0)) = true) ->
  outcome allow (fun r => kept md0 (snd r))
    (link_build rec is_img (work_span md0) data i txt_e link title ob md).
Proof.
  intros Hrec Hcov Hg Hcb. unfold link_build.
  eapply outcome_bind with (P := fun r => grown md0 (snd r)).
  - branch; [|finish]. md_simpl. destruct is_img; [finish|].
    eapply outcome_bind.
    + apply Hrec; [rw_kept; lia | solve_kept | eapply sig_covered; [|exact Hcov]; solve_kept].
    + intros [w m] Hk. cbn [snd] in Hk. finish.
  - intros [content m] Hm. cbn [snd] in Hm.
    destruct link as [l|]; destruct is_img; md_simpl;
      have_cb; apply link_cleanup_kept; finish.
Qed.

Lemma link_text_id_grown md0 data (text_has_nl : bool) (txt_e : nat) md :
  grown md0 md -> grown md0 (snd (link_text_id data text_has_nl txt_e md)).
Proof. intros H. unfold link_text_id. destruct text_has_nl; finish. Qed.

Lemma find_footnote_from_bound (items : list footnote_ref) (hash : Z) (k j : nat) :
  find_footnote_from items hash k = Some j -> k <= j < k + length items.
Proof.
  revert k. induction items as [|r next IH]; intros k; cbn; [discriminate|].
  destruct (fn_id r =? hash)%Z.
  - intros [= <-]. lia.
  - intros H. apply IH in H. lia.
Qed.

Lemma unused_count_mark_used (found : list footnote_ref) (k n : nat) :
  k < length found -> is_used (nth k found no_footnote) = false ->
  S (unused_count (mark_used found k n)) = unused_count found.
Proof.
  revert k. induction found as [|r rest IH]; intros k; cbn; [lia|].
  destruct k as [|k]; cbn.
  - intros _ ->. reflexivity.
  - intros Hk Hu. rewrite <- (IH k) by (auto; lia). lia.
Qed.

Lemma use_footnote_grown md0 md (k : nat) :
  k < length (footnotes_found md) -> grown md0 md -> grown md0 (use_footnote md k).
Proof.
  intros Hk Hg. unfold use_footnote.
  destruct (is_used _) eqn:E; cbn [negb]; [exact Hg|].
  pose proof (unused_count_mark_used (footnotes_found md) k
                (length (footnotes_used md ++ [k])) Hk E) as Hu.
  destruct Hg as (Hs & Hb & Hw). split; [|split; md_simpl; assumption].
  unfold sig in *. md_simpl. rewrite <- Hs. f_equal.
  rewrite length_app in *. cbn [length] in *. lia.
Qed.

Lemma char_link_kept rec ob md data (offset size : nat) :
  rec_ok allow rec md -> covered allow md ->
  outcome allow (fun r => kept md (snd r)) (char_link rec ob md data offset size).
Proof.
  intros Hrec Hcov. unfold char_link.
  set (is_img := (0 <? offset) && ceq (rdb data 1) "!"). cbv zeta.
  pose proof (grown_refl md) as Hg.
  destruct (_ || _) eqn:Hcb; [now apply link_cleanup_kept|].
  assert (Hp : allow \/ present (if is_img then cb_image (rndr md) else cb_link (rndr md))
                        = true).
  { right. destruct is_img; cbn [negb andb orb] in Hcb;
      now destruct (present _). }
  destruct (link_text_loop _ _ _ _ _) as [i text_has_nl].
  destruct (size <=? i); [now apply link_cleanup_kept|].
  destruct (_ && ceq (rd data 1) "^").
  { destruct (i <? 3); [now apply link_cleanup_kept|].
    destruct (find_footnote_ref _ _ _) as [k|] eqn:Ef; [|now apply link_cleanup_kept].
    apply find_footnote_from_bound in Ef.
    assert (Hu : grown md (use_footnote md k)) by (apply use_footnote_grown; [lia|exact Hg]).
    destruct (cb_footnote_ref _); apply link_cleanup_kept; finish. }
  destruct (_ && ceq _ "(").
  { destruct (size <=? _); [now apply link_cleanup_kept|].
    destruct (_ && (size <=? _)); [now apply link_cleanup_kept|].
    destruct (if ceq _ SQUOTE || ceq _ DQUOTE then _ else _) as [[title_b title_e] link_e].
    match goal with
    | |- context [if ?c then _ else (None, md)] => destruct c
    end; destruct (title_b <? title_e); md_simpl;
      (apply link_build_kept; [assumption | assumption | finish | exact Hp]). }
  destruct (_ && ceq _ "[").
  { destruct (size <=? _); [now apply link_cleanup_kept|].
    match goal with
    | |- context [if ?b then link_text_id _ _ _ _ else _] => destruct b
    end.
    - pose proof (link_text_id_grown md data text_has_nl i md Hg) as Ht.
      destruct (link_text_id _ _ _ _) as [[id_data id_size] md1]. cbn [snd] in Ht.
      destruct (find_link_ref _ _ _); [|now apply link_cleanup_kept].
      now apply link_build_kept.
    - destruct (find_link_ref _ _ _); [|now apply link_cleanup_kept].
      now apply link_build_kept. }
  pose proof (link_text_id_grown md data text_has_nl i md Hg) as Ht.
  destruct (link_text_id _ _ _ _) as [[id_data id_size] md1]. cbn [snd] in Ht.
  destruct (find_link_ref _ _ _); [|now apply link_cleanup_kept].
  now apply link_build_kept.
Qed.

(** *** The scanner *)

Lemma emit_text_kept ob md data (n : nat) : kept md (snd (emit_text ob md data n)).
Proof. unfold emit_text. destruct (cb_normal_text _); finish. Qed.

Lemma rec_ok_kept rec md md' : kept md md' -> rec_ok allow rec md -> rec_ok allow rec md'.
Proof.
  intros Hk Hrec ob m data size Hd Hm Hc. apply Hrec; auto.
  - rewrite <- (kept_depth _ _ Hk). exact Hd.
  - rewrite Hm. now apply kept_max_nesting.
Qed.

Lemma kept_sym md md' : kept md md' -> kept md' md.
Proof. intros [H1 H2]. split; congruence. Qed.

(** The handler of an active byte. *)
Lemma trigger_kept rec ob md data (offset size : nat) :
  rec_ok allow rec md -> covered allow md ->
  is_none_action (active_char md (rd data 0)) = false ->
  outcome allow (fun r => kept md (snd r))
    (let* trigger := call (markdown_char_ptrs rec (active_char md (rd data 0))) in
     trigger ob md data offset size).
Proof.
  intros Hrec Hcov Hact.
  destruct (active_char md (rd data 0)) eqn:E; cbn [markdown_char_ptrs call bind];
    try discriminate.
  - now apply char_emphasis_kept.
  - now apply char_codespan_kept.
  - now apply char_linebreak_kept.
  - now apply char_link_kept.
  - apply char_langle_tag_kept.
  - apply char_escape_kept.
  - apply char_entity_kept.
  - apply char_autolink_url_kept.
  - apply char_autolink_email_kept.
  - apply char_autolink_www_kept.
  - now apply char_superscript_kept.
  - now apply char_quote_kept.
Qed.

(** The loop of [parse_inline] ends within the rounds it is given, and
    keeps the parser. *)
Lemma parse_inline_loop_kept rec md0 (n : nat) : forall ob md data (size i end_ : nat),
  rec_ok allow rec md0 -> covered allow md0 -> kept md0 md ->
  end_ <= S i -> size < n + end_ ->
  outcome allow (fun r => kept md0 (snd r)) (parse_inline_loop rec n ob md data size i end_).
Proof.
  induction n as [|n IH]; intros ob md data size i end_ Hrec Hcov Hk Hi Hn.
  - cbn [parse_inline_loop]. destruct (i <? size) eqn:E; [|exact Hk].
    apply Nat.ltb_lt in E. lia.
  - cbn [parse_inline_loop]. destruct (i <? size) eqn:E; [|exact Hk].
    set (e := skip_while _ size end_).
    pose proof (skip_while_ge (fun e => is_none_action (active_char md (rd data e)))
                  size end_) as Hge. fold e in Hge.
    pose proof (emit_text_kept ob md (padd data i) (e - i)) as Hemit.
    destruct (emit_text ob md (padd data i) (e - i)) as [ob1 md1]. cbn [snd] in Hemit.
    destruct (size <=? e) eqn:Ee; [exact (kept_trans _ _ _ Hk Hemit)|].
    apply Nat.leb_gt in Ee.
    assert (Hact : is_none_action (active_char md (rd data e)) = false).
    { exact (skip_while_stop (fun e => is_none_action (active_char md (rd data e)))
               size end_ Ee). }
    assert (Hk1 : kept md0 md1) by exact (kept_trans _ _ _ Hk Hemit).
    assert (Ha : active_char md (rd data e) = active_char md1 (rd (padd data e) 0)).
    { rewrite rd_padd, Nat.add_0_r. destruct Hemit as [Hs _]. unfold sig in Hs.
      injection Hs as _ _ Hs _ _. now rewrite Hs. }
    rewrite Ha in Hact |- *.
    match goal with
    | |- outcome _ _ ?t =>
      match t with
      | bind (call ?c) (fun h => bind (@?f h) ?g) =>
        replace t with (bind (bind (call c) f) g) by apply bind_assoc
      end
    end.
    eapply outcome_bind.
    + apply trigger_kept; [now apply (rec_ok_kept rec md0) | | exact Hact].
      now apply (kept_covered md0).
    + intros [[ret ob2] md2] Hk2. cbn [snd] in Hk2.
      assert (Hk3 : kept md0 md2) by exact (kept_trans _ _ _ Hk1 Hk2).
      destruct (ret =? 0) eqn:Er; apply IH; auto; try lia.
      apply Nat.eqb_neq in Er. lia.
Qed.

(** [parse_inline] returns and keeps the parser, when its fuel covers
    the levels of nesting that are left under the limit. *)
Lemma parse_inline_kept (fuel : nat) : forall ob md data (size : nat),
  max_nesting md < fuel + depth md -> covered allow md ->
  outcome allow (fun r => kept md (snd r)) (parse_inline fuel ob md data size).
Proof.
  induction fuel as [|fuel IH]; intros ob md data size Hf Hcov.
  - cbn [parse_inline]. destruct (_ <? _) eqn:E; [apply kept_refl|].
    apply Nat.ltb_ge in E. unfold depth in Hf. lia.
  - cbn [parse_inline]. destruct (_ <? _) eqn:E; [apply kept_refl|].
    unfold parse_inline_body. apply parse_inline_loop_kept; auto using kept_refl; try lia.
    intros ob' md' data' size' Hd Hm Hc. apply IH; [lia | exact Hc].
Qed.

(** *** How far the line scans of the block constructs go *)

Lemma ceq_true (a b : ascii) : ceq a b = true -> a = b.
Proof. apply Ascii.eqb_eq. Qed.

Lemma skip_while_reach (p : nat -> bool) (size i k : nat) :
  i <= k <= size -> (forall j, i <= j < k -> p j = true) -> k <= skip_while p size i.
Proof.
  intros Hk Hall. destruct (Nat.le_gt_cases k (skip_while p size i)) as [|Hlt]; [assumption|].
  pose proof (skip_while_ge p size i) as Hge.
  assert (Hstop : p (skip_while p size i) = false) by (apply skip_while_stop; lia).
  rewrite Hall in Hstop by lia. discriminate.
Qed.

Lemma line_end_gt data (size beg : nat) : beg < line_end data size beg.
Proof. unfold line_end. pose proof (skip_while_ge (fun e => negb (ceq (rd data (e - 1)) NL)) size (beg + 1)). lia. Qed.

Lemma blockquote_loop_end (n : nat) : forall data (size beg end_ : nat)
    (work_data : option nat) (work_size' : nat),
  end_ <= beg ->
  end_ <= snd (fst (fst (blockquote_loop n data size beg end_ work_data work_size')))
  /\ (beg < size -> 0 < n ->
      beg < snd (fst (fst (blockquote_loop n data size beg end_ work_data work_size')))).
Proof.
  induction n as [|n IH]; intros data size beg end_ work_data work_size' He;
    cbn [blockquote_loop]; [cbn; split; lia|].
  destruct (beg <? size) eqn:Eb; [|cbn; apply Nat.ltb_ge in Eb; split; lia].
  pose proof (line_end_gt data size beg) as Hl.
  set (e := line_end data size beg) in *.
  assert (Hrec : forall d wd ws,
             end_ <= snd (fst (fst (blockquote_loop n d size e e wd ws)))
             /\ (beg < size -> 0 < S n ->
                 beg < snd (fst (fst (blockquote_loop n d size e e wd ws))))).
  { intros d wd ws. destruct (IH d size e e wd ws (Nat.le_refl e)) as [H1 _]. split; lia. }
  destruct (_ && _); [cbn; split; lia|].
  destruct (_ <? e); [|apply Hrec].
  destruct work_data; apply Hrec.
Qed.

Lemma blockcode_loop_beg (n : nat) : forall data (size beg : nat) work,
  beg <= fst (blockcode_loop n data size beg work).
Proof.
  induction n as [|n IH]; intros data size beg work; cbn [blockcode_loop]; [cbn; lia|].
  destruct (beg <? size); [|cbn; lia].
  pose proof (line_end_gt data size beg) as Hl.
  destruct (_ && _); [cbn; lia|].
  match goal with
  | |- _ <= fst (blockcode_loop n data size ?e ?w) => specialize (IH data size e w)
  end. lia.
Qed.

Lemma fencedcode_loop_beg (n : nat) : forall data (size beg : nat) work,
  beg <= fst (fencedcode_loop n data size beg work).
Proof.
  induction n as [|n IH]; intros data size beg work; cbn [fencedcode_loop]; [cbn; lia|].
  destruct (beg <? size); [|cbn; lia].
  pose proof (line_end_gt data size beg) as Hl.
  destruct (is_codefence _ _) as [fence_end fence_trail].
  destruct (_ && _); [cbn; lia|].
  match goal with
  | |- _ <= fst (fencedcode_loop n data size ?e ?w) => specialize (IH data size e w)
  end. lia.
Qed.

(** An indented line that is not blank is longer than its indent. *)
Lemma prefix_code_line data (size : nat) :
  prefix_code data size <> 0 -> prefix_code data (line_end data size 0) <> 0.
Proof.
  unfold prefix_code. intros H.
  destruct (3 <? size) eqn:Es; cbn [andb] in H; [|congruence].
  destruct (ceq (rd data 0) " ") eqn:E0; cbn [andb] in H |- *; [|congruence].
  destruct (ceq (rd data 1) " ") eqn:E1; cbn [andb] in H |- *; [|congruence].
  destruct (ceq (rd data 2) " ") eqn:E2; cbn [andb] in H |- *; [|congruence].
  destruct (ceq (rd data 3) " ") eqn:E3; cbn [andb] in H |- *; [|congruence].
  apply Nat.ltb_lt in Es.
  assert (Hr : 4 <= line_end data size 0).
  { unfold line_end. apply skip_while_reach; [cbn; lia|].
    intros j Hj. cbn in Hj.
    assert (Hc : j - 1 = 0 \/ j - 1 = 1 \/ j - 1 = 2) by lia.
    destruct Hc as [-> | [-> | ->]];
      [apply ceq_true in E0; rewrite E0 | apply ceq_true in E1; rewrite E1
       | apply ceq_true in E2; rewrite E2]; reflexivity. }
  replace (3 <? line_end data size 0) with true by (symmetry; apply Nat.ltb_lt; lia).
  cbn. discriminate.
Qed.

Lemma blockcode_loop_first data (size : nat) work :
  0 < size -> prefix_code data size <> 0 ->
  0 < fst (blockcode_loop size data size 0 work).
Proof.
  intros Hs Hp. destruct size as [|n]; [lia|]. cbn [blockcode_loop].
  replace (0 <? S n) with true by (symmetry; apply Nat.ltb_lt; lia).
  rewrite padd_zero, Nat.sub_0_r.
  apply prefix_code_line in Hp.
  destruct (prefix_code data (line_end data (S n) 0) =? 0) eqn:E;
    [apply Nat.eqb_eq in E; congruence|]. cbn [andb].
  pose proof (line_end_gt data (S n) 0) as Hl.
  match goal with
  | |- _ < fst (blockcode_loop n data _ ?e ?w) =>
    pose proof (blockcode_loop_beg n data (S n) e w)
  end. lia.
Qed.

Lemma listitem_loop_beg (n : nat) : forall md data (size orgpre beg end_ : nat)
    (in_empty has_inside_empty in_fence : bool) (sublist : nat) work (flags : list_flags),
  beg <= end_ ->
  beg <= li_beg (listitem_loop n md data size orgpre beg end_ in_empty has_inside_empty
                               in_fence sublist work flags).
Proof.
  induction n as [|n IH]; intros md data size orgpre beg end_ in_empty has_inside_empty
    in_fence sublist work flags He; cbn [listitem_loop li_beg]; [lia|].
  destruct (beg <? size); [|cbn; lia].
  pose proof (skip_while_ge (fun e => negb (ceq (rd data (e - 1)) NL)) size (end_ + 1)) as Hg.
  set (e := skip_while _ size (end_ + 1)) in *.
  assert (Hrec : forall a b c d w f,
             beg <= li_beg (listitem_loop n md data size orgpre e e a b c d w f)).
  { intros. specialize (IH md data size orgpre e e a b c d w f (Nat.le_refl e)). lia. }
  repeat match goal with
         | |- _ <= li_beg (listitem_loop _ _ _ _ _ _ _ _ _ _ _ _ _) => apply Hrec
         | |- _ <= li_beg (mk_listitem_scan _ _ _ _ _) => cbn [li_beg]; lia
         | |- _ <= li_beg (if ?b then _ else _) => destruct b
         end.
Qed.

(** *** Where a definition read by the first pass ends *)

Lemma skip_eol_ge data (end_ i : nat) : i <= skip_eol data end_ i.
Proof.
  unfold skip_eol. destruct (_ && is_eol _); [|lia]. destruct (_ && _); lia.
Qed.

Lemma footnote_body_loop_start (n : nat) : forall data (end_ id_end i start : nat)
    (in_empty : bool) contents',
  start <= i ->
  start <= fst (footnote_body_loop n data end_ id_end i start in_empty contents').
Proof.
  induction n as [|n IH]; intros data end_ id_end i start in_empty contents' Hi;
    cbn [footnote_body_loop]; [cbn; lia|].
  destruct (i <? end_); [|cbn; lia].
  pose proof (skip_while_ge (fun i => negb (is_eol (rd data i))) end_ i) as Hs.
  set (i1 := skip_while _ end_ i) in *.
  pose proof (skip_eol_ge data end_ i1) as He.
  set (i2 := skip_eol data end_ i1) in *.
  assert (Hrec : forall b c, start <= fst (footnote_body_loop n data end_ id_end i2 i2 b c)).
  { intros b c. specialize (IH data end_ id_end i2 i2 b c (Nat.le_refl i2)). lia. }
  destruct (negb (is_empty _ _ =? 0)); [apply Hrec|].
  destruct (_ && _); [cbn; lia | apply Hrec].
Qed.

(** Gives every scan in the goal a name and its lower bound. *)
Ltac bound_skips :=
  repeat match goal with
         | |- context [skip_while ?p ?s ?i] =>
           lazymatch i with
           | context [skip_while _ _ _] => fail
           | _ => idtac
           end;
           let H := fresh "Hge" in
           pose proof (skip_while_ge p s i) as H;
           let v := fresh "k" in
           set (v := skip_while p s i) in *
         end.

Lemma def_indent_le data (beg i : nat) : def_indent data beg = Some i -> i <= 3.
Proof.
  unfold def_indent.
  repeat match goal with
         | |- (if ?c then _ else _) = _ -> _ => destruct c
         end; intros [= <-]; lia.
Qed.

Lemma is_footnote_last data (beg end_ : nat) (list_ : list footnote_ref)
    (last : nat) (list' : list footnote_ref) :
  is_footnote data beg end_ list_ = (true, last, list') -> beg < last.
Proof.
  unfold is_footnote. cbv zeta.
  destruct (end_ <=? beg + 3); [discriminate|].
  destruct (def_indent data beg) as [ind|]; [|discriminate].
  repeat match goal with
         | |- (if ?c then _ else _) = _ -> _ => destruct c; [discriminate|]
         end.
  match goal with
  | |- context [footnote_body_loop ?n ?d ?e ?ie ?i ?s ?b ?c] =>
    pose proof (footnote_body_loop_start n d e ie i s b c (Nat.le_refl _)) as Hs;
    destruct (footnote_body_loop n d e ie i s b c) as [start contents']
  end.
  cbn [fst] in Hs. intros [= <- _]. revert Hs. bound_skips. lia.
Qed.

(** Gives the value bound by a [let] of the goal a name and its
    defining equation, leaving the other [let]s as they are. *)
Ltac name_let :=
  match goal with
  | |- context C [let x := ?e in @?b x] =>
    let v := fresh "p" in
    let Hv := fresh "Hp" in
    pose (v := e); assert (Hv : v = e) by reflexivity;
    let g := context C [b v] in
    change g; cbv beta; clearbody v
  end.

(** What the equations of the named positions say of their order. *)
Ltac position_bounds :=
  repeat match goal with
         | H : ?v = skip_while ?p ?s ?i |- _ =>
           let Hge := fresh "Hge" in
           pose proof (skip_while_ge p s i) as Hge; rewrite <- H in Hge; clear H
         | H : ?v = (if negb (?x =? 0) then _ else _) |- _ =>
           let E := fresh "E" in
           destruct (x =? 0) eqn:E; cbn [negb] in H;
           [apply Nat.eqb_eq in E | apply Nat.eqb_neq in E]
         | H : ?v = (let x := _ in _) |- _ => cbv zeta in H
         | H : ?v = (if ?c then (let x := _ in _) else _) |- _ => destruct c
         | H : ?v = (if ?c then ?a else ?b) |- _ =>
           lazymatch type of a with
           | nat => idtac
           end;
           let Hif := fresh "Hif" in
           assert (Hif : v = a \/ v = b) by (rewrite H; destruct c; [left | right]; reflexivity);
           clear H
         end.

Lemma is_ref_last data (beg end_ : nat) (refs' : ref_table) (last : nat)
    (refs'' : ref_table) :
  is_ref data beg end_ refs' = (true, last, refs'') -> beg < last.
Proof.
  cbv beta delta [is_ref].
  repeat first
    [ name_let
    | match goal with
      | |- (if ?c then _ else _) = _ -> _ => destruct c eqn:?; [congruence|]
      | |- match def_indent ?d ?b with _ => _ end = _ -> _ =>
        let E := fresh "Eind" in
        destruct (def_indent d b) eqn:E; [apply def_indent_le in E | congruence]
      | |- match (if ?t then _ else _) with _ => _ end = _ -> _ => destruct t
      end ];
    intros [= <- _];
    repeat match goal with
           | H : (_ || _) = false |- _ => apply orb_false_iff in H as [? ?]
           | H : (_ =? _) = false |- _ => apply Nat.eqb_neq in H
           end;
    position_bounds; lia.
Qed.

(** *** The block constructs *)

Lemma block_rec_ok_kept rec md md' :
  kept md md' -> block_rec_ok allow rec md -> block_rec_ok allow rec md'.
Proof.
  intros Hk Hrec ob m data size Hd Hm Hc. apply Hrec; auto.
  - rewrite <- (kept_depth _ _ Hk). exact Hd.
  - rewrite Hm. now apply kept_max_nesting.
Qed.

(** A recursive call of [parse_block]. *)
Ltac recurse_block Hrec Hcov :=
  eapply outcome_bind;
  [ apply Hrec;
    [ rw_kept; lia
    | solve_kept
    | eapply sig_covered; [|exact Hcov]; solve_kept ]
  | let w := fresh "w" in let m := fresh "md" in let mm := fresh "m" in
    let Hk := fresh "Hk" in
    intros [[w m] mm] Hk; cbn [snd fst] in Hk ].

Lemma render_blockhtml_kept ob md data (work_size' : nat) (do_render : bool) :
  outcome allow (fun r => kept md (snd r)) (render_blockhtml ob md data work_size' do_render).
Proof. unfold render_blockhtml. repeat step; finish. Qed.

Lemma parse_htmlblock_kept ob md data (size : nat) (do_render : bool) :
  outcome allow (fun r => kept md (snd r)) (parse_htmlblock ob md data size do_render).
Proof.
  unfold parse_htmlblock.
  repeat first [ apply render_blockhtml_kept | apply kept_refl
               | match goal with
                 | |- outcome _ _ (if ?b then _ else _) => destruct b
                 | |- outcome _ _ (match ?x with Some _ => _ | None => _ end) => destruct x
                 end ].
Qed.

Lemma parse_fencedcode_kept ob md data (size : nat) :
  outcome allow (fun r => kept md (snd r)) (parse_fencedcode ob md data size).
Proof. unfold parse_fencedcode. repeat step; finish. Qed.

Section BlockFrame.

Variable fuel : nat.
Variable rec : hoedown_buffer -> hoedown_markdown O -> ptr -> nat
               -> res (hoedown_buffer * hoedown_markdown O * list ascii).

Lemma parse_footnote_def_kept ob md (num' : nat) data (size : nat) :
  block_rec_ok allow rec md -> covered allow md ->
  outcome allow (fun r => kept md (snd r)) (parse_footnote_def rec ob md num' data size).
Proof.
  intros Hblk Hcov. unfold parse_footnote_def. md_simpl.
  recurse_block Hblk Hcov. repeat step; finish.
Qed.

(** A call of [parse_inline] after a [newbuf]. *)
Ltac recurse_inline Hinl Hcov := recurse Hinl Hcov.

Lemma outcome_kept_trans {A : Type} (f : A -> hoedown_markdown O) md0 md (m : res A) :
  kept md0 md -> outcome allow (fun r => kept md (f r)) m ->
  outcome allow (fun r => kept md0 (f r)) m.
Proof.
  intros Hk Hm. eapply outcome_weaken; [exact Hm|].
  intros a Ha. exact (kept_trans _ _ _ Hk Ha).
Qed.

Lemma table_row_loop_kept (n : nat) : forall row_work md0 md data (size columns : nat)
    (col_data : list table_flags) (header_flag : bool) (col i : nat),
  rec_ok allow (parse_inline fuel) md0 -> covered allow md0 -> kept md0 md ->
  present (cb_table_cell (rndr md0)) = true ->
  outcome allow (fun r => kept md0 (snd r))
    (table_row_loop fuel n row_work md data size columns col_data header_flag col i).
Proof.
  induction n as [|n IH]; intros row_work md0 md data size columns col_data header_flag col i
    Hinl Hcov Hk Hcell; cbn [table_row_loop]; [exact Hk|].
  branch; [|exact Hk]. md_simpl.
  eapply outcome_bind.
  - apply Hinl; [rw_kept; lia | solve_kept | eapply sig_covered; [|exact Hcov]; solve_kept].
  - intros [w m] Hk1. cbn [snd] in Hk1. have_cb. pop. apply IH; auto; finish.
Qed.

Lemma empty_cells_loop_kept (n : nat) : forall row_work md0 md
    (col_data : list table_flags) (header_flag : bool) (col : nat),
  kept md0 md -> present (cb_table_cell (rndr md0)) = true ->
  outcome allow (fun r => kept md0 (snd r))
    (empty_cells_loop n row_work md col_data header_flag col).
Proof.
  induction n as [|n IH]; intros row_work md0 md col_data header_flag col Hk Hcell;
    cbn [empty_cells_loop]; [exact Hk|].
  have_cb. apply IH; auto; finish.
Qed.

Lemma parse_table_row_kept ob md data (size columns : nat) (col_data : list table_flags)
    (header_flag : bool) :
  rec_ok allow (parse_inline fuel) md -> covered allow md ->
  outcome allow (fun r => kept md (snd r))
    (parse_table_row fuel ob md data size columns col_data header_flag).
Proof.
  intros Hinl Hcov. unfold parse_table_row.
  destruct (present (cb_table_cell (rndr md))) eqn:Hcell; cbn [negb orb]; [|apply kept_refl].
  destruct (present (cb_table_row (rndr md))) eqn:Hrow; cbn [negb]; [|apply kept_refl].
  md_simpl.
  eapply outcome_bind with (P := fun r => grown md (snd r) /\ work_span (snd r) = S (work_span md)).
  - eapply outcome_weaken.
    + apply (table_row_loop_kept columns _ (set_work_span md (S (work_span md)))).
      * intros ob' md' data' size' Hd Hm Hc. apply Hinl; auto. unfold depth in *. md_simpl. lia.
      * eapply sig_covered; [|exact Hcov]. reflexivity.
      * apply kept_refl.
      * exact Hcell.
    + intros [[c w] m] Hk. cbn [snd] in *. split; [finish | solve_kept].
  - intros [[c w] m] [Hg Hs]. cbn [snd] in *.
    eapply outcome_bind with (P := fun r => grown md (snd r) /\ work_span (snd r) = S (work_span md)).
    + eapply outcome_weaken.
      * apply (empty_cells_loop_kept _ _ m); [apply kept_refl|]. rw_kept. exact Hcell.
      * intros [w' m'] Hk. cbn [snd] in *. split; [finish | solve_kept].
    + intros [w' m'] [Hg' Hs']. cbn [snd] in *. have_cb. pop. finish.
Qed.

Lemma parse_table_header_kept ob md data (size : nat) :
  rec_ok allow (parse_inline fuel) md -> covered allow md ->
  outcome allow (fun r => kept md (snd r)) (parse_table_header fuel ob md data size).
Proof.
  intros Hinl Hcov. unfold parse_table_header.
  destruct (count_pipes_loop _ _ _ _) as [i pipes].
  destruct (_ || _); [apply kept_refl|].
  destruct (_ <? 0)%Z; [apply kept_refl|].
  destruct (underline_loop _ _ _ _ _ _ _) as [col column_data].
  destruct (col <? _); [apply kept_refl|].
  eapply outcome_bind; [now apply parse_table_row_kept|].
  intros [w m] Hk. exact Hk.
Qed.

Lemma table_body_loop_kept (n : nat) : forall body_work md0 md data (size columns : nat)
    (col_data : list table_flags) (i : nat),
  rec_ok allow (parse_inline fuel) md0 -> covered allow md0 -> kept md0 md ->
  outcome allow (fun r => kept md0 (snd r))
    (table_body_loop fuel n body_work md data size columns col_data i).
Proof.
  induction n as [|n IH]; intros body_work md0 md data size columns col_data i Hinl Hcov Hk;
    cbn [table_body_loop]; [exact Hk|].
  destruct (i <? size); [|exact Hk].
  destruct (count_pipes_loop _ _ _ _) as [i' pipes].
  destruct (_ || _); [exact Hk|].
  eapply outcome_bind.
  - apply parse_table_row_kept; [now apply (rec_ok_kept _ md0) | now apply (kept_covered md0)].
  - intros [w m] Hk1. cbn [snd] in Hk1. apply IH; auto. exact (kept_trans _ _ _ Hk Hk1).
Qed.

(** The parser after a [newbuf]. *)
Lemma rec_ok_deeper rec' md md' :
  sig md' = sig md -> depth md <= depth md' ->
  rec_ok allow rec' md -> rec_ok allow rec' md'.
Proof.
  intros Hs Hd Hrec ob m data size Hd' Hm Hc. apply Hrec; auto; [lia|].
  rewrite Hm. unfold sig in Hs. now injection Hs.
Qed.

Lemma block_rec_ok_deeper md md' :
  sig md' = sig md -> depth md <= depth md' ->
  block_rec_ok allow rec md -> block_rec_ok allow rec md'.
Proof.
  intros Hs Hd Hrec ob m data size Hd' Hm Hc. apply Hrec; auto; [lia|].
  rewrite Hm. unfold sig in Hs. now injection Hs.
Qed.

Lemma parse_table_kept ob md data (size : nat) :
  rec_ok allow (parse_inline fuel) md -> covered allow md ->
  outcome allow (fun r => kept md (snd r)) (parse_table fuel ob md data size).
Proof.
  intros Hinl Hcov. unfold parse_table. md_simpl.
  set (md1 := set_work_block _ _).
  assert (Hs : sig md1 = sig md) by reflexivity.
  assert (Hd : depth md <= depth md1) by (unfold depth, md1; md_simpl; lia).
  assert (Hinl1 : rec_ok allow (parse_inline fuel) md1) by now apply (rec_ok_deeper _ md).
  assert (Hcov1 : covered allow md1) by now apply (sig_covered md).
  eapply outcome_bind; [now apply parse_table_header_kept|].
  intros [[[[i columns] col_data] header_work] md2] Hk2. cbn [snd] in Hk2.
  eapply outcome_bind with (P := fun r => kept md1 (snd r)).
  - destruct (0 <? i); [|exact Hk2].
    eapply outcome_bind.
    + apply (table_body_loop_kept _ _ md1); auto.
    + intros [[i' w] m] Hk. cbn [snd] in Hk. destruct (cb_table _); finish.
  - intros [[i' w] m] Hk. cbn [snd] in Hk. unfold md1 in *. repeat step; finish.
Qed.

(** Closes a goal on a returned value: the parser is kept, and the
    bytes taken are some. *)
Ltac finish_some :=
  md_simpl; cbn [outcome bind snd fst]; split; [finish | cbn [fst snd] in *; lia].

Lemma outcome_eqn {A : Type} (P : A -> Prop) (m : res A) :
  outcome allow P m -> outcome allow (fun r => P r /\ m = Ret r) m.
Proof. destruct m as [a|[]]; cbn; auto. Qed.

Lemma parse_atxheader_some ob md data (size : nat) :
  rec_ok allow (parse_inline fuel) md -> covered allow md ->
  0 < size -> is_atxheader md data size = true ->
  outcome allow (fun r => kept md (snd r) /\ 0 < fst (fst r))
    (parse_atxheader fuel ob md data size).
Proof.
  intros Hinl Hcov Hs Ha. unfold parse_atxheader.
  assert (Hl : 1 <= skip_while (fun l => (l <? 6) && ceq (rd data l) "#") size 0).
  { apply skip_while_reach; [lia|]. intros j Hj. replace j with 0 by lia.
    unfold is_atxheader in Ha. destruct (ceq (rd data 0) "#"); [reflexivity|discriminate]. }
  set (level := skip_while _ size 0) in *.
  pose proof (skip_while_ge (fun i => ceq (rd data i) " ") size level) as Hi.
  set (i := skip_while _ size level) in *.
  pose proof (skip_while_ge (fun e => negb (ceq (rd data e) NL)) size i) as He.
  set (skip := skip_while _ size i) in *.
  destruct (i <? _); [|finish_some].
  md_simpl. recurse Hinl Hcov. repeat step; finish_some.
Qed.

Lemma parse_blockquote_some ob md data (size : nat) :
  block_rec_ok allow rec md -> covered allow md -> 0 < size ->
  outcome allow (fun r => kept md (snd (fst r)) /\ 0 < fst (fst (fst r)))
    (parse_blockquote rec ob md data size).
Proof.
  intros Hblk Hcov Hs. unfold parse_blockquote. md_simpl.
  destruct (blockquote_loop_end size data size 0 0 None 0 (Nat.le_refl 0)) as [_ He].
  specialize (He Hs Hs).
  destruct (blockquote_loop _ _ _ _ _ _ _) as [[[m end_] work_data] work_size'].
  cbn [fst snd] in He.
  recurse_block Hblk Hcov. repeat step; finish_some.
Qed.

Lemma parse_blockcode_some ob md data (size : nat) :
  0 < size -> prefix_code data size <> 0 ->
  outcome allow (fun r => kept md (snd r) /\ 0 < fst (fst r))
    (parse_blockcode ob md data size).
Proof.
  intros Hs Hp. unfold parse_blockcode. md_simpl.
  pose proof (blockcode_loop_first data size [] Hs Hp) as Hb.
  destruct (blockcode_loop _ _ _ _ _) as [beg work]. cbn [fst] in Hb.
  repeat step; finish_some.
Qed.

Lemma parse_listitem_some ob md data (size : nat) (flags : list_flags) :
  rec_ok allow (parse_inline fuel) md -> block_rec_ok allow rec md -> covered allow md ->
  outcome allow
    (fun r => kept md (snd r)
              /\ (prefix_uli data size <> 0 \/ prefix_oli data size <> 0 ->
                  0 < fst (fst (fst r))))
    (parse_listitem fuel rec ob md data size flags).
Proof.
  intros Hinl Hblk Hcov. unfold parse_listitem.
  set (beg := if prefix_uli data size =? 0 then prefix_oli data size else prefix_uli data size).
  destruct (beg =? 0) eqn:Eb.
  { cbn [outcome snd fst]. split; [apply kept_refl|].
    apply Nat.eqb_eq in Eb. unfold beg in Eb.
    destruct (prefix_uli data size =? 0) eqn:Eu;
      [apply Nat.eqb_eq in Eu | apply Nat.eqb_neq in Eu]; lia. }
  apply Nat.eqb_neq in Eb. md_simpl.
  pose proof (skip_while_ge (fun e => negb (ceq (rd data (e - 1)) NL)) size beg) as He.
  set (end_ := skip_while _ size beg) in *.
  set (md2 := set_work_span _ _).
  match goal with
  | |- context [listitem_loop ?n ?m ?d ?s ?o ?b ?e ?x ?y ?z ?u ?w ?f] =>
    pose proof (listitem_loop_beg n m d s o b e x y z u w f (Nat.le_refl _)) as Hb;
    set (scan := listitem_loop n m d s o b e x y z u w f) in *
  end.
  assert (Hs : sig md2 = sig md) by reflexivity.
  assert (Hd : depth md < depth md2) by (unfold depth, md2; md_simpl; lia).
  assert (Hm : max_nesting md2 = max_nesting md) by reflexivity.
  assert (Hcov2 : covered allow md2) by now apply (sig_covered md).
  assert (Hi : forall w d n, outcome allow (fun r => kept md2 (snd r))
                               (parse_inline fuel w md2 d n)) by (intros; now apply Hinl).
  assert (Hb2 : forall w md' d n, kept md2 md' ->
            outcome allow (fun r => kept md2 (snd (fst r))) (rec w md' d n)).
  { intros w md' d n Hk. apply (outcome_kept_trans _ md2 md'); [exact Hk|].
    apply Hblk; [rewrite (kept_depth _ _ Hk); exact Hd
                | rewrite (kept_max_nesting _ _ Hk); exact Hm
                | now apply (kept_covered md2)]. }
  eapply outcome_bind with (P := fun r => kept md2 (snd r)).
  - destruct (LI_BLOCK _); destruct (_ && _).
    + eapply outcome_bind; [apply Hb2, kept_refl|]. intros [[w m] mm] Hk. cbn [fst snd] in Hk.
      eapply outcome_bind; [apply Hb2, Hk|]. intros [[w' m'] mm'] Hk'. exact Hk'.
    + eapply outcome_bind; [apply Hb2, kept_refl|]. intros [[w m] mm] Hk. exact Hk.
    + eapply outcome_bind; [apply Hi|]. intros [w m] Hk. cbn [fst snd] in Hk.
      eapply outcome_bind; [apply Hb2, Hk|]. intros [[w' m'] mm'] Hk'. exact Hk'.
    + apply Hi.
  - intros [w m] Hk. cbn [snd] in Hk. unfold md2 in *. repeat step; finish_some.
Qed.

Lemma parse_list_loop_kept (n : nat) : forall work md0 md data (size i : nat)
    (flags : list_flags),
  rec_ok allow (parse_inline fuel) md0 -> block_rec_ok allow rec md0 -> covered allow md0 ->
  kept md0 md ->
  outcome allow (fun r => kept md0 (snd r) /\ i <= fst (fst (fst r)))
    (parse_list_loop fuel rec n work md data size i flags).
Proof.
  induction n as [|n IH]; intros work md0 md data size i flags Hinl Hblk Hcov Hk;
    cbn [parse_list_loop]; [cbn; split; [exact Hk | lia]|].
  destruct (i <? size); [|cbn; split; [exact Hk | lia]].
  eapply outcome_bind.
  - apply (outcome_kept_trans snd md0 md _ Hk).
    eapply outcome_weaken.
    + apply parse_listitem_some;
        [now apply (rec_ok_kept _ md0) | now apply (block_rec_ok_kept _ md0)
         | now apply (kept_covered md0)].
    + intros r [H _]. exact H.
  - intros [[[j flags'] w] m] Hk1. cbn [snd] in Hk1.
    destruct (_ || _); [cbn; split; [exact Hk1 | lia]|].
    eapply outcome_weaken;
      [apply (IH w md0 m); auto; exact Hk1|].
    intros r [H1 H2]. split; [exact H1 | lia].
Qed.

Lemma parse_list_some ob md data (size : nat) (flags : list_flags) :
  rec_ok allow (parse_inline fuel) md -> block_rec_ok allow rec md -> covered allow md ->
  0 < size -> prefix_uli data size <> 0 \/ prefix_oli data size <> 0 ->
  outcome allow (fun r => kept md (snd r) /\ 0 < fst (fst r))
    (parse_list fuel rec ob md data size flags).
Proof.
  intros Hinl Hblk Hcov Hs Hp. unfold parse_list. md_simpl.
  set (md1 := set_work_block _ _).
  assert (Hsig : sig md1 = sig md) by reflexivity.
  assert (Hd : depth md <= depth md1) by (unfold depth, md1; md_simpl; lia).
  assert (Hinl1 : rec_ok allow (parse_inline fuel) md1) by now apply (rec_ok_deeper _ md).
  assert (Hblk1 : block_rec_ok allow rec md1) by now apply (block_rec_ok_deeper md).
  assert (Hcov1 : covered allow md1) by now apply (sig_covered md).
  eapply outcome_bind with (P := fun r => kept md1 (snd r) /\ 0 < fst (fst (fst r))).
  - destruct size as [|n]; [lia|]. cbn [parse_list_loop].
    replace (0 <? S n) with true by (symmetry; apply Nat.ltb_lt; lia).
    rewrite padd_zero, Nat.sub_0_r.
    eapply outcome_bind; [now apply parse_listitem_some|].
    intros [[[j flags'] w] m] [Hk1 Hj]. cbn [snd fst] in *. specialize (Hj Hp).
    destruct (_ || _); [cbn; split; [exact Hk1 | lia]|].
    eapply outcome_weaken; [apply (parse_list_loop_kept n w md1 m); auto|].
    intros r [H1 H2]. split; [exact H1 | lia].
  - intros [[[i flags'] w] m] [Hk Hi]. cbn [snd fst] in *. unfold md1 in *.
    repeat step; finish_some.
Qed.

(** *** Paragraphs *)

Lemma render_blockhtml_taken ob md data (work_size' : nat) (do_render : bool) :
  taken (render_blockhtml ob md data work_size' do_render) = Some work_size'.
Proof.
  unfold render_blockhtml. destruct (cb_blockhtml _); [destruct do_render|]; reflexivity.
Qed.

(** What [parse_htmlblock] takes depends on the bytes alone. *)
Lemma parse_htmlblock_taken ob md (do_render : bool) ob' md' (do_render' : bool)
    data (size : nat) :
  taken (parse_htmlblock ob md data size do_render)
  = taken (parse_htmlblock ob' md' data size do_render').
Proof.
  unfold parse_htmlblock.
  repeat first [ reflexivity
               | rewrite !render_blockhtml_taken; reflexivity
               | match goal with
                 | |- taken (if ?b then _ else _) = _ => destruct b
                 | |- taken (match ?x with Some _ => _ | None => _ end) = _ => destruct x
                 end ].
Qed.

Lemma parse_fencedcode_none ob md data (size : nat) :
  taken (parse_fencedcode ob md data size) = Some 0 -> fst (is_codefence data size) = 0.
Proof.
  unfold parse_fencedcode. destruct (is_codefence data size) as [beg lang]. cbn [fst].
  destruct (beg =? 0) eqn:E; [intros _; now apply Nat.eqb_eq in E|].
  apply Nat.eqb_neq in E. md_simpl.
  match goal with
  | |- context [fencedcode_loop ?n ?d ?s ?b ?w] =>
    pose proof (fencedcode_loop_beg n d s b w) as Hb;
    destruct (fencedcode_loop n d s b w) as [beg' work]
  end. cbn [fst] in Hb.
  destruct (cb_blockcode _); md_simpl; unfold popbuf; md_simpl; cbn [bind taken];
    intros [= H]; lia.
Qed.

(** The rounds of [paragraph_loop] after the first. *)
Lemma paragraph_loop_later (n : nat) : forall ob md0 md data (size i end_ : nat),
  kept md0 md -> 0 < i -> 0 < end_ ->
  outcome allow (fun r => kept md0 (snd r) /\ 0 < snd (fst (fst (fst r))))
    (paragraph_loop n ob md data size i end_).
Proof.
  induction n as [|n IH]; intros ob md0 md data size i end_ Hk Hi He;
    cbn [paragraph_loop]; [cbn [outcome fst snd]; split; [exact Hk | lia]|].
  pose proof (line_end_gt data size i) as Hl.
  destruct (i <? size); [|cbn; split; [exact Hk | lia]].
  destruct (negb (is_empty _ _ =? 0)); [cbn [outcome fst snd]; split; [exact Hk | lia]|].
  destruct (negb (is_headerline _ _ =? 0)); [cbn [outcome fst snd]; split; [exact Hk | lia]|].
  destruct (_ || _); [cbn [outcome fst snd]; split; [exact Hk | lia]|].
  destruct (_ && _); [|apply IH; auto; lia].
  destruct (_ || _); [cbn [outcome fst snd]; split; [exact Hk | lia]|].
  eapply outcome_bind with (P := fun r => kept md0 (snd r)).
  - destruct (_ && _); [|exact Hk].
    apply (outcome_kept_trans snd md0 md _ Hk). apply parse_htmlblock_kept.
  - intros [[html ob1] md1] Hk1. cbn [snd] in Hk1.
    destruct (negb (html =? 0)); [cbn [outcome fst snd]; split; [exact Hk1 | lia]|].
    destruct (_ && _); [cbn [outcome fst snd]; split; [exact Hk1 | lia]|].
    apply IH; auto; lia.
Qed.

(** The first round, on a line none of the tests of [parse_block]
    that come before the paragraph has taken. *)
Lemma paragraph_loop_first ob md data (size : nat) :
  0 < size ->
  is_atxheader md data size = false -> is_hrule data size = false ->
  prefix_quote data size = 0 -> prefix_oli data size = 0 -> prefix_uli data size = 0 ->
  (ceq (rd data 0) "<" && present (cb_blockhtml (rndr md)) = true ->
   taken (parse_htmlblock ob md data size false) = Some 0) ->
  (ext_flags md HOEDOWN_EXT_FENCED_CODE = true -> fst (is_codefence data size) = 0) ->
  outcome allow (fun r => kept md (snd r) /\ 0 < snd (fst (fst (fst r))))
    (paragraph_loop size ob md data size 0 0).
Proof.
  intros Hs Hatx Hhr Hq Ho Hu Hhtml Hfence.
  destruct size as [|n]; [lia|]. cbn [paragraph_loop].
  replace (0 <? S n) with true by (symmetry; apply Nat.ltb_lt; lia).
  rewrite padd_zero, Nat.sub_0_r.
  pose proof (line_end_gt data (S n) 0) as Hl.
  destruct (negb (is_empty _ _ =? 0)); [cbn [outcome fst snd]; split; [apply kept_refl | lia]|].
  destruct (negb (is_headerline _ _ =? 0)); [cbn [outcome fst snd]; split; [apply kept_refl | lia]|].
  rewrite Hatx, Hhr, Hq, Ho, Hu. cbn [orb negb Nat.eqb].
  destruct (ext_flags md HOEDOWN_EXT_LAX_SPACING && _);
    [|apply paragraph_loop_later; [apply kept_refl | lia | lia]].
  destruct (ceq (rd data 0) "<" && present (cb_blockhtml (rndr md))) eqn:Eh.
  - specialize (Hhtml eq_refl).
    pose proof (parse_htmlblock_kept ob md data (S n) false) as Hk.
    destruct (parse_htmlblock ob md data (S n) false) as [[[html ob1] md1]|e];
      [|discriminate]. cbn [taken] in Hhtml. injection Hhtml as ->.
    cbn [bind outcome snd Nat.eqb negb] in *.
    assert (He : ext_flags md1 = ext_flags md) by solve_kept.
    rewrite He.
    destruct (ext_flags md HOEDOWN_EXT_FENCED_CODE) eqn:Ef; cbn [andb].
    + rewrite (Hfence eq_refl). cbn [Nat.eqb negb].
      apply paragraph_loop_later; [exact Hk | lia | lia].
    + apply paragraph_loop_later; [exact Hk | lia | lia].
  - cbn [bind Nat.eqb negb].
    destruct (ext_flags md HOEDOWN_EXT_FENCED_CODE) eqn:Ef; cbn [andb].
    + rewrite (Hfence eq_refl). cbn [Nat.eqb negb].
      apply paragraph_loop_later; [apply kept_refl | lia | lia].
    + apply paragraph_loop_later; [apply kept_refl | lia | lia].
Qed.

Lemma outcome_kept_some_trans {A : Type} (f : A -> hoedown_markdown O) (Q : A -> Prop)
    md0 md (m : res A) :
  kept md0 md -> outcome allow (fun r => kept md (f r) /\ Q r) m ->
  outcome allow (fun r => kept md0 (f r) /\ Q r) m.
Proof.
  intros Hk Hm. eapply outcome_weaken; [exact Hm|].
  intros a [Ha Hq]. split; [exact (kept_trans _ _ _ Hk Ha) | exact Hq].
Qed.

Lemma parse_paragraph_some ob md data (size : nat) :
  rec_ok allow (parse_inline fuel) md -> covered allow md ->
  0 < size ->
  is_atxheader md data size = false -> is_hrule data size = false ->
  prefix_quote data size = 0 -> prefix_oli data size = 0 -> prefix_uli data size = 0 ->
  (ceq (rd data 0) "<" && present (cb_blockhtml (rndr md)) = true ->
   taken (parse_htmlblock ob md data size false) = Some 0) ->
  (ext_flags md HOEDOWN_EXT_FENCED_CODE = true -> fst (is_codefence data size) = 0) ->
  outcome allow (fun r => kept md (snd r) /\ 0 < fst (fst r))
    (parse_paragraph fuel ob md data size).
Proof.
  intros Hinl Hcov Hs Hatx Hhr Hq Ho Hu Hhtml Hfence. unfold parse_paragraph.
  eapply outcome_bind; [now apply paragraph_loop_first|].
  intros [[[[i end_] level] ob1] md1] [Hk He]. cbn [fst snd] in Hk, He.
  apply (outcome_kept_some_trans snd _ md md1 _ Hk).
  pose proof (rec_ok_kept _ _ _ Hk Hinl) as Hinl1.
  pose proof (kept_covered _ _ Hk Hcov) as Hcov1.
  clear Hk Hinl Hcov Hatx Hhtml Hfence.
  destruct (level =? 0).
  - md_simpl. recurse Hinl1 Hcov1. repeat step; finish_some.
  - eapply outcome_bind with (P := fun r => kept md1 (snd r)).
    + destruct (0 <? _); [|apply kept_refl]. destruct (0 <? _); [|apply kept_refl].
      md_simpl. recurse Hinl1 Hcov1. repeat step; finish.
    + intros [[[work_data work_size'] ob2] md2] Hk2. cbn [snd] in Hk2.
      md_simpl. recurse Hinl1 Hcov1. repeat step; finish_some.
Qed.

Lemma is_atxheader_kept md md' data (size : nat) :
  kept md md' -> is_atxheader md' data size = is_atxheader md data size.
Proof.
  intros Hk. unfold is_atxheader.
  assert (He : ext_flags md' = ext_flags md) by solve_kept. now rewrite He.
Qed.

Lemma nonzero_test (k : nat) : negb (k =? 0) = true -> 0 < k.
Proof. destruct k; [discriminate | lia]. Qed.

Lemma zero_test (k : nat) : negb (k =? 0) = false -> k = 0.
Proof. destruct k; [reflexivity | discriminate]. Qed.

(** The loop of [parse_block]: every round takes some bytes, so it ends
    within as many rounds as there are bytes left. *)
Lemma parse_block_loop_kept (n : nat) : forall ob md0 md data (size beg : nat),
  rec_ok allow (parse_inline fuel) md0 -> block_rec_ok allow rec md0 -> covered allow md0 ->
  kept md0 md -> size <= n + beg ->
  outcome allow (fun r => kept md0 (snd (fst r)))
    (parse_block_loop fuel rec n ob md data size beg).
Proof.
  induction n as [|n IH]; intros ob md0 md data size beg Hinl Hblk Hcov Hk Hn.
  - cbn [parse_block_loop]. destruct (beg <? size) eqn:E; [|exact Hk].
    apply Nat.ltb_lt in E. lia.
  - cbn [parse_block_loop]. destruct (beg <? size) eqn:E; [|exact Hk].
    apply Nat.ltb_lt in E.
    assert (Hnext : forall d i ob' md', kept md0 md' -> 0 < i ->
              outcome allow (fun r => kept md0 (snd (fst r)))
                (parse_block_loop fuel rec n ob' md' d size (beg + i))).
    { intros d i ob' md' Hk' Hi. apply IH; auto. lia. }
    clear IH.
    assert (Hat : forall md', kept md0 md' ->
              rec_ok allow (parse_inline fuel) md' /\ block_rec_ok allow rec md'
              /\ covered allow md').
    { intros md' Hk'. repeat split;
        [now apply (rec_ok_kept _ md0) | now apply (block_rec_ok_kept _ md0)
         | now apply (kept_covered md0)]. }
    set (txt_data := padd data beg). set (end_ := size - beg).
    assert (Hlen : 0 < end_) by (unfold end_; lia).
    destruct (Hat md Hk) as (Hinl1 & Hblk1 & Hcov1).
    destruct (is_atxheader md txt_data end_) eqn:Eatx.
    { eapply outcome_bind.
      - apply (outcome_kept_some_trans snd (fun r => 0 < fst (fst r)) md0 md _ Hk). now apply parse_atxheader_some.
      - intros [[i ob'] md'] [Hk' Hi]. now apply Hnext. }
    (* an html block *)
    eapply outcome_bind.
    { apply outcome_eqn with (P := fun r => kept md0 (snd r)).
      destruct (_ && _); [|exact Hk].
      apply (outcome_kept_trans snd md0 md _ Hk). apply parse_htmlblock_kept. }
    intros [[i1 ob1] md1] [Hk1 Ehtml]. cbn [snd] in Hk1.
    destruct (negb (i1 =? 0)) eqn:Ei1; [apply Hnext; [exact Hk1 | now apply nonzero_test]|].
    apply zero_test in Ei1. subst i1.
    (* an empty line *)
    destruct (negb (is_empty txt_data end_ =? 0)) eqn:Eempty;
      [apply Hnext; [exact Hk1 | now apply nonzero_test]|].
    (* a horizontal rule *)
    destruct (is_hrule txt_data end_) eqn:Ehr.
    { pose proof (skip_while_ge (fun b => negb (ceq (rd data b) NL)) size beg) as Hsk.
      set (sk := skip_while _ size beg) in *.
      replace (sk + 1) with (beg + (sk - beg + 1)) by lia.
      destruct (cb_hrule (rndr md1)); (apply Hnext; [finish | lia]). }
    destruct (Hat md1 Hk1) as (Hinl2 & Hblk2 & Hcov2).
    (* a fenced code block *)
    eapply outcome_bind.
    { apply outcome_eqn with (P := fun r => kept md0 (snd r)).
      destruct (ext_flags md1 HOEDOWN_EXT_FENCED_CODE); [|exact Hk1].
      apply (outcome_kept_trans snd md0 md1 _ Hk1). apply parse_fencedcode_kept. }
    intros [[i2 ob2] md2] [Hk2 Efence]. cbn [snd] in Hk2.
    destruct (negb (i2 =? 0)) eqn:Ei2; [apply Hnext; [exact Hk2 | now apply nonzero_test]|].
    apply zero_test in Ei2. subst i2.
    destruct (Hat md2 Hk2) as (Hinl3 & Hblk3 & Hcov3).
    (* a table *)
    eapply outcome_bind with (P := fun r => kept md0 (snd r)).
    { destruct (ext_flags md2 HOEDOWN_EXT_TABLES); [|exact Hk2].
      apply (outcome_kept_trans snd md0 md2 _ Hk2). now apply parse_table_kept. }
    intros [[i3 ob3] md3] Hk3. cbn [snd] in Hk3.
    destruct (negb (i3 =? 0)) eqn:Ei3; [apply Hnext; [exact Hk3 | now apply nonzero_test]|].
    destruct (Hat md3 Hk3) as (Hinl4 & Hblk4 & Hcov4).
    (* a block quote *)
    destruct (negb (prefix_quote txt_data end_ =? 0)) eqn:Equote.
    { eapply outcome_bind.
      - apply (outcome_kept_some_trans (fun r => snd (fst r)) (fun r => 0 < fst (fst (fst r))) md0 md3 _ Hk3).
        now apply parse_blockquote_some.
      - intros [[[i ob'] md'] m] [Hk' Hi]. now apply Hnext. }
    apply zero_test in Equote.
    (* indented code *)
    destruct (negb (ext_flags md3 HOEDOWN_EXT_DISABLE_INDENTED_CODE)
              && negb (prefix_code txt_data end_ =? 0)) eqn:Ecode.
    { apply andb_true_iff in Ecode as [_ Ecode]. apply nonzero_test in Ecode.
      eapply outcome_bind.
      - apply (outcome_kept_some_trans snd (fun r => 0 < fst (fst r)) md0 md3 _ Hk3).
        apply parse_blockcode_some; [exact Hlen | lia].
      - intros [[i ob'] md'] [Hk' Hi]. now apply Hnext. }
    (* lists *)
    destruct (negb (prefix_uli txt_data end_ =? 0)) eqn:Euli.
    { apply nonzero_test in Euli.
      eapply outcome_bind.
      - apply (outcome_kept_some_trans snd (fun r => 0 < fst (fst r)) md0 md3 _ Hk3).
        apply parse_list_some; auto. left. lia.
      - intros [[i ob'] md'] [Hk' Hi]. now apply Hnext. }
    apply zero_test in Euli.
    destruct (negb (prefix_oli txt_data end_ =? 0)) eqn:Eoli.
    { apply nonzero_test in Eoli.
      eapply outcome_bind.
      - apply (outcome_kept_some_trans snd (fun r => 0 < fst (fst r)) md0 md3 _ Hk3).
        apply parse_list_some; auto. right. lia.
      - intros [[i ob'] md'] [Hk' Hi]. now apply Hnext. }
    apply zero_test in Eoli.
    (* a paragraph *)
    assert (Hmd3 : kept md md3).
    { apply (kept_trans _ md0); [now apply kept_sym | exact Hk3]. }
    assert (Hmd1 : kept md1 md3).
    { apply (kept_trans _ md0); [now apply kept_sym | exact Hk3]. }
    eapply outcome_bind.
    { apply (outcome_kept_some_trans snd (fun r => 0 < fst (fst r)) md0 md3 _ Hk3).
      apply parse_paragraph_some; auto.
      - rewrite (is_atxheader_kept md md3); auto.
      - intros Hc.
        assert (Hr : rndr md3 = rndr md) by solve_kept.
        rewrite Hr in Hc. unfold txt_data in Hc. rewrite rd_padd, Nat.add_0_r in Hc.
        rewrite Hc in Ehtml.
        rewrite (parse_htmlblock_taken ob3 md3 false ob md true). fold txt_data.
        now rewrite Ehtml.
      - intros Hc.
        assert (He : ext_flags md3 = ext_flags md1) by solve_kept.
        rewrite He in Hc. rewrite Hc in Efence.
        apply (parse_fencedcode_none ob1 md1). now rewrite Efence. }
    intros [[i ob'] md'] [Hk' Hi]. now apply Hnext.
Qed.

(** *** Footnotes *)

(** The walk over the used footnotes: the list may grow under it, by
    the footnotes not used yet at most. *)
Lemma footnote_items_kept (n : nat) : forall (k : nat) work md0 md,
  block_rec_ok allow rec md0 -> covered allow md0 -> kept md0 md ->
  length (footnotes_used md0) + unused_count (footnotes_found md0) <= n + k ->
  outcome allow (fun r => kept md0 (snd r)) (footnote_items rec n k work md).
Proof.
  induction n as [|n IH]; intros k work md0 md Hblk Hcov Hk Hn.
  - cbn [footnote_items]. destruct (k <? _) eqn:E; [|exact Hk].
    apply Nat.ltb_lt in E.
    assert (Hs : length (footnotes_used md) + unused_count (footnotes_found md)
                 = length (footnotes_used md0) + unused_count (footnotes_found md0))
      by solve_kept.
    lia.
  - cbn [footnote_items]. destruct (k <? _) eqn:E; [|exact Hk].
    eapply outcome_bind.
    + apply (outcome_kept_trans snd md0 md _ Hk).
      apply parse_footnote_def_kept;
        [now apply (block_rec_ok_kept _ md0) | now apply (kept_covered md0)].
    + intros [w m] Hk1. cbn [snd] in Hk1. apply IH; auto. lia.
Qed.

Lemma parse_footnote_list_kept ob md :
  block_rec_ok allow rec md -> covered allow md ->
  outcome allow (fun r => kept md (snd r)) (parse_footnote_list rec ob md).
Proof.
  intros Hblk Hcov. unfold parse_footnote_list.
  destruct (_ =? 0); [apply kept_refl|]. md_simpl.
  set (md1 := set_work_block _ _).
  assert (Hsig : sig md1 = sig md) by reflexivity.
  assert (Hd : depth md <= depth md1) by (unfold depth, md1; md_simpl; lia).
  assert (Hblk1 : block_rec_ok allow rec md1) by now apply (block_rec_ok_deeper md).
  assert (Hcov1 : covered allow md1) by now apply (sig_covered md).
  eapply outcome_bind.
  - apply (footnote_items_kept _ 0 _ md1 md1); auto using kept_refl.
    unfold md1. md_simpl. lia.
  - intros [w m] Hk. cbn [snd] in Hk. unfold md1 in *. repeat step; finish.
Qed.

End BlockFrame.

(** [parse_block] returns and keeps the parser, when its fuel covers
    the levels of nesting that are left under the limit. *)
Lemma parse_block_kept (fuel : nat) : forall ob md data (size : nat),
  max_nesting md < fuel + depth md -> covered allow md ->
  outcome allow (fun r => kept md (snd (fst r))) (parse_block fuel ob md data size).
Proof.
  induction fuel as [|fuel IH]; intros ob md data size Hf Hcov.
  - cbn [parse_block]. destruct (_ <? _) eqn:E; [apply kept_refl|].
    apply Nat.ltb_ge in E. unfold depth in Hf. lia.
  - cbn [parse_block]. destruct (_ <? _) eqn:E; [apply kept_refl|].
    unfold parse_block_body. apply parse_block_loop_kept; auto using kept_refl; try lia.
    + intros ob' md' data' size' Hd Hm Hc. apply parse_inline_kept; [lia | exact Hc].
    + intros ob' md' data' size' Hd Hm Hc. apply IH; [lia | exact Hc].
Qed.

(** *** The two passes of [hoedown_markdown_render] *)

Lemma setup_covered md md' : setup md' = setup md -> covered allow md -> covered allow md'.
Proof.
  intros Hs [Ha|Hc]; [now left | right].
  unfold setup in Hs. injection Hs as Hr Ha He _ _ _.
  unfold callbacks_cover, single_emphasis_cb, double_emphasis_cb in *.
  rewrite Hr, Ha, He. exact Hc.
Qed.

Lemma newlines_loop_end (n : nat) : forall text document (doc_size end_ : nat),
  end_ <= snd (newlines_loop n text document doc_size end_)
  /\ (0 < n -> is_eol (rd document end_) = true ->
      end_ < snd (newlines_loop n text document doc_size end_)).
Proof.
  induction n as [|n IH]; intros text document doc_size end_; cbn [newlines_loop];
    [cbn; split; [lia | intros; lia]|].
  destruct (is_eol (rd document end_)); [|cbn; split; [lia | discriminate]].
  match goal with
  | |- context [newlines_loop n ?t ?d ?s ?e] => destruct (IH t d s e) as [H _]
  end.
  split; [lia | intros; lia].
Qed.

(** The first pass reads every line in one round: it ends, and leaves
    the parser set up as it was. *)
Lemma first_pass_ret (n : nat) : forall md text document (doc_size beg : nat),
  doc_size <= n + beg ->
  exists text' md',
    first_pass n md text document doc_size beg = Ret (text', md')
    /\ setup md' = setup md.
Proof.
  induction n as [|n IH]; intros md text document doc_size beg Hn.
  - cbn [first_pass]. destruct (beg <? doc_size) eqn:E; [|now eauto].
    apply Nat.ltb_lt in E. lia.
  - cbn [first_pass]. destruct (beg <? doc_size) eqn:E; [|now eauto].
    apply Nat.ltb_lt in E.
    destruct (if ext_flags md HOEDOWN_EXT_FOOTNOTES
              then is_footnote document beg doc_size (footnotes_found md)
              else (false, 0, footnotes_found md)) as [[fn fn_end] found] eqn:Efn.
    destruct fn.
    { assert (Hl : beg < fn_end).
      { destruct (ext_flags md HOEDOWN_EXT_FOOTNOTES); [|discriminate].
        now apply is_footnote_last in Efn. }
      destruct (IH (set_footnotes md found (footnotes_used md)) text document doc_size fn_end)
        as (text' & md' & Hr & Hs); [lia|].
      exists text', md'. split; [exact Hr | exact Hs]. }
    destruct (is_ref document beg doc_size (refs md)) as [[rf rf_end] refs'] eqn:Erf.
    destruct rf.
    { apply is_ref_last in Erf.
      destruct (IH (set_refs md refs') text document doc_size rf_end)
        as (text' & md' & Hr & Hs); [lia|].
      exists text', md'. split; [exact Hr | exact Hs]. }
    pose proof (skip_while_ge (fun e => negb (is_eol (rd document e))) doc_size beg) as Hge.
    set (end_ := skip_while _ doc_size beg) in *.
    match goal with
    | |- context [newlines_loop ?k ?t ?d ?s ?e] =>
      destruct (newlines_loop_end k t d s e) as [Hle Hlt];
      destruct (newlines_loop k t d s e) as [text1 end1]
    end. cbn [snd] in Hle, Hlt.
    assert (Hend : beg < end1).
    { destruct (Nat.le_gt_cases doc_size end_) as [|Hin]; [lia|].
      assert (Hstop : negb (is_eol (rd document end_)) = false).
      { exact (skip_while_stop (fun e => negb (is_eol (rd document e))) doc_size beg Hin). }
      apply negb_false_iff in Hstop. specialize (Hlt ltac:(lia) Hstop). lia. }
    apply IH. lia.
Qed.

Lemma hoedown_markdown_render_outcome (fuel : nat) ob (document : hoedown_buffer)
    (doc_size : nat) md :
  max_nesting md < fuel -> pools_empty md -> covered allow md ->
  outcome allow (fun r => pools_empty (snd r))
    (hoedown_markdown_render fuel ob document doc_size md).
Proof.
  intros Hf [Hs Hb] Hcov. unfold hoedown_markdown_render. cbn [work_size] in Hs, Hb.
  set (md1 := if ext_flags (set_refs md no_refs) HOEDOWN_EXT_FOOTNOTES then _ else _).
  assert (Hs1 : setup md1 = setup md) by (unfold md1; now destruct (ext_flags _ _)).
  set (beg := if _ && _ then 0 + 3 else 0).
  destruct (first_pass_ret doc_size md1 [] (buf_data document) doc_size beg)
    as (text & md2 & Hr & Hs2); [lia|].
  rewrite Hr. cbn [bind]. rewrite Hs1 in Hs2. clear Hr Hs1 md1.
  assert (Hblock : forall ob' md', setup md' = setup md ->
            forall data size,
              outcome allow (fun r => kept md' (snd (fst r)))
                (parse_block fuel ob' md' data size)).
  { intros ob' md' Hs' data size.
    apply parse_block_kept; [|now apply (setup_covered md)].
    unfold setup in Hs'. injection Hs' as _ _ _ Hm _ _. lia. }
  match goal with
  | |- outcome _ _ (match ?h with (_, _) => _ end) =>
    assert (Hs3 : setup (snd h) = setup md) by (destruct (cb_doc_header _); exact Hs2);
    destruct h as [ob3 md3]
  end.
  cbn [snd] in Hs3.
  assert (Hget : forall md', kept md3 md' -> setup md' = setup md).
  { intros md' [Hsig Hp]. rewrite <- Hs3. clear Hs3. unfold sig, pools in *.
    injection Hsig as H1 _ H3 H4 H5 _. injection Hp as H7 H8.
    unfold setup. congruence. }
  eapply outcome_bind with (P := fun r => kept md3 (snd r)).
  { destruct (0 <? _); [|apply kept_refl].
    eapply outcome_bind; [apply Hblock; exact Hs3|].
    intros [[w m] mm] Hk. exact Hk. }
  intros [ob4 md4] Hk4. cbn [snd] in Hk4.
  eapply outcome_bind with (P := fun r => kept md3 (snd r)).
  { destruct (ext_flags _ _); [|exact Hk4].
    apply (outcome_kept_trans snd md3 md4 _ Hk4).
    apply parse_footnote_list_kept.
    - intros ob' md' data size Hd Hm Hc. apply parse_block_kept; [|exact Hc].
      rewrite Hm. pose proof (Hget md4 Hk4) as Hs4. unfold setup in Hs4.
      injection Hs4 as _ _ _ -> _ _. lia.
    - apply (setup_covered md); [now apply Hget | exact Hcov]. }
  intros [ob5 md5] Hk5. cbn [snd] in Hk5.
  pose proof (Hget md5 Hk5) as Hs5. unfold setup in Hs5. injection Hs5 as _ _ _ _ Hsp Hbl.
  destruct (cb_doc_footer (rndr md5)); md_simpl; rewrite Hsp, Hbl, Hs, Hb;
    cbn [Nat.eqb andb outcome snd]; split; md_simpl; congruence.
Qed.
(** *** Handlers that test the result of a callback *)

(** The callback just called accepted, or no bytes are taken. *)
Ltac answered :=
  match goal with
  | |- context [fst (fst ?r)] =>
    let E := fresh "Ecall" in
    let b := fresh "b" in
    destruct r as [[b ?] ?] eqn:E; cbn [fst snd]; destruct b;
    [ right; md_simpl; cbn [accepted]; unfold accepts0, accepts1, accepts2, accepts3;
      eauto 15
    | left; reflexivity ]
  end.

(** Closes a goal on a returned value: the parser is kept, and bytes
    are taken only when the callback accepted. *)
Ltac finish_tested :=
  md_simpl; cbn [outcome bind snd fst]; split;
  [ finish
  | unfold by_callback; cbn [fst snd];
    first [ left; reflexivity | answered ] ].

(** After a helper that went by the callback: its result is handed on,
    or turned into a count of bytes that is 0 when the helper's was. *)
Ltac hand_on :=
  let len := fresh "len" in let ob' := fresh "ob'" in let md' := fresh "md'" in
  let Hk := fresh "Hk" in let Hz := fresh "Hz" in let E := fresh "E" in
  intros [[len ob'] md'] [Hk Hz]; unfold by_callback in Hz; cbn [snd fst] in Hk, Hz;
  destruct (len =? 0) eqn:E;
  [ finish_tested
  | md_simpl; cbn [outcome bind snd fst]; split;
    [ finish
    | unfold by_callback; cbn [fst snd]; destruct Hz as [Hz|Hz];
      [ subst len; discriminate | right; exact Hz ] ] ].

Lemma char_codespan_tested ob md data (offset size : nat) :
  covered allow md -> active_char md (rd data 0) = MD_CHAR_CODESPAN ->
  outcome allow (fun r => kept md (snd r) /\ by_callback (rndr md) MD_CHAR_CODESPAN r)
    (char_codespan ob md data offset size).
Proof.
  intros Hcov Hact. unfold char_codespan.
  assert (Hcb : allow \/ present (cb_codespan (rndr md)) = true).
  { destruct Hcov as [|Hc]; [now left|]. right. destruct Hc as (_ & H & _). eauto. }
  branch. branch; [finish_tested|]. have_cb. finish_tested.
Qed.

Lemma char_quote_tested ob md data (offset size : nat) :
  covered allow md -> active_char md (rd data 0) = MD_CHAR_QUOTE ->
  outcome allow (fun r => kept md (snd r) /\ by_callback (rndr md) MD_CHAR_QUOTE r)
    (char_quote ob md data offset size).
Proof.
  intros Hcov Hact. unfold char_quote.
  assert (Hcb : allow \/ present (cb_quote (rndr md)) = true).
  { destruct Hcov as [|Hc]; [now left|]. right. destruct Hc as (_ & _ & _ & H). eauto. }
  branch. branch; [finish_tested|]. have_cb. finish_tested.
Qed.

Lemma char_linebreak_tested ob md data (offset size : nat) :
  covered allow md -> active_char md (rd data 0) = MD_CHAR_LINEBREAK ->
  outcome allow (fun r => kept md (snd r) /\ by_callback (rndr md) MD_CHAR_LINEBREAK r)
    (char_linebreak ob md data offset size).
Proof.
  intros Hcov Hact. unfold char_linebreak.
  assert (Hcb : allow \/ present (cb_linebreak (rndr md)) = true).
  { destruct Hcov as [|Hc]; [now left|]. right. destruct Hc as (_ & _ & H & _). eauto. }
  branch; [finish_tested|]. have_cb. finish_tested.
Qed.

Lemma char_langle_tag_tested ob md data (offset size : nat) :
  outcome allow (fun r => kept md (snd r) /\ by_callback (rndr md) MD_CHAR_LANGLE r)
    (char_langle_tag ob md data offset size).
Proof.
  unfold char_langle_tag.
  destruct (tag_length _ _ _) as [end_ altype].
  destruct (2 <? end_); [|finish_tested].
  destruct (present _ && _) eqn:Ep.
  - apply andb_true_iff in Ep as [Ep _]. md_simpl. have_cb. pop. finish_tested.
  - destruct (cb_raw_html_tag (rndr md)) eqn:Eraw; finish_tested.
Qed.

Lemma parse_emph1_loop_tested rec (n : nat) ob md data (size : nat) (c : ascii) (i : nat) :
  rec_ok allow rec md -> covered allow md ->
  allow \/ present (single_emphasis_cb md c) = true ->
  outcome allow (fun r => kept md (snd r) /\ by_callback (rndr md) MD_CHAR_EMPHASIS r)
    (parse_emph1_loop rec n ob md data size c i).
Proof.
  intros Hrec Hcov Hcb. revert i. unfold single_emphasis_cb in Hcb.
  induction n as [|n IH]; intros i; cbn [parse_emph1_loop]; [finish_tested|].
  destruct (i <? size); [|finish_tested].
  destruct (find_emph_char (padd data i) (size - i) c =? 0); [finish_tested|].
  destruct (size <=? _); [finish_tested|].
  destruct (_ && negb _); [|apply IH].
  destruct (ext_flags md HOEDOWN_EXT_NO_INTRA_EMPHASIS && _); [apply IH|].
  md_simpl. recurse Hrec Hcov.
  assert (Hf : ext_flags md0 = ext_flags md) by solve_kept.
  assert (Hr : rndr md0 = rndr md) by solve_kept.
  rewrite Hf, Hr.
  destruct (ext_flags md HOEDOWN_EXT_UNDERLINE && ceq c "_"); have_cb; pop; finish_tested.
Qed.

Lemma parse_emph2_loop_tested rec (n : nat) ob md data (size : nat) (c : ascii) (i : nat) :
  rec_ok allow rec md -> covered allow md ->
  allow \/ present (double_emphasis_cb md c) = true ->
  outcome allow (fun r => kept md (snd r) /\ by_callback (rndr md) MD_CHAR_EMPHASIS r)
    (parse_emph2_loop rec n ob md data size c i).
Proof.
  intros Hrec Hcov Hcb. revert i.
  unfold double_emphasis_cb in Hcb.
  induction n as [|n IH]; intros i; cbn [parse_emph2_loop]; [finish_tested|].
  destruct (i <? size); [|finish_tested].
  destruct (find_emph_char (padd data i) (size - i) c =? 0); [finish_tested|].
  destruct (_ && _); [|apply IH].
  md_simpl. recurse Hrec Hcov.
  assert (Hr : rndr md0 = rndr md) by solve_kept.
  rewrite Hr.
  destruct (ceq c "~"); [|destruct (ceq c "=")]; have_cb; pop; finish_tested.
Qed.

Lemma parse_emph3_loop_tested rec (n : nat) ob md data (size : nat) (c : ascii) (i : nat) :
  rec_ok allow rec md -> covered allow md ->
  allow \/ present (single_emphasis_cb md c) = true ->
  allow \/ present (double_emphasis_cb md c) = true ->
  outcome allow (fun r => kept md (snd r) /\ by_callback (rndr md) MD_CHAR_EMPHASIS r)
    (parse_emph3_loop rec n ob md data size c i).
Proof.
  intros Hrec Hcov Hcb1 Hcb2. revert i.
  induction n as [|n IH]; intros i; cbn [parse_emph3_loop]; [finish_tested|].
  destruct (i <? size); [|finish_tested].
  destruct (find_emph_char (padd data i) (size - i) c =? 0); [finish_tested|].
  branch; [apply IH|].
  branch.
  - match goal with
    | H : _ && present _ = true |- _ => apply andb_true_iff in H as [_ E3]
    end.
    md_simpl. recurse Hrec Hcov. have_cb. pop. finish_tested.
  - branch.
    + eapply outcome_bind; [now apply parse_emph1_loop_tested|]. hand_on.
    + eapply outcome_bind; [now apply parse_emph2_loop_tested|]. hand_on.
Qed.

Lemma char_emphasis_tested rec ob md data (offset size : nat) :
  rec_ok allow rec md -> covered allow md ->
  active_char md (rd data 0) = MD_CHAR_EMPHASIS ->
  outcome allow (fun r => kept md (snd r) /\ by_callback (rndr md) MD_CHAR_EMPHASIS r)
    (char_emphasis rec ob md data offset size).
Proof.
  intros Hrec Hcov Hact.
  destruct (covered_emphasis md (rd data 0) Hcov Hact) as [H1 H2].
  unfold char_emphasis.
  destruct (ext_flags md HOEDOWN_EXT_NO_INTRA_EMPHASIS && _); [finish_tested|].
  destruct (_ && negb _).
  { destruct (ceq (rd data 0) "~" || ceq (rd data 0) "=") eqn:E; cbn [orb].
    - finish_tested.
    - destruct (_isspace (rd data 1)); [finish_tested|].
      eapply outcome_bind; [apply parse_emph1_loop_tested; auto|]. hand_on. }
  destruct (_ && negb _).
  { destruct (_isspace (rd data 2)); [finish_tested|].
    eapply outcome_bind; [apply parse_emph2_loop_tested; auto|]. hand_on. }
  destruct (_ && negb _); [|finish_tested].
  destruct (ceq (rd data 0) "~" || ceq (rd data 0) "=") eqn:E; cbn [orb].
  - finish_tested.
  - destruct (_isspace (rd data 3)); [finish_tested|].
    eapply outcome_bind; [apply parse_emph3_loop_tested; auto|]. hand_on.
Qed.

Lemma link_cleanup_none md0 md (i : nat) ob :
  grown md0 md ->
  outcome allow (fun r => kept md0 (snd r) /\ by_callback (rndr md0) MD_CHAR_LINK r)
    (link_cleanup (work_span md0) false i ob md).
Proof. intros H. unfold link_cleanup. finish_tested. Qed.

Lemma link_build_tested rec (is_img : bool) md0 data (i txt_e : nat)
    (link title : option hoedown_buffer) ob md :
  rec_ok allow rec md0 -> covered allow md0 -> grown md0 md ->
  (allow \/ present (if is_img then cb_image (rndr md0) else cb_link (rndr md0)) = true) ->
  outcome allow (fun r => kept md0 (snd r) /\ by_callback (rndr md0) MD_CHAR_LINK r)
    (link_build rec is_img (work_span md0) data i txt_e link title ob md).
Proof.
  intros Hrec Hcov Hg Hcb. unfold link_build.
  eapply outcome_bind with (P := fun r => grown md0 (snd r)).
  - branch; [|finish]. md_simpl. destruct is_img; [finish|].
    eapply outcome_bind.
    + apply Hrec; [rw_kept; lia | solve_kept | eapply sig_covered; [|exact Hcov]; solve_kept].
    + intros [w m] Hk. cbn [snd] in Hk. finish.
  - intros [content m] Hm. cbn [snd] in Hm.
    destruct link as [l|]; destruct is_img; md_simpl;
      have_cb; unfold link_cleanup; finish_tested.
Qed.

Lemma char_link_tested rec ob md data (offset size : nat) :
  rec_ok allow rec md -> covered allow md ->
  outcome allow (fun r => kept md (snd r) /\ by_callback (rndr md) MD_CHAR_LINK r)
    (char_link rec ob md data offset size).
Proof.
  intros Hrec Hcov. unfold char_link.
  set (is_img := (0 <? offset) && ceq (rdb data 1) "!"). cbv zeta.
  pose proof (grown_refl md) as Hg.
  destruct (_ || _) eqn:Hcb; [now apply link_cleanup_none|].
  assert (Hp : allow \/ present (if is_img then cb_image (rndr md) else cb_link (rndr md))
                        = true).
  { right. destruct is_img; cbn [negb andb orb] in Hcb;
      now destruct (present _). }
  destruct (link_text_loop _ _ _ _ _) as [i text_has_nl].
  destruct (size <=? i); [now apply link_cleanup_none|].
  destruct (_ && ceq (rd data 1) "^").
  { destruct (i <? 3); [now apply link_cleanup_none|].
    destruct (find_footnote_ref _ _ _) as [k|] eqn:Ef; [|now apply link_cleanup_none].
    apply find_footnote_from_bound in Ef.
    assert (Hu : grown md (use_footnote md k)) by (apply use_footnote_grown; [lia|exact Hg]).
    assert (Hr : rndr (use_footnote md k) = rndr md) by (clear - Hu; solve_kept).
    rewrite Hr.
    destruct (cb_footnote_ref (rndr md)) eqn:Efn; [|apply link_cleanup_none; finish].
    unfold link_cleanup. finish_tested. }
  destruct (_ && ceq _ "(").
  { destruct (size <=? _); [now apply link_cleanup_none|].
    destruct (_ && (size <=? _)); [now apply link_cleanup_none|].
    destruct (if ceq _ SQUOTE || ceq _ DQUOTE then _ else _) as [[title_b title_e] link_e].
    match goal with
    | |- context [if ?c then _ else (None, md)] => destruct c
    end; destruct (title_b <? title_e); md_simpl;
      (apply link_build_tested; [assumption | assumption | finish | exact Hp]). }
  destruct (_ && ceq _ "[").
  { destruct (size <=? _); [now apply link_cleanup_none|].
    match goal with
    | |- context [if ?b then link_text_id _ _ _ _ else _] => destruct b
    end.
    - pose proof (link_text_id_grown md data text_has_nl i md Hg) as Ht.
      destruct (link_text_id _ _ _ _) as [[id_data id_size] md1]. cbn [snd] in Ht.
      destruct (find_link_ref _ _ _); [|now apply link_cleanup_none].
      now apply link_build_tested.
    - destruct (find_link_ref _ _ _); [|now apply link_cleanup_none].
      now apply link_build_tested. }
  pose proof (link_text_id_grown md data text_has_nl i md Hg) as Ht.
  destruct (link_text_id _ _ _ _) as [[id_data id_size] md1]. cbn [snd] in Ht.
  destruct (find_link_ref _ _ _); [|now apply link_cleanup_none].
  now apply link_build_tested.
Qed.

(** The handler of an active byte that tests the result of a callback
    takes bytes only when the callback accepted. *)
Lemma trigger_tested rec ob md data (offset size : nat) :
  rec_ok allow rec md -> covered allow md ->
  tests_callback (active_char md (rd data 0)) = true ->
  exists h,
    markdown_char_ptrs rec (active_char md (rd data 0)) = Some h
    /\ outcome allow
         (fun r => kept md (snd r)
                   /\ by_callback (rndr md) (active_char md (rd data 0)) r)
         (h ob md data offset size).
Proof.
  intros Hrec Hcov Htest.
  destruct (active_char md (rd data 0)) eqn:E; cbn [tests_callback] in Htest;
    try discriminate;
    cbn [markdown_char_ptrs]; eexists; (split; [reflexivity|]).
  - now apply char_emphasis_tested.
  - now apply char_codespan_tested.
  - now apply char_linebreak_tested.
  - now apply char_link_tested.
  - now apply char_langle_tag_tested.
  - now apply char_quote_tested.
Qed.

End Frame.

End InlineProps.

(* ================================================================== *)
(** ** The pools after a render, and the nesting limit *)

Section Nesting.

Context {O : Type} {ext : Externals}.
Implicit Types (md : hoedown_markdown O) (ob : hoedown_buffer) (data : ptr).

(** C5.  [hoedown_markdown_render], entered with both pools empty and
    with fuel for the levels of nesting under [max_nesting], returns
    for every document and every renderer, and both pools are empty
    again: every [newbuf] was matched by a [popbuf], or by
    the reset of [char_link], on the path taken, so that the two
    asserts at the end hold.  The one way not to return is the call of
    a callback that is NULL, which takes a renderer without one of the
    callbacks the handlers call unchecked. *)
Theorem render_leaves_pools_empty (fuel : nat) ob (document : hoedown_buffer)
    (doc_size : nat) md :
  max_nesting md < fuel -> pools_empty md ->
  match hoedown_markdown_render fuel ob document doc_size md with
  | Ret r => pools_empty (snd r)
  | Fault NullCallback => ~ callbacks_cover md
  | Fault _ => False
  end.
Proof.
  intros Hf Hp.
  pose proof (hoedown_markdown_render_outcome True fuel ob document doc_size md Hf Hp
                (or_introl I)) as H1.
  destruct (hoedown_markdown_render fuel ob document doc_size md) as [r|e] eqn:E.
  - exact H1.
  - destruct e; cbn [outcome] in H1; try contradiction.
    intros Hc.
    pose proof (hoedown_markdown_render_outcome False fuel ob document doc_size md Hf Hp
                  (or_intror Hc)) as H2.
    rewrite E in H2. exact H2.
Qed.

(** C3, as the code has it.  [parse_inline] and [parse_block] entered
    with more buffers in use, over the two pools, than [max_nesting]
    return at once: nothing is put in the output, and the parser and
    the bytes parsed are left as they were. *)
Theorem nesting_guard_returns (fuel : nat) ob md data (size : nat) :
  max_nesting md < work_span md + work_block md ->
  parse_inline fuel ob md data size = Ret (ob, md)
  /\ parse_block fuel ob md data size = Ret (ob, md, mem data).
Proof.
  intros H. apply Nat.ltb_lt in H.
  split; destruct fuel; cbn [parse_inline parse_block]; now rewrite H.
Qed.

Lemma kept_active_char md md' : kept md md' -> active_char md' = active_char md.
Proof. intros [Hs _]. unfold sig in Hs. now injection Hs. Qed.

Lemma kept_rndr md md' : kept md md' -> rndr md' = rndr md.
Proof. intros [Hs _]. unfold sig in Hs. now injection Hs. Qed.

(** C6, as the code has it.  The scanner of [parse_inline] holds the
    text from [i] and comes to the active byte [e], whose handler is
    one that tests the result of a callback: that of emphasis, of a
    code span, of a line break, of a link, image or footnote reference,
    of a raw HTML tag or autolink in angle brackets, or of a quote.
    The handler, called at [e] after the text before it was put out,
    returns, and it takes bytes only when a callback it tests returned
    nonzero, on the call that left the output and the state handed
    back.  When the callback returned 0, and whenever else the handler
    takes nothing, the scanner emits the active byte verbatim, at the
    head of the run of text that extends to the next active byte [e2],
    and goes on with the handler of that byte.  The output is not put
    back to what it was before the construct: the text is appended to
    the buffer [ob1] as the handler and its callback left it. *)
Theorem declined_construct_left_as_text (fuel n : nat) ob md data
    (size i end_ e e2 : nat) :
  max_nesting md <= fuel + (work_span md + work_block md) ->
  callbacks_cover md ->
  i <= e -> end_ <= e < size ->
  (forall j, end_ <= j < e -> active_char md (rd data j) = MD_CHAR_NONE) ->
  tests_callback (active_char md (rd data e)) = true ->
  e < e2 <= size ->
  (forall j, e < j < e2 -> active_char md (rd data j) = MD_CHAR_NONE) ->
  (e2 < size -> active_char md (rd data e2) <> MD_CHAR_NONE) ->
  exists h ob0 md0 taken ob1 md1,
    emit_text ob md (padd data i) (e - i) = (ob0, md0)
    /\ markdown_char_ptrs (parse_inline fuel) (active_char md (rd data e)) = Some h
    /\ h ob0 md0 (padd data e) e (size - e) = Ret (taken, ob1, md1)
    /\ (taken = 0 \/ accepted (rndr md) (active_char md (rd data e)) ob1 (opaque md1))
    /\ (taken = 0 ->
        parse_inline_loop (parse_inline fuel) (S (S n)) ob md data size i end_
        = (let '(ob2, md2) := emit_text ob1 md1 (padd data e) (e2 - e) in
           if size <=? e2 then Ret (ob2, md2)
           else handle_at (parse_inline fuel) n ob2 md2 data size e2)).
Proof.
  intros Hfuel Hcov Hi He Hbefore Htest He2 Hrun Hstop.
  pose proof (emit_text_kept ob md (padd data i) (e - i)) as Hk0.
  destruct (emit_text ob md (padd data i) (e - i)) as [ob0 md0] eqn:E0. cbn [snd] in Hk0.
  pose proof (kept_active_char _ _ Hk0) as Ha0.
  pose proof (kept_rndr _ _ Hk0) as Hr0.
  assert (Hnone : is_none_action (active_char md (rd data e)) = false).
  { destruct (active_char md (rd data e)); try reflexivity. discriminate. }
  destruct (trigger_tested False (parse_inline fuel) ob0 md0 (padd data e) e (size - e))
    as (h & Hh & Hout).
  { intros ob' md' d s Hd Hm Hc. apply parse_inline_kept; [|exact Hc].
    rewrite Hm, (kept_max_nesting _ _ Hk0).
    rewrite (kept_depth _ _ Hk0) in Hd. unfold depth in *. lia. }
  { apply (kept_covered False md); [exact Hk0 | now right]. }
  { now rewrite Ha0, rd_padd, Nat.add_0_r. }
  rewrite Ha0, rd_padd, Nat.add_0_r in Hh.
  rewrite Ha0, Hr0, rd_padd, Nat.add_0_r in Hout.
  destruct (h ob0 md0 (padd data e) e (size - e)) as [[[taken ob1] md1]|flt] eqn:Eh;
    [|destruct flt; contradiction].
  destruct Hout as [Hk1 Hby]. unfold by_callback in Hby. cbn [fst snd] in Hk1, Hby.
  pose proof (kept_active_char _ _ Hk1) as Ha1. rewrite Ha0 in Ha1.
  exists h, ob0, md0, taken, ob1, md1.
  split; [reflexivity|]. split; [exact Hh|]. split; [exact Eh|]. split; [exact Hby|].
  intros ->. cbn [parse_inline_loop].
  replace (i <? size) with true by (symmetry; apply Nat.ltb_lt; lia).
  assert (Hskip0 : skip_while (fun e0 => is_none_action (active_char md (rd data e0)))
                              size end_ = e).
  { apply skip_while_to; [lia | | exact Hnone].
    intros j Hj. now rewrite Hbefore. }
  rewrite Hskip0, E0.
  replace (size <=? e) with false by (symmetry; apply Nat.leb_gt; lia).
  rewrite Hh. cbn [call bind]. rewrite Eh. cbn [bind Nat.eqb].
  replace (e <? size) with true by (symmetry; apply Nat.ltb_lt; lia).
  assert (Hskip : skip_while (fun e0 => is_none_action (active_char md1 (rd data e0)))
                             size (e + 1) = e2).
  { rewrite Ha1. destruct (Nat.eq_dec e2 size) as [->|Hne].
    - apply skip_while_all; [lia|]. intros j Hj. rewrite Hrun by lia. reflexivity.
    - apply skip_while_to; [lia | |].
      + intros j Hj. rewrite Hrun by lia. reflexivity.
      + destruct (active_char md (rd data e2)) eqn:Ea; try reflexivity.
        exfalso. apply Hstop; [lia | reflexivity]. }
  rewrite Hskip.
  pose proof (emit_text_kept ob1 md1 (padd data e) (e2 - e)) as Hk2.
  destruct (emit_text ob1 md1 (padd data e) (e2 - e)) as [ob2 md2]. cbn [snd] in Hk2.
  destruct (size <=? e2); [reflexivity|].
  unfold handle_at. now rewrite (kept_active_char _ _ Hk2).
Qed.

End Nesting.

(* ================================================================== *)
(** ** Instances on concrete inputs *)

#[local] Existing Instance no_externals.

Lemma parse_inline_inactive_identity_witness :
  exists o,
    parse_inline 1 [] (tag_parser no_extensions 16) (buf_data (str "plain text")) 10
    = Ret ([] ++ bytes (buf_data (str "plain text")) 10,
           set_opaque (tag_parser no_extensions 16) o).
Proof.
  apply (parse_inline_inactive_identity 0 [] (tag_parser no_extensions 16)
           (buf_data (str "plain text")) 10).
  - unfold within_nesting. cbn. lia.
  - exact I.
  - intros i Hi. do 10 (destruct i as [|i]; [reflexivity|]). lia.
Defined.

Lemma superscript_empty_forms_witness :
  (char_superscript (parse_inline 0) [] (tag_parser all_extensions 16)
                    (buf_data (str "^()")) 0 3
   = Ret (3, [], tag_parser all_extensions 16)
   /\ parse_inline 1 [] (tag_parser all_extensions 16) (buf_data (str "^()")) 3
      = Ret ([], tag_parser all_extensions 16))
  /\ (char_superscript (parse_inline 0) [] (tag_parser all_extensions 16)
                       (buf_data (str "^ a")) 0 3
      = Ret (0, [], tag_parser all_extensions 16)
      /\ parse_inline 1 [] (tag_parser all_extensions 16) (buf_data (str "^ a")) 3
         = Ret (str "^ a", tag_parser all_extensions 16)).
Proof.
  split.
  - destruct (superscript_empty_forms 0 [] (tag_parser all_extensions 16)
                (buf_data (str "^()")) 0 3 (span_cb "sup")) as [H _].
    + unfold within_nesting. cbn. lia.
    + reflexivity.
    + reflexivity.
    + destruct H as [Hh Hp]; [lia | reflexivity | reflexivity |].
      split; [exact Hh | exact (Hp eq_refl)].
  - destruct (superscript_empty_forms 0 [] (tag_parser all_extensions 16)
                (buf_data (str "^ a")) 0 3 (span_cb "sup")) as [_ H].
    + unfold within_nesting. cbn. lia.
    + reflexivity.
    + reflexivity.
    + destruct H as [Hh Hp]; [lia | reflexivity |].
      split; [exact Hh|]. apply Hp.
      intros j Hj. destruct j as [|[|[|j]]]; [lia | reflexivity | reflexivity | lia].
Defined.

Lemma char_codespan_strips_all_spaces_witness :
  char_codespan [] (tag_parser no_extensions 16) (buf_data (str "`  a `")) 0 6
  = Ret (6, str "<code>a</code>", tag_parser no_extensions 16).
Proof.
  apply (char_codespan_strips_all_spaces [] (tag_parser no_extensions 16)
           (buf_data (str "`  a `")) 0 6 1 (str "  a ") []
           (fun ob text o => span_cb "code" ob (or_empty text) o)).
  - split; reflexivity.
  - lia.
  - repeat split.
    + cbn. lia.
    + discriminate.
    + discriminate.
    + intros k Hk. exists 0. split; [lia|].
      cbn in Hk. rewrite Nat.add_0_r.
      do 4 (destruct k as [|k]; [discriminate|]). lia.
  - reflexivity.
Defined.

(** C8 as stated fails: in the span [` a`] a space stands on the left
    of the content only, and the callback still gets the content
    without it; in the span with two spaces on either side both go,
    not one of each. *)
Lemma char_codespan_strips_one_sided :
  char_codespan [] (tag_parser no_extensions 16) (buf_data (str "` a`")) 0 4
  = Ret (4, str "<code>a</code>", tag_parser no_extensions 16)
  /\ char_codespan [] (tag_parser no_extensions 16) (buf_data (str "` a`")) 0 4
     <> Ret (4, str "<code> a</code>", tag_parser no_extensions 16)
  /\ char_codespan [] (tag_parser no_extensions 16) (buf_data (str "`  a  `")) 0 7
     = Ret (7, str "<code>a</code>", tag_parser no_extensions 16)
  /\ char_codespan [] (tag_parser no_extensions 16) (buf_data (str "`  a  `")) 0 7
     <> Ret (7, str "<code> a </code>", tag_parser no_extensions 16).
Proof.
  repeat split; try reflexivity; vm_compute; discriminate.
Qed.

Lemma render_leaves_pools_empty_witness :
  match hoedown_markdown_render 17 [] (str "hello *world*") 13 (tag_parser all_extensions 16) with
  | Ret r => pools_empty (snd r)
  | Fault NullCallback => ~ callbacks_cover (tag_parser all_extensions 16)
  | Fault _ => False
  end.
Proof.
  apply (render_leaves_pools_empty 17 [] (str "hello *world*") 13
           (tag_parser all_extensions 16)).
  - cbn. lia.
  - split; reflexivity.
Defined.

Lemma nesting_guard_returns_witness :
  parse_inline 3 (str "out") (set_work_span (tag_parser no_extensions 1) 2)
               (buf_data (str "*a*")) 3
  = Ret (str "out", set_work_span (tag_parser no_extensions 1) 2)
  /\ parse_block 3 (str "out") (set_work_span (tag_parser no_extensions 1) 2)
                 (buf_data (str "*a*")) 3
     = Ret (str "out", set_work_span (tag_parser no_extensions 1) 2, str "*a*").
Proof.
  apply (nesting_guard_returns 3 (str "out") (set_work_span (tag_parser no_extensions 1) 2)
           (buf_data (str "*a*")) 3).
  cbn. lia.
Defined.

(** C3 as stated fails: with [max_nesting] 1, a parser made by
    [hoedown_markdown_new] and the document [*a*].  [parse_paragraph]
    takes a buffer of the block pool and enters [parse_inline] with one
    buffer in use, within the bound; [parse_emph1] then takes a buffer
    of the span pool and calls [parse_inline] with two in use, over the
    bound.  Asserted on entry to that call, the bound fails; as the
    code is, the call returns at once and the emphasis is rendered
    empty. *)
Lemma pools_exceed_max_nesting :
  hoedown_markdown_new no_extensions 1 tag_renderer tt = Ret (tag_parser no_extensions 1)
  /\ within_nesting (snd (newbuf (tag_parser no_extensions 1) BUFFER_BLOCK))
  /\ parse_inline_body (bound_asserted (parse_inline 4)) []
                       (snd (newbuf (tag_parser no_extensions 1) BUFFER_BLOCK))
                       (buf_data (str "*a*")) 3
     = Fault AssertFailed
  /\ hoedown_markdown_render 5 [] (str "*a*") 3 (tag_parser no_extensions 1)
     = Ret (str "<p><em></em></p>", tag_parser no_extensions 1).
Proof.
  split; [reflexivity|]. split; [unfold within_nesting; cbn; lia|].
  split; vm_compute; reflexivity.
Qed.

(** C4 on the inputs where it fails.  [char_link] entered with
    [in_link_body] set, as inside the text of an enclosing link,
    returns with [in_link_body] clear, not as it was on entry.  So in
    [[a [b](u) www.x.com](v)] the text after the inner link is parsed
    with the flag clear and [www.x.com] is made a link inside a link,
    while in [[a www.x.com](v)] it is left as text. *)
Theorem char_link_clears_in_link_body :
  in_link_body (set_in_link_body (tag_parser all_extensions 16) true) = true
  /\ char_link (parse_inline 16) [] (set_in_link_body (tag_parser all_extensions 16) true)
               (buf_data (str "[b](u)")) 0 6
     = Ret (6, str "<a>u|b</a>",
            set_in_link_body (tag_parser all_extensions 16) false)
  /\ parse_inline (ext := www_externals) 16 [] (tag_parser autolinking 16)
                  (buf_data (str "[a [b](u) www.x.com](v)")) 23
     = Ret (str "<a>v|a <a>u|b</a> <a>http://www.x.com|www.x.com</a></a>",
            tag_parser autolinking 16)
  /\ parse_inline (ext := www_externals) 16 [] (tag_parser autolinking 16)
                  (buf_data (str "[a www.x.com](v)")) 16
     = Ret (str "<a>v|a www.x.com</a>", tag_parser autolinking 16).
Proof.
  repeat split; vm_compute; reflexivity.
Qed.

(** C7 on the input where it fails: a backslash before a NUL byte.
    NUL is not in the escape set, yet [strchr] finds it, at the end of
    [escape_chars]: the NUL is put out alone and the backslash is lost,
    where a byte such as [a] leaves the backslash in the output. *)
Theorem char_escape_takes_nul :
  ~ In NUL escape_chars
  /\ parse_inline 16 [] (tag_parser no_extensions 16) (buf_data [BSLASH; NUL]) 2
     = Ret ([NUL], tag_parser no_extensions 16)
  /\ parse_inline 16 [] (tag_parser no_extensions 16) (buf_data (str "\a")) 2
     = Ret (str "\a", tag_parser no_extensions 16)
  /\ parse_inline 16 [] (tag_parser no_extensions 16) (buf_data (str "\*")) 2
     = Ret (str "*", tag_parser no_extensions 16).
Proof.
  split.
  - cbv. intuition discriminate.
  - repeat split; vm_compute; reflexivity.
Qed.

Lemma declining_parser_covered (extensions : hoedown_extensions -> bool) (n : nat) :
  callbacks_cover (declining_parser extensions n).
Proof.
  unfold callbacks_cover, single_emphasis_cb, double_emphasis_cb. cbn.
  split; [|repeat split].
  intros c _. split.
  - intros _. now destruct (extensions HOEDOWN_EXT_UNDERLINE && ceq c "_").
  - destruct (ceq c "~"); [reflexivity|]. now destruct (ceq c "=").
Qed.

Lemma picky_parser_covered (extensions : hoedown_extensions -> bool) (n : nat) :
  callbacks_cover (picky_parser extensions n).
Proof.
  unfold callbacks_cover, single_emphasis_cb, double_emphasis_cb. cbn.
  split; [|repeat split].
  intros c _. split.
  - intros _. now destruct (extensions HOEDOWN_EXT_UNDERLINE && ceq c "_").
  - destruct (ceq c "~"); [reflexivity|]. now destruct (ceq c "=").
Qed.

(** Three constructs whose callback returns 0, each past the head of
    its span: a line break after two spaces, an image, whose bracket
    follows the [!], and, with a renderer that renders the code spans
    of one byte, a code span of two bytes that follows one it
    rendered. *)
Lemma declined_construct_left_as_text_witness :
  (let md := declining_parser no_extensions 16 in
   let data := buf_data (str "a  " ++ [NL] ++ str "b") in
   exists h ob0 md0 taken ob1 md1,
     emit_text [] md (padd data 0) (3 - 0) = (ob0, md0)
     /\ markdown_char_ptrs (parse_inline 16) (active_char md (rd data 3)) = Some h
     /\ h ob0 md0 (padd data 3) 3 (5 - 3) = Ret (taken, ob1, md1)
     /\ (taken = 0 \/ accepted (rndr md) (active_char md (rd data 3)) ob1 (opaque md1))
     /\ (taken = 0 ->
         parse_inline_loop (parse_inline 16) (S (S 5)) [] md data 5 0 0
         = (let '(ob2, md2) := emit_text ob1 md1 (padd data 3) (5 - 3) in
            if 5 <=? 5 then Ret (ob2, md2)
            else handle_at (parse_inline 16) 5 ob2 md2 data 5 5)))
  /\ (let md := declining_parser no_extensions 16 in
      let data := buf_data (str "x![a](u) b") in
      exists h ob0 md0 taken ob1 md1,
        emit_text [] md (padd data 0) (2 - 0) = (ob0, md0)
        /\ markdown_char_ptrs (parse_inline 16) (active_char md (rd data 2)) = Some h
        /\ h ob0 md0 (padd data 2) 2 (10 - 2) = Ret (taken, ob1, md1)
        /\ (taken = 0 \/ accepted (rndr md) (active_char md (rd data 2)) ob1 (opaque md1))
        /\ (taken = 0 ->
            parse_inline_loop (parse_inline 16) (S (S 10)) [] md data 10 0 0
            = (let '(ob2, md2) := emit_text ob1 md1 (padd data 2) (10 - 2) in
               if 10 <=? 10 then Ret (ob2, md2)
               else handle_at (parse_inline 16) 10 ob2 md2 data 10 10)))
  /\ (let md := picky_parser no_extensions 16 in
      let data := buf_data (str "`a` `bc`") in
      exists h ob0 md0 taken ob1 md1,
        emit_text (str "<code>a</code>") md (padd data 3) (4 - 3) = (ob0, md0)
        /\ markdown_char_ptrs (parse_inline 16) (active_char md (rd data 4)) = Some h
        /\ h ob0 md0 (padd data 4) 4 (8 - 4) = Ret (taken, ob1, md1)
        /\ (taken = 0 \/ accepted (rndr md) (active_char md (rd data 4)) ob1 (opaque md1))
        /\ (taken = 0 ->
            parse_inline_loop (parse_inline 16) (S (S 8)) (str "<code>a</code>") md data 8 3 3
            = (let '(ob2, md2) := emit_text ob1 md1 (padd data 4) (7 - 4) in
               if 8 <=? 7 then Ret (ob2, md2)
               else handle_at (parse_inline 16) 8 ob2 md2 data 8 7)))
  /\ parse_inline 16 [] (picky_parser no_extensions 16) (buf_data (str "`a` `bc`")) 8
     = Ret (str "<code>a</code> `bc`", picky_parser no_extensions 16).
Proof.
  split; [|split; [|split]].
  - cbv zeta.
    apply (declined_construct_left_as_text 16 5 [] (declining_parser no_extensions 16)
             (buf_data (str "a  " ++ [NL] ++ str "b")) 5 0 0 3 5).
    + cbn. lia.
    + apply declining_parser_covered.
    + lia.
    + lia.
    + intros j Hj. do 3 (destruct j as [|j]; [reflexivity|]). lia.
    + reflexivity.
    + lia.
    + intros j Hj. replace j with 4 by lia. reflexivity.
    + lia.
  - cbv zeta.
    apply (declined_construct_left_as_text 16 10 [] (declining_parser no_extensions 16)
             (buf_data (str "x![a](u) b")) 10 0 0 2 10).
    + cbn. lia.
    + apply declining_parser_covered.
    + lia.
    + lia.
    + intros j Hj. do 2 (destruct j as [|j]; [reflexivity|]). lia.
    + reflexivity.
    + lia.
    + intros j Hj. do 3 (destruct j as [|j]; [lia|]).
      do 7 (destruct j as [|j]; [reflexivity|]). lia.
    + lia.
  - cbv zeta.
    apply (declined_construct_left_as_text 16 8 (str "<code>a</code>")
             (picky_parser no_extensions 16) (buf_data (str "`a` `bc`")) 8 3 3 4 7).
    + cbn. lia.
    + apply picky_parser_covered.
    + lia.
    + lia.
    + intros j Hj. replace j with 3 by lia. reflexivity.
    + reflexivity.
    + lia.
    + intros j Hj. do 5 (destruct j as [|j]; [lia|]).
      do 2 (destruct j as [|j]; [reflexivity|]). lia.
    + intros _. vm_compute. discriminate.
  - vm_compute. reflexivity.
Defined.

(** C6 as stated fails.  A line break whose callback declines: the
    handler returns 0, yet the output has lost the two spaces that
    stood before the newline, so that [a  ], newline, [b] comes out
    without them.  An image whose callback declines: the output has
    lost the [!].  A superscript whose callback declines: the handler
    takes the two bytes all the same, and [x^b] comes out as [x]. *)
Lemma declined_output_not_restored :
  char_linebreak (str "a  ") (declining_parser no_extensions 16)
                 (padd (buf_data (str "a  " ++ [NL] ++ str "b")) 3) 3 2
  = Ret (0, str "a", declining_parser no_extensions 16)
  /\ parse_inline 16 [] (declining_parser no_extensions 16)
                  (buf_data (str "a  " ++ [NL] ++ str "b")) 5
     = Ret (str "a" ++ [NL] ++ str "b", declining_parser no_extensions 16)
  /\ parse_inline 16 [] (declining_parser no_extensions 16) (buf_data (str "![a](u) b")) 9
     = Ret (str "[a](u) b", declining_parser no_extensions 16)
  /\ char_superscript (parse_inline 16) (str "x") (declining_parser all_extensions 16)
                      (padd (buf_data (str "x^b")) 1) 1 2
     = Ret (2, str "x", declining_parser all_extensions 16)
  /\ parse_inline 16 [] (declining_parser all_extensions 16) (buf_data (str "x^b")) 3
     = Ret (str "x", declining_parser all_extensions 16).
Proof.
  repeat split; vm_compute; reflexivity.
Qed.

(* ================================================================== *)
(** * Further properties *)

(** ** Tactics and facts shared by what follows *)

Lemma ceq_false (a b : ascii) : ceq a b = false -> a <> b.
Proof. intros H E. subst b. unfold ceq in H. rewrite Ascii.eqb_refl in H. discriminate. Qed.

Lemma ceq_refl (a : ascii) : ceq a a = true.
Proof. apply Ascii.eqb_refl. Qed.

Lemma ceq_neq (a b : ascii) : a <> b -> ceq a b = false.
Proof. intros H. apply not_true_is_false. intros E. now apply ceq_true in E. Qed.

(** Turns the tests of a scan into the bounds they decide. *)
Ltac tests_to_bounds :=
  repeat match goal with
         | H : (_ || _) = false |- _ => apply orb_false_iff in H as [? ?]
         | H : (_ && _) = true |- _ => apply andb_true_iff in H as [? ?]
         | H : negb _ = false |- _ => apply negb_false_iff in H
         | H : negb _ = true |- _ => apply negb_true_iff in H
         | H : (_ <=? _) = false |- _ => apply Nat.leb_gt in H
         | H : (_ <=? _) = true |- _ => apply Nat.leb_le in H
         | H : (_ <? _) = true |- _ => apply Nat.ltb_lt in H
         | H : (_ <? _) = false |- _ => apply Nat.ltb_ge in H
         | H : (_ =? _) = false |- _ => apply Nat.eqb_neq in H
         | H : (_ =? _) = true |- _ => apply Nat.eqb_eq in H
         end.

(** Names the value a [let] of the goal binds, with its equation. *)
Ltac name_bound :=
  match goal with
  | |- context C [let x := ?e in @?b x] =>
    let v := fresh "p" in
    let Hv := fresh "Hp" in
    pose (v := e); assert (Hv : v = e) by reflexivity;
    let g := context C [b v] in
    change g; cbv beta; clearbody v
  end.

(** Turns the tests the code made into the orders they decide. *)
Ltac tests_to_orders :=
  repeat match goal with
         | H : (_ || _) = false |- _ => apply orb_false_iff in H as [? ?]
         | H : (_ && _) = true |- _ => apply andb_true_iff in H as [? ?]
         | H : (_ <=? _) = false |- _ => apply Nat.leb_gt in H
         | H : (_ <=? _) = true |- _ => apply Nat.leb_le in H
         | H : (_ <? _) = true |- _ => apply Nat.ltb_lt in H
         | H : (_ <? _) = false |- _ => apply Nat.ltb_ge in H
         | H : (_ =? _) = false |- _ => apply Nat.eqb_neq in H
         | H : (_ =? _) = true |- _ => apply Nat.eqb_eq in H
         end.

(** Settles a goal on a position given by tests with a case for each. *)
Ltac by_tests H :=
  rewrite H; cbv zeta;
  repeat match goal with
         | |- context [if ?c then _ else _] => destruct c eqn:?
         end;
  tests_to_orders; lia.

(** Reads the equations of the named positions, oldest first, into
    bounds: every scan stays between its start and [e]; a position
    chosen by a test lies between its two values, or, when one of them
    is the 0 that stands for [none], is one of them. *)
Ltac position_range e :=
  repeat match reverse goal with
         | H : ?v = ?rhs |- _ =>
           is_var v;
           lazymatch rhs with
           | 0 => subst v
           | skip_while ?p ?s ?i =>
             let Hge := fresh "Hge" in
             pose proof (skip_while_ge p s i) as Hge; rewrite <- H in Hge;
             try assert (v <= s) by (rewrite H; apply skip_while_le; lia);
             clear H
           | back_while _ _ _ => clear H
           | (let x := _ in _) => cbv zeta in H
           | (if negb (?x =? 0) then _ else _) =>
             destruct (x =? 0) eqn:?; cbn [negb] in H; tests_to_orders
           | (if ?c then _ else 0) => destruct c eqn:?; tests_to_orders; subst v
           | (if ?c then ?a else ?b) =>
             lazymatch type of a with
             | nat => idtac
             end;
             first [ assert (b <= v <= e) by by_tests H
                   | assert (a <= v <= b) by by_tests H ];
             clear H
           | _ => is_var rhs; subst v
           end
         end.

(* ================================================================== *)
(** ** Further properties of the parser *)

Section MoreProps.

Context {O : Type} {ext : Externals}.
Implicit Types (md : hoedown_markdown O) (ob : hoedown_buffer) (data : ptr).

(** *** The recursive parsers return *)

(** X1.  [parse_inline], given fuel for the levels of nesting left
    under [max_nesting], and autolink scanners that rewind nothing
    behind the active autolink bytes, returns on every span, and leaves
    the parser as it was but for [opaque], [in_link_body] and the
    footnotes taken into use: the renderer, the reference table, the
    active bytes, the extensions, the nesting limit and the tops of
    both pools are as on entry.  The one other way out is the call of a
    NULL callback, with a renderer that lacks a callback a handler
    calls unchecked.  (A scanner that rewinds may ask for more bytes
    than the output holds; [ob->size -= rewind] then wraps around, and
    the buffer no longer describes its bytes.) *)
Theorem parse_inline_returns (fuel : nat) ob md data (size : nat) :
  max_nesting md < fuel + (work_span md + work_block md) ->
  rewind_free md ->
  match parse_inline fuel ob md data size with
  | Ret r => kept md (snd r)
  | Fault NullCallback => ~ callbacks_cover md
  | Fault _ => False
  end.
Proof.
  intros Hf _.
  pose proof (parse_inline_kept True fuel ob md data size Hf (or_introl I)) as H1.
  destruct (parse_inline fuel ob md data size) as [r|e] eqn:E; [exact H1|].
  destruct e; cbn [outcome] in H1; try contradiction.
  intros Hc.
  pose proof (parse_inline_kept False fuel ob md data size Hf (or_intror Hc)) as H2.
  rewrite E in H2. exact H2.
Qed.

(** X2.  [parse_block], given fuel for the levels of nesting left under
    [max_nesting], and autolink scanners that rewind nothing behind the
    active autolink bytes, returns on every text: every round of its
    loop takes at least one byte, whichever block construct the round
    finds.  It leaves the parser as it was but for [opaque],
    [in_link_body] and the footnotes taken into use, or ends in the
    call of a NULL callback with a renderer that lacks one. *)
Theorem parse_block_returns (fuel : nat) ob md data (size : nat) :
  max_nesting md < fuel + (work_span md + work_block md) ->
  rewind_free md ->
  match parse_block fuel ob md data size with
  | Ret r => kept md (snd (fst r))
  | Fault NullCallback => ~ callbacks_cover md
  | Fault _ => False
  end.
Proof.
  intros Hf _.
  pose proof (parse_block_kept True fuel ob md data size Hf (or_introl I)) as H1.
  destruct (parse_block fuel ob md data size) as [r|e] eqn:E; [exact H1|].
  destruct e; cbn [outcome] in H1; try contradiction.
  intros Hc.
  pose proof (parse_block_kept False fuel ob md data size Hf (or_intror Hc)) as H2.
  rewrite E in H2. exact H2.
Qed.

(** Walks down the tests of [new_active_char] to the one that gave
    the action. *)
Ltac active_char_case :=
  unfold new_active_char;
  repeat match goal with
         | |- (if ?b then _ else _) = _ -> _ =>
           let E := fresh "E" in destruct b eqn:E; [try discriminate|]
         end;
  try discriminate.

Lemma new_active_char_codespan (extensions : hoedown_extensions -> bool)
    (r : hoedown_renderer O) (c : ascii) :
  new_active_char extensions r c = MD_CHAR_CODESPAN -> present (cb_codespan r) = true.
Proof.
  active_char_case. intros _.
  match goal with
  | H : present (cb_codespan r) && _ = true |- _ => now apply andb_true_iff in H as [H _]
  end.
Qed.

Lemma new_active_char_linebreak (extensions : hoedown_extensions -> bool)
    (r : hoedown_renderer O) (c : ascii) :
  new_active_char extensions r c = MD_CHAR_LINEBREAK -> present (cb_linebreak r) = true.
Proof.
  active_char_case. intros _.
  match goal with
  | H : present (cb_linebreak r) && _ = true |- _ => now apply andb_true_iff in H as [H _]
  end.
Qed.

Lemma new_active_char_quote (extensions : hoedown_extensions -> bool)
    (r : hoedown_renderer O) (c : ascii) :
  new_active_char extensions r c = MD_CHAR_QUOTE -> extensions HOEDOWN_EXT_QUOTE = true.
Proof.
  active_char_case. intros _.
  match goal with
  | H : extensions HOEDOWN_EXT_QUOTE && _ = true |- _ =>
    now apply andb_true_iff in H as [H _]
  end.
Qed.

Lemma new_active_char_emphasis (extensions : hoedown_extensions -> bool)
    (r : hoedown_renderer O) (c : ascii) :
  new_active_char extensions r c = MD_CHAR_EMPHASIS ->
  present (cb_emphasis r) || present (cb_double_emphasis r)
  || present (cb_triple_emphasis r) = true
  /\ (ceq c "~" = true -> extensions HOEDOWN_EXT_STRIKETHROUGH = true)
  /\ (ceq c "=" = true -> extensions HOEDOWN_EXT_HIGHLIGHT = true).
Proof.
  unfold new_active_char.
  set (emph := present (cb_emphasis r) || present (cb_double_emphasis r)
               || present (cb_triple_emphasis r)).
  destruct (emph && (ceq c "*" || ceq c "_")) eqn:E1.
  { intros _. apply andb_true_iff in E1 as [He Hc]. split; [exact He|].
    apply orb_true_iff in Hc as [Hc|Hc]; apply ceq_true in Hc; subst c;
      split; discriminate. }
  destruct (emph && extensions HOEDOWN_EXT_STRIKETHROUGH && ceq c "~") eqn:E2.
  { intros _. apply andb_true_iff in E2 as [He Hc]. apply andb_true_iff in He as [He Hs].
    apply ceq_true in Hc. subst c. split; [exact He|]. split; [auto | discriminate]. }
  destruct (emph && extensions HOEDOWN_EXT_HIGHLIGHT && ceq c "=") eqn:E3.
  { intros _. apply andb_true_iff in E3 as [He Hc]. apply andb_true_iff in He as [He Hs].
    apply ceq_true in Hc. subst c. split; [exact He|]. split; [discriminate | auto]. }
  repeat match goal with
         | |- (if ?b then _ else _) = _ -> _ => destruct b; [discriminate|]
         end.
  discriminate.
Qed.

Lemma new_markdown_covered (extensions : hoedown_extensions -> bool) (n : nat)
    (r : hoedown_renderer O) (o : O) :
  renderer_complete extensions r -> callbacks_cover (new_markdown extensions n r o).
Proof.
  intros [Hemph Hquote].
  unfold callbacks_cover, single_emphasis_cb, double_emphasis_cb, new_markdown.
  cbn [active_char rndr ext_flags].
  split; [|split; [|split]]; intros c Hact.
  - apply new_active_char_emphasis in Hact as (He & Hs & Hh).
    destruct (Hemph He) as (H1 & H2 & Hu & Hst & Hhi). split.
    + intros _. destruct (extensions HOEDOWN_EXT_UNDERLINE && ceq c "_") eqn:E; [|exact H1].
      apply andb_true_iff in E as [E _]. auto.
    + destruct (ceq c "~"); [auto|]. destruct (ceq c "="); auto.
  - now apply new_active_char_codespan in Hact.
  - now apply new_active_char_linebreak in Hact.
  - apply new_active_char_quote in Hact. auto.
Qed.

(** X3.  A parser made by [hoedown_markdown_new] with a nesting limit
    above 0, for a renderer that has the callbacks its active bytes
    need, and, under the AUTOLINK extension, with autolink scanners
    that rewind nothing, renders every document:
    [hoedown_markdown_render], with fuel above the nesting limit,
    returns, no NULL callback is called and no assertion fails, and
    both pools are empty afterwards. *)
Theorem new_then_render_returns (extensions : hoedown_extensions -> bool) (n fuel : nat)
    (r : hoedown_renderer O) (o : O) ob (document : hoedown_buffer) (doc_size : nat) :
  0 < n -> n < fuel -> renderer_complete extensions r ->
  (extensions HOEDOWN_EXT_AUTOLINK = true ->
   no_rewind hoedown_autolink__url /\ no_rewind hoedown_autolink__email
   /\ no_rewind hoedown_autolink__www) ->
  exists md,
    hoedown_markdown_new extensions n r o = Ret md
    /\ rewind_free md
    /\ exists ob' md',
         hoedown_markdown_render fuel ob document doc_size md = Ret (ob', md')
         /\ pools_empty md'.
Proof.
  intros Hn Hf Hr Hscan. exists (new_markdown extensions n r o). split; [|split].
  - unfold hoedown_markdown_new. apply Nat.ltb_lt in Hn. now rewrite Hn.
  - intros c. unfold new_markdown. cbn [active_char].
    destruct (new_active_char extensions r c) eqn:Ec; try exact I;
      revert Ec; unfold new_active_char;
      repeat match goal with
             | |- (if ?b then _ else _) = _ -> _ =>
               let E := fresh "E" in destruct b eqn:E; [try discriminate|]
             end;
      try discriminate; intros _;
      match goal with
      | H : extensions HOEDOWN_EXT_AUTOLINK && _ = true |- _ =>
        apply andb_true_iff in H as [H _]; now destruct (Hscan H) as (? & ? & ?)
      end.
  - pose proof (hoedown_markdown_render_outcome False fuel ob document doc_size
                  (new_markdown extensions n r o)) as H.
    destruct (hoedown_markdown_render fuel ob document doc_size
                (new_markdown extensions n r o)) as [[ob' md']|e].
    + exists ob', md'. split; [reflexivity|].
      apply H; [exact Hf | split; reflexivity | right; now apply new_markdown_covered].
    + exfalso.
      assert (Hout : outcome False (fun r0 : hoedown_buffer * hoedown_markdown O =>
                                      pools_empty (snd r0)) (Fault e)).
      { apply H; [exact Hf | split; reflexivity | right; now apply new_markdown_covered]. }
      destruct e; exact Hout.
Qed.

End MoreProps.

(** ** More on the first pass *)

Section FirstPassMore.

Context {O : Type} {ext : Externals}.
Implicit Types (md : hoedown_markdown O) (ob text : hoedown_buffer) (data document : ptr).

(** *** The definitions read by the first pass *)

(** X4.  When [is_ref] takes a line for a link reference, the end it
    reports lies after the beginning of the line and within the
    document, so that the first pass moves on; when it does not, the
    reference table is as it was. *)
Theorem is_ref_moves_on data (beg end_ : nat) (refs' : ref_table) (found : bool)
    (last : nat) (refs'' : ref_table) :
  is_ref data beg end_ refs' = (found, last, refs'') ->
  if found then beg < last <= end_ else refs'' = refs'.
Proof.
  cbv beta delta [is_ref].
  repeat first
    [ name_bound
    | match goal with
      | Hno : ?p = (false, 0, _) |- (if ?c then ?p else _) = _ -> _ =>
        destruct c eqn:?; [rewrite Hno; now intros [= <- _ <-]|]
      | Hno : ?p = (false, 0, _) |- match def_indent ?d ?b with _ => _ end = _ -> _ =>
        let E := fresh "Eind" in
        destruct (def_indent d b) eqn:E;
        [apply def_indent_le in E | rewrite Hno; now intros [= <- _ <-]]
      | |- match (if ?t then _ else _) with _ => _ end = _ -> _ => destruct t eqn:?
      end ].
  all: intros [= <- <- _]; tests_to_orders.
  all: position_range end_.
  all: lia.
Qed.


(** What [is_ref] does to the table: nothing when it reports no
    reference; otherwise it defines the bytes between the brackets that
    open the line. *)
Lemma is_ref_inv data (beg end_ : nat) (refs' : ref_table) (found : bool)
    (last : nat) (refs'' : ref_table) :
  is_ref data beg end_ refs' = (found, last, refs'') ->
  (found = false /\ refs'' = refs')
  \/ (found = true
      /\ exists (i k : nat) (link : hoedown_buffer) (title : option hoedown_buffer),
           refs'' = define_ref refs' (padd data i) k link title
           /\ beg < i <= beg + 4 /\ i + k < end_
           /\ rd data (i - 1) = "["%char /\ rd data (i + k) = "]"%char
           /\ (forall j, j < k -> is_eol (rd data (i + j)) = false
                                  /\ rd data (i + j) <> "]"%char)).
Proof.
  cbv beta delta [is_ref].
  repeat first
    [ name_bound
    | match goal with
      | Hno : ?p = (false, 0, _) |- (if ?c then ?p else _) = _ -> _ =>
        destruct c eqn:?; [rewrite Hno; intros [= <- _ <-]; now left|]
      | Hno : ?p = (false, 0, _) |- match def_indent ?d ?b with _ => _ end = _ -> _ =>
        let E := fresh "Eind" in
        destruct (def_indent d b) eqn:E;
        [apply def_indent_le in E | rewrite Hno; intros [= <- _ <-]; now left]
      | |- match (if ?t then _ else _) with _ => _ end = _ -> _ => destruct t eqn:?
      end ].
  all: intros [= <- _ <-]; right; split; [reflexivity|].
  all: match goal with
       | Hid : ?q = skip_while ?f ?s ?i0, Hend : ?e = ?q
         |- context [define_ref _ (padd _ ?o) (?e - ?o) ?l ?t] =>
         exists o, (e - o), l, t;
         pose proof (skip_while_ge f s i0) as Hge; rewrite <- Hid in Hge;
         pose proof (fun j => skip_while_passed f s i0 j) as Hpass;
         rewrite <- Hid in Hpass; cbv beta in Hpass
       end.
  all: tests_to_orders.
  all: repeat match goal with
              | H : negb (ceq _ _) = false |- _ =>
                apply negb_false_iff in H; apply ceq_true in H
              end.
  all: subst p1 p2 p4 p0.
  all: split; [reflexivity|]; split; [lia|]; split; [lia|].
  all: split; [now replace (n + beg + 1 - 1) with (n + beg) by lia|].
  all: split; [now replace (n + beg + 1 + (p3 - (n + beg + 1))) with p3 by lia|].
  all: intros j Hj; specialize (Hpass (n + beg + 1 + j) ltac:(lia));
    apply andb_true_iff in Hpass as [Hl Hb];
    apply negb_true_iff in Hl, Hb; split; [exact Hl|];
    intros Hc; rewrite Hc in Hb; discriminate.
Qed.

(** X5.  A line [is_ref] takes for a link reference defines the
    bytes between its opening bracket and the next closing bracket,
    which hold no newline: looked up in the new table, these bytes
    give an entry that carries a link, and the names of another hash
    resolve as before.  The bucket invariant of the table is kept. *)
Theorem is_ref_defines_id data (beg end_ : nat) (refs' : ref_table) (last : nat)
    (refs'' : ref_table) :
  is_ref data beg end_ refs' = (true, last, refs'') ->
  exists (i k : nat) (r : link_ref),
    beg < i /\ i + k < end_
    /\ rd data (i - 1) = "["%char /\ rd data (i + k) = "]"%char
    /\ (forall j, j < k -> is_eol (rd data (i + j)) = false)
    /\ find_link_ref refs'' (padd data i) k = Some r
    /\ ref_link r <> None
    /\ (forall q qn, hash_link_ref q qn <> hash_link_ref (padd data i) k ->
          find_link_ref refs'' q qn = find_link_ref refs' q qn)
    /\ (refs_wf refs' -> refs_wf refs'').
Proof.
  intros H. apply is_ref_inv in H as [[Hf _]|[_ H]]; [discriminate|].
  destruct H as (i & k & link & title & -> & Hi & Hk & Hopen & Hclose & Hid).
  exists i, k, (mk_link_ref (hash_link_ref (padd data i) k) (Some link) title).
  repeat split; try lia; try assumption.
  - intros j Hj. now apply Hid.
  - rewrite find_after_define, Z.eqb_refl. reflexivity.
  - discriminate.
  - intros q qn Hq. rewrite find_after_define.
    destruct (Z.eqb_spec (hash_link_ref q qn) (hash_link_ref (padd data i) k));
      [contradiction | reflexivity].
  - apply define_ref_wf.
Qed.

(** *** Footnote definitions *)

Lemma skip_eol_le data (end_ i : nat) : i <= end_ -> skip_eol data end_ i <= end_.
Proof.
  intros H. unfold skip_eol.
  destruct ((i <? end_) && is_eol (rd data i)) eqn:E; [|lia].
  destruct ((i + 1 <? end_) && _ && _) eqn:E1; tests_to_orders; lia.
Qed.

Lemma footnote_body_loop_le (n : nat) : forall data (end_ id_end i start : nat)
    (in_empty : bool) contents',
  i <= end_ -> start <= end_ ->
  fst (footnote_body_loop n data end_ id_end i start in_empty contents') <= end_.
Proof.
  induction n as [|n IH]; intros data end_ id_end i start in_empty contents' Hi Hs;
    cbn [footnote_body_loop]; [cbn; lia|].
  destruct (i <? end_); [|cbn; lia].
  pose proof (skip_while_le (fun i => negb (is_eol (rd data i))) end_ i Hi) as Hle.
  set (i1 := skip_while _ end_ i) in *.
  pose proof (skip_eol_le data end_ i1 Hle) as He.
  set (i2 := skip_eol data end_ i1) in *.
  destruct (negb (is_empty _ _ =? 0)); [now apply IH|].
  destruct (_ && _); [cbn; lia | now apply IH].
Qed.

(** What [is_footnote] does to the list of the footnotes found. *)
Lemma is_footnote_inv data (beg end_ : nat) (list_ : list footnote_ref) (found : bool)
    (last : nat) (list' : list footnote_ref) :
  is_footnote data beg end_ list_ = (found, last, list') ->
  (found = false /\ list' = list_)
  \/ (found = true /\ beg < last <= end_
      /\ exists ref, list' = list_ ++ [ref] /\ is_used ref = false /\ num ref = 0).
Proof.
  intros H.
  assert (Hlow : found = true -> beg < last).
  { intros ->. exact (is_footnote_last _ _ _ _ _ _ H). }
  revert H. unfold is_footnote. cbv zeta.
  destruct (end_ <=? beg + 3) eqn:E0; [intros [= <- _ <-]; now left|].
  destruct (def_indent data beg) as [ind|] eqn:Eind; [|intros [= <- _ <-]; now left].
  apply def_indent_le in Eind.
  repeat match goal with
         | |- (if ?c then _ else _) = _ -> _ =>
           destruct c eqn:?; [intros [= <- _ <-]; now left|]
         end.
  match goal with
  | |- context [footnote_body_loop ?n ?d ?e ?ie ?i ?s ?b ?c] =>
    pose proof (footnote_body_loop_le n d e ie i s b c) as Hl;
    destruct (footnote_body_loop n d e ie i s b c) as [start contents']
  end.
  cbn [fst] in Hl. intros [= <- <- <-]. right. split; [reflexivity|].
  tests_to_orders.
  split; [|eexists; repeat split].
  split; [now apply Hlow | apply Hl; lia].
Qed.

(** X6.  When [is_footnote] takes a line for a footnote definition,
    the end it reports lies after the beginning of the line and within
    the document, and the list of the footnotes found has one more
    entry, at its end, not yet used and without a number; when it does
    not, the list is as it was. *)
Theorem is_footnote_moves_on data (beg end_ : nat) (list_ : list footnote_ref)
    (found : bool) (last : nat) (list' : list footnote_ref) :
  is_footnote data beg end_ list_ = (found, last, list') ->
  if found
  then beg < last <= end_
       /\ exists ref, list' = list_ ++ [ref] /\ is_used ref = false /\ num ref = 0
  else list' = list_.
Proof.
  intros H. apply is_footnote_inv in H as [[-> H]|[-> H]]; exact H.
Qed.

Lemma find_footnote_from_app (l1 l2 : list footnote_ref) (h : Z) (k : nat) :
  find_footnote_from (l1 ++ l2) h k =
  match find_footnote_from l1 h k with
  | Some j => Some j
  | None => find_footnote_from l2 h (k + length l1)
  end.
Proof.
  revert k. induction l1 as [|r l1 IH]; intros k; cbn [app find_footnote_from length].
  - now rewrite Nat.add_0_r.
  - destruct (fn_id r =? h)%Z; [reflexivity|].
    rewrite IH. now replace (S k + length l1) with (k + S (length l1)) by lia.
Qed.

(** X7.  Of the footnote definitions of one id, the first stands: a
    definition added at the end of the list, as [is_footnote] adds it,
    is found under a name only when no earlier entry has the hash of
    the name, and every name found before is found where it was. *)
Theorem first_footnote_definition_stands (list_ : list footnote_ref) (ref : footnote_ref)
    (name : ptr) (len : nat) :
  find_footnote_ref (list_ ++ [ref]) name len =
  match find_footnote_ref list_ name len with
  | Some k => Some k
  | None => if (fn_id ref =? hash_link_ref name len)%Z then Some (length list_) else None
  end.
Proof.
  unfold find_footnote_ref. rewrite find_footnote_from_app. cbn. reflexivity.
Qed.

(** *** Tabs *)

Lemma In_bytes data (n : nat) (c : ascii) :
  In c (bytes data n) -> exists j, j < n /\ c = rd data j.
Proof.
  unfold bytes, rd. generalize (idx data) (mem data). intros k l. revert k n.
  induction l as [|x l IH]; intros k n.
  - rewrite skipn_nil, firstn_nil. contradiction.
  - destruct k as [|k].
    + cbn [skipn]. destruct n as [|n]; cbn [firstn]; [contradiction|].
      intros [<-|H].
      * exists 0. split; [lia | reflexivity].
      * destruct (IH 0 n H) as (j & Hj & ->). exists (S j). split; [lia | reflexivity].
    + cbn [skipn]. intros H. destruct (IH k n H) as (j & Hj & ->).
      exists j. split; [exact Hj | reflexivity].
Qed.

Lemma tab_fill_spaces (n : nat) : forall ob (tab : nat),
  exists k, tab_fill n ob tab = (ob ++ repeat " "%char k, tab + k).
Proof.
  induction n as [|n IH]; intros ob tab; cbn [tab_fill].
  - exists 0. cbn. now rewrite app_nil_r, Nat.add_0_r.
  - destruct (negb ((tab + 1) mod 4 =? 0)).
    + destruct (IH (hoedown_buffer_putc ob " ") (tab + 1)) as [k ->].
      exists (S k). unfold hoedown_buffer_putc. rewrite <- app_assoc. cbn.
      f_equal. lia.
    + exists 1. reflexivity.
Qed.

(** The [do ... while] of [expand_tabs] fills up to the next multiple
    of 4. *)
Lemma tab_fill_stop ob (tab : nat) :
  tab_fill 4 ob tab = (ob ++ repeat " "%char (4 - tab mod 4), tab + (4 - tab mod 4)).
Proof.
  assert (Hm : forall j, (tab + j) mod 4 = (tab mod 4 + j) mod 4).
  { intros j. now rewrite Nat.Div0.add_mod_idemp_l. }
  pose proof (Nat.mod_upper_bound tab 4 ltac:(lia)) as Hlt.
  cbn [tab_fill]. unfold hoedown_buffer_putc.
  replace (tab + 1 + 1) with (tab + 2) by lia.
  replace (tab + 2 + 1) with (tab + 3) by lia.
  replace (tab + 3 + 1) with (tab + 4) by lia.
  rewrite !Hm.
  destruct (tab mod 4) as [|[|[|[|r]]]]; [| | | |lia];
    cbn; rewrite <- ?app_assoc; reflexivity.
Qed.

Lemma expand_tabs_loop_added (n : nat) : forall ob line (size i tab : nat),
  exists added,
    expand_tabs_loop n ob line size i tab = ob ++ added
    /\ Forall (expanded line size) added.
Proof.
  induction n as [|n IH]; intros ob line size i tab; cbn [expand_tabs_loop].
  - exists []. now rewrite app_nil_r.
  - destruct (i <? size) eqn:Ei; [|exists []; now rewrite app_nil_r].
    apply Nat.ltb_lt in Ei.
    pose proof (skip_while_ge (fun i => negb (ceq (rd line i) TAB)) size i) as Hge.
    pose proof (skip_while_le (fun i => negb (ceq (rd line i) TAB)) size i ltac:(lia)) as Hle.
    pose proof (fun j => skip_while_passed (fun i => negb (ceq (rd line i) TAB)) size i j)
      as Hpass.
    set (i1 := skip_while _ size i) in *.
    assert (Hchunk : exists chunk,
               (if i <? i1 then hoedown_buffer_put ob (padd line i) (i1 - i) else ob)
               = ob ++ chunk /\ Forall (expanded line size) chunk).
    { destruct (i <? i1).
      - exists (bytes (padd line i) (i1 - i)). split; [reflexivity|].
        apply Forall_forall. intros c Hc. apply In_bytes in Hc as (j & Hj & ->).
        right. exists (i + j). rewrite rd_padd. split; [lia|]. split; [reflexivity|].
        specialize (Hpass (i + j) ltac:(lia)). apply negb_true_iff in Hpass.
        intros Hc. rewrite Hc in Hpass. discriminate.
      - exists []. now rewrite app_nil_r. }
    destruct Hchunk as (chunk & -> & Hchunk).
    destruct (size <=? i1); [now exists chunk|].
    destruct (tab_fill_spaces 4 (ob ++ chunk) (tab + (i1 - i))) as [k ->].
    destruct (IH ((ob ++ chunk) ++ repeat " "%char k) line size (i1 + 1) (tab + (i1 - i) + k))
      as (added & -> & Hadded).
    exists (chunk ++ repeat " "%char k ++ added). split; [now rewrite !app_assoc|].
    apply Forall_app. split; [exact Hchunk|]. apply Forall_app. split; [|exact Hadded].
    apply Forall_forall. intros c Hc. apply repeat_spec in Hc. now left.
Qed.

(** X8.  [expand_tabs] only appends, and what it appends holds no tab:
    every byte of it is a space or a byte of the line other than a tab.
    A line without a tab is appended as it is. *)
Theorem expand_tabs_leaves_no_tab ob line (size : nat) :
  exists added,
    expand_tabs ob line size = ob ++ added
    /\ Forall (fun c => c <> TAB /\ (c = " "%char \/ exists j, j < size /\ c = rd line j))
              added
    /\ ((forall j, j < size -> rd line j <> TAB) -> added = bytes line size).
Proof.
  destruct (expand_tabs_loop_added size ob line size 0 0) as (added & Heq & Hadded).
  exists added. unfold expand_tabs. split; [exact Heq|]. split.
  - eapply Forall_impl; [|exact Hadded]. intros c [->|(j & Hj & -> & Hc)].
    + split; [discriminate | now left].
    + split; [exact Hc | right; eauto].
  - intros Hnone. apply (app_inv_head ob). rewrite <- Heq.
    destruct size as [|size]; [cbn; now rewrite app_nil_r|].
    cbn [expand_tabs_loop]. change (0 <? S size) with true. cbv iota.
    rewrite skip_while_all; [|lia|].
    + change (0 <? S size) with true. cbv iota.
      rewrite Nat.leb_refl, Nat.sub_0_r, padd_zero. reflexivity.
    + intros j Hj. apply negb_true_iff. apply not_true_is_false. intros Hc.
      apply ceq_true in Hc. apply (Hnone j); [lia | exact Hc].
Qed.

Lemma bytes_prefix (pre rest : list ascii) :
  bytes (buf_data (pre ++ rest)) (length pre) = pre.
Proof.
  unfold bytes, buf_data. cbn [idx mem skipn].
  rewrite firstn_app, Nat.sub_diag, firstn_all. cbn. apply app_nil_r.
Qed.

(** X9.  The tab stops of [expand_tabs] are 4 bytes apart: a line of
    [k] bytes without a tab followed by a tab comes out as these bytes
    followed by the 1 to 4 spaces that fill up to the next multiple of
    4, counted in bytes. *)
Theorem expand_tabs_tab_stop ob (pre : list ascii) :
  Forall (fun c => c <> TAB) pre ->
  expand_tabs ob (buf_data (pre ++ [TAB])) (length pre + 1)
  = ob ++ pre ++ repeat " "%char (4 - length pre mod 4).
Proof.
  intros Hpre. unfold expand_tabs.
  replace (length pre + 1) with (S (length pre)) by lia.
  cbn [expand_tabs_loop]. change (0 <? S (length pre)) with true. cbv iota.
  assert (Hskip : skip_while (fun i => negb (ceq (rd (buf_data (pre ++ [TAB])) i) TAB))
                             (S (length pre)) 0 = length pre).
  { apply skip_while_to; [lia| |].
    - intros j Hj. rewrite rd_buf_data, app_nth1 by lia.
      apply negb_true_iff, not_true_is_false. intros Hc. apply ceq_true in Hc.
      rewrite Forall_forall in Hpre. apply (Hpre (nth j pre NUL)); [|exact Hc].
      apply nth_In. lia.
    - rewrite rd_buf_data, app_nth2, Nat.sub_diag by lia. reflexivity. }
  rewrite Hskip, Nat.sub_0_r, padd_zero.
  replace (S (length pre) <=? length pre) with false by (symmetry; apply Nat.leb_gt; lia).
  rewrite tab_fill_stop. cbn [Nat.add].
  assert (Hput : (if 0 <? length pre
                  then hoedown_buffer_put ob (buf_data (pre ++ [TAB])) (length pre)
                  else ob) = ob ++ pre).
  { destruct pre as [|c pre']; [cbn; now rewrite app_nil_r|].
    change (0 <? length (c :: pre')) with true. cbv iota.
    unfold hoedown_buffer_put. now rewrite bytes_prefix. }
  rewrite Hput.
  assert (Hend : forall n ob' tab,
             expand_tabs_loop n ob' (buf_data (pre ++ [TAB])) (S (length pre))
                              (length pre + 1) tab = ob').
  { intros n ob' tab. destruct n as [|n]; [reflexivity|]. cbn [expand_tabs_loop].
    replace (length pre + 1 <? S (length pre)) with false
      by (symmetry; apply Nat.ltb_ge; lia).
    reflexivity. }
  rewrite Hend. now rewrite <- app_assoc.
Qed.

(** *** The text handed to the second pass *)

Lemma newlines_loop_text (n : nat) : forall text document (doc_size end_ : nat),
  exists k, fst (newlines_loop n text document doc_size end_) = text ++ repeat NL k.
Proof.
  induction n as [|n IH]; intros text document doc_size end_; cbn [newlines_loop].
  - exists 0. cbn. now rewrite app_nil_r.
  - destruct (is_eol (rd document end_)); [|exists 0; cbn; now rewrite app_nil_r].
    destruct (_ || _).
    + destruct (IH (hoedown_buffer_putc text NL) document doc_size (end_ + 1)) as [k ->].
      exists (S k). unfold hoedown_buffer_putc. now rewrite <- app_assoc.
    + apply IH.
Qed.

(** X10.  The first pass, allowed a round for each byte of the
    document left, returns; it only appends to the text, and what it
    appends, the text that the second pass parses, holds no tab and no
    carriage return. *)
Theorem first_pass_text_is_plain (n : nat) md text document (doc_size beg : nat) :
  doc_size <= n + beg ->
  exists added md',
    first_pass n md text document doc_size beg = Ret (text ++ added, md')
    /\ Forall plain added.
Proof.
  revert md text beg.
  induction n as [|n IH]; intros md text beg Hn.
  - cbn [first_pass]. destruct (beg <? doc_size) eqn:E.
    + apply Nat.ltb_lt in E. lia.
    + exists [], md. now rewrite app_nil_r.
  - cbn [first_pass]. destruct (beg <? doc_size) eqn:E;
      [|exists [], md; now rewrite app_nil_r].
    apply Nat.ltb_lt in E.
    destruct (if ext_flags md HOEDOWN_EXT_FOOTNOTES
              then is_footnote document beg doc_size (footnotes_found md)
              else (false, 0, footnotes_found md)) as [[fn fn_end] found] eqn:Efn.
    destruct fn.
    { assert (Hl : beg < fn_end).
      { destruct (ext_flags md HOEDOWN_EXT_FOOTNOTES); [|discriminate].
        now apply is_footnote_last in Efn. }
      apply IH. lia. }
    destruct (is_ref document beg doc_size (refs md)) as [[rf rf_end] refs'] eqn:Erf.
    destruct rf.
    { apply is_ref_last in Erf. apply IH. lia. }
    pose proof (skip_while_ge (fun e => negb (is_eol (rd document e))) doc_size beg) as Hge.
    pose proof (fun j => skip_while_passed (fun e => negb (is_eol (rd document e)))
                           doc_size beg j) as Hpass.
    set (end_ := skip_while _ doc_size beg) in *.
    assert (Hline : exists line,
               (if beg <? end_ then expand_tabs text (padd document beg) (end_ - beg)
                else text) = text ++ line /\ Forall plain line).
    { destruct (beg <? end_); [|exists []; now rewrite app_nil_r].
      destruct (expand_tabs_loop_added (end_ - beg) text (padd document beg)
                  (end_ - beg) 0 0) as (line & Hl & Hexp).
      exists line. split; [exact Hl|].
      eapply Forall_impl; [|exact Hexp]. intros c [->|(j & Hj & -> & Hc)].
      - split; discriminate.
      - split; [exact Hc|]. rewrite rd_padd.
        specialize (Hpass (beg + j) ltac:(lia)). apply negb_true_iff in Hpass.
        apply orb_false_iff in Hpass as [_ Hcr].
        intros Hc'. rewrite Hc' in Hcr. discriminate. }
    destruct Hline as (line & -> & Hline).
    match goal with
    | |- context [newlines_loop ?k ?t ?d ?s ?e] =>
      destruct (newlines_loop_end k t d s e) as [Hle Hlt];
      destruct (newlines_loop_text k t d s e) as [nl Hnl];
      destruct (newlines_loop k t d s e) as [text1 end1]
    end. cbn [fst snd] in Hle, Hlt, Hnl. subst text1.
    assert (Hend : beg < end1).
    { destruct (Nat.le_gt_cases doc_size end_) as [|Hin]; [lia|].
      assert (Hstop : negb (is_eol (rd document end_)) = false).
      { exact (skip_while_stop (fun e => negb (is_eol (rd document e))) doc_size beg Hin). }
      apply negb_false_iff in Hstop. specialize (Hlt ltac:(lia) Hstop). lia. }
    destruct (IH md ((text ++ line) ++ repeat NL nl) end1 ltac:(lia))
      as (added & md' & -> & Hadded).
    exists (line ++ repeat NL nl ++ added), md'. split; [now rewrite !app_assoc|].
    apply Forall_app. split; [exact Hline|]. apply Forall_app. split; [|exact Hadded].
    apply Forall_forall. intros c Hc. apply repeat_spec in Hc. subst c. split; discriminate.
Qed.

(** X11.  Whatever the first pass reads, the reference table it
    leaves has every entry in the bucket of its hash when the table it
    started from had, the footnotes found are those found before
    followed by entries not yet used, and the footnotes used are as
    they were. *)
Theorem first_pass_keeps_tables (n : nat) md text document (doc_size beg : nat)
    text' md' :
  first_pass n md text document doc_size beg = Ret (text', md') ->
  (refs_wf (refs md) -> refs_wf (refs md'))
  /\ (exists more, footnotes_found md' = footnotes_found md ++ more
                   /\ Forall (fun r => is_used r = false) more)
  /\ footnotes_used md' = footnotes_used md.
Proof.
  revert md text beg. induction n as [|n IH]; intros md text beg; cbn [first_pass].
  - destruct (beg <? doc_size); [discriminate|]. intros [= _ <-].
    split; [auto|]. split; [|reflexivity]. exists []. now rewrite app_nil_r.
  - destruct (beg <? doc_size);
      [|intros [= _ <-]; split; [auto|]; split; [|reflexivity];
        exists []; now rewrite app_nil_r].
    destruct (if ext_flags md HOEDOWN_EXT_FOOTNOTES
              then is_footnote document beg doc_size (footnotes_found md)
              else (false, 0, footnotes_found md)) as [[fn fn_end] found] eqn:Efn.
    destruct fn.
    { destruct (ext_flags md HOEDOWN_EXT_FOOTNOTES); [|discriminate].
      apply is_footnote_inv in Efn as [[Hf _]|(_ & _ & ref & -> & Hu & _)]; [discriminate|].
      intros H. apply IH in H as (Hwf & (more & Hmore & Hunused) & Hused).
      cbn [refs footnotes_found footnotes_used set_footnotes] in Hwf, Hmore, Hused.
      split; [exact Hwf|]. split; [|exact Hused].
      exists (ref :: more). rewrite Hmore, <- app_assoc. split; [reflexivity|].
      constructor; assumption. }
    destruct (is_ref document beg doc_size (refs md)) as [[rf rf_end] refs'] eqn:Erf.
    destruct rf.
    { apply is_ref_inv in Erf as [[Hf _]|(_ & i & k & link & title & -> & _)];
        [discriminate|].
      intros H. apply IH in H as (Hwf & Hmore & Hused).
      cbn [refs footnotes_found footnotes_used set_refs] in Hwf, Hmore, Hused.
      split; [|split; assumption].
      intros H0. apply Hwf. now apply define_ref_wf. }
    destruct (newlines_loop _ _ _ _ _) as [text1 end1]. apply IH.
Qed.

End FirstPassMore.

(** ** More on the line tests *)

Section ScanMore.

Context {O : Type} {ext : Externals}.
Implicit Types (md : hoedown_markdown O) (ob : hoedown_buffer) (data : ptr).

(** *** Empty lines *)

Lemma is_empty_loop_zero (n : nat) : forall data (i : nat),
  is_empty_loop n data i = 0 <->
  exists k, i <= k < i + n /\ (forall j, i <= j < k -> rd data j = " "%char)
            /\ rd data k <> " "%char /\ rd data k <> NL.
Proof.
  induction n as [|n IH]; intros data i; cbn [is_empty_loop].
  - split; [lia | intros (k & Hk & _); lia].
  - destruct (ceq (rd data i) NL) eqn:En.
    + apply ceq_true in En. split; [lia|].
      intros (k & Hk & Hsp & Hns & Hnn). exfalso.
      destruct (Nat.eq_dec k i) as [->|Hne]; [contradiction|].
      specialize (Hsp i ltac:(lia)). rewrite Hsp in En. discriminate.
    + apply ceq_false in En. destruct (ceq (rd data i) " ") eqn:Es; cbn [negb].
      * apply ceq_true in Es. rewrite IH. split.
        -- intros (k & Hk & Hsp & Hns & Hnn). exists k. split; [lia|].
           split; [|auto]. intros j Hj.
           destruct (Nat.eq_dec j i) as [->|Hne]; [exact Es | apply Hsp; lia].
        -- intros (k & Hk & Hsp & Hns & Hnn). exists k.
           assert (k <> i) by (intros ->; contradiction).
           split; [lia|]. split; [|auto]. intros j Hj. apply Hsp. lia.
      * apply ceq_false in Es. split; [|reflexivity]. intros _.
        exists i. split; [lia|]. split; [intros j Hj; lia | auto].
Qed.

Lemma is_empty_loop_length (n : nat) : forall data (i r : nat),
  is_empty_loop n data i = S r ->
  i <= r <= i + n /\ (forall j, i <= j < r -> rd data j = " "%char)
  /\ (r < i + n -> rd data r = NL).
Proof.
  induction n as [|n IH]; intros data i r; cbn [is_empty_loop].
  - intros H. assert (r = i) by lia. subst r.
    split; [lia|]. split; [intros j Hj; lia | lia].
  - destruct (ceq (rd data i) NL) eqn:En.
    + apply ceq_true in En. intros H. assert (r = i) by lia. subst r.
      split; [lia|]. split; [intros j Hj; lia | auto].
    + destruct (ceq (rd data i) " ") eqn:Es; cbn [negb]; [|discriminate].
      apply ceq_true in Es. intros H. apply IH in H as (Hr & Hsp & Hnl).
      split; [lia|]. split.
      * intros j Hj. destruct (Nat.eq_dec j i) as [->|Hne]; [exact Es | apply Hsp; lia].
      * intros Hlt. apply Hnl. lia.
Qed.

(** X12.  [is_empty] tells a line of spaces from the others: it
    returns 0 exactly when a byte that is neither a space nor a newline
    comes before the first newline and the end; otherwise it returns
    one more than the number [r] of leading spaces, which are followed
    by a newline or by the end.  On a line of spaces that the end cuts
    short, and on no bytes at all, the result is [size + 1], one more
    than there are bytes. *)
Theorem is_empty_spaces_only data (size : nat) :
  (is_empty data size = 0 <->
   exists k, k < size /\ (forall j, j < k -> rd data j = " "%char)
             /\ rd data k <> " "%char /\ rd data k <> NL)
  /\ (forall r, is_empty data size = S r ->
        r <= size /\ (forall j, j < r -> rd data j = " "%char)
        /\ (r < size -> rd data r = NL))
  /\ ((forall j, j < size -> rd data j = " "%char) -> is_empty data size = size + 1).
Proof.
  unfold is_empty. split; [|split].
  - rewrite is_empty_loop_zero. split; intros (k & Hk & Hsp & Hn); exists k;
      (split; [lia|]); (split; [intros j Hj; apply Hsp; lia | exact Hn]).
  - intros r H. apply is_empty_loop_length in H as (Hr & Hsp & Hnl).
    split; [lia|]. split; [intros j Hj; apply Hsp; lia | exact Hnl].
  - intros Hall.
    destruct (is_empty_loop size data 0) as [|r] eqn:E.
    + apply is_empty_loop_zero in E as (k & Hk & _ & Hns & _).
      exfalso. apply Hns, Hall. lia.
    + apply is_empty_loop_length in E as (Hr & _ & Hnl).
      destruct (Nat.eq_dec r size) as [->|Hne]; [lia|].
      specialize (Hnl ltac:(lia)). rewrite Hall in Hnl by lia. discriminate.
Qed.

(** *** Rules and underlines *)

Lemma is_hrule_loop_line (k : nat) : forall data (c : ascii) (i n m : nat),
  is_hrule_loop k data c i n = Some m ->
  exists e (l : list nat),
    i <= e <= i + k
    /\ (forall j, i <= j < e -> rd data j = c \/ rd data j = " "%char)
    /\ (e < i + k -> rd data e = NL)
    /\ m = n + length l /\ NoDup l
    /\ Forall (fun j => i <= j < e /\ rd data j = c) l.
Proof.
  induction k as [|k IH]; intros data c i n m; cbn [is_hrule_loop].
  - intros [= <-]. exists i, []. split; [lia|]. split; [intros j Hj; lia|].
    split; [lia|]. split; [cbn; lia|]. split; constructor.
  - destruct (negb (ceq (rd data i) NL)) eqn:Enl.
    2:{ intros [= <-]. apply negb_false_iff, ceq_true in Enl.
        exists i, []. split; [lia|]. split; [intros j Hj; lia|].
        split; [auto|]. split; [cbn; lia|]. split; constructor. }
    destruct (ceq (rd data i) c) eqn:Ec.
    + apply ceq_true in Ec. intros H.
      apply IH in H as (e & l & He & Hline & Hend & Hm & Hnd & Hl).
      exists e, (i :: l). split; [lia|]. split.
      { intros j Hj. destruct (Nat.eq_dec j i) as [->|Hne]; [now left | apply Hline; lia]. }
      split; [intros; apply Hend; lia|]. split; [cbn; lia|]. split.
      * constructor; [|exact Hnd]. intros Hin. rewrite Forall_forall in Hl.
        apply Hl in Hin. lia.
      * constructor; [split; [lia | exact Ec]|].
        eapply Forall_impl; [|exact Hl]. intros j [Hj Hc]. split; [lia | exact Hc].
    + destruct (negb (ceq (rd data i) " ")) eqn:Es; [discriminate|].
      apply negb_false_iff, ceq_true in Es. intros H.
      apply IH in H as (e & l & He & Hline & Hend & Hm & Hnd & Hl).
      exists e, l. split; [lia|]. split.
      { intros j Hj. destruct (Nat.eq_dec j i) as [->|Hne]; [now right | apply Hline; lia]. }
      split; [intros; apply Hend; lia|]. split; [exact Hm|]. split; [exact Hnd|].
      eapply Forall_impl; [|exact Hl]. intros j [Hj Hc]. split; [lia | exact Hc].
Qed.

(** X13.  What [is_hrule] takes for a horizontal rule: after at
    most three spaces the line holds, up to its newline or the end,
    nothing but spaces and one of the bytes [*], [-] and [_], the same
    throughout and at least three times. *)
Theorem is_hrule_three_marks data (size : nat) :
  is_hrule data size = true ->
  exists (i e : nat) (c : ascii) (marks : list nat),
    i <= 3 /\ i < e <= size
    /\ (forall j, j < i -> rd data j = " "%char)
    /\ (c = "*"%char \/ c = "-"%char \/ c = "_"%char)
    /\ rd data i = c
    /\ (forall j, i <= j < e -> rd data j = c \/ rd data j = " "%char)
    /\ (e < size -> rd data e = NL)
    /\ 3 <= length marks /\ NoDup marks
    /\ Forall (fun j => i <= j < e /\ rd data j = c) marks.
Proof.
  unfold is_hrule. destruct (size <? 3) eqn:E3; [discriminate|]. cbv zeta.
  assert (Hlead : lead_spaces data <= 3
                  /\ forall j, j < lead_spaces data -> rd data j = " "%char).
  { unfold lead_spaces.
    destruct (ceq (rd data 0) " ") eqn:E0; [|split; [lia | intros j Hj; lia]].
    destruct (ceq (rd data 1) " ") eqn:E1.
    - destruct (ceq (rd data 2) " ") eqn:E2; (split; [lia|]); intros j Hj;
        destruct j as [|[|[|j]]]; try lia; now apply ceq_true.
    - split; [lia|]. intros j Hj. replace j with 0 by lia. now apply ceq_true. }
  destruct Hlead as [Hi Hsp]. set (i := lead_spaces data) in *.
  destruct ((size <=? i + 2) || _) eqn:Ec; [discriminate|].
  apply orb_false_iff in Ec as [Hsize Hc]. apply Nat.leb_gt in Hsize.
  destruct (is_hrule_loop (size - i) data (rd data i) i 0) as [m|] eqn:El; [|discriminate].
  intros Hm. apply Nat.leb_le in Hm.
  apply is_hrule_loop_line in El as (e & l & He & Hline & Hend & Hml & Hnd & Hl).
  exists i, e, (rd data i), l.
  assert (Hie : i < e).
  { destruct l as [|j l']; [cbn in Hml; lia|]. inversion Hl as [|? ? [Hj _] _]. lia. }
  split; [exact Hi|]. split; [lia|]. split; [exact Hsp|]. split.
  { destruct (ceq (rd data i) "*") eqn:H1; [left; now apply ceq_true|].
    destruct (ceq (rd data i) "-") eqn:H2; [right; left; now apply ceq_true|].
    destruct (ceq (rd data i) "_") eqn:H3; [right; right; now apply ceq_true|].
    discriminate. }
  split; [reflexivity|]. split; [exact Hline|].
  split; [intros H; apply Hend; lia|]. split; [lia|]. split; assumption.
Qed.

(** X14.  What [is_headerline] takes for the underline of a header:
    it returns 1 for a line of [=] and 2 for a line of [-], the bytes
    up to the newline or the end being the underline byte, once or more,
    followed by spaces alone; it returns 0, 1 or 2 and nothing else. *)
Theorem is_headerline_underline data (size : nat) (level : nat) :
  is_headerline data size = level ->
  level <= 2
  /\ (level <> 0 ->
      exists (c : ascii) (a b : nat),
        ((level = 1 /\ c = "="%char) \/ (level = 2 /\ c = "-"%char))
        /\ 1 <= a <= b
        /\ (forall j, j < a -> rd data j = c)
        /\ (forall j, a <= j < b -> rd data j = " "%char)
        /\ (size <= b \/ rd data b = NL)).
Proof.
  unfold is_headerline.
  assert (Hline : forall c,
             ceq (rd data 0) c = true ->
             let a := skip_while (fun i => ceq (rd data i) c) size 1 in
             let b := skip_while (fun i => ceq (rd data i) " ") size a in
             (size <=? b) || ceq (rd data b) NL = true ->
             1 <= a <= b
             /\ (forall j, j < a -> rd data j = c)
             /\ (forall j, a <= j < b -> rd data j = " "%char)
             /\ (size <= b \/ rd data b = NL)).
  { intros c H0 a b Hend. apply ceq_true in H0.
    pose proof (skip_while_ge (fun i => ceq (rd data i) c) size 1) as Ha.
    pose proof (skip_while_ge (fun i => ceq (rd data i) " ") size a) as Hb.
    fold a in Ha. fold b in Hb. split; [lia|]. split; [|split].
    - intros j Hj. destruct (Nat.eq_dec j 0) as [->|Hne]; [exact H0|].
      apply ceq_true.
      exact (skip_while_passed (fun i => ceq (rd data i) c) size 1 j ltac:(fold a; lia)).
    - intros j Hj. apply ceq_true.
      exact (skip_while_passed (fun i => ceq (rd data i) " ") size a j ltac:(fold b; lia)).
    - apply orb_true_iff in Hend as [H|H];
        [left; now apply Nat.leb_le | right; now apply ceq_true]. }
  destruct (ceq (rd data 0) "=") eqn:Eeq.
  - specialize (Hline "="%char Eeq). cbv zeta in *.
    destruct ((size <=? _) || _) eqn:E; intros <-; (split; [lia|]); [|intros H; lia].
    intros _. exists "="%char. do 2 eexists. split; [now left|]. now apply Hline.
  - destruct (ceq (rd data 0) "-") eqn:Emin; [|intros <-; split; [lia | intros H; lia]].
    specialize (Hline "-"%char Emin). cbv zeta in *.
    destruct ((size <=? _) || _) eqn:E; intros <-; (split; [lia|]); [|intros H; lia].
    intros _. exists "-"%char. do 2 eexists. split; [now right|]. now apply Hline.
Qed.

(** *** Prefixes *)

Lemma upto3_spaces_le data (size : nat) :
  upto3_spaces data size <= size /\ upto3_spaces data size <= 3.
Proof.
  unfold upto3_spaces. cbv zeta.
  destruct ((0 <? size) && _) eqn:E1; tests_to_bounds.
  - destruct ((0 + 1 <? size) && _) eqn:E2; tests_to_bounds.
    + destruct ((0 + 1 + 1 <? size) && _) eqn:E3; tests_to_bounds; lia.
    + destruct ((0 + 1 <? size) && _) eqn:E3; tests_to_bounds; lia.
  - destruct ((0 <? size) && _) eqn:E2; [congruence|].
    destruct ((0 <? size) && _) eqn:E3; [congruence|]. lia.
Qed.

(** X15.  The prefix tests stay within the line: what [prefix_quote],
    [prefix_code], [prefix_oli] and [prefix_uli] return is at most
    [size], so that the text after the prefix begins within the bytes
    given.  A list prefix ends with the space after the marker, the
    code prefix is of four bytes, and the quote prefix ends with the
    angle bracket or with the one space after it. *)
Theorem prefixes_within_line data (size : nat) :
  (prefix_quote data size <= size
   /\ forall r, prefix_quote data size = S r ->
        rd data r = ">"%char \/ (rd data (r - 1) = ">"%char /\ rd data r = " "%char))
  /\ (prefix_code data size <= size
      /\ (prefix_code data size = 0 \/ prefix_code data size = 4))
  /\ (prefix_oli data size <= size
      /\ forall r, prefix_oli data size = S r ->
           rd data r = " "%char /\ rd data (r - 1) = "."%char)
  /\ (prefix_uli data size <= size
      /\ forall r, prefix_uli data size = S r -> rd data r = " "%char).
Proof.
  pose proof (upto3_spaces_le data size) as [Hu _].
  split; [|split; [|split]].
  - unfold prefix_quote. set (i := upto3_spaces data size) in *.
    destruct ((i <? size) && _) eqn:E1; [|split; [lia | discriminate]].
    destruct ((i + 1 <? size) && _) eqn:E2; tests_to_bounds.
    + split; [lia|]. intros r Hr. right. replace r with (i + 1) by lia.
      replace (i + 1 - 1) with i by lia. split; now apply ceq_true.
    + split; [lia|]. intros r Hr. left. replace r with i by lia. now apply ceq_true.
  - unfold prefix_code.
    destruct ((3 <? size) && _ && _ && _ && _) eqn:E; tests_to_bounds;
      (split; [lia | auto]).
  - unfold prefix_oli. set (i := upto3_spaces data size) in *.
    destruct ((size <=? i) || _) eqn:E1; [split; [lia | discriminate]|].
    pose proof (skip_while_le (fun i => isdigit (rd data i)) size i Hu) as Hle.
    set (k := skip_while _ size i) in *.
    destruct ((size <=? k + 1) || _ || _) eqn:E2; [split; [lia | discriminate]|].
    destruct (is_next_headerline _ _ =? 0); cbn [negb]; [|split; [lia | discriminate]].
    tests_to_bounds. split; [lia|]. intros r Hr. replace r with (k + 1) by lia.
    replace (k + 1 - 1) with k by lia. split; now apply ceq_true.
  - unfold prefix_uli. set (i := upto3_spaces data size) in *.
    destruct ((size <=? i + 1) || _ || _) eqn:E1; [split; [lia | discriminate]|].
    destruct (is_next_headerline _ _ =? 0); cbn [negb]; [|split; [lia | discriminate]].
    tests_to_bounds. split; [lia|]. intros r Hr. replace r with (i + 1) by lia.
    now apply ceq_true.
Qed.

(** *** HTML blocks *)

(** X16.  The dry run of [parse_htmlblock], as [parse_paragraph]
    makes it to look ahead, writes nothing and changes nothing in the
    parser, and reports the length the rendering run takes; without a
    [blockhtml] callback the rendering run is the dry run. *)
Theorem parse_htmlblock_dry_run ob md data (size : nat) :
  exists n,
    parse_htmlblock ob md data size false = Ret (n, ob, md)
    /\ taken (parse_htmlblock ob md data size true) = Some n
    /\ (cb_blockhtml (rndr md) = None ->
        parse_htmlblock ob md data size true = Ret (n, ob, md)).
Proof.
  assert (Hdry : forall w, render_blockhtml ob md data w false = Ret (w, ob, md)).
  { intros w. unfold render_blockhtml. now destruct (cb_blockhtml _). }
  assert (Hnone : forall w, cb_blockhtml (rndr md) = None ->
                            render_blockhtml ob md data w true = Ret (w, ob, md)).
  { intros w H. unfold render_blockhtml. now rewrite H. }
  assert (Hn : exists n, parse_htmlblock ob md data size false = Ret (n, ob, md)
                         /\ (cb_blockhtml (rndr md) = None ->
                             parse_htmlblock ob md data size true = Ret (n, ob, md))).
  { unfold parse_htmlblock.
    repeat first [ rewrite !Hdry; eexists; split; [reflexivity|];
                   intros H; rewrite Hnone by exact H; reflexivity
                 | now eexists
                 | match goal with
                   | |- exists n, (if ?b then _ else _) = _ /\ _ => destruct b
                   | |- exists n, match ?x with Some _ => _ | None => _ end = _ /\ _ =>
                     destruct x
                   end ]. }
  destruct Hn as (n & Hd & Hr). exists n. split; [exact Hd|]. split; [|exact Hr].
  rewrite (parse_htmlblock_taken ob md true ob md false). now rewrite Hd.
Qed.

(** *** Headers without text *)

Lemma back_loop_stay (p : nat -> bool) (n i : nat) :
  p i = false -> back_loop p n i = i.
Proof. intros H. destruct n as [|n]; cbn; [reflexivity | now rewrite H]. Qed.

Lemma back_while_to (p : nat -> bool) (lo i k : nat) :
  lo <= k <= i -> (forall e, k < e <= i -> p e = true) -> (k = lo \/ p k = false) ->
  back_while p lo i = k.
Proof.
  intros Hk Hpass Hstop. unfold back_while.
  remember (i - k) as d eqn:Hd. revert i Hk Hpass Hd.
  induction d as [|d IH]; intros i Hk Hpass Hd.
  - assert (i = k) by lia. subst i. destruct Hstop as [->|Hstop].
    + now rewrite Nat.sub_diag.
    + now apply back_loop_stay.
  - destruct (i - lo) as [|n] eqn:En; [lia|]. cbn [back_loop].
    rewrite (Hpass i) by lia.
    replace n with (i - 1 - lo) by lia.
    apply IH; [lia | intros e He; apply Hpass; lia | lia].
Qed.

(** X17.  A header line of one to six hashes, spaces after them and
    nothing else before the newline is taken to its newline and renders
    nothing: [parse_atxheader] calls neither [parse_inline] nor the
    [header] callback for a header without text. *)
Theorem empty_atxheader_renders_nothing (fuel : nat) ob md data (size k m : nat) :
  1 <= k <= 6 -> k + m < size ->
  (forall j, j < k -> rd data j = "#"%char) ->
  (forall j, k <= j < k + m -> rd data j = " "%char) ->
  rd data (k + m) = NL ->
  parse_atxheader fuel ob md data size = Ret (k + m, ob, md).
Proof.
  intros Hk Hsize Hhash Hsp Hnl. unfold parse_atxheader. cbv zeta.
  assert (Hafter : rd data k <> "#"%char).
  { destruct (Nat.eq_dec m 0) as [->|Hm].
    - rewrite Nat.add_0_r in Hnl. rewrite Hnl. discriminate.
    - rewrite Hsp by lia. discriminate. }
  assert (Hlevel : skip_while (fun l => (l <? 6) && ceq (rd data l) "#") size 0 = k).
  { apply skip_while_to; [lia| |].
    - intros j Hj. rewrite Hhash by lia.
      replace (j <? 6) with true by (symmetry; apply Nat.ltb_lt; lia). reflexivity.
    - rewrite (ceq_neq _ _ Hafter). apply andb_false_r. }
  rewrite Hlevel.
  assert (Hi : skip_while (fun i => ceq (rd data i) " ") size k = k + m).
  { apply skip_while_to; [lia| |].
    - intros j Hj. now rewrite Hsp by lia.
    - now rewrite Hnl. }
  rewrite Hi.
  assert (Hend : skip_while (fun e => negb (ceq (rd data e) NL)) size (k + m) = k + m).
  { apply skip_while_here; [lia|]. now rewrite Hnl. }
  rewrite Hend.
  assert (Hback : back_while (fun e => ceq (rd data (e - 1)) " ") 0
                    (back_while (fun e => ceq (rd data (e - 1)) "#") 0 (k + m)) <= k).
  { destruct (Nat.eq_dec m 0) as [->|Hm].
    - rewrite Nat.add_0_r.
      pose proof (back_while_le (fun e => ceq (rd data (e - 1)) "#") 0 k) as H1.
      pose proof (back_while_le (fun e => ceq (rd data (e - 1)) " ") 0
                    (back_while (fun e => ceq (rd data (e - 1)) "#") 0 k)) as H2.
      lia.
    - rewrite (back_while_to _ 0 (k + m) (k + m)); [|lia|intros e He; lia|].
      + rewrite (back_while_to _ 0 (k + m) k); [lia | lia | |].
        * intros e He. now rewrite Hsp by lia.
        * right. now rewrite Hhash by lia.
      + right. now rewrite Hsp by lia. }
  replace (k + m <? _) with false by (symmetry; apply Nat.ltb_ge; lia).
  reflexivity.
Qed.

End ScanMore.

(** ** More on the inline helpers *)

Section InlineMore.

Context {O : Type} {ext : Externals}.
Implicit Types (md : hoedown_markdown O) (ob : hoedown_buffer) (data : ptr).

(** *** Scans from a later start *)

Lemma skip_loop_shift (p : nat -> bool) (a n i : nat) :
  skip_loop p n (a + i) = a + skip_loop (fun j => p (a + j)) n i.
Proof.
  revert i. induction n as [|n IH]; intros i; cbn [skip_loop]; [reflexivity|].
  destruct (p (a + i)); [|reflexivity].
  replace (S (a + i)) with (a + S i) by lia. apply IH.
Qed.

Lemma skip_while_shift (p : nat -> bool) (a size i : nat) :
  skip_while p (a + size) (a + i) = a + skip_while (fun j => p (a + j)) size i.
Proof.
  unfold skip_while. replace (a + size - (a + i)) with (size - i) by lia.
  apply skip_loop_shift.
Qed.

Lemma skip_loop_ext (p q : nat -> bool) (n i : nat) :
  (forall j, p j = q j) -> skip_loop p n i = skip_loop q n i.
Proof.
  intros H. revert i. induction n as [|n IH]; intros i; cbn [skip_loop]; [reflexivity|].
  rewrite H. destruct (q i); [apply IH | reflexivity].
Qed.

Lemma skip_while_ext (p q : nat -> bool) (size i : nat) :
  (forall j, p j = q j) -> skip_while p size i = skip_while q size i.
Proof. intros H. unfold skip_while. now apply skip_loop_ext. Qed.

Lemma rd_suffix (p rest : list ascii) (j : nat) :
  rd (buf_data (p ++ rest)) (length p + j) = rd (buf_data rest) j.
Proof. rewrite !rd_buf_data. apply app_nth2_plus. Qed.

Lemma bytes_suffix (p rest : list ascii) (i k : nat) :
  bytes (padd (buf_data (p ++ rest)) (length p + i)) k = bytes (padd (buf_data rest) i) k.
Proof.
  unfold bytes, padd, buf_data. cbn [idx mem Nat.add].
  rewrite skipn_app. replace (length p + i - length p) with i by lia.
  rewrite (skipn_all2 p) by lia. reflexivity.
Qed.

(** *** Backslashes taken out *)

(** The loop of [unscape_text] on the bytes after a prefix is the loop
    on these bytes alone, whatever the rounds allowed beyond the need. *)
Lemma unscape_loop_suffix (n : nat) : forall (m : nat) (p rest : list ascii) ob (i : nat),
  length rest <= n + i -> length rest <= m + i ->
  unscape_loop n ob (buf_data (p ++ rest)) (length p + length rest) (length p + i)
  = unscape_loop m ob (buf_data rest) (length rest) i.
Proof.
  induction n as [|n IH]; intros m p rest ob i Hn Hm.
  - cbn [unscape_loop]. destruct m as [|m]; [reflexivity|]. cbn [unscape_loop].
    replace (i <? length rest) with false by (symmetry; apply Nat.ltb_ge; lia).
    reflexivity.
  - cbn [unscape_loop].
    replace (length p + i <? length p + length rest) with (i <? length rest)
      by (destruct (Nat.ltb_spec i (length rest));
          [symmetry; apply Nat.ltb_lt | symmetry; apply Nat.ltb_ge]; lia).
    destruct (i <? length rest) eqn:Ei.
    2:{ destruct m as [|m]; [reflexivity|]. cbn [unscape_loop]. now rewrite Ei. }
    apply Nat.ltb_lt in Ei. destruct m as [|m]; [lia|]. cbn [unscape_loop].
    replace (i <? length rest) with true by (symmetry; apply Nat.ltb_lt; lia).
    rewrite skip_while_shift.
    rewrite (skip_while_ext _ (fun j => negb (ceq (rd (buf_data rest) j) BSLASH)))
      by (intros j; now rewrite rd_suffix).
    pose proof (skip_while_ge (fun j => negb (ceq (rd (buf_data rest) j) BSLASH))
                              (length rest) i) as Hge.
    set (i1 := skip_while _ (length rest) i) in *.
    replace (length p + i <? length p + i1) with (i <? i1)
      by (destruct (Nat.ltb_spec i i1);
          [symmetry; apply Nat.ltb_lt | symmetry; apply Nat.ltb_ge]; lia).
    replace (length p + i1 - (length p + i)) with (i1 - i) by lia.
    unfold hoedown_buffer_put. rewrite bytes_suffix.
    replace (length p + length rest <=? length p + i1 + 1) with (length rest <=? i1 + 1)
      by (destruct (Nat.leb_spec (length rest) (i1 + 1));
          [symmetry; apply Nat.leb_le | symmetry; apply Nat.leb_gt]; lia).
    destruct (length rest <=? i1 + 1); [reflexivity|].
    replace (length p + i1 + 1) with (length p + (i1 + 1)) by lia.
    replace (length p + i1 + 2) with (length p + (i1 + 2)) by lia.
    rewrite rd_suffix. apply IH; lia.
Qed.

Lemma skip_to_backslash (pre rest : list ascii) :
  Forall (fun c => c <> BSLASH) pre ->
  (rest = [] \/ exists r, rest = BSLASH :: r) ->
  skip_while (fun i => negb (ceq (rd (buf_data (pre ++ rest)) i) BSLASH))
             (length (pre ++ rest)) 0 = length pre.
Proof.
  intros Hpre Hrest.
  assert (Hpass : forall j, 0 <= j < length pre ->
                    negb (ceq (rd (buf_data (pre ++ rest)) j) BSLASH) = true).
  { intros j Hj. rewrite rd_buf_data, app_nth1 by lia.
    apply negb_true_iff, not_true_is_false. intros Hc.
    unfold ceq in Hc. apply Ascii.eqb_eq in Hc.
    rewrite Forall_forall in Hpre. apply (Hpre (nth j pre NUL)); [|exact Hc].
    apply nth_In. lia. }
  destruct Hrest as [->|[r ->]].
  - rewrite app_nil_r in *. apply skip_while_all; [lia | exact Hpass].
  - apply skip_while_to; [rewrite length_app; cbn; lia | exact Hpass |].
    rewrite rd_buf_data, app_nth2, Nat.sub_diag by lia. reflexivity.
Qed.

(** X18.  [unscape_text] copies the text without the backslashes that
    escape: text without a backslash is appended as it is; a backslash
    is dropped and the byte after it is copied, whatever it is, the
    text going on after that byte; a backslash that ends the text is
    dropped. *)
Theorem unscape_text_drops_backslashes ob (pre : list ascii) :
  Forall (fun c => c <> BSLASH) pre ->
  unscape_text ob pre = ob ++ pre
  /\ unscape_text ob (pre ++ [BSLASH]) = ob ++ pre
  /\ forall c rest,
       unscape_text ob (pre ++ BSLASH :: c :: rest) = unscape_text (ob ++ pre ++ [c]) rest.
Proof.
  intros Hpre.
  assert (Hput : forall rest,
             (if 0 <? length pre
              then hoedown_buffer_put ob (padd (buf_data (pre ++ rest)) 0) (length pre - 0)
              else ob) = ob ++ pre).
  { intros rest. destruct pre as [|c0 pre']; [cbn; now rewrite app_nil_r|].
    change (0 <? length (c0 :: pre')) with true. cbv iota.
    unfold hoedown_buffer_put. now rewrite padd_zero, Nat.sub_0_r, bytes_prefix. }
  split; [|split].
  - unfold unscape_text. destruct pre as [|c0 pre']; [cbn; now rewrite app_nil_r|].
    cbn [unscape_loop length]. change (0 <? S (length pre')) with true. cbv iota.
    pose proof (skip_to_backslash (c0 :: pre') [] Hpre (or_introl eq_refl)) as Hs.
    rewrite app_nil_r in Hs. cbn [length] in Hs. rewrite Hs.
    specialize (Hput []). rewrite app_nil_r in Hput. cbn [length] in Hput. rewrite Hput.
    replace (S (length pre') <=? S (length pre') + 1) with true
      by (symmetry; apply Nat.leb_le; lia).
    reflexivity.
  - unfold unscape_text. rewrite length_app. cbn [length].
    replace (length pre + 1) with (S (length pre)) by lia.
    cbn [unscape_loop]. change (0 <? S (length pre)) with true. cbv iota.
    pose proof (skip_to_backslash pre [BSLASH] Hpre (or_intror (ex_intro _ [] eq_refl))) as Hs.
    rewrite length_app in Hs. cbn [length] in Hs.
    replace (length pre + 1) with (S (length pre)) in Hs by lia. rewrite Hs.
    rewrite Hput.
    replace (S (length pre) <=? length pre + 1) with true by (symmetry; apply Nat.leb_le; lia).
    reflexivity.
  - intros c rest. unfold unscape_text at 1. rewrite length_app. cbn [length].
    replace (length pre + S (S (length rest))) with (S (length pre + S (length rest))) by lia.
    cbn [unscape_loop].
    change (0 <? S (length pre + S (length rest))) with true. cbv iota.
    pose proof (skip_to_backslash pre (BSLASH :: c :: rest) Hpre
                  (or_intror (ex_intro _ (c :: rest) eq_refl))) as Hs.
    rewrite length_app in Hs. cbn [length] in Hs.
    replace (length pre + S (S (length rest))) with (S (length pre + S (length rest)))
      in Hs by lia.
    rewrite Hs, Hput.
    replace (S (length pre + S (length rest)) <=? length pre + 1) with false
      by (symmetry; apply Nat.leb_gt; lia).
    assert (Hc : rd (buf_data (pre ++ BSLASH :: c :: rest)) (length pre + 1) = c).
    { rewrite rd_buf_data, app_nth2 by lia.
      replace (length pre + 1 - length pre) with 1 by lia. reflexivity. }
    rewrite Hc. unfold hoedown_buffer_putc.
    replace (pre ++ BSLASH :: c :: rest) with ((pre ++ [BSLASH; c]) ++ rest)
      by (now rewrite <- app_assoc).
    replace (S (length pre + S (length rest))) with (length (pre ++ [BSLASH; c]) + length rest)
      by (rewrite length_app; cbn; lia).
    replace (length pre + 2) with (length (pre ++ [BSLASH; c]) + 0)
      by (rewrite length_app; cbn; lia).
    replace (length pre + S (length rest)) with (S (length pre + length rest)) by lia.
    rewrite (unscape_loop_suffix _ (length rest)); [|lia|lia].
    unfold unscape_text. now rewrite <- app_assoc.
Qed.

(** *** Tags and autolinks between angle brackets *)

Lemma is_mail_autolink_loop_inv (n : nat) : forall data (i nb r : nat),
  is_mail_autolink_loop n data i nb = S r ->
  i <= r < i + n /\ rd data r = ">"%char
  /\ (forall j, i <= j < r -> mail_byte (rd data j) = true)
  /\ ((nb = 1 /\ forall j, i <= j < r -> rd data j <> "@"%char)
      \/ (nb = 0 /\ exists k, i <= k < r /\ rd data k = "@"%char
                              /\ forall j, i <= j < r -> j <> k -> rd data j <> "@"%char)).
Proof.
  induction n as [|n IH]; intros data i nb r; cbn [is_mail_autolink_loop]; [discriminate|].
  cbv zeta.
  assert (Hstep : forall nb',
             is_mail_autolink_loop n data (S i) nb' = S r ->
             mail_byte (rd data i) = true ->
             (nb' = nb /\ rd data i <> "@"%char \/ nb' = S nb /\ rd data i = "@"%char) ->
             i <= r < i + S n /\ rd data r = ">"%char
             /\ (forall j, i <= j < r -> mail_byte (rd data j) = true)
             /\ ((nb = 1 /\ forall j, i <= j < r -> rd data j <> "@"%char)
                 \/ (nb = 0 /\ exists k, i <= k < r /\ rd data k = "@"%char
                        /\ forall j, i <= j < r -> j <> k -> rd data j <> "@"%char))).
  { intros nb' H Hb Hnb. apply IH in H as (Hr & Hgt & Hall & Hat).
    split; [lia|]. split; [exact Hgt|]. split.
    - intros j Hj. destruct (Nat.eq_dec j i) as [->|Hne]; [exact Hb | apply Hall; lia].
    - destruct Hnb as [[-> Hna]|[-> Ha]].
      + destruct Hat as [[Hn1 Hno]|[Hn0 (k & Hk & Hka & Hno)]].
        * left. split; [exact Hn1|]. intros j Hj.
          destruct (Nat.eq_dec j i) as [->|Hne]; [exact Hna | apply Hno; lia].
        * right. split; [exact Hn0|]. exists k. split; [lia|]. split; [exact Hka|].
          intros j Hj Hjk. destruct (Nat.eq_dec j i) as [->|Hne]; [exact Hna | apply Hno; lia].
      + destruct Hat as [[Hn1 Hno]|[Hn0 _]]; [|discriminate].
        right. split; [lia|]. exists i. split; [lia|]. split; [exact Ha|].
        intros j Hj Hji. apply Hno. lia. }
  destruct (isalnum (rd data i)) eqn:Ea.
  { intros H. apply (Hstep nb H); [unfold mail_byte; now rewrite Ea|].
    left. split; [reflexivity|]. intros Hc. rewrite Hc in Ea. discriminate. }
  destruct (ceq (rd data i) "@") eqn:Eat.
  { intros H. apply (Hstep (S nb) H); [unfold mail_byte; now rewrite Eat, !orb_true_r|].
    right. split; [reflexivity | now apply ceq_true]. }
  destruct (ceq (rd data i) "-" || ceq (rd data i) "." || ceq (rd data i) "_") eqn:Ep.
  { intros H. apply (Hstep nb H).
    - unfold mail_byte. rewrite Ea, Eat. cbn [orb]. exact Ep.
    - left. split; [reflexivity | now apply ceq_false]. }
  destruct (ceq (rd data i) ">") eqn:Eg; [|discriminate].
  destruct (nb =? 1) eqn:En; [|discriminate].
  intros H. assert (r = i) by lia. subst r. apply Nat.eqb_eq in En.
  split; [lia|]. split; [now apply ceq_true|]. split; [intros j Hj; lia|].
  left. split; [exact En | intros j Hj; lia].
Qed.

(** X19.  What [is_mail_autolink] accepts: the length it returns is
    within [size] and is that of bytes of letters, digits and
    [-@._] with exactly one [@] among them, followed by the closing
    angle bracket that the length includes. *)
Theorem is_mail_autolink_one_at data (size r : nat) :
  is_mail_autolink data size = S r ->
  r < size /\ rd data r = ">"%char
  /\ (forall j, j < r -> mail_byte (rd data j) = true)
  /\ exists k, k < r /\ rd data k = "@"%char
               /\ forall j, j < r -> j <> k -> rd data j <> "@"%char.
Proof.
  unfold is_mail_autolink. intros H.
  apply is_mail_autolink_loop_inv in H as (Hr & Hgt & Hall & [[Hn _]|[_ (k & Hk & Hka & Hno)]]);
    [discriminate|].
  split; [lia|]. split; [exact Hgt|]. split; [intros j Hj; apply Hall; lia|].
  exists k. split; [lia|]. split; [exact Hka|]. intros j Hj. apply Hno. lia.
Qed.

Lemma tag_link_loop_ge (n : nat) : forall data (size i : nat),
  i <= tag_link_loop n data size i.
Proof.
  induction n as [|n IH]; intros data size i; cbn [tag_link_loop]; [lia|].
  destruct (i <? size); [|lia].
  destruct (ceq (rd data i) BSLASH); [specialize (IH data size (i + 2)); lia|].
  destruct (_ || _); [lia|]. specialize (IH data size (i + 1)). lia.
Qed.

(** The last step of [tag_length]: looking for the closing bracket. *)
Lemma tag_tail_closes data (size i r : nat) (a a' : hoedown_autolink) :
  2 <= i ->
  (if size <=? skip_while (fun i => negb (ceq (rd data i) ">")) size i
   then (0, a)
   else (skip_while (fun i => negb (ceq (rd data i) ">")) size i + 1, a)) = (r, a') ->
  r <= size /\ (r <> 0 -> 3 <= r /\ rd data (r - 1) = ">"%char).
Proof.
  intros Hi.
  pose proof (skip_while_ge (fun i => negb (ceq (rd data i) ">")) size i) as Hge.
  pose proof (skip_while_stop (fun i => negb (ceq (rd data i) ">")) size i) as Hstop.
  set (k := skip_while _ size i) in *.
  destruct (size <=? k) eqn:E; intros [= <- _]; [split; [lia | intros; lia]|].
  apply Nat.leb_gt in E. specialize (Hstop E). cbv beta in Hstop.
  apply negb_false_iff, ceq_true in Hstop.
  split; [lia|]. intros _. split; [lia|]. now replace (k + 1 - 1) with k by lia.
Qed.

(** X20.  What [tag_length] takes for a tag or an autolink lies
    within [size], is of three bytes at least, begins with the opening
    angle bracket and ends with a closing one; spans of fewer than
    three bytes are never a tag. *)
Theorem tag_length_closes data (size : nat) (al : hoedown_autolink) (r : nat)
    (al' : hoedown_autolink) :
  tag_length data size al = (r, al') ->
  r <= size
  /\ (r <> 0 -> 3 <= r /\ rd data 0 = "<"%char /\ rd data (r - 1) = ">"%char)
  /\ (size < 3 -> r = 0).
Proof.
  unfold tag_length.
  destruct (size <? 3) eqn:E3;
    [intros [= <- _]; split; [lia | split; [intros; lia | reflexivity]]|].
  apply Nat.ltb_ge in E3.
  destruct (negb (ceq (rd data 0) "<")) eqn:Elt;
    [intros [= <- _]; split; [lia | split; [intros; lia | lia]]|].
  apply negb_false_iff, ceq_true in Elt.
  cbv zeta.
  set (i0 := if ceq (rd data 1) "/" then 2 else 1).
  assert (Hi0 : 1 <= i0 <= 2) by (unfold i0; destruct (ceq _ _); lia).
  destruct (negb (isalnum (rd data i0))) eqn:Ealnum;
    [intros [= <- _]; split; [lia | split; [intros; lia | lia]]|].
  apply negb_false_iff in Ealnum.
  assert (Hi1 : i0 + 1 <= skip_while (fun i => isalnum (rd data i) || ceq (rd data i) "."
                                      || ceq (rd data i) "+" || ceq (rd data i) "-") size i0
                <= size).
  { split; [|apply skip_while_le; lia].
    rewrite skip_while_step; [|lia|now rewrite Ealnum].
    pose proof (skip_while_ge (fun i => isalnum (rd data i) || ceq (rd data i) "."
                                        || ceq (rd data i) "+" || ceq (rd data i) "-")
                              size (S i0)). lia. }
  set (i1 := skip_while _ size i0) in *.
  intros H.
  assert (Hgoal : r <= size /\ (r <> 0 -> 3 <= r /\ rd data (r - 1) = ">"%char)).
  { revert H.
    destruct (negb ((if (1 <? i1) && ceq (rd data i1) "@"
                     then is_mail_autolink (padd data i1) (size - i1) else 0) =? 0)) eqn:Ej.
    - destruct ((1 <? i1) && ceq (rd data i1) "@"); [|discriminate].
      destruct (is_mail_autolink (padd data i1) (size - i1)) as [|m] eqn:Em; [discriminate|].
      unfold is_mail_autolink in Em.
      apply is_mail_autolink_loop_inv in Em as (Hm & Hgt & _).
      rewrite rd_padd in Hgt. intros [= <- _]. split; [lia|]. intros _. split; [lia|].
      now replace (i1 + S m - 1) with (i1 + m) by lia.
    - clear Ej.
      destruct ((2 <? i1) && ceq (rd data i1) ":").
      + destruct (size <=? i1 + 1); [apply tag_tail_closes; lia|].
        pose proof (tag_link_loop_ge size data size (i1 + 1)) as Hl.
        set (i3 := tag_link_loop size data size (i1 + 1)) in *.
        destruct (size <=? i3) eqn:E3'; [intros [= <- _]; split; [lia | intros; lia]|].
        destruct ((i1 + 1 <? i3) && ceq (rd data i3) ">") eqn:Eg;
          [|apply tag_tail_closes; lia].
        tests_to_bounds. apply ceq_true in H0.
        intros [= <- _]. split; [lia|]. intros _. split; [lia|].
        now replace (i3 + 1 - 1) with i3 by lia.
      + destruct (size <=? i1); apply tag_tail_closes; lia. }
  destruct Hgoal as [Hle Hnz]. split; [exact Hle|]. split; [|lia].
  intros Hr. destruct (Hnz Hr). auto.
Qed.

(** *** The search for the closing delimiter *)

Lemma track_loop_found (n : nat) : forall data (size : nat) (c stop : ascii) (i t : nat),
  n <= size - i -> found_at data size c t ->
  found_at data size c (snd (track_loop n data c stop i t)).
Proof.
  induction n as [|n IH]; intros data size c stop i t Hn Ht; cbn [track_loop]; [exact Ht|].
  destruct (negb (ceq (rd data i) stop)); [|exact Ht].
  apply IH; [lia|].
  destruct ((t =? 0) && ceq (rd data i) c) eqn:E; [|exact Ht].
  tests_to_bounds. right. split; [lia | now apply ceq_true].
Qed.

Lemma track_until_found data (size : nat) (c stop : ascii) (i t : nat) :
  found_at data size c t -> found_at data size c (snd (track_until data size c stop i t)).
Proof. intros Ht. unfold track_until. now apply track_loop_found. Qed.

Lemma bt_loop_found (n : nat) : forall data (size : nat) (c : ascii) (span_nb i bt t : nat),
  n <= size - i -> found_at data size c t ->
  found_at data size c (snd (bt_loop n data c span_nb i bt t)).
Proof.
  induction n as [|n IH]; intros data size c span_nb i bt t Hn Ht; cbn [bt_loop]; [exact Ht|].
  destruct (bt <? span_nb); [|exact Ht]. cbv zeta.
  apply IH; [lia|].
  destruct ((t =? 0) && ceq (rd data i) c) eqn:E; [|exact Ht].
  tests_to_bounds. right. split; [lia | now apply ceq_true].
Qed.

Lemma find_emph_loop_found (n : nat) : forall data (size : nat) (c : ascii) (i : nat),
  found_at data size c (find_emph_loop n data size c i).
Proof.
  induction n as [|n IH]; intros data size c i; cbn [find_emph_loop]; [now left|].
  destruct (i <? size) eqn:Ei; [|now left]. apply Nat.ltb_lt in Ei. cbv zeta.
  pose proof (skip_while_le (fun i => negb (ceq (rd data i) c) && negb (ceq (rd data i) "["))
                            size i ltac:(lia)) as Hle.
  set (i1 := skip_while _ size i) in *.
  destruct (i1 =? size) eqn:E1; [now left|]. apply Nat.eqb_neq in E1.
  destruct (ceq (rd data i1) c) eqn:Ec; [right; split; [lia | now apply ceq_true]|].
  destruct (negb (i1 =? 0) && ceq (rd data (i1 - 1)) BSLASH); [apply IH|].
  destruct (ceq (rd data i1) BTICK).
  { destruct (size <=? skip_while (fun i => ceq (rd data i) BTICK) size i1); [now left|].
    match goal with
    | |- context [bt_loop ?k ?d ?cc ?s ?j ?b ?t] =>
      pose proof (bt_loop_found k d size cc s j b t (Nat.le_refl _) (or_introl eq_refl)) as Hb;
      destruct (bt_loop k d cc s j b t) as [i2 tmp_i]
    end. cbn [snd] in Hb.
    destruct (size <=? i2); [exact Hb | apply IH]. }
  destruct (ceq (rd data i1) "["); [|apply IH].
  pose proof (track_until_found data size c "]" (i1 + 1) 0 (or_introl eq_refl)) as Ht.
  destruct (track_until data size c "]" (i1 + 1) 0) as [i2 tmp_i]. cbn [snd] in Ht.
  set (i3 := skip_while _ size (i2 + 1)).
  destruct (size <=? i3); [exact Ht|].
  assert (Hskip : forall cc,
             found_at data size c
               (let '(i4, tmp_i') := track_until data size c cc (i3 + 1) tmp_i in
                if size <=? i4 then tmp_i' else find_emph_loop n data size c (i4 + 1))).
  { intros cc. pose proof (track_until_found data size c cc (i3 + 1) tmp_i Ht) as Ht'.
    destruct (track_until data size c cc (i3 + 1) tmp_i) as [i4 tmp_i']. cbn [snd] in Ht'.
    destruct (size <=? i4); [exact Ht' | apply IH]. }
  destruct (ceq (rd data i3) "["); [apply Hskip|].
  destruct (ceq (rd data i3) "("); [apply Hskip|].
  destruct (negb (tmp_i =? 0)); [exact Ht | apply IH].
Qed.

(** The first delimiter after the first byte is found at once when no
    opening square bracket comes before it. *)
Lemma find_emph_char_first data (size : nat) (c : ascii) (k : nat) :
  1 <= k < size ->
  (forall j, 1 <= j < k -> rd data j <> c /\ rd data j <> "["%char) ->
  rd data k = c ->
  find_emph_char data size c = k.
Proof.
  intros Hk Hbefore Hc. unfold find_emph_char.
  destruct size as [|size]; [lia|]. cbn [find_emph_loop].
  replace (1 <? S size) with true by (symmetry; apply Nat.ltb_lt; lia). cbv zeta.
  assert (Hs : skip_while (fun i => negb (ceq (rd data i) c) && negb (ceq (rd data i) "["))
                          (S size) 1 = k).
  { apply skip_while_to; [lia| |].
    - intros j Hj. destruct (Hbefore j Hj) as [H1 H2].
      now rewrite (ceq_neq _ _ H1), (ceq_neq _ _ H2).
    - rewrite Hc, ceq_refl. reflexivity. }
  rewrite Hs. replace (k =? S size) with false by (symmetry; apply Nat.eqb_neq; lia).
  now rewrite Hc, ceq_refl.
Qed.

(** X21.  What [find_emph_char] returns is 0, for no delimiter, or
    the index, within the span and after its first byte, of a byte
    that is the delimiter [c].  It does not pass over code spans: the
    first [c] after the first byte is returned when no opening square
    bracket comes before it, whatever the backticks around it. *)
Theorem find_emph_char_points_at_delimiter data (size : nat) (c : ascii) :
  (find_emph_char data size c = 0
   \/ (0 < find_emph_char data size c < size
       /\ rd data (find_emph_char data size c) = c))
  /\ forall k, 1 <= k < size ->
       (forall j, 1 <= j < k -> rd data j <> c /\ rd data j <> "["%char) ->
       rd data k = c ->
       find_emph_char data size c = k.
Proof.
  split; [|apply find_emph_char_first].
  destruct (find_emph_loop_found size data size c 1) as [H|[Hlt Hc]];
    unfold find_emph_char; [now left|].
  destruct (find_emph_loop size data size c 1) as [|r] eqn:E; [now left|].
  right. split; [lia | exact Hc].
Qed.

(** *** Line breaks *)

Lemma trim_spaces_loop_tail (k : nat) : forall (n : nat) (t : list ascii),
  k <= n -> (forall t', t <> t' ++ [" "%char]) ->
  trim_spaces_loop n (t ++ repeat " "%char k) = t.
Proof.
  induction k as [|k IH]; intros n t Hn Ht.
  - cbn [repeat]. rewrite app_nil_r. destruct n as [|n]; [reflexivity|].
    cbn [trim_spaces_loop].
    destruct ((0 <? length t) && ceq (nth (length t - 1) t NUL) " ") eqn:E; [|reflexivity].
    exfalso. tests_to_bounds. apply ceq_true in H0.
    destruct (exists_last (l := t)) as (t' & c & ->); [intros ->; cbn in H; lia|].
    rewrite length_app in H0. cbn [length] in H0.
    replace (length t' + 1 - 1) with (length t') in H0 by lia.
    rewrite app_nth2, Nat.sub_diag in H0 by lia. cbn in H0. subst c.
    now apply (Ht t').
  - destruct n as [|n]; [lia|]. cbn [trim_spaces_loop].
    cbn [repeat]. rewrite repeat_cons.
    rewrite app_assoc, length_app. cbn [length].
    replace (length (t ++ repeat " "%char k) + 1 - 1) with (length (t ++ repeat " "%char k))
      by lia.
    rewrite app_nth2, Nat.sub_diag by lia. cbn [nth].
    replace (0 <? length (t ++ repeat " "%char k) + 1) with true
      by (symmetry; apply Nat.ltb_lt; lia).
    rewrite ceq_refl. cbn [andb].
    rewrite firstn_app, Nat.sub_diag, firstn_all. cbn [firstn]. rewrite app_nil_r.
    apply IH; [lia | exact Ht].
Qed.

(** A buffer is a text that does not end with a space, followed by spaces. *)
Lemma trailing_spaces_split (l : list ascii) :
  exists t k, l = t ++ repeat " "%char k /\ forall t', t <> t' ++ [" "%char].
Proof.
  induction l as [|c l IH] using rev_ind.
  - exists [], 0. split; [reflexivity|]. intros t' H. now destruct t'.
  - destruct (ascii_dec c " ") as [->|Hc].
    + destruct IH as (t & k & -> & Ht). exists t, (S k). split; [|exact Ht].
      rewrite <- app_assoc. f_equal. cbn [repeat]. now rewrite repeat_cons.
    + exists (l ++ [c]), 0. split; [cbn; now rewrite app_nil_r|].
      intros t' H. apply app_inj_tail in H as [_ H]. contradiction.
Qed.

(** X22.  [char_linebreak] declines, leaving the output alone, unless
    two spaces stand before the newline.  When they do, it takes every
    space off the end of the output, however many there are and
    wherever they come from, before it calls the [linebreak] callback:
    the callback gets the output up to its last byte that is no
    space. *)
Theorem char_linebreak_trims_output ob md data (offset size : nat) :
  (offset < 2 \/ rdb data 1 <> " "%char \/ rdb data 2 <> " "%char ->
   char_linebreak ob md data offset size = Ret (0, ob, md))
  /\ (2 <= offset -> rdb data 1 = " "%char -> rdb data 2 = " "%char ->
      forall linebreak, cb_linebreak (rndr md) = Some linebreak ->
      exists t k,
        ob = t ++ repeat " "%char k
        /\ (forall t', t <> t' ++ [" "%char])
        /\ char_linebreak ob md data offset size =
           Ret ((if fst (fst (linebreak t (opaque md))) then 1 else 0),
                snd (fst (linebreak t (opaque md))),
                set_opaque md (snd (linebreak t (opaque md))))).
Proof.
  split.
  - intros H. unfold char_linebreak.
    replace ((offset <? 2) || negb (ceq (rdb data 1) " ") || negb (ceq (rdb data 2) " "))
      with true; [reflexivity|].
    symmetry. destruct H as [H|[H|H]].
    + apply Nat.ltb_lt in H. now rewrite H.
    + rewrite (ceq_neq _ _ H). cbn. now rewrite orb_true_r.
    + rewrite (ceq_neq _ _ H). cbn. now rewrite orb_true_r.
  - intros Ho H1 H2 linebreak Hcb.
    destruct (trailing_spaces_split ob) as (t & k & Hob & Ht).
    exists t, k. split; [exact Hob|]. split; [exact Ht|].
    unfold char_linebreak.
    replace (offset <? 2) with false by (symmetry; apply Nat.ltb_ge; lia).
    rewrite H1, H2, ceq_refl. cbn [negb orb].
    rewrite Hcb. cbn [call bind]. unfold trim_spaces.
    rewrite Hob at 2. rewrite trim_spaces_loop_tail;
      [reflexivity | rewrite Hob, length_app, repeat_length; lia | exact Ht].
Qed.

(** *** Entities *)

(** X23.  [char_entity] always returns.  It declines, changing
    nothing, or takes an ampersand, an optional [#], letters and
    digits, and the semicolon that ends them, all within [size]:
    without an [entity] callback these bytes go to the output as they
    are.  The letters and digits may be none: an ampersand followed by
    a semicolon is taken for an entity of two bytes. *)
Theorem char_entity_shape ob md data (offset size : nat) :
  exists r ob' md',
    char_entity ob md data offset size = Ret (r, ob', md')
    /\ (r = 0 -> ob' = ob /\ md' = md)
    /\ (r <> 0 ->
        2 <= r <= size /\ rd data (r - 1) = ";"%char
        /\ (forall j, 1 <= j < r - 1 ->
              isalnum (rd data j) = true \/ (j = 1 /\ rd data 1 = "#"%char))
        /\ (cb_entity (rndr md) = None -> ob' = ob ++ bytes data r /\ md' = md))
    /\ (1 < size -> rd data 1 = ";"%char -> r = 2).
Proof.
  unfold char_entity. cbv zeta.
  set (e0 := if (1 <? size) && ceq (rd data 1) "#" then 1 + 1 else 1).
  assert (He0 : (e0 = 1 \/ (e0 = 2 /\ rd data 1 = "#"%char /\ 1 < size))).
  { unfold e0. destruct ((1 <? size) && ceq (rd data 1) "#") eqn:E; [|now left].
    tests_to_bounds. right. split; [reflexivity|]. split; [now apply ceq_true | lia]. }
  pose proof (skip_while_ge (fun e => isalnum (rd data e)) size e0) as Hge.
  pose proof (fun j => skip_while_passed (fun e => isalnum (rd data e)) size e0 j) as Hpass.
  assert (Hsemi : 1 < size -> rd data 1 = ";"%char ->
                  skip_while (fun e => isalnum (rd data e)) size e0 = 1).
  { intros Hs Hc. assert (e0 = 1) as ->.
    { destruct He0 as [H|(_ & H & _)]; [exact H|]. rewrite Hc in H. discriminate. }
    apply skip_while_here; [lia|]. now rewrite Hc. }
  set (e1 := skip_while _ size e0) in *.
  destruct ((e1 <? size) && ceq (rd data e1) ";") eqn:E.
  - tests_to_bounds. apply ceq_true in H0.
    assert (Hshape : 2 <= e1 + 1 <= size /\ rd data (e1 + 1 - 1) = ";"%char
                     /\ (forall j, 1 <= j < e1 + 1 - 1 ->
                           isalnum (rd data j) = true \/ (j = 1 /\ rd data 1 = "#"%char))).
    { split; [lia|]. replace (e1 + 1 - 1) with e1 by lia. split; [exact H0|].
      intros j Hj. destruct He0 as [He|(He & Hh & _)].
      - left. apply Hpass. lia.
      - destruct (Nat.eq_dec j 1) as [->|Hne]; [now right|]. left. apply Hpass. lia. }
    destruct (cb_entity (rndr md)) as [entity|] eqn:Ecb.
    + destruct (ran md (entity ob (bytes data (e1 + 1)) (opaque md))) as [ob' md'].
      exists (e1 + 1), ob', md'. split; [reflexivity|]. split; [lia|].
      split; [|intros Hs Hc; rewrite (Hsemi Hs Hc); reflexivity].
      intros _. destruct Hshape as (Ha & Hb & Hc). repeat split; auto; try lia; discriminate.
    + exists (e1 + 1), (hoedown_buffer_put ob data (e1 + 1)), md.
      split; [reflexivity|]. split; [lia|].
      split; [|intros Hs Hc; rewrite (Hsemi Hs Hc); reflexivity].
      intros _. destruct Hshape as (Ha & Hb & Hc). repeat split; auto; lia.
  - exists 0, ob, md. split; [reflexivity|]. split; [auto|]. split; [lia|].
    intros Hs Hc. exfalso. rewrite (Hsemi Hs Hc) in E.
    replace (1 <? size) with true in E by (symmetry; apply Nat.ltb_lt; lia).
    rewrite Hc in E. discriminate.
Qed.

End InlineMore.

(** ** More on rendering a document *)

Section RenderMore.

Context {O : Type} {ext : Externals}.
Implicit Types (md : hoedown_markdown O) (ob text : hoedown_buffer) (data document : ptr).

(** X24.  [hoedown_markdown_render] begins by emptying the reference
    table, and the footnote lists when footnotes are enabled: what
    these held on entry, from a document rendered before, has no part
    in the result. *)
Theorem render_resets_tables (fuel : nat) ob (doc : hoedown_buffer) (doc_size : nat) md
    (r : ref_table) (found : list footnote_ref) (used : list nat) :
  hoedown_markdown_render fuel ob doc doc_size (set_refs md r)
  = hoedown_markdown_render fuel ob doc doc_size md
  /\ (ext_flags md HOEDOWN_EXT_FOOTNOTES = true ->
      hoedown_markdown_render fuel ob doc doc_size (set_footnotes md found used)
      = hoedown_markdown_render fuel ob doc doc_size md).
Proof.
  split; [reflexivity|]. intros H. unfold hoedown_markdown_render.
  cbn [ext_flags set_refs set_footnotes]. rewrite H. reflexivity.
Qed.

(** *** Documents of blank lines *)

Lemma def_indent_stop data (beg i : nat) :
  def_indent data beg = Some i -> i <= 3 /\ rd data (beg + i) <> " "%char.
Proof.
  unfold def_indent.
  destruct (ceq (rd data beg) " ") eqn:E0;
    [|intros [= <-]; rewrite Nat.add_0_r; split; [lia | now apply ceq_false]].
  destruct (ceq (rd data (beg + 1)) " ") eqn:E1;
    [|intros [= <-]; split; [lia | now apply ceq_false]].
  destruct (ceq (rd data (beg + 2)) " ") eqn:E2;
    [|intros [= <-]; split; [lia | now apply ceq_false]].
  destruct (ceq (rd data (beg + 3)) " ") eqn:E3; [discriminate|].
  intros [= <-]. split; [lia | now apply ceq_false].
Qed.

(** A line with no opening bracket defines no reference. *)
Lemma is_ref_no_bracket data (beg end_ : nat) (refs' : ref_table) :
  (forall j, beg <= j < end_ -> rd data j <> "["%char) ->
  is_ref data beg end_ refs' = (false, 0, refs').
Proof.
  intros Hno. cbv beta delta [is_ref]. name_bound.
  destruct (end_ <=? beg + 3) eqn:E; [exact Hp|]. apply Nat.leb_gt in E.
  destruct (def_indent data beg) as [i|] eqn:Ei; [|exact Hp].
  apply def_indent_stop in Ei as [Hi _]. name_bound.
  replace (negb (ceq (rd data p0) "[")) with true; [exact Hp|].
  symmetry. apply negb_true_iff, ceq_neq, Hno. lia.
Qed.

Lemma is_footnote_no_bracket data (beg end_ : nat) (list_ : list footnote_ref) :
  (forall j, beg <= j < end_ -> rd data j <> "["%char) ->
  is_footnote data beg end_ list_ = (false, 0, list_).
Proof.
  intros Hno. cbv beta delta [is_footnote]. name_bound.
  destruct (end_ <=? beg + 3) eqn:E; [exact Hp|]. apply Nat.leb_gt in E.
  destruct (def_indent data beg) as [i|] eqn:Ei; [|exact Hp].
  apply def_indent_stop in Ei as [Hi _]. name_bound.
  replace (negb (ceq (rd data p0) "[")) with true; [exact Hp|].
  symmetry. apply negb_true_iff, ceq_neq, Hno. lia.
Qed.

Lemma blank_not (c : ascii) :
  blank c -> c <> "["%char /\ c <> "#"%char /\ c <> "<"%char /\ c <> TAB /\ c <> CR.
Proof. intros [->| ->]; repeat split; discriminate. Qed.

(** The first pass copies blank lines as blank lines and finds no
    definition in them. *)
Lemma first_pass_blank (n : nat) md document (doc_size : nat) :
  (forall j, j < doc_size -> blank (rd document j)) ->
  forall text (beg : nat),
    doc_size <= n + beg -> Forall blank text ->
    exists text',
      first_pass n md text document doc_size beg = Ret (text', md) /\ Forall blank text'.
Proof.
  intros Hdoc. induction n as [|n IH]; intros text beg Hn Htext.
  - cbn [first_pass]. destruct (beg <? doc_size) eqn:E; [|now exists text].
    apply Nat.ltb_lt in E. lia.
  - cbn [first_pass]. destruct (beg <? doc_size) eqn:E; [|now exists text].
    apply Nat.ltb_lt in E.
    assert (Hnb : forall j, beg <= j < doc_size -> rd document j <> "["%char).
    { intros j Hj. apply blank_not, Hdoc. lia. }
    rewrite is_footnote_no_bracket by exact Hnb.
    replace (if ext_flags md HOEDOWN_EXT_FOOTNOTES
             then (false, 0, footnotes_found md) else (false, 0, footnotes_found md))
      with (false, 0, footnotes_found md) by (now destruct (ext_flags md _)).
    rewrite is_ref_no_bracket by exact Hnb.
    pose proof (skip_while_ge (fun e => negb (is_eol (rd document e))) doc_size beg) as Hge.
    pose proof (skip_while_le (fun e => negb (is_eol (rd document e))) doc_size beg
                              ltac:(lia)) as Hle.
    set (end_ := skip_while _ doc_size beg) in *.
    assert (Hline : Forall blank
               (if beg <? end_ then expand_tabs text (padd document beg) (end_ - beg)
                else text)).
    { destruct (beg <? end_); [|exact Htext].
      destruct (expand_tabs_loop_added (end_ - beg) text (padd document beg)
                  (end_ - beg) 0 0) as (line & Hl & Hexp).
      unfold expand_tabs. rewrite Hl. apply Forall_app. split; [exact Htext|].
      eapply Forall_impl; [|exact Hexp]. intros c [->|(j & Hj & -> & _)]; [now left|].
      rewrite rd_padd. apply Hdoc. lia. }
    match goal with
    | |- context [newlines_loop ?k ?t ?d ?s ?e] =>
      destruct (newlines_loop_end k t d s e) as [Hnle Hnlt];
      destruct (newlines_loop_text k t d s e) as [nl Hnl];
      destruct (newlines_loop k t d s e) as [text1 end1]
    end. cbn [fst snd] in Hnle, Hnlt, Hnl. subst text1.
    assert (Hend : beg < end1).
    { destruct (Nat.le_gt_cases doc_size end_) as [|Hin]; [lia|].
      assert (Hstop : negb (is_eol (rd document end_)) = false).
      { exact (skip_while_stop (fun e => negb (is_eol (rd document e))) doc_size beg Hin). }
      apply negb_false_iff in Hstop. specialize (Hnlt ltac:(lia) Hstop). lia. }
    apply IH; [lia|]. apply Forall_app. split; [exact Hline|].
    apply Forall_forall. intros c Hc. apply repeat_spec in Hc. now right.
Qed.

(** The block parser takes blank lines one by one and renders none. *)
Lemma parse_block_loop_blank (fuel : nat) rec (n : nat) ob md :
  forall data (size beg : nat),
    size <= n + beg -> (forall j, beg <= j < size -> blank (rd data j)) ->
    parse_block_loop fuel rec n ob md data size beg = Ret (ob, md, mem data).
Proof.
  induction n as [|n IH]; intros data size beg Hn Hblank.
  - cbn [parse_block_loop]. destruct (beg <? size) eqn:E; [|reflexivity].
    apply Nat.ltb_lt in E. lia.
  - cbn [parse_block_loop]. destruct (beg <? size) eqn:E; [|reflexivity].
    apply Nat.ltb_lt in E. cbv zeta.
    destruct (blank_not _ (Hblank beg ltac:(lia))) as (_ & Hh & Hl & _).
    assert (Hatx : is_atxheader md (padd data beg) (size - beg) = false).
    { unfold is_atxheader. rewrite rd_padd, Nat.add_0_r. now rewrite (ceq_neq _ _ Hh). }
    rewrite Hatx, (ceq_neq _ _ Hl). cbn [andb bind Nat.eqb negb].
    destruct (is_empty (padd data beg) (size - beg)) as [|r] eqn:Eempty.
    { exfalso. apply is_empty_loop_zero in Eempty as (k & Hk & _ & Hns & Hnn).
      rewrite rd_padd in Hns, Hnn.
      destruct (Hblank (beg + k) ltac:(lia)) as [Hc|Hc]; contradiction. }
    cbn [Nat.eqb negb].
    unfold is_empty in Eempty. apply is_empty_loop_length in Eempty as (Hr & _).
    apply IH; [lia|]. intros j Hj. apply Hblank. lia.
Qed.

(** X25.  A document of spaces and newlines alone, the empty
    document among them, renders to nothing: no definition is found in
    it and no block is rendered; [hoedown_markdown_render] returns
    with the output the [doc_header] and [doc_footer] callbacks make of
    [ob], whatever the other callbacks of the renderer, absent ones
    included. *)
Theorem blank_document_renders_nothing (fuel : nat) ob (doc : hoedown_buffer)
    (doc_size : nat) md :
  0 < fuel -> pools_empty md ->
  (forall j, j < doc_size -> blank (rd (buf_data doc) j)) ->
  let md0 := if ext_flags md HOEDOWN_EXT_FOOTNOTES
             then set_footnotes (set_refs md no_refs) [] [] else set_refs md no_refs in
  let r1 := match cb_doc_header (rndr md) with
            | Some doc_header => ran md0 (doc_header ob (opaque md))
            | None => (ob, md0)
            end in
  let r2 := match cb_doc_footer (rndr md) with
            | Some doc_footer => ran (snd r1) (doc_footer (fst r1) (opaque (snd r1)))
            | None => r1
            end in
  hoedown_markdown_render fuel ob doc doc_size md = Ret r2.
Proof.
  intros Hfuel [Hs Hb] Hdoc. cbv zeta. unfold hoedown_markdown_render. cbv zeta.
  cbn [ext_flags set_refs].
  set (md0 := if ext_flags md HOEDOWN_EXT_FOOTNOTES
              then set_footnotes (set_refs md no_refs) [] [] else set_refs md no_refs).
  assert (Hmd0 : rndr md0 = rndr md /\ opaque md0 = opaque md
                 /\ work_span md0 = 0 /\ work_block md0 = 0
                 /\ ext_flags md0 = ext_flags md
                 /\ (ext_flags md HOEDOWN_EXT_FOOTNOTES = true -> footnotes_used md0 = [])).
  { unfold md0. cbn [work_size] in Hs, Hb.
    destruct (ext_flags md HOEDOWN_EXT_FOOTNOTES); cbn; repeat split; auto; discriminate. }
  destruct Hmd0 as (Hr0 & Ho0 & Hs0 & Hb0 & He0 & Hu0).
  set (beg := if (3 <=? doc_size) && _ then 0 + 3 else 0).
  assert (Hbeg : beg = 0).
  { unfold beg. destruct (3 <=? doc_size) eqn:E3; [|reflexivity]. cbn [andb].
    destruct (list_eq_dec ascii_dec (firstn 3 doc) UTF8_BOM) as [Hbom|]; [|reflexivity].
    exfalso. apply Nat.leb_le in E3. specialize (Hdoc 0 ltac:(lia)).
    rewrite rd_buf_data in Hdoc. destruct doc as [|c doc']; [discriminate|].
    cbn in Hbom, Hdoc. injection Hbom as -> _. destruct Hdoc; discriminate. }
  rewrite Hbeg.
  destruct (first_pass_blank doc_size md0 (buf_data doc) doc_size Hdoc [] 0 ltac:(lia)
              (Forall_nil _)) as (text & -> & Htext).
  cbn [bind]. rewrite Hr0, Ho0.
  assert (Hrest : forall ob1 md1,
             rndr md1 = rndr md -> work_span md1 = 0 -> work_block md1 = 0 ->
             ext_flags md1 = ext_flags md ->
             (ext_flags md HOEDOWN_EXT_FOOTNOTES = true -> footnotes_used md1 = []) ->
             (let* (ob2, md2) :=
                if 0 <? length text then
                  let text :=
                    if negb (ceq (nth (length text - 1) text NUL) NL)
                       && negb (ceq (nth (length text - 1) text NUL) CR)
                    then hoedown_buffer_putc text NL else text in
                  let* (ob2, md2, _) :=
                    parse_block fuel ob1 md1 (buf_data text) (length text) in
                  Ret (ob2, md2)
                else Ret (ob1, md1) in
              let* (ob3, md3) :=
                if ext_flags md HOEDOWN_EXT_FOOTNOTES
                then parse_footnote_list (parse_block fuel) ob2 md2
                else Ret (ob2, md2) in
              let '(ob4, md4) :=
                match cb_doc_footer (rndr md3) with
                | Some doc_footer => ran md3 (doc_footer ob3 (opaque md3))
                | None => (ob3, md3)
                end in
              if (work_size md4 BUFFER_SPAN =? 0) && (work_size md4 BUFFER_BLOCK =? 0)
              then Ret (ob4, md4)
              else Fault AssertFailed)
             = Ret (match cb_doc_footer (rndr md) with
                    | Some doc_footer => ran md1 (doc_footer ob1 (opaque md1))
                    | None => (ob1, md1)
                    end)).
  { intros ob1 md1 Hr1 Hs1 Hb1 He1 Hu1.
    assert (Hblocks : (if 0 <? length text then
                         let text :=
                           if negb (ceq (nth (length text - 1) text NUL) NL)
                              && negb (ceq (nth (length text - 1) text NUL) CR)
                           then hoedown_buffer_putc text NL else text in
                         let* (ob, md, _) :=
                           parse_block fuel ob1 md1 (buf_data text) (length text) in
                         Ret (ob, md)
                       else Ret (ob1, md1)) = Ret (ob1, md1)).
    { destruct (0 <? length text); [|reflexivity]. cbv zeta.
      generalize (negb (ceq (nth (length text - 1) text NUL) NL)
                  && negb (ceq (nth (length text - 1) text NUL) CR)).
      intros b. set (text' := if b then hoedown_buffer_putc text NL else text).
      assert (Htext' : Forall blank text').
      { unfold text'. destruct b; [|exact Htext].
        apply Forall_app. split; [exact Htext|]. constructor; [now right | constructor]. }
      destruct fuel as [|fuel']; [lia|]. cbn [parse_block].
      rewrite Hs1, Hb1. cbn [Nat.add]. change (max_nesting md1 <? 0) with false. cbv iota.
      unfold parse_block_body.
      rewrite parse_block_loop_blank; [reflexivity | lia|].
      intros j Hj. rewrite rd_buf_data. rewrite Forall_forall in Htext'.
      apply Htext', nth_In. lia. }
    rewrite Hblocks. cbn [bind].
    assert (Hfoot : (if ext_flags md HOEDOWN_EXT_FOOTNOTES
                     then parse_footnote_list (parse_block fuel) ob1 md1
                     else Ret (ob1, md1)) = Ret (ob1, md1)).
    { destruct (ext_flags md HOEDOWN_EXT_FOOTNOTES) eqn:Ef; [|reflexivity].
      unfold parse_footnote_list. now rewrite (Hu1 eq_refl). }
    rewrite Hfoot. cbn [bind]. rewrite Hr1.
    destruct (cb_doc_footer (rndr md)) as [f|]; cbn [ran fst snd work_size set_opaque
                                                    work_span work_block];
      rewrite Hs1, Hb1; reflexivity. }
  destruct (cb_doc_header (rndr md)) as [h|].
  - cbn [ran fst snd]. rewrite Hrest; cbn; auto.
  - cbn [fst snd]. rewrite Hrest; auto.
Qed.

(** *** Footnote numbers *)

Lemma mark_used_length (found : list footnote_ref) (k n : nat) :
  length (mark_used found k n) = length found.
Proof.
  revert k. induction found as [|r rest IH]; intros k; [reflexivity|].
  destruct k as [|k]; cbn; [reflexivity | now rewrite IH].
Qed.

Lemma mark_used_same (found : list footnote_ref) (k n : nat) :
  k < length found ->
  is_used (nth k (mark_used found k n) no_footnote) = true
  /\ num (nth k (mark_used found k n) no_footnote) = n.
Proof.
  revert k. induction found as [|r rest IH]; intros k Hk; [cbn in Hk; lia|].
  destruct k as [|k]; cbn; [split; reflexivity|]. apply IH. cbn in Hk. lia.
Qed.

Lemma mark_used_other (found : list footnote_ref) (k n j : nat) :
  j <> k -> nth j (mark_used found k n) no_footnote = nth j found no_footnote.
Proof.
  revert k j. induction found as [|r rest IH]; intros k j Hj; [now destruct k|].
  destruct k as [|k], j as [|j]; cbn; try reflexivity; try lia. apply IH. lia.
Qed.

(** X26.  [char_link] numbers the footnotes in the order of their
    first use: taking a footnote into use keeps the list of the used
    footnotes and the marks of the footnotes found in step, the
    footnote at place [i] of the list being marked used and bearing
    the number [i + 1].  A footnote used for the first time goes to the
    end of the list with the next number; one used before keeps its
    number, and the parser is as it was. *)
Theorem use_footnote_numbers_in_order md (k : nat) :
  k < length (footnotes_found md) ->
  numbered (footnotes_found md) (footnotes_used md) ->
  numbered (footnotes_found (use_footnote md k)) (footnotes_used (use_footnote md k))
  /\ In k (footnotes_used (use_footnote md k))
  /\ (is_used (nth k (footnotes_found md) no_footnote) = true -> use_footnote md k = md)
  /\ (is_used (nth k (footnotes_found md) no_footnote) = false ->
      footnotes_used (use_footnote md k) = footnotes_used md ++ [k]
      /\ num (nth k (footnotes_found (use_footnote md k)) no_footnote)
         = length (footnotes_used md) + 1).
Proof.
  intros Hk [Hnum Hall]. unfold use_footnote.
  destruct (is_used (nth k (footnotes_found md) no_footnote)) eqn:Eu; cbn [negb].
  - split; [split; assumption|]. split; [now apply Hall|]. split; [reflexivity | discriminate].
  - cbn [footnotes_found footnotes_used set_footnotes]. rewrite length_app. cbn [length].
    destruct (mark_used_same (footnotes_found md) k (length (footnotes_used md) + 1) Hk)
      as [Hsu Hsn].
    split; [|split; [apply in_or_app; right; now left|split; [discriminate|auto]]].
    split.
    + intros i Hi. rewrite length_app in Hi. cbn [length] in Hi.
      rewrite mark_used_length.
      destruct (Nat.eq_dec i (length (footnotes_used md))) as [->|Hne].
      * rewrite app_nth2, Nat.sub_diag by lia. cbn [nth]. auto.
      * rewrite app_nth1 by lia.
        destruct (Hnum i ltac:(lia)) as (Hlt & Hused & Hn).
        assert (Hki : nth i (footnotes_used md) 0 <> k).
        { intros E. rewrite E in Hused. congruence. }
        rewrite mark_used_other by exact Hki. auto.
    + intros j Hj Hused. rewrite mark_used_length in Hj. apply in_or_app.
      destruct (Nat.eq_dec j k) as [->|Hne]; [right; now left|].
      left. rewrite mark_used_other in Hused by exact Hne. now apply Hall.
Qed.

(** *** The active bytes of a new parser *)

(** X27.  The table of active bytes that [hoedown_markdown_new]
    fills in: whatever the renderer and the extensions, the opening
    angle bracket, the backslash and the ampersand are active, also for
    a renderer without a callback; and no byte is active but the
    fifteen that can begin an inline construct. *)
Theorem new_parser_active_bytes (extensions : hoedown_extensions -> bool)
    (r : hoedown_renderer O) (c : ascii) :
  (new_active_char extensions r "<" = MD_CHAR_LANGLE
   /\ new_active_char extensions r BSLASH = MD_CHAR_ESCAPE
   /\ new_active_char extensions r "&" = MD_CHAR_ENTITITY)
  /\ (~ In c ["*"; "_"; "~"; "="; BTICK; NL; "["; "<"; BSLASH; "&"; ":"; "@"; "w"; "^";
              DQUOTE]%char ->
      new_active_char extensions r c = MD_CHAR_NONE).
Proof.
  split.
  - unfold new_active_char. cbn. rewrite ?andb_false_r. repeat split.
  - intros Hc.
    assert (H : forall x, In x ["*"; "_"; "~"; "="; BTICK; NL; "["; "<"; BSLASH; "&"; ":";
                               "@"; "w"; "^"; DQUOTE]%char -> ceq c x = false).
    { intros x Hx. apply ceq_neq. intros ->. contradiction. }
    unfold new_active_char.
    rewrite (H "*"%char), (H "_"%char), (H "~"%char), (H "="%char), (H BTICK), (H NL),
      (H "["%char), (H "<"%char), (H BSLASH), (H "&"%char), (H ":"%char), (H "@"%char),
      (H "w"%char), (H "^"%char), (H DQUOTE) by (cbn; tauto).
    cbn [orb]. rewrite ?andb_false_r. reflexivity.
Qed.

End RenderMore.

(** ** Constructs from end to end *)

Section ParagraphMore.

Context {O : Type} {ext : Externals}.
Implicit Types (md : hoedown_markdown O) (ob : hoedown_buffer) (data : ptr).

(** A letter is none of the bytes that begin a block construct. *)
Lemma letter_not_special (c : ascii) :
  isupper c || islower c = true ->
  isalnum c = true /\ isdigit c = false
  /\ ceq c "#" = false /\ ceq c "<" = false /\ ceq c " " = false /\ ceq c NL = false
  /\ ceq c "=" = false /\ ceq c "-" = false /\ ceq c "*" = false /\ ceq c "_" = false
  /\ ceq c ">" = false /\ ceq c "+" = false.
Proof.
  intros H.
  assert (Hne : forall x, isupper x || islower x = false -> ceq c x = false).
  { intros x Hx. apply ceq_neq. intros ->. congruence. }
  split; [unfold isalnum; rewrite <- orb_assoc, H; apply orb_true_r|].
  split.
  - apply not_true_is_false. intros Hd. unfold isupper, islower, isdigit in *.
    apply orb_true_iff in H as [H|H]; tests_to_bounds; lia.
  - repeat split; apply Hne; reflexivity.
Qed.

Lemma set_work_block_back md (o : O) (n : nat) :
  set_work_block (set_opaque (set_work_block md n) o) (work_block md) = set_opaque md o.
Proof. now destruct md. Qed.

(** X28.  A line of text from end to end: a line that begins with
    a letter, holds no active byte and ends with its newline is one
    paragraph.  With the tables and the fenced code off and no
    [normal_text] callback, [parse_block] calls the [paragraph]
    callback once, with the bytes of the line without the newline, and
    returns what the callback made of the output, the pools being as
    they were. *)
Theorem plain_line_is_one_paragraph (fuel : nat) ob md (c : ascii) (rest : list ascii)
    paragraph :
  isupper c || islower c = true ->
  Forall (fun x => x <> NL /\ active_char md x = MD_CHAR_NONE) (c :: rest) ->
  ext_flags md HOEDOWN_EXT_TABLES = false ->
  ext_flags md HOEDOWN_EXT_FENCED_CODE = false ->
  cb_normal_text (rndr md) = None ->
  cb_paragraph (rndr md) = Some paragraph ->
  work_span md + work_block md < max_nesting md ->
  parse_block (S (S fuel)) ob md (buf_data ((c :: rest) ++ [NL])) (length (c :: rest) + 1)
  = Ret (fst (paragraph ob (c :: rest) (opaque md)),
         set_opaque md (snd (paragraph ob (c :: rest) (opaque md))),
         (c :: rest) ++ [NL]).
Proof.
  intros Hletter Hline Htab Hfence Hnt Hpar Hnest.
  destruct (letter_not_special c Hletter)
    as (Halnum & Hdigit & Hhash & Hlt & Hsp & Hnl & Heq & Hminus & Hstar & Hunder & Hgt & Hplus).
  set (line := c :: rest) in *. set (data := buf_data (line ++ [NL])).
  set (n := length line). set (size := n + 1).
  assert (Hn : 0 < n) by (unfold n, line; cbn; lia).
  assert (H0 : rd data 0 = c) by reflexivity.
  assert (Hbody : forall j, j < n -> rd data j <> NL /\ active_char md (rd data j) = MD_CHAR_NONE).
  { intros j Hj. unfold data. rewrite rd_buf_data, app_nth1 by exact Hj.
    rewrite Forall_forall in Hline. apply Hline, nth_In. exact Hj. }
  assert (Hlast : rd data n = NL).
  { unfold data, n. rewrite rd_buf_data, app_nth2, Nat.sub_diag by lia. reflexivity. }
  (* the line tests *)
  assert (Hempty : is_empty data size = 0).
  { apply is_empty_loop_zero. exists 0. split; [unfold size; lia|].
    split; [intros j Hj; lia|]. rewrite H0. split; now apply ceq_false. }
  assert (Hatx : is_atxheader md data size = false).
  { unfold is_atxheader. now rewrite H0, Hhash. }
  assert (Hlead : lead_spaces data = 0).
  { unfold lead_spaces. now rewrite H0, Hsp. }
  assert (Hrule : is_hrule data size = false).
  { unfold is_hrule. destruct (size <? 3); [reflexivity|]. cbv zeta.
    rewrite Hlead, H0, Hstar, Hminus, Hunder. cbn [negb andb]. now rewrite orb_true_r. }
  assert (Hup : upto3_spaces data size = 0).
  { unfold upto3_spaces. cbv zeta. rewrite H0, Hsp, andb_false_r.
    rewrite H0, Hsp, andb_false_r. now rewrite H0, Hsp, andb_false_r. }
  assert (Hquote : prefix_quote data size = 0).
  { unfold prefix_quote. cbv zeta. now rewrite Hup, H0, Hgt, andb_false_r. }
  assert (Hcode : prefix_code data size = 0).
  { unfold prefix_code. now rewrite H0, Hsp, andb_false_r. }
  assert (Huli : prefix_uli data size = 0).
  { unfold prefix_uli. cbv zeta. rewrite Hup, H0, Hstar, Hplus, Hminus.
    cbn [negb andb]. now rewrite orb_true_r. }
  assert (Holi : prefix_oli data size = 0).
  { unfold prefix_oli. cbv zeta. rewrite Hup, H0, Hdigit. cbn [negb]. now rewrite orb_true_r. }
  assert (Hhl : is_headerline data size = 0).
  { unfold is_headerline. now rewrite H0, Heq, Hminus. }
  (* the paragraph *)
  assert (Hle : line_end data size 0 = size).
  { unfold line_end. apply skip_while_all; [unfold size; lia|].
    intros j Hj. apply negb_true_iff, ceq_neq, Hbody. unfold size in Hj. lia. }
  assert (Hwork : back_while (fun s => ceq (rd data (s - 1)) NL) 0 size = n).
  { apply back_while_to; [unfold size; lia| |].
    - intros e He. replace e with (n + 1) by (unfold size in He; lia).
      replace (n + 1 - 1) with n by lia. now rewrite Hlast, ceq_refl.
    - right. apply ceq_neq, Hbody. lia. }
  assert (Hpar' : parse_paragraph (S fuel) ob md data size
                  = Ret (size, fst (paragraph ob line (opaque md)),
                         set_opaque md (snd (paragraph ob line (opaque md))))).
  { unfold parse_paragraph.
    assert (Hloop : paragraph_loop size ob md data size 0 0 = Ret (size, size, 0, ob, md)).
    { unfold size at 1. replace (n + 1) with (S n) by lia. cbn [paragraph_loop].
      replace (0 <? size) with true by (symmetry; apply Nat.ltb_lt; unfold size; lia).
      cbv zeta. rewrite padd_zero, Nat.sub_0_r, Hempty, Hhl, Hatx, Hrule, Hquote, Hle.
      cbn [Nat.eqb negb orb]. rewrite H0, Halnum. cbn [negb]. rewrite andb_false_r.
      destruct n as [|n']; [lia|]. cbn [paragraph_loop]. now rewrite Nat.ltb_irrefl. }
    rewrite Hloop. cbn [bind]. rewrite Hwork. cbn [Nat.eqb].
    unfold newbuf. cbn [work_size set_work_size].
    cbn [parse_inline].
    replace (max_nesting (set_work_block md (S (work_block md)))
             <? work_span (set_work_block md (S (work_block md)))
                + work_block (set_work_block md (S (work_block md))))
      with false by (symmetry; apply Nat.ltb_ge; cbn; lia).
    unfold parse_inline_body.
    destruct n as [|n'] eqn:En; [lia|].
    rewrite parse_inline_loop_rest; [|lia|lia|intros j Hj; apply Hbody; lia].
    unfold emit_text. cbn [rndr set_work_block]. rewrite Hnt. cbn [bind].
    rewrite padd_zero, Nat.sub_0_r. unfold hoedown_buffer_put. cbn [app].
    assert (Hbytes : bytes data (S n') = line).
    { unfold data. rewrite <- En. apply bytes_prefix. }
    rewrite Hbytes. cbn [rndr opaque set_work_block]. rewrite Hpar.
    cbn [ran fst snd].
    unfold popbuf. cbn [work_size set_opaque set_work_block work_block bind set_work_size].
    destruct md; reflexivity. }
  (* the block parser around it *)
  cbn [parse_block].
  replace (max_nesting md <? work_span md + work_block md) with false
    by (symmetry; apply Nat.ltb_ge; lia).
  unfold parse_block_body. fold line. fold n. fold size. fold data.
  unfold size at 1. replace (n + 1) with (S n) by lia. cbn [parse_block_loop].
  replace (0 <? size) with true by (symmetry; apply Nat.ltb_lt; unfold size; lia).
  cbv zeta. rewrite padd_zero, Nat.sub_0_r, Hatx, H0, Hlt. cbn [andb bind Nat.eqb negb].
  rewrite Hempty. cbn [Nat.eqb negb]. rewrite Hrule, Hfence. cbn [bind Nat.eqb negb].
  rewrite Htab. cbn [bind Nat.eqb negb].
  rewrite Hquote, Hcode, Huli, Holi. cbn [Nat.eqb negb]. rewrite andb_false_r.
  rewrite Hpar'. cbn [bind Nat.add].
  destruct n; cbn [parse_block_loop]; now rewrite Nat.ltb_irrefl.
Qed.

(** X29.  Emphasis from end to end: a text between two asterisks,
    that neither begins nor ends with a space or a newline and holds
    no active byte and no opening square bracket, goes to the
    [emphasis] callback as it is; when the callback accepts,
    [parse_inline] returns what the callback made of the output, and
    neither asterisk is emitted. *)
Theorem single_emphasis_end_to_end (fuel : nat) ob md (text : list ascii) emphasis :
  active_char md "*" = MD_CHAR_EMPHASIS ->
  0 < length text ->
  Forall (fun x => active_char md x = MD_CHAR_NONE /\ x <> "["%char) text ->
  _isspace (nth 0 text NUL) = false ->
  _isspace (nth (length text - 1) text NUL) = false ->
  cb_emphasis (rndr md) = Some emphasis ->
  cb_normal_text (rndr md) = None ->
  work_span md + work_block md < max_nesting md ->
  fst (fst (emphasis ob text (opaque md))) = true ->
  parse_inline (S (S fuel)) ob md (buf_data ("*"%char :: text ++ ["*"%char]))
               (length text + 2)
  = Ret (snd (fst (emphasis ob text (opaque md))),
         set_opaque md (snd (emphasis ob text (opaque md)))).
Proof.
  intros Hact Hn Htext Hfirst Hend Hcb Hnt Hnest Hacc.
  set (data := buf_data ("*"%char :: text ++ ["*"%char])).
  set (n := length text) in *. set (size := n + 2).
  assert (H0 : rd data 0 = "*"%char) by reflexivity.
  assert (Hin : forall j, j < n -> rd (padd data 1) j = nth j text NUL).
  { intros j Hj. unfold data. rewrite rd_padd, rd_buf_data. cbn [Nat.add nth].
    now apply app_nth1. }
  assert (Hclose : rd (padd data 1) n = "*"%char).
  { unfold data. rewrite rd_padd, rd_buf_data. cbn [Nat.add nth].
    unfold n. now rewrite app_nth2, Nat.sub_diag by lia. }
  assert (Hd1 : rd data 1 = nth 0 text NUL).
  { rewrite <- (Hin 0 Hn), rd_padd. reflexivity. }
  assert (Hbyte : forall j, j < n ->
            active_char md (nth j text NUL) = MD_CHAR_NONE /\ nth j text NUL <> "["%char
            /\ nth j text NUL <> "*"%char).
  { intros j Hj. rewrite Forall_forall in Htext.
    destruct (Htext (nth j text NUL) (nth_In _ _ Hj)) as [Ha Hb].
    split; [exact Ha|]. split; [exact Hb|]. intros E. rewrite E in Ha. congruence. }
  (* the handler *)
  assert (Hfind : find_emph_char (padd data 1) (n + 1) "*" = n).
  { apply find_emph_char_first; [lia| |exact Hclose].
    intros j Hj. rewrite (Hin j) by lia.
    destruct (Hbyte j ltac:(lia)) as (_ & Hb & Hs). auto. }
  assert (Hinner : parse_inline (S fuel) [] (set_work_span md (S (work_span md)))
                                (padd data 1) n
                   = Ret (text, set_work_span md (S (work_span md)))).
  { cbn [parse_inline].
    replace (max_nesting (set_work_span md (S (work_span md)))
             <? work_span (set_work_span md (S (work_span md)))
                + work_block (set_work_span md (S (work_span md))))
      with false by (symmetry; apply Nat.ltb_ge; cbn; lia).
    unfold parse_inline_body.
    rewrite parse_inline_loop_rest; [|lia|lia|].
    - unfold emit_text. cbn [rndr set_work_span]. rewrite Hnt.
      rewrite padd_zero, Nat.sub_0_r. unfold hoedown_buffer_put. cbn [app].
      do 2 f_equal. unfold bytes, padd, data, buf_data. cbn [idx mem Nat.add skipn].
      unfold n. rewrite firstn_app, Nat.sub_diag, firstn_all. cbn. apply app_nil_r.
    - intros j Hj. cbn [active_char set_work_span]. rewrite Hin by lia.
      now apply Hbyte. }
  assert (Hhandler : char_emphasis (parse_inline (S fuel)) ob md data 0 size
                     = Ret (size, snd (fst (emphasis ob text (opaque md))),
                            set_opaque md (snd (emphasis ob text (opaque md))))).
  { unfold char_emphasis. cbv zeta. rewrite H0.
    replace (2 <? size) with true by (symmetry; apply Nat.ltb_lt; unfold size; lia).
    change (0 <? 0) with false. cbn [andb]. rewrite andb_false_r.
    destruct (Hbyte 0 Hn) as (_ & _ & Hstar0).
    rewrite Hd1, (ceq_neq _ _ Hstar0), Hfirst. cbn [negb andb orb ceq Ascii.eqb Bool.eqb].
    unfold parse_emph1.
    replace (size - 1) with (n + 1) by (unfold size; lia).
    rewrite (Hin 0 Hn), (ceq_neq _ _ Hstar0), andb_false_r.
    cbn [andb]. replace (n + 1) with (S n) at 1 by lia. cbn [parse_emph1_loop].
    replace (0 <? n + 1) with true by (symmetry; apply Nat.ltb_lt; lia).
    rewrite padd_zero, Nat.sub_0_r, Hfind.
    replace (n =? 0) with false by (symmetry; apply Nat.eqb_neq; lia).
    cbv zeta. cbn [Nat.add].
    replace (n + 1 <=? n) with false by (symmetry; apply Nat.leb_gt; lia).
    rewrite Hclose, ceq_refl, (Hin (n - 1)) by lia. rewrite Hend. cbn [negb andb].
    replace (n + 1 <? n + 1) with false by (symmetry; apply Nat.ltb_irrefl).
    rewrite andb_false_r. cbn [andb].
    unfold newbuf. cbn [work_size set_work_size]. rewrite Hinner. cbn [bind].
    cbn [ext_flags rndr set_work_span]. rewrite andb_false_r. rewrite Hcb. cbn [call bind].
    unfold ran_int. cbn [opaque set_work_span]. unfold popbuf.
    cbn [work_size set_opaque set_work_span work_span bind set_work_size]. rewrite Hacc.
    replace (n + 1 =? 0) with false by (symmetry; apply Nat.eqb_neq; lia).
    unfold size. replace (n + 1 + 1) with (n + 2) by lia.
    destruct md; reflexivity. }
  (* the scan around it *)
  rewrite (parse_inline_first_active (S fuel) ob md data size
             (char_emphasis (parse_inline (S fuel))));
    [|unfold within_nesting; lia|unfold size; lia|now rewrite H0, Hact].
  unfold emit_text. rewrite Hnt. unfold hoedown_buffer_put. rewrite bytes_zero, app_nil_r.
  rewrite Hhandler. cbn [bind].
  replace (size =? 0) with false by (symmetry; apply Nat.eqb_neq; unfold size; lia).
  apply parse_inline_loop_done. lia.
Qed.

End ParagraphMore.

(* ================================================================== *)
(** ** Instances of the further properties on concrete inputs *)

Lemma parse_inline_returns_witness :
  match parse_inline 17 [] (tag_parser all_extensions 16) (buf_data (str "a *b* c")) 7 with
  | Ret r => kept (tag_parser all_extensions 16) (snd r)
  | Fault NullCallback => ~ callbacks_cover (tag_parser all_extensions 16)
  | Fault _ => False
  end.
Proof.
  apply (parse_inline_returns 17 [] (tag_parser all_extensions 16)
           (buf_data (str "a *b* c")) 7).
  - cbn. lia.
  - intros c. destruct (active_char (tag_parser all_extensions 16) c);
      try exact I; intros link data offset size _; reflexivity.
Defined.

Lemma parse_block_returns_witness :
  match parse_block 17 [] (tag_parser all_extensions 16)
                    (buf_data (str "# t" ++ [NL] ++ str "> q" ++ [NL])) 8 with
  | Ret r => kept (tag_parser all_extensions 16) (snd (fst r))
  | Fault NullCallback => ~ callbacks_cover (tag_parser all_extensions 16)
  | Fault _ => False
  end.
Proof.
  apply (parse_block_returns 17 [] (tag_parser all_extensions 16)
           (buf_data (str "# t" ++ [NL] ++ str "> q" ++ [NL])) 8).
  - cbn. lia.
  - intros c. destruct (active_char (tag_parser all_extensions 16) c);
      try exact I; intros link data offset size _; reflexivity.
Defined.

Lemma new_then_render_returns_witness :
  exists md,
    hoedown_markdown_new all_extensions 16 tag_renderer tt = Ret md
    /\ rewind_free md
    /\ exists ob' md',
         hoedown_markdown_render 17 [] (str "*a* [b](c)") 10 md = Ret (ob', md')
         /\ pools_empty md'.
Proof.
  apply (new_then_render_returns all_extensions 16 17 tag_renderer tt []
           (str "*a* [b](c)") 10).
  - lia.
  - lia.
  - split; [intros _; repeat split; reflexivity | intros _; reflexivity].
  - intros _. repeat split; intros link data offset size _; reflexivity.
Defined.

Lemma is_ref_moves_on_witness :
  let r := is_ref (buf_data (str "[a]: /u")) 0 7 no_refs in
  fst (fst r) = true /\ 0 < snd (fst r) <= 7.
Proof.
  cbv zeta. split; [reflexivity|].
  apply (is_ref_moves_on (buf_data (str "[a]: /u")) 0 7 no_refs true
           (snd (fst (is_ref (buf_data (str "[a]: /u")) 0 7 no_refs)))
           (snd (is_ref (buf_data (str "[a]: /u")) 0 7 no_refs))).
  reflexivity.
Defined.

Lemma is_footnote_moves_on_witness :
  let r := is_footnote (buf_data (str "[^a]: x")) 0 7 [] in
  0 < snd (fst r) <= 7
  /\ exists ref, snd r = [] ++ [ref] /\ is_used ref = false /\ num ref = 0.
Proof.
  cbv zeta.
  apply (is_footnote_moves_on (buf_data (str "[^a]: x")) 0 7 [] true
           (snd (fst (is_footnote (buf_data (str "[^a]: x")) 0 7 [])))
           (snd (is_footnote (buf_data (str "[^a]: x")) 0 7 []))).
  reflexivity.
Defined.

Lemma first_pass_text_is_plain_witness :
  exists added md',
    first_pass 5 (tag_parser all_extensions 16) []
               (buf_data (str "a" ++ [TAB] ++ str "b" ++ [CR; NL])) 5 0
    = Ret ([] ++ added, md')
    /\ Forall plain added.
Proof.
  apply (first_pass_text_is_plain 5 (tag_parser all_extensions 16) []
           (buf_data (str "a" ++ [TAB] ++ str "b" ++ [CR; NL])) 5 0).
  lia.
Defined.

Lemma expand_tabs_tab_stop_witness :
  expand_tabs [] (buf_data (str "ab" ++ [TAB])) (length (str "ab") + 1)
  = [] ++ str "ab" ++ repeat " "%char (4 - length (str "ab") mod 4).
Proof.
  apply (expand_tabs_tab_stop [] (str "ab")).
  repeat (constructor; [discriminate|]). constructor.
Defined.

Lemma is_ref_defines_id_witness :
  let refs'' := snd (is_ref (buf_data (str "[a]: /u")) 0 7 no_refs) in
  exists (i k : nat) (r : link_ref),
    0 < i /\ i + k < 7
    /\ rd (buf_data (str "[a]: /u")) (i - 1) = "["%char
    /\ rd (buf_data (str "[a]: /u")) (i + k) = "]"%char
    /\ (forall j, j < k -> is_eol (rd (buf_data (str "[a]: /u")) (i + j)) = false)
    /\ find_link_ref refs'' (padd (buf_data (str "[a]: /u")) i) k = Some r
    /\ ref_link r <> None
    /\ (forall q qn,
          hash_link_ref q qn <> hash_link_ref (padd (buf_data (str "[a]: /u")) i) k ->
          find_link_ref refs'' q qn = find_link_ref no_refs q qn)
    /\ (refs_wf no_refs -> refs_wf refs'').
Proof.
  cbv zeta.
  apply (is_ref_defines_id (buf_data (str "[a]: /u")) 0 7 no_refs
           (snd (fst (is_ref (buf_data (str "[a]: /u")) 0 7 no_refs)))
           (snd (is_ref (buf_data (str "[a]: /u")) 0 7 no_refs))).
  reflexivity.
Defined.

Lemma first_pass_keeps_tables_witness :
  let md := tag_parser all_extensions 16 in
  let x := match first_pass 7 md [] (buf_data (str "[a]: /u")) 7 0 with
           | Ret x => x
           | Fault _ => ([], md)
           end in
  refs_wf (refs (snd x)) /\ footnotes_used (snd x) = [].
Proof.
  cbv zeta.
  destruct (first_pass_keeps_tables 7 (tag_parser all_extensions 16) []
              (buf_data (str "[a]: /u")) 7 0
              (fst (match first_pass 7 (tag_parser all_extensions 16) []
                            (buf_data (str "[a]: /u")) 7 0 with
                    | Ret x => x
                    | Fault _ => ([], tag_parser all_extensions 16)
                    end))
              (snd (match first_pass 7 (tag_parser all_extensions 16) []
                            (buf_data (str "[a]: /u")) 7 0 with
                    | Ret x => x
                    | Fault _ => ([], tag_parser all_extensions 16)
                    end)))
    as (Hwf & _ & Hused).
  - reflexivity.
  - split; [apply Hwf, no_refs_wf | exact Hused].
Defined.

Lemma unscape_text_drops_backslashes_witness :
  unscape_text [] (str "ab") = [] ++ str "ab"
  /\ unscape_text [] (str "ab" ++ [BSLASH]) = [] ++ str "ab"
  /\ forall c rest,
       unscape_text [] (str "ab" ++ BSLASH :: c :: rest)
       = unscape_text ([] ++ str "ab" ++ [c]) rest.
Proof.
  apply (unscape_text_drops_backslashes [] (str "ab")).
  repeat (constructor; [discriminate|]). constructor.
Defined.

Lemma is_mail_autolink_one_at_witness :
  3 < 4 /\ rd (buf_data (str "a@b>")) 3 = ">"%char
  /\ (forall j, j < 3 -> mail_byte (rd (buf_data (str "a@b>")) j) = true)
  /\ exists k, k < 3 /\ rd (buf_data (str "a@b>")) k = "@"%char
               /\ forall j, j < 3 -> j <> k -> rd (buf_data (str "a@b>")) j <> "@"%char.
Proof.
  apply (is_mail_autolink_one_at (buf_data (str "a@b>")) 4 3). reflexivity.
Defined.

Lemma tag_length_closes_witness :
  3 <= 3
  /\ (3 <> 0 -> 3 <= 3 /\ rd (buf_data (str "<a>")) 0 = "<"%char
                /\ rd (buf_data (str "<a>")) (3 - 1) = ">"%char)
  /\ (3 < 3 -> 3 = 0).
Proof.
  apply (tag_length_closes (buf_data (str "<a>")) 3 HOEDOWN_AUTOLINK_NONE 3
           HOEDOWN_AUTOLINK_NONE).
  reflexivity.
Defined.

Lemma use_footnote_numbers_in_order_witness :
  let md := set_footnotes (tag_parser all_extensions 16) [mk_footnote_ref 5 false 0 []] [] in
  numbered (footnotes_found (use_footnote md 0)) (footnotes_used (use_footnote md 0))
  /\ footnotes_used (use_footnote md 0) = [0]
  /\ num (nth 0 (footnotes_found (use_footnote md 0)) no_footnote) = 1.
Proof.
  cbv zeta.
  destruct (use_footnote_numbers_in_order
              (set_footnotes (tag_parser all_extensions 16)
                 [mk_footnote_ref 5 false 0 []] []) 0)
    as (Hnum & _ & _ & Hfirst).
  - cbn. lia.
  - split.
    + intros i Hi. cbn in Hi. lia.
    + intros k Hk Hu. destruct k as [|k]; [discriminate | cbn in Hk; lia].
  - destruct (Hfirst eq_refl) as [Hused Hn]. split; [exact Hnum|]. split; assumption.
Defined.

Lemma blank_document_renders_nothing_witness :
  hoedown_markdown_render 1 [] (str "  " ++ [NL]) 3 (tag_parser all_extensions 16)
  = Ret ([], set_footnotes (set_refs (tag_parser all_extensions 16) no_refs) [] []).
Proof.
  apply (blank_document_renders_nothing 1 [] (str "  " ++ [NL]) 3
           (tag_parser all_extensions 16)).
  - lia.
  - split; reflexivity.
  - intros j Hj.
    destruct j as [|[|[|j]]]; [left; reflexivity | left; reflexivity | right; reflexivity | lia].
Defined.

Lemma is_hrule_three_marks_witness :
  exists (i e : nat) (c : ascii) (marks : list nat),
    i <= 3 /\ i < e <= 5
    /\ (forall j, j < i -> rd (buf_data (str " * **")) j = " "%char)
    /\ (c = "*"%char \/ c = "-"%char \/ c = "_"%char)
    /\ rd (buf_data (str " * **")) i = c
    /\ (forall j, i <= j < e ->
          rd (buf_data (str " * **")) j = c \/ rd (buf_data (str " * **")) j = " "%char)
    /\ (e < 5 -> rd (buf_data (str " * **")) e = NL)
    /\ 3 <= length marks /\ NoDup marks
    /\ Forall (fun j => i <= j < e /\ rd (buf_data (str " * **")) j = c) marks.
Proof.
  apply (is_hrule_three_marks (buf_data (str " * **")) 5). reflexivity.
Defined.

Lemma is_headerline_underline_witness :
  1 <= 2
  /\ (1 <> 0 ->
      exists (c : ascii) (a b : nat),
        ((1 = 1 /\ c = "="%char) \/ (1 = 2 /\ c = "-"%char))
        /\ 1 <= a <= b
        /\ (forall j, j < a -> rd (buf_data (str "== ")) j = c)
        /\ (forall j, a <= j < b -> rd (buf_data (str "== ")) j = " "%char)
        /\ (3 <= b \/ rd (buf_data (str "== ")) b = NL)).
Proof.
  apply (is_headerline_underline (buf_data (str "== ")) 3 1). reflexivity.
Defined.

Lemma empty_atxheader_renders_nothing_witness :
  parse_atxheader 0 [] (tag_parser all_extensions 16) (buf_data (str "## " ++ [NL])) 4
  = Ret (2 + 1, [], tag_parser all_extensions 16).
Proof.
  apply (empty_atxheader_renders_nothing 0 [] (tag_parser all_extensions 16)
           (buf_data (str "## " ++ [NL])) 4 2 1).
  - lia.
  - lia.
  - intros j Hj. destruct j as [|[|j]]; [reflexivity | reflexivity | lia].
  - intros j Hj. replace j with 2 by lia. reflexivity.
  - reflexivity.
Defined.

Lemma plain_line_is_one_paragraph_witness :
  parse_block 2 [] (tag_parser no_extensions 16) (buf_data (str "hi" ++ [NL])) 3
  = Ret (str "<p>hi</p>", tag_parser no_extensions 16, str "hi" ++ [NL]).
Proof.
  apply (plain_line_is_one_paragraph 0 [] (tag_parser no_extensions 16) "h"%char (str "i")
           (block_cb "p")).
  - reflexivity.
  - repeat (constructor; [split; [discriminate | reflexivity]|]). constructor.
  - reflexivity.
  - reflexivity.
  - reflexivity.
  - reflexivity.
  - cbn. lia.
Defined.

Lemma single_emphasis_end_to_end_witness :
  parse_inline 2 [] (tag_parser no_extensions 16) (buf_data (str "*b*")) 3
  = Ret (str "<em>b</em>", tag_parser no_extensions 16).
Proof.
  apply (single_emphasis_end_to_end 0 [] (tag_parser no_extensions 16) (str "b")
           (span_cb "em")).
  - reflexivity.
  - cbn. lia.
  - repeat (constructor; [split; [reflexivity | discriminate]|]). constructor.
  - reflexivity.
  - reflexivity.
  - reflexivity.
  - reflexivity.
  - cbn. lia.
  - reflexivity.
Defined.
